(** * BML: parser, tree model and serializer of josegonzalez/bml

    A shallow embedding of [bml.go] and the properties of its parser
    ([Parse], [normalizeLines], [parseNode], [parseValue]), of the path
    API on nodes ([Get], [Set], [Remove], [String], [Bool], [Int],
    [Float]) and of the serializer ([Serialize], [serializeNode]).

    Go strings are byte sequences: they are modelled as [list ascii].
    A [*Node] that may be nil is an [option Node]; the tree owned by a node
    is an inductive value, and the in-place mutations of [Set] and
    [Remove] return the updated tree. *)

From Stdlib Require Import String Ascii List ZArith NArith Lia Bool Arith.
Import ListNotations.

Local Open Scope list_scope.
Local Open Scope char_scope.
Local Open Scope nat_scope.

(** ** Go strings *)

Definition gostring := list ascii.

(** A string literal. *)
Definition lit (s : string) : gostring := list_ascii_of_string s.

Definition LF : ascii := "010".
Definition CR : ascii := "013".
Definition TAB : ascii := "009".
Definition QUOTE : ascii := "034".

Definition byte_eqb (a b : ascii) : bool := Ascii.eqb a b.
Arguments byte_eqb : simpl never.

Fixpoint gostring_eqb (a b : gostring) : bool :=
  match a, b with
  | [], [] => true
  | x :: a', y :: b' => byte_eqb x y && gostring_eqb a' b'
  | _, _ => false
  end.

Definition isEmpty (s : gostring) : bool :=
  match s with [] => true | _ => false end.

(** [s[a:b]] *)
Definition slice (s : gostring) (a b : nat) : gostring :=
  firstn (b - a) (skipn a s).

(** Number of leading bytes of [s] that satisfy [p]. *)
Fixpoint span (p : ascii -> bool) (s : gostring) : nat :=
  match s with
  | c :: t => if p c then S (span p t) else 0
  | [] => 0
  end.

(** The loop [for pos < len(line) && p(line[pos]) { pos++ }]. *)
Definition scanWhile (p : ascii -> bool) (line : gostring) (pos : nat) : nat :=
  pos + span p (skipn pos line).

(** ** The functions of Go's [strings] and [strconv] that the package calls *)

(** [strings.HasPrefix] *)
Fixpoint HasPrefix (s prefix : gostring) {struct prefix} : bool :=
  match prefix, s with
  | [], _ => true
  | p :: prefix', c :: s' => byte_eqb c p && HasPrefix s' prefix'
  | _ :: _, [] => false
  end.

(** [strings.TrimPrefix] *)
Definition TrimPrefix (s prefix : gostring) : gostring :=
  if HasPrefix s prefix then skipn (length prefix) s else s.

(** [strings.Contains(s, string(c))] for a one-byte substring. *)
Definition ContainsByte (s : gostring) (c : ascii) : bool :=
  existsb (byte_eqb c) s.

(** [strings.TrimLeft(s, cutset)] for a cutset of ASCII bytes. *)
Fixpoint TrimLeft (s cutset : gostring) : gostring :=
  match s with
  | c :: t => if ContainsByte cutset c then TrimLeft t cutset else s
  | [] => []
  end.

(** [strings.TrimRight(s, cutset)] for a cutset of ASCII bytes. *)
Definition TrimRight (s cutset : gostring) : gostring :=
  rev (TrimLeft (rev s) cutset).

(** [strings.ReplaceAll(s, old, new)] for a non-empty [old]: the
    non-overlapping occurrences of [old] are replaced from left to right.
    [skip] counts the bytes of a matched occurrence still to be dropped. *)
Fixpoint replaceFrom (skip : nat) (s old new : gostring) : gostring :=
  match s with
  | [] => []
  | c :: t =>
      match skip with
      | S k => replaceFrom k t old new
      | O =>
          if HasPrefix s old
          then new ++ replaceFrom (length old - 1) t old new
          else c :: replaceFrom 0 t old new
      end
  end.

Definition ReplaceAll (s old new : gostring) : gostring :=
  replaceFrom 0 s old new.

(** [strings.Split(s, string(sep))] for a one-byte separator: the pieces
    between the separators, at least one piece. *)
Fixpoint Split (s : gostring) (sep : ascii) : list gostring :=
  match s with
  | [] => [[]]
  | c :: t =>
      if byte_eqb c sep then [] :: Split t sep
      else match Split t sep with
           | piece :: pieces => (c :: piece) :: pieces
           | [] => [[c]]
           end
  end.

(** White space as [unicode.IsSpace] sees it on UTF-8 text.  The ASCII
    ones are one byte; the others are U+0085, U+00A0 (two bytes), U+1680,
    U+2000..U+200A, U+2028, U+2029, U+202F, U+205F and U+3000 (three
    bytes).  A byte sequence that is not valid UTF-8 decodes to U+FFFD,
    which is no white space. *)
Definition asciiSpace (c : ascii) : bool :=
  let n := N_of_ascii c in
  ((9 <=? n) && (n <=? 13) || (n =? 32))%N.

Definition space2 (c d : ascii) : bool :=
  let n := N_of_ascii c in
  let m := N_of_ascii d in
  ((n =? 194) && ((m =? 133) || (m =? 160)))%N.

Definition space3 (c d e : ascii) : bool :=
  let n := N_of_ascii c in
  let m := N_of_ascii d in
  let k := N_of_ascii e in
  ((n =? 225) && (m =? 154) && (k =? 128)
   || (n =? 226) && (m =? 128)
      && ((128 <=? k) && (k <=? 138) || (k =? 168) || (k =? 169) || (k =? 175))
   || (n =? 226) && (m =? 129) && (k =? 159)
   || (n =? 227) && (m =? 128) && (k =? 128))%N.

(** [strings.TrimLeftFunc(s, unicode.IsSpace)] *)
Fixpoint trimLeftSpace (s : gostring) : gostring :=
  match s with
  | [] => []
  | c :: t =>
      if asciiSpace c then trimLeftSpace t
      else match t with
           | d :: t' =>
               if space2 c d then trimLeftSpace t'
               else match t' with
                    | e :: t'' => if space3 c d e then trimLeftSpace t'' else s
                    | [] => s
                    end
           | [] => s
           end
  end.

(** The same on the reversed string, where a rune shows its last byte
    first: this is how [strings.TrimRightFunc] walks, one
    [DecodeLastRuneInString] at a time. *)
Fixpoint trimRevSpace (s : gostring) : gostring :=
  match s with
  | [] => []
  | c :: t =>
      if asciiSpace c then trimRevSpace t
      else match t with
           | d :: t' =>
               if space2 d c then trimRevSpace t'
               else match t' with
                    | e :: t'' => if space3 e d c then trimRevSpace t'' else s
                    | [] => s
                    end
           | [] => s
           end
  end.

(** [strings.TrimSpace] *)
Definition TrimSpace (s : gostring) : gostring :=
  rev (trimRevSpace (rev (trimLeftSpace s))).

(** [strconv.Atoi] with a 64-bit [int]: an optional sign, then one or more
    decimal digits, and the value has to fit. *)
Definition digitVal (c : ascii) : option Z :=
  let n := N_of_ascii c in
  if ((48 <=? n) && (n <=? 57))%N then Some (Z.of_N n - 48)%Z else None.

Fixpoint parseDigits (acc : Z) (s : gostring) : option Z :=
  match s with
  | [] => Some acc
  | c :: t =>
      match digitVal c with
      | Some d => parseDigits (10 * acc + d)%Z t
      | None => None
      end
  end.

Definition minInt : Z := (- 2 ^ 63)%Z.
Definition maxInt : Z := (2 ^ 63 - 1)%Z.

Definition Atoi (s : gostring) : option Z :=
  let '(neg, digits) :=
    match s with
    | c :: t =>
        if byte_eqb c "-" then (true, t)
        else if byte_eqb c "+" then (false, t)
        else (false, s)
    | [] => (false, s)
    end in
  match digits with
  | [] => None
  | _ =>
      match parseDigits 0 digits with
      | Some n =>
          let v := if neg then (- n)%Z else n in
          if ((minInt <=? v) && (v <=? maxInt))%Z then Some v else None
      | None => None
      end
  end.

(** ** Data model

    [Children] holds nodes, not pointers that may be nil: neither the
    parser nor [Set] ever puts a nil child into a tree. *)

Unset Elimination Schemes.
Inductive Node : Type :=
  mkNode { Name : gostring; Value : gostring; Children : list Node }.
Set Elimination Schemes.

Record Document : Type := mkDocument { Root : option Node }.

Definition emptyNode : Node := mkNode [] [] [].

Definition withValue (n : Node) (v : gostring) : Node :=
  mkNode (Name n) v (Children n).

Definition withChildren (n : Node) (cs : list Node) : Node :=
  mkNode (Name n) (Value n) cs.

(** [n.Children = append(n.Children, c)] *)
Definition appendChild (n : Node) (c : Node) : Node :=
  withChildren n (Children n ++ [c]).

(** ** Errors and results *)

(** The four errors of the parser; the last three carry the offending
    line, as the messages built by [fmt.Errorf] do. *)
Inductive error : Type :=
| UnexpectedEndOfInput
| InvalidIndentation (line : gostring)
| InvalidNodeName (line : gostring)
| UnclosedQuote (line : gostring).

(** The result of a function that returns [(value, error)].  [OutOfFuel]
    belongs to the model only: the recursive functions below take a bound
    on the depth of their recursion, and [Parse_total] shows that the
    bound [Parse] passes is never reached. *)
Inductive result (A : Type) : Type :=
| Ok (a : A)
| Err (e : error)
| OutOfFuel.

Arguments Ok {A} a.
Arguments Err {A} e.
Arguments OutOfFuel {A}.

Definition bind {A B : Type} (r : result A) (k : A -> result B) : result B :=
  match r with
  | Ok a => k a
  | Err e => Err e
  | OutOfFuel => OutOfFuel
  end.

Notation "'do' x <- r ; k" := (bind r (fun x => k))
  (at level 10, x pattern, r at level 100, k at level 200).

(** ** The parser *)

(** The loop of [parseValue] that looks for an inline comment:
    [for end < len(line) { if end+1 < len(line) && line[end:end+2] == "//"
    { break }; end++ }], on the bytes from [end] on. *)
Fixpoint commentOffset (s : gostring) : nat :=
  match s with
  | [] => 0
  | c :: t =>
      if HasPrefix s ["/"; "/"] then 0 else S (commentOffset t)
  end.

Definition scanComment (line : gostring) (pos : nat) : nat :=
  pos + commentOffset (skipn pos line).

(** [readDepth]: the number of leading tabs and spaces. *)
Definition isIndent (c : ascii) : bool :=
  byte_eqb c TAB || byte_eqb c " ".

Definition readDepth (line : gostring) : nat := span isIndent line.

(** [isValidNameChar] *)
Definition isValidNameChar (c : ascii) : bool :=
  let n := N_of_ascii c in
  ((65 <=? n) && (n <=? 90)
   || (97 <=? n) && (n <=? 122)
   || (48 <=? n) && (n <=? 57)
   || (n =? 45) || (n =? 46))%N.

(** [normalizeLines] *)
Definition isBlank (line : gostring) : bool := isEmpty (TrimSpace line).

Definition isCommentLine (line : gostring) : bool :=
  HasPrefix (skipn (readDepth line) line) (lit "//").

Definition keepLine (line : gostring) : bool :=
  negb (isBlank line) && negb (isCommentLine line).

Definition normalizeLines (input : gostring) : list gostring :=
  let input := ReplaceAll input [CR; LF] [LF] in
  let input := ReplaceAll input [CR] [LF] in
  let rawLines := Split input LF in
  filter keepLine rawLines.

(** [parseValue] *)
Definition parseValue (line : gostring) (pos : nat) : result (gostring * nat) :=
  match nth_error line pos with
  | None => Ok ([], pos)
  | Some c =>
      if byte_eqb c ":" then
        let pos := S pos in
        let pos :=
          match nth_error line pos with
          | Some c' => if byte_eqb c' " " then S pos else pos
          | None => pos
          end in
        let end_ := scanComment line pos in
        Ok (TrimRight (slice line pos end_) [" "], end_)
      else if byte_eqb c "=" then
        let pos := S pos in
        match nth_error line pos with
        | None => Ok ([], pos)
        | Some q =>
            if byte_eqb q QUOTE then
              let pos := S pos in
              let end_ := scanWhile (fun c => negb (byte_eqb c QUOTE)) line pos in
              if length line <=? end_ then Err (UnclosedQuote line)
              else Ok (slice line pos end_, S end_)
            else
              let end_ :=
                scanWhile
                  (fun c => negb (byte_eqb c " ") && negb (byte_eqb c QUOTE))
                  line pos in
              Ok (slice line pos end_, end_)
        end
      else Ok ([], pos)
  end.

(** The attribute loop of [parseNode] (the [for pos < len(line)] loop that
    appends one child per [name[value]] on the node's own line).  Every
    turn that does not leave the loop moves [pos] forward, so the loop
    turns at most [len(line)] times. *)
Fixpoint parseAttrs (fuel : nat) (line : gostring) (pos : nat)
    (children : list Node) : result (list Node) :=
  match fuel with
  | O => OutOfFuel
  | S fuel =>
      if length line <=? pos then Ok children else
      let pos := scanWhile (fun c => byte_eqb c " ") line pos in
      if length line <=? pos then Ok children else
      if (S pos <? length line)
         && gostring_eqb (slice line pos (pos + 2)) ["/"; "/"]
      then Ok children else
      let attrStart := pos in
      let pos := scanWhile isValidNameChar line pos in
      if pos =? attrStart then Ok children else
      let attrName := slice line attrStart pos in
      do (attrValue, pos) <-
         (if pos <? length line then parseValue line pos else Ok ([], pos));
      parseAttrs fuel line pos (children ++ [mkNode attrName attrValue []])
  end.

(** The part of [parseNode] that reads the node's own line, from the name
    scan to the end of the attribute loop; [depth] is [readDepth line]. *)
Definition parseHead (line : gostring) (depth : nat) : result Node :=
  let pos := depth in
  let nameStart := pos in
  let pos := scanWhile isValidNameChar line pos in
  if pos =? nameStart then Err (InvalidNodeName line) else
  let name := slice line nameStart pos in
  do (value, pos) <-
     (if pos <? length line then parseValue line pos else Ok ([], pos));
  do children <- parseAttrs (S (length line)) line pos [];
  Ok (mkNode name value children).

(** The value of a node after a continuation line. *)
Definition appendContinuation (value continuation : gostring) : gostring :=
  (if isEmpty value then value else value ++ [LF]) ++ continuation.

(** [parseNode], with [parseChildren] for its last loop (the child
    consumption loop).  [index] is the cursor [*index] into [lines]; both
    return the cursor they leave. *)
Fixpoint parseNode (fuel : nat) (lines : list gostring) (index : nat)
    (parentDepth : Z) : result (Node * nat) :=
  match fuel with
  | O => OutOfFuel
  | S fuel =>
      match nth_error lines index with
      | None => Err UnexpectedEndOfInput
      | Some line =>
          let index := S index in
          let depth := readDepth line in
          if (Z.of_nat depth <=? parentDepth)%Z && (0 <=? parentDepth)%Z
          then Err (InvalidIndentation line) else
          do node <- parseHead line depth;
          parseChildren fuel lines index depth node
      end
  end

with parseChildren (fuel : nat) (lines : list gostring) (index : nat)
    (depth : nat) (node : Node) : result (Node * nat) :=
  match fuel with
  | O => OutOfFuel
  | S fuel =>
      match nth_error lines index with
      | None => Ok (node, index)
      | Some next =>
          let childDepth := readDepth next in
          if childDepth <=? depth then Ok (node, index) else
          let rest := TrimLeft next [" "; TAB] in
          if HasPrefix rest [":"] then
            let continuation := TrimPrefix rest [":"] in
            let continuation := TrimPrefix continuation [" "] in
            parseChildren fuel lines (S index) depth
              (withValue node (appendContinuation (Value node) continuation))
          else
            do (child, index) <- parseNode fuel lines index (Z.of_nat depth);
            parseChildren fuel lines index depth (appendChild node child)
      end
  end.

(** The loop of [Parse] over the top-level nodes. *)
Fixpoint parseTop (fuel : nat) (lines : list gostring) (index : nat)
    (root : Node) : result Node :=
  match fuel with
  | O => OutOfFuel
  | S fuel =>
      if index <? length lines then
        do (node, index) <- parseNode fuel lines index (-1)%Z;
        parseTop fuel lines index (appendChild root node)
      else Ok root
  end.

(** [Parse] *)
Definition Parse (data : gostring) : result Document :=
  let lines := normalizeLines data in
  if length lines =? 0 then Ok (mkDocument (Some emptyNode)) else
  do root <- parseTop (2 * length lines + 1) lines 0 emptyNode;
  Ok (mkDocument (Some root)).

(** ** The path API *)

(** The first child of [children] named [part], with its position. *)
Fixpoint findChild (children : list Node) (part : gostring)
    : option (nat * Node) :=
  match children with
  | [] => None
  | child :: rest =>
      if gostring_eqb (Name child) part then Some (0, child)
      else match findChild rest part with
           | Some (i, found) => Some (S i, found)
           | None => None
           end
  end.

(** The loop of [Get] over the parts of the path. *)
Fixpoint getParts (parts : list gostring) (current : Node) : option Node :=
  match parts with
  | [] => Some current
  | part :: parts' =>
      if isEmpty part then getParts parts' current
      else match findChild (Children current) part with
           | Some (_, child) => getParts parts' child
           | None => None
           end
  end.

(** [Get] *)
Definition Get (n : option Node) (path : gostring) : option Node :=
  match n with
  | None => None
  | Some n => getParts (Split path "/") n
  end.

(** [children[i] = c] *)
Fixpoint replaceAt (children : list Node) (i : nat) (c : Node) : list Node :=
  match children, i with
  | [], _ => []
  | _ :: rest, O => c :: rest
  | x :: rest, S i' => x :: replaceAt rest i' c
  end.

(** A pointer to a node inside a tree: the indices of the children to
    go through from the root of the tree. *)
Definition position := list nat.

Fixpoint nodeAt (n : Node) (pos : position) : option Node :=
  match pos with
  | [] => Some n
  | k :: pos' =>
      match nth_error (Children n) k with
      | Some child => nodeAt child pos'
      | None => None
      end
  end.

(** The inner loop of [Set] and the [if found == nil] after it: the
    first child named [part], or a new node of that name appended to the
    children.  Returns its index, the node, and the children with it. *)
Definition foundOrNew (current : Node) (part : gostring)
    : nat * Node * list Node :=
  match findChild (Children current) part with
  | Some (k, found) => (k, found, Children current)
  | None =>
      (length (Children current), mkNode part [] [],
       Children current ++ [mkNode part [] []])
  end.

(** The loop of [Set]: [i] is the index of the first of [parts] among all
    the parts of the path and [len] their number.  Returns the tree under
    [current] after the call and where in it the node is that [Set]
    returns. *)
Fixpoint setParts (parts : list gostring) (i len : nat) (value : gostring)
    (current : Node) : Node * position :=
  match parts with
  | [] => (current, [])
  | part :: parts' =>
      if isEmpty part then setParts parts' (S i) len value current
      else
        let '(k, found, children) := foundOrNew current part in
        if i =? len - 1 then
          let found := withValue found value in
          (withChildren current (replaceAt children k found), [k])
        else
          let '(found, returned) := setParts parts' (S i) len value found in
          (withChildren current (replaceAt children k found), k :: returned)
  end.

(** [Set]: the receiver after the call and the position in it of the
    returned node; [None] is the nil that [Set] returns on a nil
    receiver. *)
Definition Set_ (n : option Node) (path value : gostring)
    : option (Node * position) :=
  match n with
  | None => None
  | Some n =>
      let parts := Split path "/" in
      Some (setParts parts 0 (length parts) value n)
  end.

(** [append(children[:i], children[i+1:]...)] *)
Definition removeAt (children : list Node) (i : nat) : list Node :=
  firstn i children ++ skipn (S i) children.

(** [Remove]'s two loops: the walk over all the parts but the last, and
    the removal of the first child named as the last part. *)
Fixpoint removeParts (parts : list gostring) (current : Node) : Node * bool :=
  match parts with
  | [] => (current, false)
  | [targetName] =>
      match findChild (Children current) targetName with
      | Some (i, _) => (withChildren current (removeAt (Children current) i), true)
      | None => (current, false)
      end
  | part :: parts' =>
      if isEmpty part then removeParts parts' current
      else match findChild (Children current) part with
           | Some (k, child) =>
               let '(child, removed) := removeParts parts' child in
               (withChildren current (replaceAt (Children current) k child),
                removed)
           | None => (current, false)
           end
  end.

(** [Remove]: the receiver after the call and the returned flag. *)
Definition Remove (n : option Node) (path : gostring) : option Node * bool :=
  match n with
  | None => (None, false)
  | Some n =>
      let '(n, removed) := removeParts (Split path "/") n in
      (Some n, removed)
  end.

(** [String], [Bool], [Int]: the typed accessors on a node that may be
    nil. *)
Definition String_ (n : option Node) (fallback : gostring) : gostring :=
  match n with
  | None => fallback
  | Some n => TrimSpace (Value n)
  end.

Definition Bool_ (n : option Node) (fallback : bool) : bool :=
  match n with
  | None => fallback
  | Some n =>
      let v := TrimSpace (Value n) in
      if gostring_eqb v (lit "true") then true
      else if gostring_eqb v (lit "false") then false
      else fallback
  end.

Definition Int_ (n : option Node) (fallback : Z) : Z :=
  match n with
  | None => fallback
  | Some n =>
      let v := TrimSpace (Value n) in
      match Atoi v with
      | Some i => i
      | None => fallback
      end
  end.

(** [Float]: [float64] and [strconv.ParseFloat] are taken as they come;
    [None] stands for a non-nil error. *)
Section FloatAccessor.
Variable float64 : Type.
Variable ParseFloat : gostring -> option float64.

Definition Float_ (n : option Node) (fallback : float64) : float64 :=
  match n with
  | None => fallback
  | Some n =>
      let v := TrimSpace (Value n) in
      match ParseFloat v with
      | Some f => f
      | None => fallback
      end
  end.
End FloatAccessor.

(** ** The serializer *)

Definition indentation (depth : nat) : gostring := repeat " " (depth * 2).

(** [serializeNode]: the bytes it writes to the buffer. *)
Fixpoint serializeNode (node : Node) (depth : nat) : gostring :=
  match node with
  | mkNode name value children =>
      indentation depth ++ name
      ++ (if negb (isEmpty value) then
            if ContainsByte value LF then
              [LF]
              ++ flat_map
                   (fun line => indentation (depth + 1) ++ [":"; " "] ++ line ++ [LF])
                   (Split value LF)
            else [":"; " "] ++ value ++ [LF]
          else [LF])
      ++ flat_map (fun child => serializeNode child (depth + 1)) children
  end.

(** [Serialize] *)
Definition Serialize (doc : option Document) : gostring :=
  match doc with
  | None => []
  | Some doc =>
      match Root doc with
      | None => []
      | Some root => flat_map (fun child => serializeNode child 0) (Children root)
      end
  end.

(** ** Predicates used in the statements *)

(** [span p] on a run of bytes that satisfy [p], followed by a byte that
    does not or by nothing. *)
Definition stopsAt (p : ascii -> bool) (s : gostring) : Prop :=
  match s with
  | [] => True
  | c :: _ => p c = false
  end.

(** The errors [parseNode] can return when it is called as [Parse] and
    the child loop call it: on a line that exists and, under a parent,
    is indented deeper than the parent. *)
Definition calledInLoop (lines : list gostring) (index : nat) (pd : Z) : Prop :=
  exists line,
    nth_error lines index = Some line
    /\ (pd = (-1)%Z \/ (pd < Z.of_nat (readDepth line))%Z).

Definition lineError (lines : list gostring) (e : error) : Prop :=
  exists line,
    In line lines /\ (e = InvalidNodeName line \/ e = UnclosedQuote line).

(** A continuation without the one space that may follow its colon. *)
Definition stripOneSpace (rest : gostring) : gostring :=
  match rest with
  | c :: rest' => if byte_eqb c " " then rest' else rest
  | [] => []
  end.

(** ** Paths as sequences of segments

    What the spec says of the path API: a path stands for the sequence of
    its non-empty parts.  [getSegments], [setSegments] and
    [removeSegments] follow these words, to be compared with [Get],
    [Set_] and [Remove]. *)

Definition nonEmpty (part : gostring) : bool := negb (isEmpty part).

Definition segments (path : gostring) : list gostring :=
  filter nonEmpty (Split path "/").

(** The text after the last slash. *)
Definition lastPart (path : gostring) : gostring := last (Split path "/") [].

Fixpoint getSegments (segs : list gostring) (current : Node) : option Node :=
  match segs with
  | [] => Some current
  | seg :: segs' =>
      match findChild (Children current) seg with
      | Some (_, child) => getSegments segs' child
      | None => None
      end
  end.

(** Walks and creates the segments; the value goes to the last one. *)
Fixpoint setSegments (segs : list gostring) (value : gostring)
    (current : Node) : Node * position :=
  match segs with
  | [] => (current, [])
  | seg :: segs' =>
      let '(k, found, children) := foundOrNew current seg in
      match segs' with
      | [] => (withChildren current (replaceAt children k (withValue found value)),
               [k])
      | _ :: _ =>
          let '(found, returned) := setSegments segs' value found in
          (withChildren current (replaceAt children k found), k :: returned)
      end
  end.

(** Walks to the parent of the last segment and removes the first child
    named as the last segment. *)
Fixpoint removeSegments (segs : list gostring) (current : Node) : Node * bool :=
  match segs with
  | [] => (current, false)
  | [target] =>
      match findChild (Children current) target with
      | Some (i, _) => (withChildren current (removeAt (Children current) i), true)
      | None => (current, false)
      end
  | seg :: segs' =>
      match findChild (Children current) seg with
      | Some (k, child) =>
          let '(child, removed) := removeSegments segs' child in
          (withChildren current (replaceAt (Children current) k child), removed)
      | None => (current, false)
      end
  end.

(** The number of segments of a path that the tree does not have yet:
    all those from the first one that names no child. *)
Fixpoint missingSegments (segs : list gostring) (current : Node) : nat :=
  match segs with
  | [] => 0
  | seg :: segs' =>
      match findChild (Children current) seg with
      | Some (_, child) => missingSegments segs' child
      | None => length segs
      end
  end.

(** The number of nodes of a tree. *)
Fixpoint countNodes (n : Node) : nat :=
  match n with
  | mkNode _ _ children => S (list_sum (map countNodes children))
  end.

(** Induction on trees. *)
Definition Node_tree_ind (P : Node -> Prop)
    (step : forall name value children,
        Forall P children -> P (mkNode name value children)) :
  forall n, P n :=
  fix go (n : Node) : P n :=
    match n with
    | mkNode name value children =>
        step name value children
          ((fix all (cs : list Node) : Forall P cs :=
              match cs with
              | [] => Forall_nil P
              | c :: cs' => Forall_cons c (go c) (all cs')
              end) children)
    end.

(** How the result of [parseNode] on the lines [good] compares with its
    result on these lines followed by a line in error [e] and more
    lines: the same, or the error when all of [good] was read. *)
Definition extendedBy (good : list gostring) (e : error)
    (r r' : result (Node * nat)) : Prop :=
  match r with
  | Ok (node, index) =>
      r' = Ok (node, index) \/ (index = length good /\ r' = Err e)
  | _ => True
  end.

(** ** The parser with the depth of every line kept

    The same parser, building nodes that remember the depth measured on
    their source line; a node written as an attribute has none.
    [parseNode_erase] shows that forgetting the depths gives [parseNode]
    back. *)

Unset Elimination Schemes.
Inductive ANode : Type :=
  mkANode { aName : gostring; aValue : gostring; aDepth : option nat;
            aChildren : list ANode }.
Set Elimination Schemes.

Fixpoint erase (a : ANode) : Node :=
  match a with
  | mkANode name value _ children => mkNode name value (map erase children)
  end.

(** A tree without source lines of its own. *)
Fixpoint plain (n : Node) : ANode :=
  match n with
  | mkNode name value children => mkANode name value None (map plain children)
  end.

Definition placed (depth : nat) (head : Node) : ANode :=
  mkANode (Name head) (Value head) (Some depth) (map plain (Children head)).

Definition withAValue (a : ANode) (v : gostring) : ANode :=
  mkANode (aName a) v (aDepth a) (aChildren a).

Definition appendAChild (a : ANode) (c : ANode) : ANode :=
  mkANode (aName a) (aValue a) (aDepth a) (aChildren a ++ [c]).

Fixpoint parseNodeA (fuel : nat) (lines : list gostring) (index : nat)
    (parentDepth : Z) : result (ANode * nat) :=
  match fuel with
  | O => OutOfFuel
  | S fuel =>
      match nth_error lines index with
      | None => Err UnexpectedEndOfInput
      | Some line =>
          let index := S index in
          let depth := readDepth line in
          if (Z.of_nat depth <=? parentDepth)%Z && (0 <=? parentDepth)%Z
          then Err (InvalidIndentation line) else
          do node <- parseHead line depth;
          parseChildrenA fuel lines index depth (placed depth node)
      end
  end

with parseChildrenA (fuel : nat) (lines : list gostring) (index : nat)
    (depth : nat) (node : ANode) : result (ANode * nat) :=
  match fuel with
  | O => OutOfFuel
  | S fuel =>
      match nth_error lines index with
      | None => Ok (node, index)
      | Some next =>
          let childDepth := readDepth next in
          if childDepth <=? depth then Ok (node, index) else
          let rest := TrimLeft next [" "; TAB] in
          if HasPrefix rest [":"] then
            let continuation := TrimPrefix rest [":"] in
            let continuation := TrimPrefix continuation [" "] in
            parseChildrenA fuel lines (S index) depth
              (withAValue node (appendContinuation (aValue node) continuation))
          else
            do (child, index) <- parseNodeA fuel lines index (Z.of_nat depth);
            parseChildrenA fuel lines index depth (appendAChild node child)
      end
  end.

Fixpoint parseTopA (fuel : nat) (lines : list gostring) (index : nat)
    (root : ANode) : result ANode :=
  match fuel with
  | O => OutOfFuel
  | S fuel =>
      if index <? length lines then
        do (node, index) <- parseNodeA fuel lines index (-1)%Z;
        parseTopA fuel lines index (appendAChild root node)
      else Ok root
  end.

Definition ParseA (data : gostring) : result ANode :=
  let lines := normalizeLines data in
  if length lines =? 0 then Ok (plain emptyNode) else
  parseTopA (2 * length lines + 1) lines 0 (plain emptyNode).

(** Every node that has a source line is deeper than its parent, where
    the parent has one. *)
Unset Elimination Schemes.
Inductive Indented : ANode -> Prop :=
| Indented_node (a : ANode) :
    Forall Indented (aChildren a) ->
    (forall c d dc, In c (aChildren a) -> aDepth a = Some d ->
                    aDepth c = Some dc -> d < dc) ->
    Indented a.

(** The depths in the tree are depths of the lines. *)
Inductive DepthsFrom (lines : list gostring) : ANode -> Prop :=
| DepthsFrom_node (a : ANode) :
    Forall (DepthsFrom lines) (aChildren a) ->
    (forall d, aDepth a = Some d ->
               exists line, In line lines /\ readDepth line = d) ->
    DepthsFrom lines a.
Set Elimination Schemes.

Definition mapResult {A B : Type} (f : A -> B) (r : result A) : result B :=
  match r with
  | Ok a => Ok (f a)
  | Err e => Err e
  | OutOfFuel => OutOfFuel
  end.

Definition eraseAt (r : ANode * nat) : Node * nat := (erase (fst r), snd r).

(** ** The round trip: what is asked of a tree

    A value without a newline is written back in the colon form, which
    the parser cuts at [//] and trims of trailing spaces. *)

Definition colonStable (value : gostring) : bool :=
  (commentOffset value =? length value) && negb (HasPrefix (rev value) [" "]).

Fixpoint stableTree (n : Node) : bool :=
  match n with
  | mkNode _ value children =>
      (ContainsByte value LF || colonStable value)
      && forallb stableTree children
  end.

Definition stableDocument (doc : Document) : bool :=
  match Root doc with
  | Some root => forallb stableTree (Children root)
  | None => true
  end.

(** A line that is a continuation, or that gives its node no attribute
    and no value in the [=] form. *)
Definition valueByEquals (line : gostring) : bool :=
  match nth_error line (scanWhile isValidNameChar line (readDepth line)) with
  | Some c => byte_eqb c "="
  | None => false
  end.

Definition plainLine (line : gostring) : bool :=
  HasPrefix (TrimLeft line [" "; TAB]) [":"]
  || match parseHead line (readDepth line) with
     | Ok node =>
         match Children node with [] => true | _ :: _ => false end
         && negb (valueByEquals line)
     | _ => true
     end.

Definition plainDocument (data : gostring) : bool :=
  forallb plainLine (normalizeLines data).

(** What every tree of the parser has: names made of one or more name
    characters, and values without carriage return that do not begin with
    a newline. *)
Definition validName (name : gostring) : bool :=
  negb (isEmpty name) && forallb isValidNameChar name.

Definition cleanValue (value : gostring) : bool :=
  negb (ContainsByte value CR) && negb (HasPrefix value [LF]).

Fixpoint wellFormed (n : Node) : bool :=
  match n with
  | mkNode name value children =>
      validName name && cleanValue value && forallb wellFormed children
  end.

Definition cleanLine (line : gostring) : bool :=
  negb (ContainsByte line LF) && negb (ContainsByte line CR).

(** The lines that [serializeNode] writes, without their newlines. *)
Definition isMultiline (value : gostring) : bool := ContainsByte value LF.

Definition headLine (depth : nat) (name value : gostring) : gostring :=
  indentation depth ++ name
  ++ (if isEmpty value || isMultiline value then [] else [":"; " "] ++ value).

Definition continuationLine (depth : nat) (text : gostring) : gostring :=
  indentation (depth + 1) ++ [":"; " "] ++ text.

Definition valueLines (depth : nat) (value : gostring) : list gostring :=
  if isMultiline value then map (continuationLine depth) (Split value LF)
  else [].

Fixpoint serLines (node : Node) (depth : nat) : list gostring :=
  match node with
  | mkNode name value children =>
      headLine depth name value
      :: valueLines depth value
      ++ flat_map (fun child => serLines child (depth + 1)) children
  end.

Definition unlines (lines : list gostring) : gostring :=
  flat_map (fun line => line ++ [LF]) lines.

(** The first of the lines that follow is not deeper than [depth]. *)
Definition shallow (depth : nat) (post : list gostring) : Prop :=
  match post with
  | [] => True
  | line :: _ => readDepth line <= depth
  end.

(** A byte that is part of no white space: an ASCII byte that is not a
    space. *)
Definition solidByte (c : ascii) : bool :=
  (N_of_ascii c <? 128)%N && negb (asciiSpace c).

(** [parseNode] on the lines of a serialized node, among other lines:
    it gives the node back and leaves the cursor after its lines. *)
Definition reparses (n : Node) : Prop :=
  forall depth pre post pd fuel,
    (pd < Z.of_nat (depth * 2))%Z ->
    shallow (depth * 2) post ->
    parseNode fuel (pre ++ serLines n depth ++ post) (length pre) pd
    <> OutOfFuel ->
    parseNode fuel (pre ++ serLines n depth ++ post) (length pre) pd
    = Ok (n, length pre + length (serLines n depth)).

(** ** The typed setters

    [strconv.Itoa]: the decimal digits of the number, the most significant
    first, after a minus sign when it is negative.  Twenty turns are
    enough for the nineteen digits of a 64-bit [int]. *)
Definition digitChar (d : Z) : ascii := ascii_of_N (48 + Z.to_N d).

Fixpoint digitsOf (fuel : nat) (n : Z) : gostring :=
  match fuel with
  | O => []
  | S fuel =>
      if (n <? 10)%Z then [digitChar n]
      else digitsOf fuel (n / 10)%Z ++ [digitChar (n mod 10)%Z]
  end.

Definition Itoa (i : Z) : gostring :=
  if (i <? 0)%Z then "-" :: digitsOf 20 (- i)%Z else digitsOf 20 i.

(** [SetBool] *)
Definition SetBool (n : option Node) (path : gostring) (value : bool)
    : option (Node * position) :=
  if value then Set_ n path (lit "true") else Set_ n path (lit "false").

(** [SetInt] *)
Definition SetInt (n : option Node) (path : gostring) (value : Z)
    : option (Node * position) :=
  Set_ n path (Itoa value).

(** ** More predicates used in the statements *)

(** Lines joined by an end-of-line sequence after each. *)
Definition joinLines (eol : gostring) (lines : list gostring) : gostring :=
  flat_map (fun line => line ++ eol) lines.

(** An attribute as it is written on the line of its node: a space, the
    name, an equals sign, the value. *)
Definition attrText (a : gostring * gostring) : gostring :=
  [" "] ++ fst a ++ ["="] ++ snd a.

Definition attrNode (a : gostring * gostring) : Node :=
  mkNode (fst a) (snd a) [].

(** A byte that may stand in a value written without quotes. *)
Definition unquotedByte (c : ascii) : bool :=
  negb (byte_eqb c " ") && negb (byte_eqb c QUOTE).

(** No two children of a node of the tree have the same name. *)
Fixpoint namesOf (children : list Node) : list gostring :=
  match children with
  | [] => []
  | c :: cs => Name c :: namesOf cs
  end.

Unset Elimination Schemes.
Inductive UniqueNames : Node -> Prop :=
| UniqueNames_node (n : Node) :
    NoDup (namesOf (Children n)) ->
    Forall UniqueNames (Children n) ->
    UniqueNames n.
Set Elimination Schemes.

(** A line that [parseHead] reads without error whatever follows the
    name: it begins, after its indentation, with a name character, and it
    holds no double quote. *)
Definition safeLine (line : gostring) : bool :=
  match skipn (readDepth line) line with
  | c :: _ => isValidNameChar c
  | [] => false
  end
  && negb (ContainsByte line QUOTE).

(** An attribute whose name is a name and whose value can be written
    without quotes on one line. *)
Definition plainAttr (a : gostring * gostring) : Prop :=
  validName (fst a) = true
  /\ forallb unquotedByte (snd a) = true
  /\ cleanLine (snd a) = true.

(** A value that the serializer writes and the parser reads back
    unchanged: one of several lines, or one without comment marker and
    without space at its end. *)
Definition stableValue (value : gostring) : bool :=
  ContainsByte value LF || colonStable value.

(** A tree whose nodes all have a name of name characters and a value
    that is read back unchanged. *)
Definition sound (n : Node) : bool := wellFormed n && stableTree n.

(** ** [Marshal] and [Unmarshal]

    The two functions walk a Go value with package [reflect].  What the
    walk looks at is modelled as it is read: the type of the value, with
    the kind of every part and for every struct field its name, whether
    it is exported, and what [Tag.Get] returns for the key [bml]; and the
    value itself, shaped by its type.  A pointer is nil or holds a value.
    Types are finite trees here: a struct type that refers to itself
    through a pointer is outside the model.  The kinds that the two
    [switch] statements send to [default] carry no value. *)

Inductive IntKind : Type := KInt | KInt8 | KInt16 | KInt32 | KInt64.

Inductive UintKind : Type := KUint | KUint8 | KUint16 | KUint32 | KUint64.

Inductive FloatKind : Type := KFloat32 | KFloat64.

Inductive OtherKind : Type :=
| KInvalid | KUintptr | KComplex64 | KComplex128 | KArray | KChan | KFunc
| KInterface | KMap | KSlice | KUnsafePointer.

Record FieldInfo : Type :=
  mkFieldInfo { fieldName : gostring; exported : bool; tag : gostring }.

Inductive GoType : Type :=
| TString
| TBool
| TInt (k : IntKind)
| TUint (k : UintKind)
| TFloat (k : FloatKind)
| TPtr (elem : GoType)
| TStruct (fields : Fields)
| TOther (k : OtherKind)
with Fields : Type :=
| FNil
| FCons (info : FieldInfo) (t : GoType) (rest : Fields).

Scheme GoType_mut := Induction for GoType Sort Prop
  with Fields_mut := Induction for Fields Sort Prop.

Combined Scheme GoType_Fields_ind from GoType_mut, Fields_mut.

(** The sizes of the integer kinds; [int] and [uint] have 64 bits. *)
Definition intBits (k : IntKind) : Z :=
  match k with
  | KInt => 64 | KInt8 => 8 | KInt16 => 16 | KInt32 => 32 | KInt64 => 64
  end%Z.

Definition uintBits (k : UintKind) : Z :=
  match k with
  | KUint => 64 | KUint8 => 8 | KUint16 => 16 | KUint32 => 32 | KUint64 => 64
  end%Z.

(** The conversions that [reflect.Value.SetInt] and [SetUint] make to the
    type of the field. *)
Definition wrapInt (bits x : Z) : Z :=
  ((x + 2 ^ (bits - 1)) mod 2 ^ bits - 2 ^ (bits - 1))%Z.

Definition wrapUint (bits x : Z) : Z := (x mod 2 ^ bits)%Z.

(** [strconv.ParseInt(s, 10, 64)] reads what [strconv.Atoi] reads with a
    64-bit [int]; [strconv.ParseUint(s, 10, 64)] reads one or more decimal
    digits, without sign, and the value has to fit. *)
Definition ParseInt (s : gostring) : option Z := Atoi s.

Definition maxUint : Z := (2 ^ 64 - 1)%Z.

Definition ParseUint (s : gostring) : option Z :=
  match s with
  | [] => None
  | _ =>
      match parseDigits 0 s with
      | Some n => if (n <=? maxUint)%Z then Some n else None
      | None => None
      end
  end.

(** [strconv.FormatInt(i, 10)] and [strconv.FormatUint(u, 10)] *)
Definition FormatInt (i : Z) : gostring := Itoa i.

Definition FormatUint (u : Z) : gostring := digitsOf 20 u.

(** The floating-point numbers with what the package does with them:
    they are taken as they come, as in [Float]. *)
Class Floats : Type := {
  float32 : Type;
  float64 : Type;
  zero32 : float32;
  zero64 : float64;
  toFloat32 : float64 -> float32;
  toFloat64 : float32 -> float64;
  ParseFloat64 : gostring -> option float64;
  FormatFloat : float64 -> gostring
}.

Section Reflection.
Context {F : Floats}.

(** The values of a type. *)
Fixpoint valueOf (t : GoType) : Type :=
  match t with
  | TString => gostring
  | TBool => bool
  | TInt _ => Z
  | TUint _ => Z
  | TFloat KFloat32 => float32
  | TFloat KFloat64 => float64
  | TPtr elem => option (valueOf elem)
  | TStruct fields => valuesOf fields
  | TOther _ => unit
  end
with valuesOf (fs : Fields) : Type :=
  match fs with
  | FNil => unit
  | FCons _ t rest => (valueOf t * valuesOf rest)%type
  end.

(** The zero value of a type, as [reflect.New] allocates it. *)
Fixpoint zero (t : GoType) : valueOf t :=
  match t return valueOf t with
  | TString => []
  | TBool => false
  | TInt _ => 0%Z
  | TUint _ => 0%Z
  | TFloat KFloat32 => zero32
  | TFloat KFloat64 => zero64
  | TPtr _ => None
  | TStruct fields => zeros fields
  | TOther _ => tt
  end
with zeros (fs : Fields) : valuesOf fs :=
  match fs return valuesOf fs with
  | FNil => tt
  | FCons _ t rest => (zero t, zeros rest)
  end.

(** The errors of the two functions.  [Unfinished] belongs to the model
    only: it stands for [OutOfFuel], which [Parse] never returns. *)
Inductive reflectError : Type :=
| ParseError (e : error)
| Unfinished
| RequiresPointer
| RequiresNonNilPointer
| RequiresPointerToStruct
| RequiresNonNilValue
| RequiresStruct
| FieldError (name : gostring) (e : reflectError)
| CannotParseInt (val : gostring)
| CannotParseUint (val : gostring)
| CannotParseFloat (val : gostring)
| UnsupportedType (k : OtherKind).

(** [unmarshalValue], with [unmarshalFields] for the loop of
    [unmarshalNode] over the fields: the value after the call, which the
    code changes in place, and the error when there is one. *)
Fixpoint unmarshalValue (t : GoType) (node : option Node)
    : valueOf t -> valueOf t * option reflectError :=
  match t return valueOf t -> valueOf t * option reflectError with
  | TPtr elem => fun v =>
      match node with
      | None => (v, None)
      | Some _ =>
          let target := match v with Some x => x | None => zero elem end in
          let '(x, err) := unmarshalValue elem node target in
          (Some x, err)
      end
  | TString => fun v =>
      match node with
      | None => (v, None)
      | Some n => (TrimSpace (Value n), None)
      end
  | TBool => fun v =>
      match node with
      | None => (v, None)
      | Some n =>
          let val := TrimSpace (Value n) in
          (gostring_eqb val (lit "true"), None)
      end
  | TInt k => fun v =>
      match node with
      | None => (v, None)
      | Some n =>
          let val := TrimSpace (Value n) in
          if isEmpty val then (v, None) else
          match ParseInt val with
          | Some i => (wrapInt (intBits k) i, None)
          | None => (v, Some (CannotParseInt val))
          end
      end
  | TUint k => fun v =>
      match node with
      | None => (v, None)
      | Some n =>
          let val := TrimSpace (Value n) in
          if isEmpty val then (v, None) else
          match ParseUint val with
          | Some u => (wrapUint (uintBits k) u, None)
          | None => (v, Some (CannotParseUint val))
          end
      end
  | TFloat KFloat32 => fun v =>
      match node with
      | None => (v, None)
      | Some n =>
          let val := TrimSpace (Value n) in
          if isEmpty val then (v, None) else
          match ParseFloat64 val with
          | Some f => (toFloat32 f, None)
          | None => (v, Some (CannotParseFloat val))
          end
      end
  | TFloat KFloat64 => fun v =>
      match node with
      | None => (v, None)
      | Some n =>
          let val := TrimSpace (Value n) in
          if isEmpty val then (v, None) else
          match ParseFloat64 val with
          | Some f => (f, None)
          | None => (v, Some (CannotParseFloat val))
          end
      end
  | TStruct fields => fun v =>
      match node with
      | None => (v, None)
      | Some n => unmarshalFields fields n v
      end
  | TOther k => fun v =>
      match node with
      | None => (v, None)
      | Some _ => (v, Some (UnsupportedType k))
      end
  end
with unmarshalFields (fs : Fields) (node : Node)
    : valuesOf fs -> valuesOf fs * option reflectError :=
  match fs return valuesOf fs -> valuesOf fs * option reflectError with
  | FNil => fun v => (v, None)
  | FCons info t rest => fun v =>
      let '(field, others) := v in
      if negb (exported info) || isEmpty (tag info) then
        let '(others, err) := unmarshalFields rest node others in
        ((field, others), err)
      else
        let childNode := Get (Some node) (tag info) in
        match unmarshalValue t childNode field with
        | (field, Some err) =>
            ((field, others), Some (FieldError (fieldName info) err))
        | (field, None) =>
            let '(others, err) := unmarshalFields rest node others in
            ((field, others), err)
        end
  end.

(** [unmarshalNode] *)
Definition unmarshalNode (node : option Node) (fs : Fields) (v : valuesOf fs)
    : valuesOf fs * option reflectError :=
  match node with
  | None => (v, None)
  | Some n => unmarshalFields fs n v
  end.

(** [Unmarshal]: [v] is what the interface holds, of type [t]. *)
Definition Unmarshal (data : gostring) (t : GoType)
    : valueOf t -> valueOf t * option reflectError :=
  match Parse data with
  | Err e => fun v => (v, Some (ParseError e))
  | OutOfFuel => fun v => (v, Some Unfinished)
  | Ok doc =>
      match t return valueOf t -> valueOf t * option reflectError with
      | TPtr elem => fun v =>
          match v with
          | None => (v, Some RequiresNonNilPointer)
          | Some x =>
              match elem return valueOf elem ->
                                option (valueOf elem) * option reflectError with
              | TStruct fields => fun x =>
                  let '(x, err) := unmarshalNode (Root doc) fields x in
                  (Some x, err)
              | _ => fun x => (Some x, Some RequiresPointerToStruct)
              end x
          end
      | _ => fun v => (v, Some RequiresPointer)
      end
  end.

(** [marshalValue], with [marshalFields] for the loop of [marshalStruct]
    over the fields, which appends to the children of [parent]. *)
Fixpoint marshalValue (t : GoType) (name : gostring)
    : valueOf t -> option Node * option reflectError :=
  match t return valueOf t -> option Node * option reflectError with
  | TPtr elem => fun v =>
      match v with
      | None => (None, None)
      | Some x => marshalValue elem name x
      end
  | TString => fun v => (Some (mkNode name v []), None)
  | TBool => fun v =>
      (Some (mkNode name (if v then lit "true" else lit "false") []), None)
  | TInt _ => fun v => (Some (mkNode name (FormatInt v) []), None)
  | TUint _ => fun v => (Some (mkNode name (FormatUint v) []), None)
  | TFloat KFloat32 => fun v =>
      (Some (mkNode name (FormatFloat (toFloat64 v)) []), None)
  | TFloat KFloat64 => fun v => (Some (mkNode name (FormatFloat v) []), None)
  | TStruct fields => fun v =>
      match marshalFields fields v (mkNode name [] []) with
      | (node, None) => (Some node, None)
      | (_, Some err) => (None, Some err)
      end
  | TOther k => fun _ => (None, Some (UnsupportedType k))
  end
with marshalFields (fs : Fields)
    : valuesOf fs -> Node -> Node * option reflectError :=
  match fs return valuesOf fs -> Node -> Node * option reflectError with
  | FNil => fun _ parent => (parent, None)
  | FCons info t rest => fun v parent =>
      let '(field, others) := v in
      if negb (exported info) || isEmpty (tag info) then
        marshalFields rest others parent
      else
        match marshalValue t (tag info) field with
        | (_, Some err) => (parent, Some (FieldError (fieldName info) err))
        | (Some node, None) =>
            marshalFields rest others (appendChild parent node)
        | (None, None) => marshalFields rest others parent
        end
  end.

(** [marshalStruct] *)
Definition marshalStruct (fs : Fields) (v : valuesOf fs) (parent : Node)
    : Node * option reflectError :=
  marshalFields fs v parent.

(** [Marshal]: the bytes, or the error. *)
Definition marshalRoot (t : GoType) : valueOf t -> gostring + reflectError :=
  match t return valueOf t -> gostring + reflectError with
  | TStruct fields => fun v =>
      match marshalStruct fields v emptyNode with
      | (root, None) => inl (Serialize (Some (mkDocument (Some root))))
      | (_, Some err) => inr err
      end
  | _ => fun _ => inr RequiresStruct
  end.

Definition Marshal (t : GoType) : valueOf t -> gostring + reflectError :=
  match t return valueOf t -> gostring + reflectError with
  | TPtr elem => fun v =>
      match v with
      | None => inr RequiresNonNilValue
      | Some x => marshalRoot elem x
      end
  | t' => marshalRoot t'
  end.

(** The tags that the loops over the fields look up. *)
Fixpoint tagsOf (fs : Fields) : list gostring :=
  match fs with
  | FNil => []
  | FCons info _ rest =>
      if negb (exported info) || isEmpty (tag info) then tagsOf rest
      else tag info :: tagsOf rest
  end.

(** A value for which [marshalValue] makes a node: not a nil pointer,
    nor a pointer to one. *)
Fixpoint present (t : GoType) : valueOf t -> bool :=
  match t return valueOf t -> bool with
  | TPtr elem => fun v =>
      match v with
      | None => false
      | Some x => present elem x
      end
  | _ => fun _ => true
  end.

(** A text that stays as it is when it is written as the value of a node
    and read back into a string field. *)
Definition plainText (s : gostring) : Prop :=
  cleanValue s = true /\ stableValue s = true /\ TrimSpace s = s.

(** The values that are written and read back unchanged into a zero
    value: strings are plain texts, integers fit their kind, there is no
    floating-point number and no value of a kind that is not supported; a
    pointer that is not nil points to a value that makes a node; the
    fields that are looked at have distinct tags that are names, and the
    others hold their zero value. *)
Fixpoint plainValue (t : GoType) : valueOf t -> Prop :=
  match t return valueOf t -> Prop with
  | TString => fun v => plainText v
  | TBool => fun _ => True
  | TInt k => fun v =>
      (- 2 ^ (intBits k - 1) <= v < 2 ^ (intBits k - 1))%Z
  | TUint k => fun v => (0 <= v < 2 ^ uintBits k)%Z
  | TFloat _ => fun _ => False
  | TPtr elem => fun v =>
      match v with
      | None => True
      | Some x => present elem x = true /\ plainValue elem x
      end
  | TStruct fields => fun v => NoDup (tagsOf fields) /\ plainValues fields v
  | TOther _ => fun _ => False
  end
with plainValues (fs : Fields) : valuesOf fs -> Prop :=
  match fs return valuesOf fs -> Prop with
  | FNil => fun _ => True
  | FCons info t rest => fun v =>
      (if negb (exported info) || isEmpty (tag info) then fst v = zero t
       else validName (tag info) = true /\ plainValue t (fst v))
      /\ plainValues rest (snd v)
  end.

(** The types whose values [Marshal] accepts: no kind that is not
    supported among the fields that are looked at. *)
Fixpoint supported (t : GoType) : bool :=
  match t with
  | TPtr elem => supported elem
  | TStruct fields => supportedFields fields
  | TOther _ => false
  | _ => true
  end
with supportedFields (fs : Fields) : bool :=
  match fs with
  | FNil => true
  | FCons info t rest =>
      (negb (exported info) || isEmpty (tag info) || supported t)
      && supportedFields rest
  end.

End Reflection.

(** The first child of that name. *)
Definition childNamed (children : list Node) (name : gostring) : option Node :=
  match findChild children name with
  | Some (_, child) => Some child
  | None => None
  end.

(** Floating-point numbers for the types that have none. *)
Definition noFloats : Floats :=
  {| float32 := unit; float64 := unit; zero32 := tt; zero64 := tt;
     toFloat32 := fun _ => tt; toFloat64 := fun _ => tt;
     ParseFloat64 := fun _ => None; FormatFloat := fun _ => [] |}.

(** The errors that [Marshal] returns for a struct: the kind that is not
    supported, under the names of the fields that lead to it. *)
Fixpoint unsupportedField {F : Floats} (e : reflectError) : bool :=
  match e with
  | FieldError _ (UnsupportedType _) => true
  | FieldError _ e' => unsupportedField e'
  | _ => false
  end.

(** What [Parse] reads from a value that [Serialize] wrote: a value of
    several lines as it is; a value of one line up to its first [//],
    without the spaces at its end. *)
Definition readBack (value : gostring) : gostring :=
  if isMultiline value then value
  else TrimRight (firstn (commentOffset value) value) [" "].

Fixpoint normalised (n : Node) : Node :=
  match n with
  | mkNode name value children =>
      mkNode name (readBack value) (map normalised children)
  end.

(** [parseNode] on the lines of the serialized node [n], among other
    lines: it gives [n'] and leaves the cursor after the lines. *)
Definition reparsesAs (n n' : Node) : Prop :=
  forall depth pre post pd fuel,
    (pd < Z.of_nat (depth * 2))%Z ->
    shallow (depth * 2) post ->
    parseNode fuel (pre ++ serLines n depth ++ post) (length pre) pd
    <> OutOfFuel ->
    parseNode fuel (pre ++ serLines n depth ++ post) (length pre) pd
    = Ok (n', length pre + length (serLines n depth)).

(** The errors that [Unmarshal] returns after [Parse] succeeded, for a
    pointer to a struct: a value that does not parse as a number, or a
    kind that is not supported, under the names of the fields that lead
    to it. *)
Fixpoint fieldFailure {F : Floats} (e : reflectError) : bool :=
  match e with
  | FieldError _ (CannotParseInt _) => true
  | FieldError _ (CannotParseUint _) => true
  | FieldError _ (CannotParseFloat _) => true
  | FieldError _ (UnsupportedType _) => true
  | FieldError _ e' => fieldFailure e'
  | _ => false
  end.

(** The types into which [Unmarshal] writes every value there is: no
    number and no kind that is not supported among the fields that are
    looked at. *)
Fixpoint textual (t : GoType) : bool :=
  match t with
  | TString | TBool => true
  | TPtr elem => textual elem
  | TStruct fields => textualFields fields
  | _ => false
  end
with textualFields (fs : Fields) : bool :=
  match fs with
  | FNil => true
  | FCons info t rest =>
      (negb (exported info) || isEmpty (tag info) || textual t)
      && textualFields rest
  end.

(** Two lines that differ in the bytes of their indentation only: as
    many tabs and spaces, in any mix, before the same text. *)
Definition sameText (l1 l2 : gostring) : Prop :=
  readDepth l1 = readDepth l2
  /\ skipn (readDepth l1) l1 = skipn (readDepth l2) l2.

(** The same error, on two such lines. *)
Definition sameError (e1 e2 : error) : Prop :=
  match e1, e2 with
  | UnexpectedEndOfInput, UnexpectedEndOfInput => True
  | InvalidIndentation a, InvalidIndentation b => sameText a b
  | InvalidNodeName a, InvalidNodeName b => sameText a b
  | UnclosedQuote a, UnclosedQuote b => sameText a b
  | _, _ => False
  end.

Definition sameResult {A : Type} (r1 r2 : result A) : Prop :=
  match r1, r2 with
  | Ok a, Ok b => a = b
  | Err e1, Err e2 => sameError e1 e2
  | OutOfFuel, OutOfFuel => True
  | _, _ => False
  end.

(** A line with its indentation written in spaces. *)
Definition spacesFor (line : gostring) : gostring :=
  repeat " " (readDepth line) ++ skipn (readDepth line) line.

(** The result for a line, with the line in its error. *)
Definition relabel {A : Type} (line : gostring) (r : result A) : result A :=
  match r with
  | Err (InvalidIndentation _) => Err (InvalidIndentation line)
  | Err (InvalidNodeName _) => Err (InvalidNodeName line)
  | Err (UnclosedQuote _) => Err (UnclosedQuote line)
  | r => r
  end.

(** ** The line of a node, as it is written

    What may follow a name on the line of a node: nothing, an equals
    sign and a text without space and quote, or an equals sign and a
    text between double quotes.  An attribute is a space, a name, and
    one of these. *)
Inductive Written : Type :=
| NoValue
| Unquoted (v : gostring)
| Quoted (v : gostring).

Definition writtenText (w : Written) : gostring :=
  match w with
  | NoValue => []
  | Unquoted v => "=" :: v
  | Quoted v => "=" :: QUOTE :: v ++ [QUOTE]
  end.

Definition writtenValue (w : Written) : gostring :=
  match w with
  | NoValue => []
  | Unquoted v => v
  | Quoted v => v
  end.

Definition validWritten (w : Written) : Prop :=
  match w with
  | NoValue => True
  | Unquoted v => forallb unquotedByte v = true
  | Quoted v => ~ In QUOTE v
  end.

Definition attrItem (a : gostring * Written) : gostring :=
  " " :: fst a ++ writtenText (snd a).

Definition itemNode (a : gostring * Written) : Node :=
  mkNode (fst a) (writtenValue (snd a)) [].

Definition validItem (a : gostring * Written) : Prop :=
  validName (fst a) = true /\ validWritten (snd a).

(** ** Where a path leads

    The position that a sequence of segments leads to in a tree: at
    every step, the first child that has the segment for its name. *)
Fixpoint leadsTo (segs : list gostring) (n : Node) (pos : position) : Prop :=
  match segs, pos with
  | [], [] => True
  | seg :: segs', k :: pos' =>
      exists child,
        nth_error (Children n) k = Some child
        /\ Name child = seg
        /\ (forall j c, j < k -> nth_error (Children n) j = Some c ->
                        Name c <> seg)
        /\ leadsTo segs' child pos'
  | _, _ => False
  end.

(** A list without its element at [k]; a tree without the subtree at a
    position, all the rest as it is. *)
Fixpoint without {A : Type} (k : nat) (l : list A) : list A :=
  match l, k with
  | [], _ => []
  | _ :: rest, O => rest
  | x :: rest, S k' => x :: without k' rest
  end.

Fixpoint changeAt {A : Type} (k : nat) (f : A -> A) (l : list A) : list A :=
  match l, k with
  | [], _ => []
  | x :: rest, O => f x :: rest
  | x :: rest, S k' => x :: changeAt k' f rest
  end.

Fixpoint pruned (pos : position) (n : Node) : Node :=
  match pos with
  | [] => n
  | [k] => mkNode (Name n) (Value n) (without k (Children n))
  | k :: pos' =>
      mkNode (Name n) (Value n) (changeAt k (pruned pos') (Children n))
  end.

(** * Facts on strings *)

Lemma byte_eqb_eq (a b : ascii) : byte_eqb a b = true <-> a = b.
Proof. unfold byte_eqb. apply Ascii.eqb_eq. Qed.

Lemma byte_eqb_refl (a : ascii) : byte_eqb a a = true.
Proof. apply byte_eqb_eq. reflexivity. Qed.

Lemma byte_eqb_neq (a b : ascii) : byte_eqb a b = false <-> a <> b.
Proof. unfold byte_eqb. apply Ascii.eqb_neq. Qed.

Lemma gostring_eqb_eq (a b : gostring) : gostring_eqb a b = true <-> a = b.
Proof.
  revert b. induction a as [|x a IH]; intros [|y b]; simpl; split;
    try discriminate; try reflexivity.
  - intros H. apply andb_true_iff in H. destruct H as [H1 H2].
    apply byte_eqb_eq in H1. apply IH in H2. congruence.
  - intros H. injection H as -> ->. rewrite byte_eqb_refl. simpl.
    apply IH. reflexivity.
Qed.

Lemma gostring_eqb_refl (a : gostring) : gostring_eqb a a = true.
Proof. apply gostring_eqb_eq. reflexivity. Qed.

Lemma gostring_eqb_neq (a b : gostring) : gostring_eqb a b = false <-> a <> b.
Proof.
  split.
  - intros H E. apply gostring_eqb_eq in E. congruence.
  - intros H. destruct (gostring_eqb a b) eqn:E; [|reflexivity].
    apply gostring_eqb_eq in E. contradiction.
Qed.

Lemma isEmpty_true (s : gostring) : isEmpty s = true <-> s = [].
Proof. destruct s; simpl; split; congruence. Qed.

Lemma isEmpty_false (s : gostring) : isEmpty s = false <-> s <> [].
Proof. destruct s; simpl; split; congruence. Qed.

Lemma nth_error_at {A} (pre : list A) (x : A) (post : list A) :
  nth_error (pre ++ x :: post) (length pre) = Some x.
Proof. induction pre; simpl; auto. Qed.

Lemma nth_error_past {A} (pre : list A) :
  nth_error pre (length pre) = None.
Proof. apply nth_error_None. lia. Qed.

Lemma skipn_at {A} (pre post : list A) : skipn (length pre) (pre ++ post) = post.
Proof. induction pre; simpl; auto. Qed.

Lemma skipn_at_plus {A} (pre post : list A) (k : nat) :
  skipn (length pre + k) (pre ++ post) = skipn k post.
Proof. induction pre; simpl; auto. Qed.

Lemma firstn_at {A} (pre post : list A) : firstn (length pre) (pre ++ post) = pre.
Proof. induction pre; simpl; congruence. Qed.

Lemma slice_at (pre mid post : gostring) :
  slice (pre ++ mid ++ post) (length pre) (length pre + length mid) = mid.
Proof.
  unfold slice. rewrite skipn_at.
  replace (length pre + length mid - length pre) with (length mid) by lia.
  apply firstn_at.
Qed.

Lemma span_run (p : ascii -> bool) (run rest : gostring) :
  forallb p run = true -> stopsAt p rest -> span p (run ++ rest) = length run.
Proof.
  intros Hrun Hrest. induction run as [|c run IH]; simpl in *.
  - destruct rest; simpl in *; [reflexivity|]. rewrite Hrest. reflexivity.
  - apply andb_true_iff in Hrun. destruct Hrun as [-> Hrun].
    rewrite IH by assumption. reflexivity.
Qed.

Lemma span_split (p : ascii -> bool) (s : gostring) :
  forallb p (firstn (span p s) s) = true /\ stopsAt p (skipn (span p s) s).
Proof.
  induction s as [|c s IH]; simpl; [auto|].
  destruct (p c) eqn:E; simpl; [|auto].
  rewrite E. simpl. exact IH.
Qed.

Lemma span_le (p : ascii -> bool) (s : gostring) : span p s <= length s.
Proof. induction s as [|c s IH]; simpl; [lia|]. destruct (p c); simpl; lia. Qed.

Lemma scanWhile_run (p : ascii -> bool) (pre run rest : gostring) :
  forallb p run = true -> stopsAt p rest ->
  scanWhile p (pre ++ run ++ rest) (length pre) = length pre + length run.
Proof.
  intros. unfold scanWhile. rewrite skipn_at, span_run; auto.
Qed.

Lemma scanWhile_ge p line pos : pos <= scanWhile p line pos.
Proof. unfold scanWhile. lia. Qed.

Lemma scanWhile_le p line pos :
  pos <= length line -> scanWhile p line pos <= length line.
Proof.
  intros H. unfold scanWhile.
  pose proof (span_le p (skipn pos line)). rewrite length_skipn in H0. lia.
Qed.

Lemma HasPrefix_app (s t : gostring) : HasPrefix (s ++ t) s = true.
Proof. induction s; simpl; auto. rewrite byte_eqb_refl. auto. Qed.

Lemma HasPrefix_iff (s p : gostring) :
  HasPrefix s p = true <-> exists t, s = p ++ t.
Proof.
  revert s. induction p as [|c p IH]; intros s; simpl.
  - split; eauto.
  - destruct s as [|d s]; simpl.
    + split; [discriminate|]. intros [t H]. discriminate.
    + rewrite andb_true_iff, byte_eqb_eq, IH. split.
      * intros [-> [t ->]]. eauto.
      * intros [t H]. injection H as -> ->. eauto.
Qed.

(** * [parseValue]: the colon form *)

Lemma commentOffset_found (body tail : gostring) :
  (forall i, i < length body ->
             HasPrefix (skipn i (body ++ tail)) ["/"; "/"] = false) ->
  tail = [] \/ HasPrefix tail ["/"; "/"] = true ->
  commentOffset (body ++ tail) = length body.
Proof.
  induction body as [|c body IH]; intros Hbody Htail.
  - simpl. destruct tail as [|c t]; [reflexivity|].
    destruct Htail as [Htail|Htail]; [discriminate|].
    cbn [commentOffset]. rewrite Htail. reflexivity.
  - cbn [app commentOffset length].
    pose proof (Hbody 0 ltac:(simpl; lia)) as H0. cbn [skipn app] in H0.
    rewrite H0. f_equal. apply IH; [|assumption].
    intros i Hi. apply (Hbody (S i)). simpl. lia.
Qed.

Lemma commentOffset_le (s : gostring) : commentOffset s <= length s.
Proof.
  induction s as [|c s IH]; [simpl; lia|].
  cbn [commentOffset]. destruct (HasPrefix (c :: s) ["/"; "/"]); simpl; lia.
Qed.

Lemma commentOffset_split (s : gostring) :
  let n := commentOffset s in
  (forall i, i < n -> HasPrefix (skipn i s) ["/"; "/"] = false)
  /\ (skipn n s = [] \/ HasPrefix (skipn n s) ["/"; "/"] = true).
Proof.
  induction s as [|c s IH]; [simpl; split; [intros; lia|auto]|].
  cbn [commentOffset].
  destruct (HasPrefix (c :: s) ["/"; "/"]) eqn:E.
  - split; [intros; lia|]. right. exact E.
  - destruct IH as [IH1 IH2]. split; [|exact IH2].
    intros [|i] Hi; [exact E|]. apply IH1. lia.
Qed.

Lemma TrimLeft_stops (s cutset : gostring) :
  stopsAt (ContainsByte cutset) s -> TrimLeft s cutset = s.
Proof.
  destruct s as [|c s]; simpl; [reflexivity|]. intros ->. reflexivity.
Qed.

Lemma TrimLeft_run (run rest cutset : gostring) :
  forallb (ContainsByte cutset) run = true ->
  TrimLeft (run ++ rest) cutset = TrimLeft rest cutset.
Proof.
  induction run as [|c run IH]; simpl; [reflexivity|].
  intros H. apply andb_true_iff in H. destruct H as [-> H]. auto.
Qed.

(** [TrimRight(s, " ")] removes the trailing spaces and nothing else. *)
Lemma TrimRight_spaces (t : gostring) (k : nat) :
  stopsAt (ContainsByte [" "]) (rev t) ->
  TrimRight (t ++ repeat " " k) [" "] = t.
Proof.
  intros H. unfold TrimRight. rewrite rev_app_distr, rev_repeat.
  rewrite TrimLeft_run.
  - rewrite TrimLeft_stops by assumption. apply rev_involutive.
  - clear. induction k; simpl; auto.
Qed.

Lemma TrimRight_unchanged (t : gostring) :
  stopsAt (ContainsByte [" "]) (rev t) -> TrimRight t [" "] = t.
Proof.
  intros H. rewrite <- (TrimRight_spaces t 0 H) at 2.
  simpl. rewrite app_nil_r. reflexivity.
Qed.

(** The colon form, on a line cut into its parts: the bytes before the
    cursor, the colon, the optional space, the text up to the comment
    marker, and the comment (or nothing). *)
Lemma parseValue_colon_parts (pre sp body tail : gostring) :
  sp = [" "] \/ sp = [] /\ HasPrefix (body ++ tail) [" "] = false ->
  (forall i, i < length body ->
             HasPrefix (skipn i (body ++ tail)) ["/"; "/"] = false) ->
  tail = [] \/ HasPrefix tail ["/"; "/"] = true ->
  parseValue (pre ++ [":"] ++ sp ++ body ++ tail) (length pre)
  = Ok (TrimRight body [" "], length (pre ++ [":"] ++ sp ++ body)).
Proof.
  intros Hsp Hbody Htail. unfold parseValue.
  cbn [app]. rewrite nth_error_at. rewrite byte_eqb_refl.
  assert (Hskip : forall l, skipn (S (length pre)) (pre ++ ":" :: l) = l).
  { intros l. replace (S (length pre)) with (length (pre ++ [":"]))
      by (rewrite length_app; simpl; lia).
    replace (pre ++ ":" :: l) with ((pre ++ [":"]) ++ l)
      by (rewrite <- app_assoc; reflexivity).
    apply skipn_at. }
  assert (Hnth : forall l, nth_error (pre ++ ":" :: l) (S (length pre))
                           = nth_error l 0).
  { intros l. replace (S (length pre)) with (length (pre ++ [":"]) + 0)
      by (rewrite length_app; simpl; lia).
    replace (pre ++ ":" :: l) with ((pre ++ [":"]) ++ l)
      by (rewrite <- app_assoc; reflexivity).
    rewrite nth_error_app2 by lia.
    f_equal. lia. }
  rewrite Hnth.
  destruct Hsp as [->|[-> Hns]].
  - cbn [app nth_error]. rewrite byte_eqb_refl.
    unfold scanComment, slice.
    replace (S (S (length pre))) with (length (pre ++ [":"; " "]))
      by (rewrite length_app; simpl; lia).
    replace (pre ++ ":" :: " " :: body ++ tail)
      with ((pre ++ [":"; " "]) ++ body ++ tail)
      by (rewrite <- app_assoc; reflexivity).
    rewrite skipn_at, commentOffset_found by assumption.
    replace (length (pre ++ [":"; " "]) + length body
             - length (pre ++ [":"; " "])) with (length body) by lia.
    rewrite firstn_at. f_equal. f_equal.
    rewrite !length_app. simpl. lia.
  - cbn [app].
    assert (Hfirst : match nth_error (body ++ tail) 0 with
                     | Some c' => byte_eqb c' " " = false
                     | None => True
                     end).
    { destruct (body ++ tail) as [|c l]; simpl in *; [exact I|].
      rewrite andb_true_r in Hns. exact Hns. }
    destruct (nth_error (body ++ tail) 0) as [c'|] eqn:E.
    + rewrite Hfirst. unfold scanComment, slice.
      rewrite Hskip, commentOffset_found by assumption.
      replace (S (length pre) + length body - S (length pre))
        with (length body) by lia.
      rewrite firstn_at. f_equal. f_equal.
      rewrite !length_app. simpl. lia.
    + unfold scanComment, slice.
      rewrite Hskip, commentOffset_found by assumption.
      replace (S (length pre) + length body - S (length pre))
        with (length body) by lia.
      rewrite firstn_at. f_equal. f_equal.
      rewrite !length_app. simpl. lia.
Qed.


Lemma TrimLeft_split (s cutset : gostring) :
  exists run,
    s = run ++ TrimLeft s cutset
    /\ forallb (ContainsByte cutset) run = true
    /\ stopsAt (ContainsByte cutset) (TrimLeft s cutset).
Proof.
  induction s as [|c s IH]; [exists []; simpl; auto|].
  simpl. destruct (ContainsByte cutset c) eqn:E.
  - destruct IH as (run & H1 & H2 & H3). exists (c :: run). simpl.
    rewrite E, H2. repeat split; [f_equal|]; assumption.
  - exists []. simpl. auto.
Qed.

Lemma forallb_space_repeat (run : gostring) :
  forallb (ContainsByte [" "]) run = true -> run = repeat " " (length run).
Proof.
  induction run as [|c run IH]; simpl; [reflexivity|].
  intros H. apply andb_true_iff in H. destruct H as [H1 H2].
  rewrite orb_false_r in H1. apply byte_eqb_eq in H1. subst c.
  f_equal. auto.
Qed.

(** What [TrimRight(s, " ")] is: [s] without its trailing spaces. *)
Lemma TrimRight_split (s : gostring) :
  exists k,
    s = TrimRight s [" "] ++ repeat " " k
    /\ stopsAt (ContainsByte [" "]) (rev (TrimRight s [" "])).
Proof.
  unfold TrimRight.
  destruct (TrimLeft_split (rev s) [" "]) as (run & H1 & H2 & H3).
  exists (length run). rewrite rev_involutive. split; [|assumption].
  apply forallb_space_repeat in H2.
  rewrite <- (rev_involutive s) at 1. rewrite H1 at 1.
  rewrite rev_app_distr. f_equal.
  rewrite H2 at 1. apply rev_repeat.
Qed.



Example parseValue_colon_example :
  parseValue (lit "K: v  //c") 1 = Ok (lit "v", 6).
Proof. reflexivity. Qed.

(** * The typed accessors *)

Lemma Atoi_empty : Atoi [] = None.
Proof. reflexivity. Qed.

Example Atoi_examples :
  Atoi (lit "42") = Some 42%Z /\ Atoi (lit "-7") = Some (-7)%Z
  /\ Atoi (lit "+7") = Some 7%Z /\ Atoi (lit "4x") = None
  /\ Atoi (lit "-") = None /\ Atoi (lit "1_0") = None
  /\ Atoi (lit "9223372036854775807") = Some maxInt
  /\ Atoi (lit "9223372036854775808") = None
  /\ Atoi (lit "-9223372036854775808") = Some minInt.
Proof. vm_compute. repeat split. Qed.

Example TrimSpace_examples :
  TrimSpace (lit "  a b ") = lit "a b"
  /\ TrimSpace [TAB; "x"; CR; LF] = ["x"]
  /\ TrimSpace [ascii_of_nat 194; ascii_of_nat 160; "x"; ascii_of_nat 226;
                ascii_of_nat 128; ascii_of_nat 168] = ["x"]
  /\ TrimSpace [ascii_of_nat 160; "x"] = [ascii_of_nat 160; "x"].
Proof. vm_compute. repeat split. Qed.

(** C2, as the spec has it, fails: [String] on a node that is there
    returns the trimmed value also when it is empty. *)
Lemma String_empty_value_not_fallback :
  String_ (Some (mkNode (lit "Driver") (lit "  ") [])) (lit "default")
  <> lit "default".
Proof. vm_compute. discriminate. Qed.

(** C2, amended.  The accessors return the fallback on a nil node.  On a
    node, with [v] its value trimmed of white space: [String] returns [v],
    empty or not; [Bool] returns [true] on ["true"], [false] on ["false"]
    and the fallback otherwise; [Int] and [Float] return what [Atoi] and
    [ParseFloat] make of [v], and the fallback when they fail, as they do
    on the empty string. *)
Theorem accessors_fallback (float64 : Type)
    (ParseFloat : gostring -> option float64) :
  ParseFloat [] = None ->
  (forall fs fb fi ff,
      String_ None fs = fs /\ Bool_ None fb = fb /\ Int_ None fi = fi
      /\ Float_ float64 ParseFloat None ff = ff)
  /\ (forall n fs, String_ (Some n) fs = TrimSpace (Value n))
  /\ (forall n fb,
        (TrimSpace (Value n) = lit "true" -> Bool_ (Some n) fb = true)
        /\ (TrimSpace (Value n) = lit "false" -> Bool_ (Some n) fb = false)
        /\ (TrimSpace (Value n) <> lit "true" ->
            TrimSpace (Value n) <> lit "false" -> Bool_ (Some n) fb = fb)
        /\ (TrimSpace (Value n) = [] -> Bool_ (Some n) fb = fb))
  /\ (forall n fi,
        (forall i, Atoi (TrimSpace (Value n)) = Some i -> Int_ (Some n) fi = i)
        /\ (Atoi (TrimSpace (Value n)) = None -> Int_ (Some n) fi = fi)
        /\ (TrimSpace (Value n) = [] -> Int_ (Some n) fi = fi))
  /\ (forall n ff,
        (forall f, ParseFloat (TrimSpace (Value n)) = Some f ->
                   Float_ float64 ParseFloat (Some n) ff = f)
        /\ (ParseFloat (TrimSpace (Value n)) = None ->
            Float_ float64 ParseFloat (Some n) ff = ff)
        /\ (TrimSpace (Value n) = [] ->
            Float_ float64 ParseFloat (Some n) ff = ff)).
Proof.
  intros Hempty. repeat split.
  - intros H. unfold Bool_. cbv zeta. rewrite H. reflexivity.
  - intros H. unfold Bool_. cbv zeta. rewrite H. reflexivity.
  - intros H1 H2. unfold Bool_. cbv zeta.
    apply gostring_eqb_neq in H1, H2. rewrite H1, H2. reflexivity.
  - intros H. unfold Bool_. cbv zeta. rewrite H. reflexivity.
  - intros i H. unfold Int_. cbv zeta. rewrite H. reflexivity.
  - intros H. unfold Int_. cbv zeta. rewrite H. reflexivity.
  - intros H. unfold Int_. cbv zeta. rewrite H. reflexivity.
  - intros f H. unfold Float_. cbv zeta. rewrite H. reflexivity.
  - intros H. unfold Float_. cbv zeta. rewrite H. reflexivity.
  - intros H. unfold Float_. cbv zeta. rewrite H, Hempty. reflexivity.
Qed.

Lemma accessors_fallback_witness :
  Atoi [] = None
  /\ Float_ Z Atoi (Some (mkNode (lit "Volume") (lit "  ") [])) 5%Z = 5%Z
  /\ Int_ (Some (mkNode (lit "Multiplier") (lit " 2 ") [])) 0%Z = 2%Z
  /\ String_ (Some (mkNode (lit "Driver") (lit "  ") [])) (lit "default") = [].
Proof.
  split; [reflexivity|].
  destruct (accessors_fallback Z Atoi eq_refl) as (_ & Hs & _ & Hi & Hf).
  split; [apply Hf; reflexivity|].
  split; [apply Hi; reflexivity|].
  apply Hs.
Defined.

(** * The parser: errors, progress and fuel *)

Lemma parseValue_cases (line : gostring) (pos : nat) :
  (exists v p, parseValue line pos = Ok (v, p) /\ pos <= p)
  \/ parseValue line pos = Err (UnclosedQuote line).
Proof.
  unfold parseValue.
  destruct (nth_error line pos) as [c|]; [|left; eauto].
  destruct (byte_eqb c ":").
  - left. do 2 eexists. split; [reflexivity|].
    unfold scanComment.
    destruct (nth_error line (S pos)) as [c'|]; [destruct (byte_eqb c' " ")|]; lia.
  - destruct (byte_eqb c "="); [|left; eauto].
    destruct (nth_error line (S pos)) as [q|]; [|left; eauto].
    destruct (byte_eqb q QUOTE).
    + match goal with |- context [if ?b then _ else _] => destruct b end;
        [right; reflexivity|].
      left. do 2 eexists. split; [reflexivity|].
      pose proof (scanWhile_ge (fun c => negb (byte_eqb c QUOTE)) line
                    (S (S pos))).
      lia.
    + left. do 2 eexists. split; [reflexivity|].
      match goal with |- _ <= scanWhile ?p ?l ?n =>
        pose proof (scanWhile_ge p l n) end.
      lia.
Qed.

Lemma parseValue_opt_cases (line : gostring) (pos : nat) :
  (exists v p,
      (if pos <? length line then parseValue line pos else Ok ([], pos))
      = Ok (v, p) /\ pos <= p)
  \/ (if pos <? length line then parseValue line pos else Ok ([], pos))
     = Err (UnclosedQuote line).
Proof.
  destruct (pos <? length line); [apply parseValue_cases|left; eauto].
Qed.

Lemma parseAttrs_cases (fuel : nat) (line : gostring) :
  forall pos children,
    length line - pos < fuel ->
    (exists cs, parseAttrs fuel line pos children = Ok cs)
    \/ parseAttrs fuel line pos children = Err (UnclosedQuote line).
Proof.
  induction fuel as [|fuel IH]; intros pos children Hfuel.
  - lia.
  - cbn [parseAttrs].
    destruct (length line <=? pos) eqn:E1; [left; eauto|].
    destruct (length line <=? scanWhile (fun c => byte_eqb c " ") line pos)
      eqn:E2; [left; eauto|].
    match goal with |- context [if ?b then Ok children else _] =>
      destruct b end; [left; eauto|].
    match goal with |- context [if ?b then Ok children else _] =>
      destruct b eqn:E3 end; [left; eauto|].
    apply Nat.eqb_neq in E3.
    set (p1 := scanWhile (fun c => byte_eqb c " ") line pos) in *.
    set (p2 := scanWhile isValidNameChar line p1) in *.
    pose proof (scanWhile_ge (fun c => byte_eqb c " ") line pos).
    pose proof (scanWhile_ge isValidNameChar line p1).
    destruct (parseValue_opt_cases line p2) as [(v & p & -> & Hp)| ->].
    + cbn [bind]. apply IH. apply Nat.leb_gt in E1. lia.
    + right. reflexivity.
Qed.

Lemma parseHead_cases (line : gostring) (depth : nat) :
  (exists node, parseHead line depth = Ok node)
  \/ parseHead line depth = Err (InvalidNodeName line)
  \/ parseHead line depth = Err (UnclosedQuote line).
Proof.
  unfold parseHead.
  match goal with |- context [if ?b then Err _ else _] => destruct b end;
    [right; left; reflexivity|].
  destruct (parseValue_opt_cases line (scanWhile isValidNameChar line depth))
    as [(v & p & -> & Hp)| ->]; [|right; right; reflexivity].
  cbn [bind].
  destruct (parseAttrs_cases (S (length line)) line p [] ltac:(lia))
    as [[cs ->]| ->].
  - left. cbn [bind]. eauto.
  - right. right. reflexivity.
Qed.

Lemma parseNode_S (fuel : nat) (lines : list gostring) (index : nat)
    (parentDepth : Z) :
  parseNode (S fuel) lines index parentDepth
  = match nth_error lines index with
    | None => Err UnexpectedEndOfInput
    | Some line =>
        if (Z.of_nat (readDepth line) <=? parentDepth)%Z && (0 <=? parentDepth)%Z
        then Err (InvalidIndentation line)
        else do node <- parseHead line (readDepth line);
             parseChildren fuel lines (S index) (readDepth line) node
    end.
Proof. reflexivity. Qed.

Lemma parseChildren_S (fuel : nat) (lines : list gostring) (index depth : nat)
    (node : Node) :
  parseChildren (S fuel) lines index depth node
  = match nth_error lines index with
    | None => Ok (node, index)
    | Some next =>
        if readDepth next <=? depth then Ok (node, index) else
        if HasPrefix (TrimLeft next [" "; TAB]) [":"] then
          parseChildren fuel lines (S index) depth
            (withValue node
               (appendContinuation (Value node)
                  (TrimPrefix (TrimPrefix (TrimLeft next [" "; TAB]) [":"])
                     [" "])))
        else
          do (child, index') <- parseNode fuel lines index (Z.of_nat depth);
          parseChildren fuel lines index' depth (appendChild node child)
    end.
Proof. reflexivity. Qed.

Lemma parseTop_S (fuel : nat) (lines : list gostring) (index : nat)
    (root : Node) :
  parseTop (S fuel) lines index root
  = if index <? length lines then
      do (node, index') <- parseNode fuel lines index (-1)%Z;
      parseTop fuel lines index' (appendChild root node)
    else Ok root.
Proof. reflexivity. Qed.

(** The cursor only moves forward, and never past the last line. *)
Lemma parse_progress (fuel : nat) (lines : list gostring) :
  (forall index pd node index',
      parseNode fuel lines index pd = Ok (node, index') ->
      index < index' <= length lines)
  /\ (forall index depth node node' index',
        parseChildren fuel lines index depth node = Ok (node', index') ->
        index <= length lines ->
        index <= index' <= length lines).
Proof.
  induction fuel as [|fuel [IHn IHc]]; [split; intros; discriminate|].
  split.
  - intros index pd node index'. rewrite parseNode_S.
    destruct (nth_error lines index) as [line|] eqn:E; [|discriminate].
    assert (index < length lines) by (apply nth_error_Some; congruence).
    match goal with |- context [if ?b then Err _ else _] => destruct b end;
      [discriminate|].
    destruct (parseHead line (readDepth line)) as [head| |]; try discriminate.
    cbn [bind]. intros H1. apply IHc in H1; lia.
  - intros index depth node node' index'. rewrite parseChildren_S.
    destruct (nth_error lines index) as [next|] eqn:E.
    + assert (index < length lines) by (apply nth_error_Some; congruence).
      destruct (readDepth next <=? depth);
        [intros H1 _; injection H1 as <- <-; lia|].
      destruct (HasPrefix (TrimLeft next [" "; TAB]) [":"]).
      * intros H1 _. apply IHc in H1; lia.
      * destruct (parseNode fuel lines index (Z.of_nat depth))
          as [[child ix]| |] eqn:En; try discriminate.
        cbn [bind]. intros H1 _. apply IHn in En. apply IHc in H1; lia.
    + intros H1 ?. injection H1 as <- <-. lia.
Qed.

Lemma parse_errors (fuel : nat) (lines : list gostring) :
  (forall index pd e,
      parseNode fuel lines index pd = Err e ->
      calledInLoop lines index pd -> lineError lines e)
  /\ (forall index depth node e,
        parseChildren fuel lines index depth node = Err e ->
        lineError lines e).
Proof.
  induction fuel as [|fuel [IHn IHc]]; [split; intros; discriminate|].
  split.
  - intros index pd e. rewrite parseNode_S. intros H (line & Hline & Hpd).
    rewrite Hline in H.
    assert (Hcheck : (Z.of_nat (readDepth line) <=? pd)%Z && (0 <=? pd)%Z
                     = false).
    { apply andb_false_iff. destruct Hpd as [->|Hpd]; [right; reflexivity|].
      left. apply Z.leb_gt. exact Hpd. }
    rewrite Hcheck in H.
    destruct (parseHead_cases line (readDepth line)) as [[head Hh]|[Hh|Hh]];
      rewrite Hh in H; cbn [bind] in H.
    + eapply IHc; eassumption.
    + injection H as <-. exists line. split; [eapply nth_error_In; eauto|auto].
    + injection H as <-. exists line. split; [eapply nth_error_In; eauto|auto].
  - intros index depth node e. rewrite parseChildren_S.
    destruct (nth_error lines index) as [next|] eqn:E; [|discriminate].
    destruct (readDepth next <=? depth) eqn:Ed; [discriminate|].
    destruct (HasPrefix (TrimLeft next [" "; TAB]) [":"]).
    + apply IHc.
    + destruct (parseNode fuel lines index (Z.of_nat depth))
        as [[child ix]| |] eqn:En; cbn [bind]; try discriminate.
      * apply IHc.
      * intros H. injection H as <-. eapply IHn; [eassumption|].
        exists next. split; [assumption|]. right.
        apply Nat.leb_gt in Ed. lia.
Qed.

Lemma parseTop_errors (fuel : nat) (lines : list gostring) :
  forall index root e,
    parseTop fuel lines index root = Err e -> lineError lines e.
Proof.
  induction fuel as [|fuel IH]; intros index root e; [discriminate|].
  rewrite parseTop_S.
  destruct (index <? length lines) eqn:E; [|discriminate].
  destruct (parseNode fuel lines index (-1)%Z) as [[node ix]| |] eqn:En;
    cbn [bind]; try discriminate.
  - apply IH.
  - intros H. injection H as <-.
    eapply (proj1 (parse_errors fuel lines)); [eassumption|].
    apply Nat.ltb_lt in E.
    destruct (nth_error lines index) as [line|] eqn:El.
    + exists line. auto.
    + apply nth_error_None in El. lia.
Qed.

(** Enough fuel: twice the number of lines left. *)
Lemma parse_fuel (fuel : nat) (lines : list gostring) :
  (forall index pd,
      index < length lines -> 2 * (length lines - index) <= fuel ->
      parseNode fuel lines index pd <> OutOfFuel)
  /\ (forall index depth node,
        index <= length lines -> 2 * (length lines - index) + 1 <= fuel ->
        parseChildren fuel lines index depth node <> OutOfFuel).
Proof.
  induction fuel as [|fuel [IHn IHc]]; [split; intros; lia|].
  split.
  - intros index pd Hi Hf. rewrite parseNode_S.
    destruct (nth_error lines index) as [line|] eqn:E; [|discriminate].
    match goal with |- context [if ?b then Err _ else _] => destruct b end;
      [discriminate|].
    destruct (parseHead_cases line (readDepth line)) as [[head Hh]|[Hh|Hh]];
      rewrite Hh; cbn [bind]; try discriminate.
    apply IHc; lia.
  - intros index depth node Hi Hf. rewrite parseChildren_S.
    destruct (nth_error lines index) as [next|] eqn:E; [|discriminate].
    assert (index < length lines) by (apply nth_error_Some; congruence).
    destruct (readDepth next <=? depth); [discriminate|].
    destruct (HasPrefix (TrimLeft next [" "; TAB]) [":"]).
    + apply IHc; lia.
    + pose proof (IHn index (Z.of_nat depth) ltac:(lia) ltac:(lia)) as Hn.
      destruct (parseNode fuel lines index (Z.of_nat depth))
        as [[child ix]| |] eqn:En; cbn [bind]; try discriminate;
        [|contradiction].
      apply (proj1 (parse_progress fuel lines)) in En.
      apply IHc; lia.
Qed.

Lemma parseTop_fuel (fuel : nat) (lines : list gostring) :
  forall index root,
    index <= length lines -> 2 * (length lines - index) + 1 <= fuel ->
    parseTop fuel lines index root <> OutOfFuel.
Proof.
  induction fuel as [|fuel IH]; intros index root Hi Hf; [lia|].
  rewrite parseTop_S.
  destruct (index <? length lines) eqn:E; [|discriminate].
  apply Nat.ltb_lt in E.
  pose proof (proj1 (parse_fuel fuel lines) index (-1)%Z E ltac:(lia)) as Hn.
  destruct (parseNode fuel lines index (-1)%Z) as [[node ix]| |] eqn:En;
    cbn [bind]; try discriminate; [|contradiction].
  apply (proj1 (parse_progress fuel lines)) in En.
  apply IH; lia.
Qed.

(** [Parse] returns: the fuel it passes on is never used up. *)
Theorem Parse_total (data : gostring) : Parse data <> OutOfFuel.
Proof.
  unfold Parse.
  destruct (length (normalizeLines data) =? 0); [discriminate|].
  pose proof (parseTop_fuel (2 * length (normalizeLines data) + 1)
                (normalizeLines data) 0 emptyNode ltac:(lia) ltac:(lia)) as H.
  destruct (parseTop _ _ _ _); cbn [bind]; try discriminate. contradiction.
Qed.

(** The errors of [Parse]: an invalid node name or an unclosed quote, on
    one of the normalized lines. *)
Lemma Parse_errors (data : gostring) (e : error) :
  Parse data = Err e -> lineError (normalizeLines data) e.
Proof.
  unfold Parse.
  destruct (length (normalizeLines data) =? 0); [discriminate|].
  destruct (parseTop _ _ _ _) eqn:E; cbn [bind]; try discriminate.
  intros H. injection H as <-. eapply parseTop_errors. eassumption.
Qed.

(** The end check of [parseNode]. *)
Lemma parseNode_end_check (fuel : nat) (lines : list gostring) (index : nat)
    (pd : Z) :
  length lines <= index ->
  parseNode (S fuel) lines index pd = Err UnexpectedEndOfInput.
Proof.
  intros H. rewrite parseNode_S.
  apply nth_error_None in H. rewrite H. reflexivity.
Qed.

(** Nor does [Parse] ever return [InvalidIndentation]: the child loop
    calls [parseNode] on deeper lines only, so the depth check is never
    the one to fail. *)
Lemma Parse_never_InvalidIndentation (data line : gostring) :
  Parse data <> Err (InvalidIndentation line).
Proof.
  intros H. apply Parse_errors in H.
  destruct H as (l & _ & [H|H]); discriminate.
Qed.

(** C9. [Parse] never returns [UnexpectedEndOfInput]: [parseNode] is only
    called on a line that exists. *)
Theorem Parse_never_UnexpectedEndOfInput (data : gostring) :
  Parse data <> Err UnexpectedEndOfInput.
Proof.
  intros H. apply Parse_errors in H.
  destruct H as (line & _ & [H|H]); discriminate.
Qed.

(** * Continuation lines *)

Lemma isIndent_cutset (c : ascii) : ContainsByte [" "; TAB] c = isIndent c.
Proof.
  unfold ContainsByte, isIndent. simpl.
  destruct (byte_eqb c " "), (byte_eqb c TAB); reflexivity.
Qed.

Lemma TrimLeft_indent (line : gostring) :
  TrimLeft line [" "; TAB] = skipn (readDepth line) line.
Proof.
  unfold readDepth. induction line as [|c line IH]; [reflexivity|].
  cbn [TrimLeft span]. rewrite isIndent_cutset.
  destruct (isIndent c); [exact IH|reflexivity].
Qed.

Lemma TrimPrefix_space (rest : gostring) :
  TrimPrefix rest [" "] = stripOneSpace rest.
Proof.
  unfold TrimPrefix, stripOneSpace. destruct rest as [|c rest]; [reflexivity|].
  simpl. rewrite andb_true_r. reflexivity.
Qed.

Lemma parseChildren_continuation (fuel : nat) (lines : list gostring)
    (index depth : nat) (node : Node) (next rest : gostring) :
  nth_error lines index = Some next ->
  depth < readDepth next ->
  skipn (readDepth next) next = ":" :: rest ->
  parseChildren (S fuel) lines index depth node
  = parseChildren fuel lines (S index) depth
      (withValue node
         (match Value node with
          | [] => stripOneSpace rest
          | _ => Value node ++ [LF] ++ stripOneSpace rest
          end)).
Proof.
  intros Hnext Hdepth Hrest. rewrite parseChildren_S, Hnext.
  apply Nat.leb_gt in Hdepth. rewrite Hdepth.
  rewrite TrimLeft_indent, Hrest.
  cbn [HasPrefix]. rewrite byte_eqb_refl. cbn [andb].
  unfold TrimPrefix at 2. cbn [HasPrefix]. rewrite byte_eqb_refl.
  cbn [andb length skipn]. rewrite TrimPrefix_space.
  unfold appendContinuation.
  destruct (Value node); cbn [isEmpty app]; [reflexivity|].
  rewrite <- app_assoc. reflexivity.
Qed.

(** C7. In the child loop, a line deeper than the node whose first byte
    after the indentation is a colon is a continuation line: the colon
    goes, one space after it goes if there is one, and what is left
    becomes the value if the value is empty and is appended to it after a
    newline otherwise; the loop goes on with the next line.  So the three
    lines [Desc], [  : Line 1], [  : Line 2] make one node [Desc] with
    the value [Line 1], newline, [Line 2]. *)
Theorem continuation_lines :
  (forall fuel lines index depth node next rest,
      nth_error lines index = Some next ->
      depth < readDepth next ->
      skipn (readDepth next) next = ":" :: rest ->
      parseChildren (S fuel) lines index depth node
      = parseChildren fuel lines (S index) depth
          (withValue node
             (match Value node with
              | [] => stripOneSpace rest
              | _ => Value node ++ [LF] ++ stripOneSpace rest
              end)))
  /\ Parse (lit "Desc" ++ [LF] ++ lit "  : Line 1" ++ [LF] ++ lit "  : Line 2")
     = Ok (mkDocument
             (Some (mkNode [] []
                      [mkNode (lit "Desc") (lit "Line 1" ++ [LF] ++ lit "Line 2")
                              []]))).
Proof.
  split; [apply parseChildren_continuation|reflexivity].
Qed.

Lemma continuation_lines_witness :
  let lines := [lit "Desc: a"; lit "   :  b"] in
  nth_error lines 1 = Some (lit "   :  b")
  /\ 0 < readDepth (lit "   :  b")
  /\ parseChildren 2 lines 1 0 (mkNode (lit "Desc") (lit "a") [])
     = parseChildren 1 lines 2 0
         (mkNode (lit "Desc") (lit "a" ++ [LF] ++ lit " b") []).
Proof.
  split; [reflexivity|]. split; [vm_compute; lia|].
  apply (proj1 continuation_lines 1 [lit "Desc: a"; lit "   :  b"] 1 0
           (mkNode (lit "Desc") (lit "a") []) (lit "   :  b") (lit "  b"));
    [reflexivity|vm_compute; lia|reflexivity].
Defined.

(** * The path API *)

Lemma findChild_Some (children : list Node) (part : gostring) (k : nat)
    (child : Node) :
  findChild children part = Some (k, child) ->
  nth_error children k = Some child /\ Name child = part
  /\ k < length children.
Proof.
  revert k. induction children as [|c cs IH]; intros k; simpl; [discriminate|].
  destruct (gostring_eqb (Name c) part) eqn:E.
  - intros H. injection H as <- <-. apply gostring_eqb_eq in E.
    simpl. repeat split; auto. lia.
  - destruct (findChild cs part) as [[i found]|]; [|discriminate].
    intros H. injection H as <- <-.
    destruct (IH i eq_refl) as (H1 & H2 & H3). simpl. repeat split; auto. lia.
Qed.

Lemma findChild_replaceAt (children : list Node) (part : gostring) (k : nat)
    (child child' : Node) :
  findChild children part = Some (k, child) -> Name child' = part ->
  findChild (replaceAt children k child') part = Some (k, child').
Proof.
  revert k. induction children as [|c cs IH]; intros k; simpl; [discriminate|].
  destruct (gostring_eqb (Name c) part) eqn:E.
  - intros H Hn. injection H as <- <-. simpl.
    apply gostring_eqb_eq in Hn. rewrite Hn. reflexivity.
  - destruct (findChild cs part) as [[i found]|] eqn:F; [|discriminate].
    intros H Hn. injection H as <- <-. simpl. rewrite E.
    rewrite (IH i eq_refl Hn). reflexivity.
Qed.

Lemma findChild_append (children : list Node) (part : gostring) (child : Node) :
  findChild children part = None -> Name child = part ->
  findChild (children ++ [child]) part = Some (length children, child).
Proof.
  induction children as [|c cs IH]; simpl; intros H Hn.
  - apply gostring_eqb_eq in Hn. rewrite Hn. reflexivity.
  - destruct (gostring_eqb (Name c) part); [discriminate|].
    destruct (findChild cs part) as [[i found]|]; [discriminate|].
    rewrite (IH eq_refl Hn). reflexivity.
Qed.

Lemma replaceAt_append (children : list Node) (child child' : Node) :
  replaceAt (children ++ [child]) (length children) child'
  = children ++ [child'].
Proof. induction children as [|c cs IH]; simpl; congruence. Qed.

Lemma replaceAt_replaceAt (children : list Node) (k : nat) (c c' : Node) :
  replaceAt (replaceAt children k c) k c' = replaceAt children k c'.
Proof.
  revert k. induction children as [|x cs IH]; intros [|k]; simpl; congruence.
Qed.

Lemma replaceAt_same (children : list Node) (k : nat) (c : Node) :
  nth_error children k = Some c -> replaceAt children k c = children.
Proof.
  revert k. induction children as [|x cs IH]; intros [|k]; simpl;
    try discriminate.
  - intros H. injection H as ->. reflexivity.
  - intros H. rewrite IH by assumption. reflexivity.
Qed.

Lemma length_replaceAt (children : list Node) (k : nat) (c : Node) :
  length (replaceAt children k c) = length children.
Proof.
  revert k. induction children as [|x cs IH]; intros [|k]; simpl; auto.
Qed.

Lemma nth_error_replaceAt (children : list Node) (k j : nat) (c : Node) :
  k < length children ->
  nth_error (replaceAt children k c) j
  = if j =? k then Some c else nth_error children j.
Proof.
  revert k j. induction children as [|x cs IH]; intros [|k] [|j]; simpl;
    try lia; auto.
  intros H. apply IH. lia.
Qed.

Lemma foundOrNew_spec (current : Node) (part : gostring) :
  let '(k, found, children) := foundOrNew current part in
  nth_error children k = Some found /\ Name found = part
  /\ k < length children
  /\ (forall found', Name found' = part ->
        findChild (replaceAt children k found') part = Some (k, found')).
Proof.
  unfold foundOrNew.
  destruct (findChild (Children current) part) as [[k found]|] eqn:F.
  - destruct (findChild_Some _ _ _ _ F) as (H1 & H2 & H3).
    repeat split; auto. intros. eapply findChild_replaceAt; eauto.
  - repeat split.
    + rewrite nth_error_app2 by lia. rewrite Nat.sub_diag. reflexivity.
    + rewrite length_app. simpl. lia.
    + intros found' Hn. rewrite replaceAt_append.
      apply findChild_append; assumption.
Qed.

Lemma segments_eq (path : gostring) :
  segments path = filter nonEmpty (Split path "/").
Proof. reflexivity. Qed.

Lemma getParts_segments (parts : list gostring) (current : Node) :
  getParts parts current = getSegments (filter nonEmpty parts) current.
Proof.
  revert current. induction parts as [|part parts IH]; intros current;
    [reflexivity|].
  cbn [getParts filter]. unfold nonEmpty at 1.
  destruct (isEmpty part); cbn [negb]; [apply IH|].
  cbn [getSegments].
  destruct (findChild (Children current) part) as [[k child]|]; auto.
Qed.

Lemma last_cons_cons {A} (x y : A) (l : list A) (d : A) :
  last (x :: y :: l) d = last (y :: l) d.
Proof. reflexivity. Qed.

Lemma filter_last_nonEmpty (parts : list gostring) :
  last parts [] <> [] -> filter nonEmpty parts <> [].
Proof.
  induction parts as [|part parts IH]; [simpl; congruence|].
  destruct parts as [|part' parts].
  - simpl. intros H. unfold nonEmpty.
    destruct part; [congruence|]. simpl. discriminate.
  - rewrite last_cons_cons. intros H. specialize (IH H).
    cbn [filter] in *. destruct (nonEmpty part); [discriminate|exact IH].
Qed.

Lemma setParts_segments (parts : list gostring) :
  forall i len value current,
    i + length parts = len -> last parts [] <> [] ->
    setParts parts i len value current
    = setSegments (filter nonEmpty parts) value current.
Proof.
  induction parts as [|part parts IH]; intros i len value current Hlen Hlast;
    [simpl in Hlast; congruence|].
  cbn [setParts filter]. unfold nonEmpty at 1.
  destruct (isEmpty part) eqn:E; cbn [negb].
  - destruct parts as [|part' parts].
    + apply isEmpty_true in E. subst part. simpl in Hlast. congruence.
    + apply IH; [simpl in *; lia|]. rewrite last_cons_cons in Hlast. exact Hlast.
  - cbn [setSegments].
    destruct (foundOrNew current part) as [[k found] children].
    destruct parts as [|part' parts].
    + simpl in Hlen. replace (i =? len - 1) with true
        by (symmetry; apply Nat.eqb_eq; lia).
      reflexivity.
    + replace (i =? len - 1) with false
        by (symmetry; apply Nat.eqb_neq; simpl in Hlen; lia).
      rewrite last_cons_cons in Hlast.
      pose proof (filter_last_nonEmpty _ Hlast) as Hne.
      rewrite (IH (S i) len value found) by (simpl in *; lia || assumption).
      destruct (filter nonEmpty (part' :: parts)); [congruence|reflexivity].
Qed.

Lemma removeParts_segments (parts : list gostring) :
  forall current,
    last parts [] <> [] ->
    removeParts parts current = removeSegments (filter nonEmpty parts) current.
Proof.
  induction parts as [|part parts IH]; intros current Hlast;
    [simpl in Hlast; congruence|].
  destruct parts as [|part' parts].
  - simpl in Hlast. cbn [removeParts filter]. unfold nonEmpty.
    destruct part; [congruence|]. reflexivity.
  - rewrite last_cons_cons in Hlast.
    pose proof (filter_last_nonEmpty _ Hlast) as Hne.
    change (removeParts (part :: part' :: parts) current)
      with (if isEmpty part then removeParts (part' :: parts) current
            else match findChild (Children current) part with
                 | Some (k, child) =>
                     let '(child, removed) :=
                       removeParts (part' :: parts) child in
                     (withChildren current
                        (replaceAt (Children current) k child), removed)
                 | None => (current, false)
                 end).
    change (filter nonEmpty (part :: part' :: parts))
      with (if nonEmpty part then part :: filter nonEmpty (part' :: parts)
            else filter nonEmpty (part' :: parts)).
    unfold nonEmpty at 1.
    destruct (isEmpty part); cbn [negb]; [apply IH; assumption|].
    specialize (IH current Hlast) as IHc.
    remember (filter nonEmpty (part' :: parts)) as segs eqn:F.
    destruct segs as [|seg segs]; [congruence|].
    cbn [removeSegments].
    destruct (findChild (Children current) part) as [[k child]|];
      [|reflexivity].
    rewrite IH by assumption. reflexivity.
Qed.

(** With a slash at the end, [Remove] looks for a child without a name
    under the node the path leads to. *)
Lemma removeParts_trailing (parts : list gostring) :
  forall current,
    parts <> [] -> last parts [] = [] ->
    (forall target, getParts parts current = Some target ->
                    findChild (Children target) [] = None) ->
    removeParts parts current = (current, false).
Proof.
  induction parts as [|part parts IH]; intros current Hne Hlast Hnames;
    [congruence|].
  destruct parts as [|part' parts].
  - simpl in Hlast. subst part. cbn [removeParts].
    rewrite (Hnames current); reflexivity.
  - rewrite last_cons_cons in Hlast.
    change (removeParts (part :: part' :: parts) current)
      with (if isEmpty part then removeParts (part' :: parts) current
            else match findChild (Children current) part with
                 | Some (k, child) =>
                     let '(child, removed) :=
                       removeParts (part' :: parts) child in
                     (withChildren current
                        (replaceAt (Children current) k child), removed)
                 | None => (current, false)
                 end).
    cbn [getParts] in Hnames.
    destruct (isEmpty part).
    + apply IH; [discriminate|assumption|assumption].
    + destruct (findChild (Children current) part) as [[k child]|] eqn:F;
        [|reflexivity].
      rewrite (IH child) by (discriminate || assumption).
      destruct (findChild_Some _ _ _ _ F) as (H1 & _ & _).
      rewrite replaceAt_same by assumption.
      destruct current. reflexivity.
Qed.

(** * [Set]: what it returns, what [Get] finds after it, and a second call *)

Lemma setParts_Name (parts : list gostring) :
  forall i len value current,
    Name (fst (setParts parts i len value current)) = Name current.
Proof.
  induction parts as [|part parts IH]; intros i len value current;
    [reflexivity|].
  cbn [setParts]. destruct (isEmpty part); [apply IH|].
  destruct (foundOrNew current part) as [[k found] children].
  destruct (i =? len - 1); [reflexivity|].
  destruct (setParts parts (S i) len value found). reflexivity.
Qed.

Lemma setSegments_Name (segs : list gostring) (value : gostring)
    (current : Node) :
  Name (fst (setSegments segs value current)) = Name current.
Proof.
  destruct segs as [|seg segs]; [reflexivity|].
  cbn [setSegments].
  destruct (foundOrNew current seg) as [[k found] children].
  destruct segs; [reflexivity|].
  destruct (setSegments _ value found). reflexivity.
Qed.

(** After [Set] on a path of segments, [Get] on the same segments finds
    the node that [Set] returned, and its value is the one set. *)
Lemma setSegments_getSegments (segs : list gostring) (value : gostring) :
  forall current current' target,
    segs <> [] ->
    setSegments segs value current = (current', target) ->
    exists node,
      getSegments segs current' = Some node
      /\ Value node = value
      /\ nodeAt current' target = Some node.
Proof.
  induction segs as [|seg segs IH]; intros current current' target Hne Hset;
    [congruence|].
  cbn [setSegments] in Hset.
  pose proof (foundOrNew_spec current seg) as Hspec.
  destruct (foundOrNew current seg) as [[k found] children].
  destruct Hspec as (Hnth & Hname & Hk & Hfind).
  destruct segs as [|seg' segs].
  - injection Hset as <- <-. exists (withValue found value).
    cbn [getSegments withChildren Children nodeAt].
    rewrite (Hfind (withValue found value)) by exact Hname.
    rewrite nth_error_replaceAt, Nat.eqb_refl by assumption. auto.
  - destruct (setSegments (seg' :: segs) value found) as [found' returned]
      eqn:Hrec.
    injection Hset as <- <-.
    destruct (IH found found' returned ltac:(discriminate) Hrec)
      as (node & Hget & Hval & Hat).
    exists node.
    assert (Hname' : Name found' = seg).
    { pose proof (setSegments_Name (seg' :: segs) value found) as Hn.
      rewrite Hrec in Hn. simpl in Hn. congruence. }
    change (getSegments (seg :: seg' :: segs) ?c)
      with (match findChild (Children c) seg with
            | Some (_, child) => getSegments (seg' :: segs) child
            | None => None
            end).
    cbn [withChildren Children nodeAt].
    rewrite (Hfind found' Hname').
    rewrite nth_error_replaceAt, Nat.eqb_refl by assumption. auto.
Qed.

(** A second [Set] with the same path and value changes nothing and
    returns the same node, whatever the path. *)
Lemma setParts_idempotent (parts : list gostring) :
  forall i len value current current' target,
    setParts parts i len value current = (current', target) ->
    setParts parts i len value current' = (current', target).
Proof.
  induction parts as [|part parts IH];
    intros i len value current current' target Hset.
  - simpl in *. injection Hset as <- <-. reflexivity.
  - cbn [setParts] in *. destruct (isEmpty part); [eapply IH; eassumption|].
    pose proof (foundOrNew_spec current part) as Hspec.
    destruct (foundOrNew current part) as [[k found] children].
    destruct Hspec as (Hnth & Hname & Hk & Hfind).
    destruct (i =? len - 1).
    + injection Hset as <- <-.
      unfold foundOrNew. cbn [withChildren Children].
      rewrite (Hfind (withValue found value)) by exact Hname.
      rewrite replaceAt_replaceAt. reflexivity.
    + destruct (setParts parts (S i) len value found) as [found' returned]
        eqn:Hrec.
      injection Hset as <- <-.
      assert (Hname' : Name found' = part).
      { pose proof (setParts_Name parts (S i) len value found) as Hn.
        rewrite Hrec in Hn. simpl in Hn. congruence. }
      unfold foundOrNew. cbn [withChildren Children].
      rewrite (Hfind found' Hname').
      rewrite (IH _ _ _ _ _ _ Hrec).
      rewrite replaceAt_replaceAt. reflexivity.
Qed.

Lemma lastPart_nonEmpty_segments (path : gostring) :
  lastPart path <> [] -> segments path <> [].
Proof. apply filter_last_nonEmpty. Qed.

Lemma Set_segments (n : Node) (path value : gostring) :
  lastPart path <> [] ->
  Set_ (Some n) path value = Some (setSegments (segments path) value n).
Proof.
  intros H. unfold Set_. f_equal. apply setParts_segments; [lia|exact H].
Qed.

Lemma Get_segments (n : Node) (path : gostring) :
  Get (Some n) path = getSegments (segments path) n.
Proof. apply getParts_segments. Qed.

Lemma Remove_segments (n : Node) (path : gostring) :
  lastPart path <> [] ->
  Remove (Some n) path
  = (Some (fst (removeSegments (segments path) n)),
     snd (removeSegments (segments path) n)).
Proof.
  intros H. unfold Remove. rewrite removeParts_segments by exact H.
  fold (segments path). destruct (removeSegments (segments path) n).
  reflexivity.
Qed.

(** [Set] then [Get], for a path that does not end in a slash. *)
Lemma Set_then_Get (n : Node) (path value : gostring) (n' : Node)
    (target : position) :
  lastPart path <> [] ->
  Set_ (Some n) path value = Some (n', target) ->
  exists node,
    Get (Some n') path = Some node /\ Value node = value
    /\ nodeAt n' target = Some node.
Proof.
  intros Hlast Hset. rewrite Set_segments in Hset by exact Hlast.
  injection Hset as Hset. rewrite Get_segments.
  eapply setSegments_getSegments; [|eassumption].
  apply lastPart_nonEmpty_segments. exact Hlast.
Qed.

Lemma Set_idempotent (n : Node) (path value : gostring) (n' : Node)
    (target : position) :
  Set_ (Some n) path value = Some (n', target) ->
  Set_ (Some n') path value = Some (n', target).
Proof.
  unfold Set_. intros H. injection H as H. f_equal.
  eapply setParts_idempotent. eassumption.
Qed.

(** C3 at a path that ends in a slash: [Set] creates the node and leaves
    its value alone, so [Get] finds a node without the value.  The path
    ["A/"] splits into the parts ["A"] and [""]; the test
    [i == len(parts)-1] is only made on the part ["A"], where it is
    false. *)
Theorem Set_trailing_slash_sets_no_value :
  Set_ (Some emptyNode) (lit "A/") (lit "x")
  = Some (mkNode [] [] [mkNode (lit "A") [] []], [0])
  /\ Get (Some (mkNode [] [] [mkNode (lit "A") [] []])) (lit "A/")
     = Some (mkNode (lit "A") [] [])
  /\ Value (mkNode (lit "A") [] []) <> lit "x".
Proof. repeat split. discriminate. Qed.

(** * [Set]: what it leaves alone *)

Lemma foundOrNew_children (current : Node) (part : gostring) :
  let '(k, found, children) := foundOrNew current part in
  (children = Children current /\ k < length (Children current)
   /\ nth_error (Children current) k = Some found)
  \/ (children = Children current ++ [found] /\ k = length (Children current)
      /\ found = mkNode part [] []
      /\ findChild (Children current) part = None).
Proof.
  unfold foundOrNew.
  destruct (findChild (Children current) part) as [[k found]|] eqn:F.
  - left. destruct (findChild_Some _ _ _ _ F) as (H1 & H2 & H3). auto.
  - right. auto.
Qed.

(** The nodes that were there stay where they are, with their names;
    their values stay but for the node [Set] returns; and each gets at
    most one more child. *)
Lemma setParts_keeps (parts : list gostring) :
  forall i len value current current' target,
    setParts parts i len value current = (current', target) ->
    forall pos node,
      nodeAt current pos = Some node ->
      exists node',
        nodeAt current' pos = Some node'
        /\ Name node' = Name node
        /\ (pos <> target -> Value node' = Value node)
        /\ length (Children node) <= length (Children node')
           <= S (length (Children node)).
Proof.
  induction parts as [|part parts IH];
    intros i len value current current' target Hset pos node Hat.
  - simpl in Hset. injection Hset as <- <-. exists node.
    repeat split; auto; lia.
  - cbn [setParts] in Hset.
    destruct (isEmpty part); [eapply IH; eassumption|].
    pose proof (foundOrNew_children current part) as Hfn.
    destruct (foundOrNew current part) as [[k found] children].
    assert (Hlen : length (Children current) <= length children
                   <= S (length (Children current))).
    { destruct Hfn as [(-> & _)|(-> & _)]; [lia|].
      rewrite length_app. simpl. lia. }
    assert (Hk : k < length children).
    { destruct Hfn as [(-> & ? & _)|(-> & -> & _)]; [lia|].
      rewrite length_app. simpl. lia. }
    assert (Hold : forall j, j <> k ->
               j < length (Children current) ->
               forall c, nth_error (replaceAt children k c) j
                         = nth_error (Children current) j).
    { intros j Hj Hjl c. rewrite nth_error_replaceAt by assumption.
      apply Nat.eqb_neq in Hj. rewrite Hj.
      destruct Hfn as [(-> & _)|(-> & _)]; [reflexivity|].
      apply nth_error_app1. assumption. }
    destruct (i =? len - 1).
    + injection Hset as <- <-.
      destruct pos as [|j rest].
      * simpl in Hat. injection Hat as <-.
        eexists. split; [reflexivity|].
        cbn [withChildren Name Value Children]. rewrite length_replaceAt.
        repeat split; auto; lia.
      * cbn [nodeAt] in Hat.
        destruct (nth_error (Children current) j) as [c|] eqn:Ej;
          [|discriminate].
        assert (Hj : j < length (Children current))
          by (apply nth_error_Some; congruence).
        cbn [nodeAt withChildren Children].
        destruct (Nat.eq_dec j k) as [->|Hjk].
        -- rewrite nth_error_replaceAt, Nat.eqb_refl by assumption.
           destruct Hfn as [(_ & _ & Hf)|(_ & -> & _)]; [|lia].
           rewrite Hf in Ej. injection Ej as <-.
           destruct rest as [|j' rest].
           ++ simpl in Hat. injection Hat as <-.
              exists (withValue found value). simpl.
              repeat split; auto. congruence.
           ++ exists node. split; [exact Hat|].
              repeat split; auto.
        -- rewrite Hold, Ej by assumption. exists node.
           repeat split; auto; lia.
    + destruct (setParts parts (S i) len value found) as [found' returned]
        eqn:Hrec.
      injection Hset as <- <-.
      destruct pos as [|j rest].
      * simpl in Hat. injection Hat as <-.
        eexists. split; [reflexivity|].
        cbn [withChildren Name Value Children]. rewrite length_replaceAt.
        repeat split; auto; lia.
      * cbn [nodeAt] in Hat.
        destruct (nth_error (Children current) j) as [c|] eqn:Ej;
          [|discriminate].
        assert (Hj : j < length (Children current))
          by (apply nth_error_Some; congruence).
        cbn [nodeAt withChildren Children].
        destruct (Nat.eq_dec j k) as [->|Hjk].
        -- rewrite nth_error_replaceAt, Nat.eqb_refl by assumption.
           destruct Hfn as [(_ & _ & Hf)|(_ & -> & _)]; [|lia].
           rewrite Hf in Ej. injection Ej as <-.
           destruct (IH _ _ _ _ _ _ Hrec rest node Hat)
             as (node' & H1 & H2 & H3 & H4).
           exists node'. repeat split; auto; try lia.
           intros Hne. apply H3. congruence.
        -- rewrite Hold, Ej by assumption. exists node.
           repeat split; auto; lia.
Qed.

(** The nodes that were not there: each is the last child of its parent,
    has at most one child, and has no value unless it is the node [Set]
    returns. *)
Lemma setParts_new (parts : list gostring) :
  forall i len value current current' target,
    setParts parts i len value current = (current', target) ->
    forall pos node',
      nodeAt current' pos = Some node' ->
      nodeAt current pos = None ->
      (pos <> target -> Value node' = [])
      /\ length (Children node') <= 1
      /\ exists ppos k parent',
           pos = ppos ++ [k]
           /\ nodeAt current' ppos = Some parent'
           /\ length (Children parent') = S k.
Proof.
  induction parts as [|part parts IH];
    intros i len value current current' target Hset pos node' Hat' Hnew.
  - simpl in Hset. injection Hset as <- <-. congruence.
  - cbn [setParts] in Hset.
    destruct (isEmpty part); [eapply IH; eassumption|].
    pose proof (foundOrNew_children current part) as Hfn.
    destruct (foundOrNew current part) as [[k found] children].
    assert (Hk : k < length children).
    { destruct Hfn as [(-> & ? & _)|(-> & -> & _)]; [lia|].
      rewrite length_app. simpl. lia. }
    destruct pos as [|j rest]; [simpl in Hnew; discriminate|].
    cbn [nodeAt] in Hnew.
    assert (Hother : forall c, j <> k ->
               nth_error (replaceAt children k c) j = None
               \/ exists c', nth_error (replaceAt children k c) j = Some c'
                             /\ nodeAt c' rest = None).
    { intros c Hjk. rewrite nth_error_replaceAt by assumption.
      apply Nat.eqb_neq in Hjk. rewrite Hjk.
      destruct (nth_error (Children current) j) as [c0|] eqn:Ej.
      - right. exists c0. split; [|assumption].
        destruct Hfn as [(-> & _)|(-> & _)]; [assumption|].
        rewrite nth_error_app1; [assumption|].
        apply nth_error_Some. congruence.
      - left. apply nth_error_None in Ej.
        destruct Hfn as [(-> & _)|(-> & -> & _)];
          [apply nth_error_None; assumption|].
        apply Nat.eqb_neq in Hjk.
        apply nth_error_None. rewrite length_app. simpl. lia. }
    destruct (i =? len - 1).
    + injection Hset as <- <-.
      cbn [nodeAt withChildren Children] in Hat'.
      destruct (Nat.eq_dec j k) as [->|Hjk].
      * rewrite nth_error_replaceAt, Nat.eqb_refl in Hat' by assumption.
        destruct Hfn as [(_ & _ & Hf)|(Hc & Hkl & Hf & _)].
        -- rewrite Hf in Hnew.
           destruct rest; simpl in *; congruence.
        -- subst found. destruct rest as [|j' rest].
           ++ simpl in Hat'. injection Hat' as <-.
              split; [congruence|]. split; [simpl; lia|].
              exists [], k. eexists. split; [reflexivity|].
              split; [reflexivity|]. simpl. rewrite length_replaceAt.
              subst children k. rewrite length_app. simpl. lia.
           ++ simpl in Hat'. destruct j'; discriminate.
      * destruct (Hother (withValue found value) Hjk) as [H|(c' & H & Hc')];
          rewrite H in Hat'; congruence.
    + destruct (setParts parts (S i) len value found) as [found' returned]
        eqn:Hrec.
      injection Hset as <- <-.
      cbn [nodeAt withChildren Children] in Hat'.
      destruct (Nat.eq_dec j k) as [->|Hjk].
      * rewrite nth_error_replaceAt, Nat.eqb_refl in Hat' by assumption.
        assert (Hin : nodeAt found rest = None ->
                  (k :: rest <> k :: returned -> Value node' = [])
                  /\ length (Children node') <= 1
                  /\ exists ppos k0 parent',
                       k :: rest = ppos ++ [k0]
                       /\ nodeAt (withChildren current
                                    (replaceAt children k found')) ppos
                          = Some parent'
                       /\ length (Children parent') = S k0).
        { intros Hn.
          destruct (IH _ _ _ _ _ _ Hrec rest node' Hat' Hn)
            as (H1 & H2 & ppos & k0 & parent' & H3 & H4 & H5).
          split; [intros Hne; apply H1; congruence|]. split; [assumption|].
          exists (k :: ppos), k0, parent'. split; [simpl; congruence|].
          split; [|assumption].
          cbn [nodeAt withChildren Children].
          rewrite nth_error_replaceAt, Nat.eqb_refl by assumption.
          assumption. }
        destruct Hfn as [(_ & _ & Hf)|(Hc & Hkl & Hf & _)].
        -- rewrite Hf in Hnew. auto.
        -- subst found. destruct rest as [|j' rest].
           ++ simpl in Hat'. injection Hat' as <-.
              destruct (setParts_keeps _ _ _ _ _ _ _ Hrec [] _ eq_refl)
                as (node0 & H0 & _ & Hv & Hl).
              simpl in H0. injection H0 as <-. simpl in Hv, Hl.
              split; [intros Hne; apply Hv; congruence|].
              split; [lia|].
              exists [], k. eexists. split; [reflexivity|].
              split; [reflexivity|]. simpl. rewrite length_replaceAt.
              subst children k. rewrite length_app. simpl. lia.
           ++ apply Hin. simpl. destruct j'; reflexivity.
      * destruct (Hother found' Hjk) as [H|(c' & H & Hc')];
          rewrite H in Hat'; congruence.
Qed.

Lemma list_sum_replaceAt (children : list Node) (k : nat) (c c' : Node) :
  nth_error children k = Some c ->
  list_sum (map countNodes (replaceAt children k c')) + countNodes c
  = list_sum (map countNodes children) + countNodes c'.
Proof.
  revert k. induction children as [|x cs IH]; intros [|k]; simpl;
    try discriminate.
  - intros H. injection H as ->. lia.
  - intros H. specialize (IH k H). lia.
Qed.

Lemma countNodes_eq (n : Node) :
  countNodes n = S (list_sum (map countNodes (Children n))).
Proof. destruct n. reflexivity. Qed.

Lemma missingSegments_new (segs : list gostring) (part : gostring) :
  missingSegments segs (mkNode part [] []) = length segs.
Proof. destruct segs; reflexivity. Qed.

(** One new node for each segment that was missing. *)
Lemma setParts_count (parts : list gostring) :
  forall i len value current,
    i + length parts = len ->
    countNodes (fst (setParts parts i len value current))
    = countNodes current + missingSegments (filter nonEmpty parts) current.
Proof.
  induction parts as [|part parts IH]; intros i len value current Hlen;
    [simpl; lia|].
  cbn [setParts filter]. unfold nonEmpty at 1.
  destruct (isEmpty part); cbn [negb]; [apply IH; simpl in Hlen; lia|].
  cbn [missingSegments].
  pose proof (foundOrNew_spec current part) as Hspec.
  assert (IHf : forall found,
             countNodes (fst (setParts parts (S i) len value found))
             = countNodes found
               + missingSegments (filter nonEmpty parts) found)
    by (intros; apply IH; simpl in Hlen; lia).
  assert (Hlast : (i =? len - 1) = true -> parts = []).
  { intros H. apply Nat.eqb_eq in H. destruct parts; [reflexivity|].
    simpl in Hlen. lia. }
  unfold foundOrNew in *.
  destruct (findChild (Children current) part) as [[k found]|] eqn:F.
  - destruct Hspec as (Hnth & _).
    destruct (i =? len - 1) eqn:Elast.
    + cbn [fst]. rewrite !countNodes_eq. cbn [withChildren Children].
      pose proof (list_sum_replaceAt _ _ _ (withValue found value) Hnth) as H.
      rewrite !countNodes_eq in H. cbn [withValue Children] in H.
      rewrite (Hlast eq_refl). simpl. lia.
    + specialize (IHf found).
      destruct (setParts parts (S i) len value found) as [found' returned].
      cbn [fst] in *. rewrite !(countNodes_eq (withChildren _ _)).
      rewrite (countNodes_eq current). cbn [withChildren Children].
      pose proof (list_sum_replaceAt _ _ _ found' Hnth) as H. lia.
  - destruct Hspec as (Hnth & _).
    destruct (i =? len - 1) eqn:Elast.
    + cbn [fst]. rewrite !countNodes_eq. cbn [withChildren Children].
      rewrite replaceAt_append, !map_app, !list_sum_app.
      rewrite (Hlast eq_refl). simpl. lia.
    + specialize (IHf (mkNode part [] [])).
      rewrite missingSegments_new in IHf.
      destruct (setParts parts (S i) len value (mkNode part [] []))
        as [found' returned].
      cbn [fst] in *. rewrite !(countNodes_eq (withChildren _ _)).
      rewrite (countNodes_eq current). cbn [withChildren Children].
      rewrite replaceAt_append, !map_app, !list_sum_app.
      simpl in *. lia.
Qed.

(** * Paths and their segments *)

Lemma Split_not_nil (s : gostring) (sep : ascii) : Split s sep <> [].
Proof.
  induction s as [|c s IH]; simpl; [discriminate|].
  destruct (byte_eqb c sep); [discriminate|].
  destruct (Split s sep); [congruence|discriminate].
Qed.

(** C4 at a path that ends in a slash.  [Remove] takes the empty text
    after the last slash for the name of the child to remove, and removes
    nothing; [Set] walks to the node and leaves its value alone.  Without
    the slash, [Remove] removes the node and [Set] gives it the value. *)
Theorem trailing_slash_differs :
  let t := mkNode [] [] [mkNode (lit "A") [] [mkNode (lit "B") [] []]] in
  Remove (Some t) (lit "A/B/") = (Some t, false)
  /\ Remove (Some t) (lit "A/B")
     = (Some (mkNode [] [] [mkNode (lit "A") [] []]), true)
  /\ Set_ (Some t) (lit "A/B/") (lit "v") = Some (t, [0; 0])
  /\ Set_ (Some t) (lit "A/B") (lit "v")
     = Some (mkNode [] [] [mkNode (lit "A") [] [mkNode (lit "B") (lit "v") []]],
             [0; 0])
  /\ Get (Some t) (lit "A/B/") = Get (Some t) (lit "A/B").
Proof. repeat split. Qed.

Lemma Split_line (l rest : gostring) (sep : ascii) :
  ~ In sep l -> Split (l ++ sep :: rest) sep = l :: Split rest sep.
Proof.
  induction l as [|c l IH]; intros H; cbn [app Split].
  - rewrite byte_eqb_refl. reflexivity.
  - replace (byte_eqb c sep) with false
      by (symmetry; apply byte_eqb_neq; intros ->; apply H; left; reflexivity).
    rewrite IH by (intros Hin; apply H; right; assumption). reflexivity.
Qed.

Lemma Split_none (s : gostring) (sep : ascii) :
  ~ In sep s -> Split s sep = [s].
Proof.
  induction s as [|c s IH]; intros H; [reflexivity|]. cbn [Split].
  replace (byte_eqb c sep) with false
    by (symmetry; apply byte_eqb_neq; intros ->; apply H; left; reflexivity).
  rewrite IH by (intros Hin; apply H; right; assumption). reflexivity.
Qed.

(** The parts of the four ways to write the path from [a] to [b]. *)
Lemma Split_slash_forms (a b : gostring) :
  ~ In "/" a -> ~ In "/" b ->
  Split (a ++ lit "//" ++ b) "/" = [a; []; b]
  /\ Split (lit "/" ++ a ++ lit "/" ++ b) "/" = [[]; a; b]
  /\ Split (a ++ lit "/" ++ b ++ lit "/") "/" = [a; b; []]
  /\ Split (a ++ lit "/" ++ b) "/" = [a; b].
Proof.
  intros Ha Hb. change (lit "//") with ["/"; "/"]. change (lit "/") with ["/"].
  cbn [app]. repeat split.
  - rewrite Split_line by assumption. cbn [Split].
    rewrite byte_eqb_refl, Split_none by assumption. reflexivity.
  - cbn [Split]. rewrite byte_eqb_refl, Split_line by assumption.
    rewrite Split_none by assumption. reflexivity.
  - rewrite Split_line by assumption. rewrite Split_line by assumption.
    reflexivity.
  - rewrite Split_line by assumption. rewrite Split_none by assumption.
    reflexivity.
Qed.

Lemma nonEmpty_true (s : gostring) : s <> [] -> nonEmpty s = true.
Proof. destruct s; [congruence|reflexivity]. Qed.

(** Slashes at the start, at the end or doubled: what [Get], [Set] and
    [Remove] make of them, for any two names. *)
Lemma slash_forms (a b : gostring) (n : Node) (value : gostring) :
  a <> [] -> b <> [] -> ~ In "/" a -> ~ In "/" b ->
  Get (Some n) (a ++ lit "//" ++ b) = Get (Some n) (a ++ lit "/" ++ b)
  /\ Get (Some n) (lit "/" ++ a ++ lit "/" ++ b)
     = Get (Some n) (a ++ lit "/" ++ b)
  /\ Get (Some n) (a ++ lit "/" ++ b ++ lit "/")
     = Get (Some n) (a ++ lit "/" ++ b)
  /\ Set_ (Some n) (a ++ lit "//" ++ b) value
     = Set_ (Some n) (a ++ lit "/" ++ b) value
  /\ Set_ (Some n) (lit "/" ++ a ++ lit "/" ++ b) value
     = Set_ (Some n) (a ++ lit "/" ++ b) value
  /\ Remove (Some n) (a ++ lit "//" ++ b) = Remove (Some n) (a ++ lit "/" ++ b)
  /\ Remove (Some n) (lit "/" ++ a ++ lit "/" ++ b)
     = Remove (Some n) (a ++ lit "/" ++ b).
Proof.
  intros Hane Hbne Ha Hb.
  destruct (Split_slash_forms a b Ha Hb) as (H1 & H2 & H3 & H4).
  assert (Hseg : forall path parts,
             Split path "/" = parts -> segments path = filter nonEmpty parts).
  { intros path parts <-. reflexivity. }
  assert (Hlast : forall path parts,
             Split path "/" = parts -> lastPart path = last parts []).
  { intros path parts <-. reflexivity. }
  assert (S1 := Hseg _ _ H1). assert (S2 := Hseg _ _ H2).
  assert (S3 := Hseg _ _ H3). assert (S4 := Hseg _ _ H4).
  assert (L1 := Hlast _ _ H1). assert (L2 := Hlast _ _ H2).
  assert (L4 := Hlast _ _ H4).
  cbn [filter last] in *.
  rewrite (nonEmpty_true a Hane), (nonEmpty_true b Hbne) in *.
  change (nonEmpty []) with false in *. cbv iota in *.
  repeat split;
    rewrite ?Get_segments; rewrite ?Set_segments by congruence;
    rewrite ?Remove_segments by congruence; congruence.
Qed.

(** X23. Where the three operations do see a path as the sequence of
    its non-empty segments.  [Get] does, and the empty path leads to the node
    itself.  [Set] and [Remove] do for a path that does not end in a
    slash: the empty segments of slashes at the start or doubled are
    skipped.  For a path that ends in a slash, [Remove] looks under the
    node the path leads to for a child with the empty name, and removes
    nothing where there is none.  So for any two names [A] and [B],
    [A//B] and [/A/B] are as [A/B] to the three of them, and [A/B/] is as
    [A/B] to [Get]. *)
Theorem path_as_segments :
  (forall n path, Get (Some n) path = getSegments (segments path) n)
  /\ (forall n, Get (Some n) [] = Some n)
  /\ (forall n path value,
        lastPart path <> [] ->
        Set_ (Some n) path value
        = Some (setSegments (segments path) value n))
  /\ (forall n path,
        lastPart path <> [] ->
        Remove (Some n) path
        = (Some (fst (removeSegments (segments path) n)),
           snd (removeSegments (segments path) n)))
  /\ (forall n path,
        lastPart path = [] ->
        (forall target, Get (Some n) path = Some target ->
                        findChild (Children target) [] = None) ->
        Remove (Some n) path = (Some n, false))
  /\ (forall a b n value,
        a <> [] -> b <> [] -> ~ In "/" a -> ~ In "/" b ->
        Get (Some n) (a ++ lit "//" ++ b) = Get (Some n) (a ++ lit "/" ++ b)
        /\ Get (Some n) (lit "/" ++ a ++ lit "/" ++ b)
           = Get (Some n) (a ++ lit "/" ++ b)
        /\ Get (Some n) (a ++ lit "/" ++ b ++ lit "/")
           = Get (Some n) (a ++ lit "/" ++ b)
        /\ Set_ (Some n) (a ++ lit "//" ++ b) value
           = Set_ (Some n) (a ++ lit "/" ++ b) value
        /\ Set_ (Some n) (lit "/" ++ a ++ lit "/" ++ b) value
           = Set_ (Some n) (a ++ lit "/" ++ b) value
        /\ Remove (Some n) (a ++ lit "//" ++ b)
           = Remove (Some n) (a ++ lit "/" ++ b)
        /\ Remove (Some n) (lit "/" ++ a ++ lit "/" ++ b)
           = Remove (Some n) (a ++ lit "/" ++ b)).
Proof.
  split; [exact Get_segments|]. split; [reflexivity|].
  split; [exact Set_segments|]. split; [exact Remove_segments|].
  split; [|intros; apply slash_forms; assumption].
  intros n path Hlast Hnames. unfold Remove.
  rewrite removeParts_trailing; auto. apply Split_not_nil.
Qed.

Lemma path_as_segments_witness :
  let t := mkNode [] [] [mkNode (lit "A") [] [mkNode (lit "B") [] []]] in
  lastPart (lit "/A//B") <> []
  /\ Set_ (Some t) (lit "/A//B") (lit "v")
     = Set_ (Some t) (lit "A/B") (lit "v")
  /\ Remove (Some t) (lit "/A//B") = Remove (Some t) (lit "A/B")
  /\ Remove (Some t) (lit "A/") = (Some t, false).
Proof.
  destruct path_as_segments as (_ & _ & Hset & Hrem & Htrail & _).
  cbv zeta. split; [discriminate|]. split; [|split].
  - rewrite (Hset _ (lit "/A//B")) by discriminate.
    rewrite (Hset _ (lit "A/B")) by discriminate. reflexivity.
  - rewrite (Hrem _ (lit "/A//B")) by discriminate.
    rewrite (Hrem _ (lit "A/B")) by discriminate. reflexivity.
  - apply Htrail; [reflexivity|].
    intros target H. vm_compute in H. injection H as <-. reflexivity.
Defined.

(** * More fuel changes nothing *)

Lemma parse_fuel_S (fuel : nat) (lines : list gostring) :
  (forall index pd,
      parseNode fuel lines index pd <> OutOfFuel ->
      parseNode (S fuel) lines index pd = parseNode fuel lines index pd)
  /\ (forall index depth node,
        parseChildren fuel lines index depth node <> OutOfFuel ->
        parseChildren (S fuel) lines index depth node
        = parseChildren fuel lines index depth node).
Proof.
  induction fuel as [|fuel [IHn IHc]]; [split; intros; simpl in *; congruence|].
  split.
  - intros index pd. rewrite (parseNode_S (S fuel)), (parseNode_S fuel).
    destruct (nth_error lines index) as [line|]; [|reflexivity].
    match goal with |- context [if ?b then Err _ else _] => destruct b end;
      [reflexivity|].
    destruct (parseHead line (readDepth line)); cbn [bind]; auto.
  - intros index depth node.
    rewrite (parseChildren_S (S fuel)), (parseChildren_S fuel).
    destruct (nth_error lines index) as [next|]; [|reflexivity].
    destruct (readDepth next <=? depth); [reflexivity|].
    destruct (HasPrefix (TrimLeft next [" "; TAB]) [":"]); [apply IHc|].
    destruct (parseNode fuel lines index (Z.of_nat depth)) as [[child ix]| |]
      eqn:En; cbn [bind].
    + rewrite IHn by congruence. rewrite En. cbn [bind]. apply IHc.
    + rewrite IHn by congruence. rewrite En. reflexivity.
    + congruence.
Qed.

Lemma parseNode_more_fuel (k fuel : nat) (lines : list gostring) (index : nat)
    (pd : Z) :
  parseNode fuel lines index pd <> OutOfFuel ->
  parseNode (k + fuel) lines index pd = parseNode fuel lines index pd.
Proof.
  intros H. induction k as [|k IH]; [reflexivity|].
  cbn [Nat.add]. rewrite (proj1 (parse_fuel_S _ _)); congruence.
Qed.

Lemma parseChildren_more_fuel (k fuel : nat) (lines : list gostring)
    (index depth : nat) (node : Node) :
  parseChildren fuel lines index depth node <> OutOfFuel ->
  parseChildren (k + fuel) lines index depth node
  = parseChildren fuel lines index depth node.
Proof.
  intros H. induction k as [|k IH]; [reflexivity|].
  cbn [Nat.add]. rewrite (proj2 (parse_fuel_S _ _)); congruence.
Qed.

Lemma parseTop_fuel_S (fuel : nat) (lines : list gostring) :
  forall index root,
    parseTop fuel lines index root <> OutOfFuel ->
    parseTop (S fuel) lines index root = parseTop fuel lines index root.
Proof.
  induction fuel as [|fuel IH]; intros index root; [simpl; congruence|].
  rewrite (parseTop_S (S fuel)), (parseTop_S fuel).
  destruct (index <? length lines); [|reflexivity].
  destruct (parseNode fuel lines index (-1)%Z) as [[node ix]| |] eqn:En;
    cbn [bind].
  - rewrite (proj1 (parse_fuel_S _ _)) by congruence. rewrite En.
    cbn [bind]. apply IH.
  - rewrite (proj1 (parse_fuel_S _ _)) by congruence. rewrite En. reflexivity.
  - congruence.
Qed.

Lemma parseTop_more_fuel (k fuel : nat) (lines : list gostring) (index : nat)
    (root : Node) :
  parseTop fuel lines index root <> OutOfFuel ->
  parseTop (k + fuel) lines index root = parseTop fuel lines index root.
Proof.
  intros H. induction k as [|k IH]; [reflexivity|].
  cbn [Nat.add]. rewrite parseTop_fuel_S; congruence.
Qed.

(** * The first line in error ends the parse *)

Section FirstError.
Variables (good rest : list gostring) (bad : gostring) (e : error).
Hypothesis bad_is_no_continuation :
  HasPrefix (TrimLeft bad [" "; TAB]) [":"] = false.
Hypothesis bad_fails : parseHead bad (readDepth bad) = Err e.

Local Abbreviation full := (good ++ bad :: rest).
Local Abbreviation extends := (extendedBy good e).

Lemma nth_error_full (index : nat) (line : gostring) :
  nth_error good index = Some line -> nth_error full index = Some line.
Proof.
  intros H. rewrite nth_error_app1; [assumption|].
  apply nth_error_Some. congruence.
Qed.

Lemma parseNode_bad (fuel : nat) (pd : Z) :
  (pd = (-1)%Z \/ (pd < Z.of_nat (readDepth bad))%Z) ->
  parseNode (S fuel) full (length good) pd = Err e.
Proof.
  intros Hpd. rewrite parseNode_S. rewrite nth_error_at.
  assert (Hcheck : (Z.of_nat (readDepth bad) <=? pd)%Z && (0 <=? pd)%Z = false).
  { apply andb_false_iff. destruct Hpd as [->|Hpd]; [right; reflexivity|].
    left. apply Z.leb_gt. exact Hpd. }
  rewrite Hcheck, bad_fails. reflexivity.
Qed.

Lemma parse_extends (fuel : nat) :
  (forall index pd,
      extends (parseNode fuel good index pd)
              (parseNode (S fuel) full index pd))
  /\ (forall index depth node,
        index <= length good ->
        extends (parseChildren fuel good index depth node)
                (parseChildren (S fuel) full index depth node)).
Proof.
  induction fuel as [|fuel [IHn IHc]]; [split; intros; exact I|].
  unfold extendedBy in *. split.
  - intros index pd. rewrite (parseNode_S fuel good).
    rewrite (parseNode_S (S fuel) full).
    destruct (nth_error good index) as [line|] eqn:E; [|exact I].
    rewrite (nth_error_full _ _ E).
    match goal with |- context [if ?b then Err _ else _] => destruct b end;
      [exact I|].
    destruct (parseHead line (readDepth line)); cbn [bind]; try exact I.
    assert (index < length good) by (apply nth_error_Some; congruence).
    apply IHc. lia.
  - intros index depth node Hidx. rewrite (parseChildren_S fuel good).
    rewrite (parseChildren_S (S fuel) full).
    destruct (nth_error good index) as [next|] eqn:E.
    + rewrite (nth_error_full _ _ E).
      assert (index < length good) by (apply nth_error_Some; congruence).
      destruct (readDepth next <=? depth); [left; reflexivity|].
      destruct (HasPrefix (TrimLeft next [" "; TAB]) [":"]);
        [apply IHc; lia|].
      specialize (IHn index (Z.of_nat depth)).
      destruct (parseNode fuel good index (Z.of_nat depth))
        as [[child ix]| |] eqn:En; cbn [bind]; try exact I.
      pose proof (proj1 (parse_progress _ _) _ _ _ _ En) as Hprog.
      destruct IHn as [->|[Hix ->]]; cbn [bind].
      * apply IHc. lia.
      * destruct (parseChildren fuel good ix depth (appendChild node child))
          as [[node' ix']| |] eqn:Ec; try exact I.
        right. split; [|reflexivity].
        apply (proj2 (parse_progress _ _)) in Ec; lia.
    + assert (Hend : index = length good).
      { apply nth_error_None in E. lia. }
      subst index. rewrite nth_error_at.
      destruct (readDepth bad <=? depth) eqn:Ed; [left; reflexivity|].
      rewrite bad_is_no_continuation.
      rewrite parseNode_bad by (right; apply Nat.leb_gt in Ed; lia).
      right. auto.
Qed.

Lemma parseTop_stops (fuel : nat) :
  forall index root root',
    index <= length good ->
    parseTop fuel good index root = Ok root' ->
    parseTop (S fuel) full index root = Err e.
Proof.
  induction fuel as [|fuel IH]; intros index root root' Hidx; [discriminate|].
  rewrite (parseTop_S fuel good), (parseTop_S (S fuel) full).
  assert (Hfull : (index <? length full) = true).
  { apply Nat.ltb_lt. rewrite length_app. simpl. lia. }
  rewrite Hfull.
  destruct (index <? length good) eqn:E.
  - pose proof (proj1 (parse_extends fuel) index (-1)%Z) as Hext.
    unfold extendedBy in Hext.
    destruct (parseNode fuel good index (-1)%Z) as [[node ix]| |] eqn:En;
      cbn [bind]; try discriminate.
    pose proof (proj1 (parse_progress _ _) _ _ _ _ En) as Hprog.
    destruct Hext as [->|[_ ->]]; cbn [bind]; [|reflexivity].
    apply IH. lia.
  - intros _. apply Nat.ltb_ge in E.
    assert (index = length good) by lia. subst index.
    rewrite parseNode_bad by (left; reflexivity). reflexivity.
Qed.

End FirstError.

(** A line in error after lines that parse: [Parse] returns its error,
    whatever comes after it. *)
Lemma first_error_aborts (data : gostring) (good rest : list gostring)
    (bad : gostring) (e : error) (root : Node) :
  normalizeLines data = good ++ bad :: rest ->
  parseTop (2 * length good + 1) good 0 emptyNode = Ok root ->
  HasPrefix (TrimLeft bad [" "; TAB]) [":"] = false ->
  parseHead bad (readDepth bad) = Err e ->
  Parse data = Err e.
Proof.
  intros Hlines Hgood Hcont Hbad. unfold Parse. rewrite Hlines.
  assert (Hlen : length (good ++ bad :: rest) = length good + S (length rest))
    by (rewrite length_app; reflexivity).
  rewrite Hlen.
  replace (length good + S (length rest) =? 0) with false
    by (symmetry; apply Nat.eqb_neq; lia).
  pose proof (parseTop_stops good rest bad e Hcont Hbad _ 0 emptyNode root
                ltac:(lia) Hgood) as Hstop.
  replace (2 * (length good + S (length rest)) + 1)
    with (2 * length rest + 1 + S (2 * length good + 1)) by lia.
  rewrite parseTop_more_fuel by (rewrite Hstop; discriminate).
  rewrite Hstop. reflexivity.
Qed.

(** * Quoted values *)

Lemma isValidNameChar_not (c : ascii) :
  isValidNameChar c = true ->
  isIndent c = false /\ byte_eqb c " " = false /\ byte_eqb c ":" = false
  /\ byte_eqb c "=" = false /\ byte_eqb c "/" = false.
Proof.
  intros H. unfold isIndent.
  repeat split;
    try (apply orb_false_iff; split); apply byte_eqb_neq; intros ->;
    vm_compute in H; discriminate.
Qed.

Lemma readDepth_indent (indent rest : gostring) :
  forallb isIndent indent = true -> stopsAt isIndent rest ->
  readDepth (indent ++ rest) = length indent.
Proof. apply span_run. Qed.

Lemma stopsAt_name (p : ascii -> bool) (name rest : gostring) :
  name <> [] -> forallb isValidNameChar name = true ->
  (forall c, isValidNameChar c = true -> p c = false) ->
  stopsAt p (name ++ rest).
Proof.
  intros Hne Hname Hp. destruct name as [|c name]; [congruence|].
  simpl in *. apply andb_true_iff in Hname. apply Hp. tauto.
Qed.

Lemma notQuote_forallb (body : gostring) :
  ~ In QUOTE body ->
  forallb (fun c => negb (byte_eqb c QUOTE)) body = true.
Proof.
  intros H. apply forallb_forall. intros c Hc.
  apply negb_true_iff. apply byte_eqb_neq. intros ->. contradiction.
Qed.

Lemma parseValue_quote_open (pre q : gostring) :
  parseValue (pre ++ "=" :: QUOTE :: q) (length pre)
  = let line := pre ++ "=" :: QUOTE :: q in
    let end_ := length pre + 2 + span (fun c => negb (byte_eqb c QUOTE)) q in
    if length line <=? end_ then Err (UnclosedQuote line)
    else Ok (slice line (length pre + 2) end_, S end_).
Proof.
  unfold parseValue. rewrite nth_error_at.
  replace (byte_eqb "=" ":") with false by reflexivity.
  replace (byte_eqb "=" "=") with true by reflexivity.
  replace (pre ++ "=" :: QUOTE :: q) with ((pre ++ ["="]) ++ QUOTE :: q)
    by (rewrite <- app_assoc; reflexivity).
  replace (S (length pre)) with (length (pre ++ ["="]))
    by (rewrite length_app; simpl; lia).
  rewrite nth_error_at. rewrite byte_eqb_refl.
  unfold scanWhile.
  replace ((pre ++ ["="]) ++ QUOTE :: q) with ((pre ++ ["="; QUOTE]) ++ q)
    by (rewrite <- !app_assoc; reflexivity).
  replace (S (length (pre ++ ["="]))) with (length (pre ++ ["="; QUOTE]))
    by (rewrite !length_app; simpl; lia).
  rewrite skipn_at. cbv zeta.
  replace (length (pre ++ ["="; QUOTE])) with (length pre + 2)
    by (rewrite !length_app; simpl; lia).
  reflexivity.
Qed.

(** No closing quote: the error. *)
Lemma parseValue_unclosed (pre body : gostring) :
  ~ In QUOTE body ->
  parseValue (pre ++ "=" :: QUOTE :: body) (length pre)
  = Err (UnclosedQuote (pre ++ "=" :: QUOTE :: body)).
Proof.
  intros H. rewrite parseValue_quote_open. cbv zeta.
  rewrite <- (app_nil_r body) at 2.
  rewrite span_run by (simpl; auto using notQuote_forallb).
  replace (length (pre ++ "=" :: QUOTE :: body) <=? length pre + 2 + length body)
    with true; [reflexivity|].
  symmetry. apply Nat.leb_le. rewrite length_app. simpl. lia.
Qed.

(** A closing quote: the text between the quotes as it is, and the
    cursor after the closing quote. *)
Lemma parseValue_quoted (pre body tail : gostring) :
  ~ In QUOTE body ->
  parseValue (pre ++ "=" :: QUOTE :: body ++ QUOTE :: tail) (length pre)
  = Ok (body, length pre + length body + 3).
Proof.
  intros H. rewrite parseValue_quote_open. cbv zeta.
  rewrite span_run;
    [|auto using notQuote_forallb|reflexivity].
  replace (length (pre ++ "=" :: QUOTE :: body ++ QUOTE :: tail)
           <=? length pre + 2 + length body) with false.
  - f_equal. f_equal; [|lia].
    replace (pre ++ "=" :: QUOTE :: body ++ QUOTE :: tail)
      with ((pre ++ ["="; QUOTE]) ++ body ++ QUOTE :: tail)
      by (rewrite <- !app_assoc; reflexivity).
    replace (length pre + 2) with (length (pre ++ ["="; QUOTE]))
      by (rewrite !length_app; simpl; lia).
    apply slice_at.
  - symmetry. apply Nat.leb_gt. rewrite !length_app. simpl.
    rewrite length_app. simpl. lia.
Qed.

(** The unclosed quote in the value of the node itself. *)
Lemma parseHead_unclosed_value (indent name body : gostring) :
  name <> [] -> forallb isValidNameChar name = true ->
  ~ In QUOTE body ->
  parseHead (indent ++ name ++ "=" :: QUOTE :: body) (length indent)
  = Err (UnclosedQuote (indent ++ name ++ "=" :: QUOTE :: body)).
Proof.
  intros Hne Hname Hbody. unfold parseHead.
  rewrite scanWhile_run by (simpl; auto).
  replace (length indent + length name =? length indent) with false
    by (symmetry; apply Nat.eqb_neq; destruct name; simpl; [congruence|lia]).
  replace (length indent + length name
           <? length (indent ++ name ++ "=" :: QUOTE :: body)) with true
    by (symmetry; apply Nat.ltb_lt; rewrite !length_app; simpl; lia).
  replace (length indent + length name) with (length (indent ++ name))
    by (rewrite length_app; reflexivity).
  rewrite app_assoc. rewrite parseValue_unclosed by assumption.
  reflexivity.
Qed.

Lemma slice_two (pre : gostring) (c : ascii) (rest : gostring) :
  byte_eqb c "/" = false ->
  gostring_eqb (slice (pre ++ c :: rest) (length pre) (length pre + 2))
               ["/"; "/"] = false.
Proof.
  intros H. unfold slice. rewrite skipn_at.
  replace (length pre + 2 - length pre) with 2 by lia.
  destruct rest; simpl; rewrite H; reflexivity.
Qed.

(** The unclosed quote in the value of an attribute, at any turn of the
    attribute loop. *)
Lemma parseAttrs_unclosed (fuel : nat) (pre sp attr body : gostring)
    (children : list Node) :
  forallb (fun c => byte_eqb c " ") sp = true ->
  attr <> [] -> forallb isValidNameChar attr = true ->
  ~ In QUOTE body ->
  parseAttrs (S fuel) (pre ++ sp ++ attr ++ "=" :: QUOTE :: body)
             (length pre) children
  = Err (UnclosedQuote (pre ++ sp ++ attr ++ "=" :: QUOTE :: body)).
Proof.
  intros Hsp Hne Hattr Hbody. cbn [parseAttrs].
  set (line := pre ++ sp ++ attr ++ "=" :: QUOTE :: body).
  assert (Hlen : length line
                 = length pre + length sp + length attr + 2 + length body).
  { unfold line. rewrite !length_app. simpl. lia. }
  assert (Hattr1 : 0 < length attr) by (destruct attr; simpl; [congruence|lia]).
  replace (length line <=? length pre) with false
    by (symmetry; apply Nat.leb_gt; lia).
  assert (Hscan1 : scanWhile (fun c => byte_eqb c " ") line (length pre)
                   = length pre + length sp).
  { unfold line. apply scanWhile_run; [assumption|].
    apply stopsAt_name; auto. intros c Hc. apply isValidNameChar_not. exact Hc. }
  rewrite Hscan1.
  replace (length line <=? length pre + length sp) with false
    by (symmetry; apply Nat.leb_gt; lia).
  assert (Hline2 : line = (pre ++ sp) ++ attr ++ "=" :: QUOTE :: body)
    by (unfold line; rewrite <- app_assoc; reflexivity).
  assert (Hslash : gostring_eqb
                     (slice line (length pre + length sp)
                        (length pre + length sp + 2)) ["/"; "/"] = false).
  { rewrite Hline2. rewrite <- length_app.
    destruct attr as [|c attr]; [congruence|].
    cbn [app]. apply slice_two. simpl in Hattr.
    apply andb_true_iff in Hattr. apply isValidNameChar_not. tauto. }
  rewrite Hslash, andb_false_r.
  assert (Hscan2 : scanWhile isValidNameChar line (length pre + length sp)
                   = length pre + length sp + length attr).
  { rewrite Hline2, <- length_app. apply scanWhile_run; simpl; auto. }
  rewrite Hscan2.
  replace (length pre + length sp + length attr =? length pre + length sp)
    with false by (symmetry; apply Nat.eqb_neq; lia).
  replace (length pre + length sp + length attr <? length line) with true
    by (symmetry; apply Nat.ltb_lt; lia).
  assert (Hline3 : line = (pre ++ sp ++ attr) ++ "=" :: QUOTE :: body)
    by (unfold line; rewrite <- !app_assoc; reflexivity).
  replace (length pre + length sp + length attr)
    with (length (pre ++ sp ++ attr)) by (rewrite !length_app; lia).
  assert (Hpv : parseValue line (length (pre ++ sp ++ attr))
                = Err (UnclosedQuote line)).
  { pose proof (parseValue_unclosed (pre ++ sp ++ attr) body Hbody) as H.
    rewrite <- Hline3 in H. exact H. }
  rewrite Hpv. reflexivity.
Qed.

(** The unclosed quote in the first attribute of a node without a value
    of its own. *)
Lemma parseHead_unclosed_attribute (indent name sp attr body : gostring) :
  name <> [] -> forallb isValidNameChar name = true ->
  sp <> [] -> forallb (fun c => byte_eqb c " ") sp = true ->
  attr <> [] -> forallb isValidNameChar attr = true ->
  ~ In QUOTE body ->
  parseHead (indent ++ name ++ sp ++ attr ++ "=" :: QUOTE :: body)
            (length indent)
  = Err (UnclosedQuote (indent ++ name ++ sp ++ attr ++ "=" :: QUOTE :: body)).
Proof.
  intros Hne Hname Hsne Hsp Hane Hattr Hbody. unfold parseHead.
  set (line := indent ++ name ++ sp ++ attr ++ "=" :: QUOTE :: body).
  assert (Hsp1 : exists sp', sp = " " :: sp').
  { destruct sp as [|c sp']; [congruence|]. simpl in Hsp.
    apply andb_true_iff in Hsp. destruct Hsp as [Hc _].
    apply byte_eqb_eq in Hc. subst c. eauto. }
  destruct Hsp1 as [sp' Hsp'].
  assert (Hscan : scanWhile isValidNameChar line (length indent)
                  = length indent + length name).
  { unfold line. apply scanWhile_run; [assumption|]. rewrite Hsp'. reflexivity. }
  rewrite Hscan.
  replace (length indent + length name =? length indent) with false
    by (symmetry; apply Nat.eqb_neq; destruct name; simpl; [congruence|lia]).
  replace (length indent + length name <? length line) with true
    by (symmetry; apply Nat.ltb_lt; unfold line; rewrite !length_app;
        rewrite Hsp'; simpl; lia).
  assert (Hval : parseValue line (length indent + length name)
                 = Ok ([], length indent + length name)).
  { unfold parseValue, line. rewrite app_assoc, <- length_app, Hsp'.
    cbn [app]. rewrite nth_error_at. reflexivity. }
  rewrite Hval. cbn [bind].
  pose proof (parseAttrs_unclosed (length line) (indent ++ name) sp attr body
                [] Hsp Hane Hattr Hbody) as Hattrs.
  rewrite <- app_assoc in Hattrs. fold line in Hattrs.
  rewrite length_app in Hattrs. rewrite Hattrs. reflexivity.
Qed.

Lemma name_line_no_continuation (indent name rest : gostring) :
  forallb isIndent indent = true ->
  name <> [] -> forallb isValidNameChar name = true ->
  readDepth (indent ++ name ++ rest) = length indent
  /\ HasPrefix (TrimLeft (indent ++ name ++ rest) [" "; TAB]) [":"] = false.
Proof.
  intros Hindent Hne Hname.
  assert (Hdepth : readDepth (indent ++ name ++ rest) = length indent).
  { apply readDepth_indent; [assumption|].
    apply stopsAt_name; auto. intros c Hc. apply isValidNameChar_not. exact Hc. }
  split; [exact Hdepth|].
  rewrite TrimLeft_indent, Hdepth, skipn_at.
  destruct name as [|c name]; [congruence|]. simpl in *.
  apply andb_true_iff in Hname. destruct Hname as [Hc _].
  apply isValidNameChar_not in Hc. destruct Hc as (_ & _ & -> & _). reflexivity.
Qed.

(** * Depth of a node and of its parent *)

Lemma erase_plain (n : Node) : erase (plain n) = n.
Proof.
  induction n as [name value children IH] using Node_tree_ind.
  simpl. f_equal. rewrite map_map.
  induction IH as [|c cs Hc _ IHcs]; simpl; congruence.
Qed.

Lemma erase_placed (depth : nat) (head : Node) : erase (placed depth head) = head.
Proof.
  destruct head as [name value children]. unfold placed. simpl. f_equal.
  rewrite map_map. induction children as [|c cs IH]; simpl; [reflexivity|].
  rewrite erase_plain, IH. reflexivity.
Qed.

Lemma erase_eq (a : ANode) :
  erase a = mkNode (aName a) (aValue a) (map erase (aChildren a)).
Proof. destruct a. reflexivity. Qed.

Lemma erase_withAValue (a : ANode) (v : gostring) :
  erase (withAValue a v) = withValue (erase a) v.
Proof. destruct a. reflexivity. Qed.

Lemma erase_appendAChild (a c : ANode) :
  erase (appendAChild a c) = appendChild (erase a) (erase c).
Proof.
  destruct a. unfold appendAChild, appendChild, withChildren. simpl.
  rewrite map_app. reflexivity.
Qed.

Lemma Value_erase (a : ANode) : Value (erase a) = aValue a.
Proof. destruct a. reflexivity. Qed.

(** Forgetting the depths gives the parser back. *)
Lemma parseNode_erase (fuel : nat) (lines : list gostring) :
  (forall index pd,
      parseNode fuel lines index pd
      = mapResult eraseAt (parseNodeA fuel lines index pd))
  /\ (forall index depth a,
        parseChildren fuel lines index depth (erase a)
        = mapResult eraseAt (parseChildrenA fuel lines index depth a)).
Proof.
  induction fuel as [|fuel [IHn IHc]]; [split; reflexivity|].
  split.
  - intros index pd. rewrite parseNode_S. cbn [parseNodeA].
    destruct (nth_error lines index) as [line|]; [|reflexivity].
    match goal with |- context [if ?b then Err _ else _] => destruct b end;
      [reflexivity|].
    destruct (parseHead line (readDepth line)) as [head| |]; cbn [bind];
      try reflexivity.
    rewrite <- IHc, erase_placed. reflexivity.
  - intros index depth a. rewrite parseChildren_S. cbn [parseChildrenA].
    destruct (nth_error lines index) as [next|]; [|reflexivity].
    destruct (readDepth next <=? depth); [reflexivity|].
    destruct (HasPrefix (TrimLeft next [" "; TAB]) [":"]).
    + rewrite <- IHc, erase_withAValue, Value_erase. reflexivity.
    + rewrite IHn.
      destruct (parseNodeA fuel lines index (Z.of_nat depth))
        as [[child ix]| |]; cbn [mapResult bind eraseAt fst snd];
        try reflexivity.
      rewrite <- IHc, erase_appendAChild. reflexivity.
Qed.

Lemma parseTop_erase (fuel : nat) (lines : list gostring) :
  forall index root,
    parseTop fuel lines index (erase root)
    = mapResult erase (parseTopA fuel lines index root).
Proof.
  induction fuel as [|fuel IH]; intros index root; [reflexivity|].
  rewrite parseTop_S. cbn [parseTopA].
  destruct (index <? length lines); [|reflexivity].
  rewrite (proj1 (parseNode_erase fuel lines)).
  destruct (parseNodeA fuel lines index (-1)%Z) as [[node ix]| |];
    cbn [mapResult bind eraseAt fst snd]; try reflexivity.
  rewrite <- IH, erase_appendAChild. reflexivity.
Qed.

Lemma Parse_erase (data : gostring) :
  Parse data
  = mapResult (fun a => mkDocument (Some (erase a))) (ParseA data).
Proof.
  unfold Parse, ParseA.
  destruct (length (normalizeLines data) =? 0); [reflexivity|].
  change emptyNode with (erase (plain emptyNode)) at 1.
  rewrite parseTop_erase.
  destruct (parseTopA _ _ _ _); reflexivity.
Qed.

Lemma Indented_plain (n : Node) : Indented (plain n).
Proof.
  induction n as [name value children IH] using Node_tree_ind.
  constructor; simpl.
  - induction IH; simpl; constructor; auto.
  - intros c d dc _ H. discriminate.
Qed.

Lemma DepthsFrom_plain (lines : list gostring) (n : Node) :
  DepthsFrom lines (plain n).
Proof.
  induction n as [name value children IH] using Node_tree_ind.
  constructor; simpl.
  - induction IH; simpl; constructor; auto.
  - intros d H. discriminate.
Qed.

Lemma aDepth_plain (n : Node) : aDepth (plain n) = None.
Proof. destruct n. reflexivity. Qed.

Lemma Indented_placed (depth : nat) (head : Node) :
  Indented (placed depth head).
Proof.
  constructor; simpl.
  - apply Forall_forall. intros c Hc. apply in_map_iff in Hc.
    destruct Hc as (n & <- & _). apply Indented_plain.
  - intros c d dc Hc _ Hdc. apply in_map_iff in Hc.
    destruct Hc as (n & <- & _). rewrite aDepth_plain in Hdc. discriminate.
Qed.

Lemma DepthsFrom_placed (lines : list gostring) (line : gostring)
    (head : Node) :
  In line lines -> DepthsFrom lines (placed (readDepth line) head).
Proof.
  intros Hin. constructor; simpl.
  - apply Forall_forall. intros c Hc. apply in_map_iff in Hc.
    destruct Hc as (n & <- & _). apply DepthsFrom_plain.
  - intros d H. injection H as <-. eauto.
Qed.

Lemma Indented_withAValue (a : ANode) (v : gostring) :
  Indented a -> Indented (withAValue a v).
Proof. intros H. inversion H; subst. constructor; simpl; auto. Qed.

Lemma DepthsFrom_withAValue (lines : list gostring) (a : ANode) (v : gostring) :
  DepthsFrom lines a -> DepthsFrom lines (withAValue a v).
Proof. intros H. inversion H; subst. constructor; simpl; auto. Qed.

Lemma Indented_appendAChild (a c : ANode) :
  Indented a -> Indented c ->
  (forall d dc, aDepth a = Some d -> aDepth c = Some dc -> d < dc) ->
  Indented (appendAChild a c).
Proof.
  intros Ha Hc Hd. inversion Ha as [a0 Hall Hdeep]; subst.
  constructor; simpl.
  - apply Forall_app. auto.
  - intros c' d dc Hin. apply in_app_iff in Hin.
    destruct Hin as [Hin|[<-|[]]]; eauto.
Qed.

Lemma DepthsFrom_appendAChild (lines : list gostring) (a c : ANode) :
  DepthsFrom lines a -> DepthsFrom lines c ->
  DepthsFrom lines (appendAChild a c).
Proof.
  intros Ha Hc. inversion Ha as [a0 Hall Hd]; subst.
  constructor; simpl; [apply Forall_app|]; auto.
Qed.

(** What [parseNodeA] returns: a node at the depth of its line, deeper
    than the parent it was called for, over children that are deeper
    still. *)
Lemma parse_indented (fuel : nat) (lines : list gostring) :
  (forall index pd a index',
      parseNodeA fuel lines index pd = Ok (a, index') ->
      Indented a /\ DepthsFrom lines a
      /\ exists line,
           nth_error lines index = Some line
           /\ aDepth a = Some (readDepth line)
           /\ ((pd < Z.of_nat (readDepth line))%Z \/ (pd < 0)%Z))
  /\ (forall index depth a a' index',
        parseChildrenA fuel lines index depth a = Ok (a', index') ->
        aDepth a = Some depth -> Indented a -> DepthsFrom lines a ->
        Indented a' /\ DepthsFrom lines a' /\ aDepth a' = Some depth).
Proof.
  induction fuel as [|fuel [IHn IHc]]; [split; intros; discriminate|].
  split.
  - intros index pd a index'. cbn [parseNodeA].
    destruct (nth_error lines index) as [line|] eqn:E; [|discriminate].
    destruct ((Z.of_nat (readDepth line) <=? pd)%Z && (0 <=? pd)%Z) eqn:Echeck;
      [discriminate|].
    destruct (parseHead line (readDepth line)) as [head| |]; cbn [bind];
      try discriminate.
    intros H.
    destruct (IHc _ _ _ _ _ H eq_refl (Indented_placed _ _)
                (DepthsFrom_placed lines line head (nth_error_In _ _ E)))
      as (H1 & H2 & H3).
    split; [assumption|]. split; [assumption|].
    exists line. split; [reflexivity|]. split; [assumption|].
    apply andb_false_iff in Echeck.
    destruct Echeck as [Hc|Hc]; [left|right]; apply Z.leb_gt in Hc; lia.
  - intros index depth a a' index'. cbn [parseChildrenA].
    destruct (nth_error lines index) as [next|] eqn:E.
    + destruct (readDepth next <=? depth) eqn:Ed;
        [intros H; injection H as <- <-; auto|].
      destruct (HasPrefix (TrimLeft next [" "; TAB]) [":"]).
      * intros H Hd Hi Hf.
        apply (IHc _ _ _ _ _ H); auto using Indented_withAValue,
          DepthsFrom_withAValue.
      * destruct (parseNodeA fuel lines index (Z.of_nat depth))
          as [[child ix]| |] eqn:En; cbn [bind]; try discriminate.
        intros H Hd Hi Hf.
        destruct (IHn _ _ _ _ En) as (Hci & Hcf & line & Hline & Hcd & _).
        rewrite E in Hline. injection Hline as <-.
        apply (IHc _ _ _ _ _ H); auto using DepthsFrom_appendAChild.
        apply Indented_appendAChild; auto.
        intros d dc Hd' Hdc. apply Nat.leb_gt in Ed. congruence.
    + intros H. injection H as <- <-. auto.
Qed.

Lemma parseTopA_indented (fuel : nat) (lines : list gostring) :
  forall index root root',
    parseTopA fuel lines index root = Ok root' ->
    aDepth root = None -> Indented root -> DepthsFrom lines root ->
    Indented root' /\ DepthsFrom lines root'.
Proof.
  induction fuel as [|fuel IH]; intros index root root'; [discriminate|].
  cbn [parseTopA]. destruct (index <? length lines).
  - destruct (parseNodeA fuel lines index (-1)%Z) as [[node ix]| |] eqn:En;
      cbn [bind]; try discriminate.
    intros H Hd Hi Hf.
    destruct (proj1 (parse_indented fuel lines) _ _ _ _ En) as (Hni & Hnf & _).
    apply (IH _ _ _ H); auto using DepthsFrom_appendAChild.
    apply Indented_appendAChild; auto. intros d dc Hd'. congruence.
  - intros H. injection H as <-. auto.
Qed.

Lemma parseNode_depth_check (fuel : nat) (lines : list gostring) (index : nat)
    (pd : Z) (line : gostring) :
  nth_error lines index = Some line ->
  (0 <= pd)%Z -> (Z.of_nat (readDepth line) <= pd)%Z ->
  parseNode (S fuel) lines index pd = Err (InvalidIndentation line).
Proof.
  intros Hline Hpd Hdepth. rewrite parseNode_S, Hline.
  apply Z.leb_le in Hpd, Hdepth. rewrite Hpd, Hdepth. reflexivity.
Qed.

(** C5. [parseNode] fails with [InvalidIndentation] when it is called for
    a parent at depth zero or more and the line is not deeper than that.
    In the tree of a successful [Parse], every node made from a line of
    its own carries the depth of that line, the number of its leading
    tabs and spaces, and is deeper than its parent when the parent has a
    line too. *)
Theorem depth_monotonicity :
  (forall fuel lines index pd line,
      nth_error lines index = Some line ->
      (0 <= pd)%Z -> (Z.of_nat (readDepth line) <= pd)%Z ->
      parseNode (S fuel) lines index pd = Err (InvalidIndentation line))
  /\ (forall data doc,
        Parse data = Ok doc ->
        exists a,
          ParseA data = Ok a /\ Root doc = Some (erase a)
          /\ Indented a /\ DepthsFrom (normalizeLines data) a)
  /\ (forall indent rest,
        forallb isIndent indent = true -> stopsAt isIndent rest ->
        readDepth (indent ++ rest) = length indent).
Proof.
  split; [exact parseNode_depth_check|]. split; [|exact readDepth_indent].
  intros data doc H. rewrite Parse_erase in H.
  destruct (ParseA data) as [a| |] eqn:Ea; try discriminate.
  simpl in H. injection H as <-. exists a.
  split; [reflexivity|]. split; [reflexivity|].
  unfold ParseA in Ea.
  destruct (length (normalizeLines data) =? 0).
  - injection Ea as <-.
    split; [apply (Indented_plain emptyNode)|apply (DepthsFrom_plain _ emptyNode)].
  - eapply parseTopA_indented; eauto using Indented_plain, DepthsFrom_plain.
Qed.

Lemma depth_monotonicity_witness :
  let data := lit "A" ++ [LF; TAB] ++ lit "B c=1" ++ [LF] ++ lit "  D" in
  Parse data
  = Ok (mkDocument
          (Some (mkNode [] []
                   [mkNode (lit "A") []
                      [mkNode (lit "B") []
                         [mkNode (lit "c") (lit "1") [];
                          mkNode (lit "D") [] []]]])))
  /\ ParseA data
     = Ok (mkANode [] [] None
             [mkANode (lit "A") [] (Some 0)
                [mkANode (lit "B") [] (Some 1)
                   [mkANode (lit "c") (lit "1") None [];
                    mkANode (lit "D") [] (Some 2) []]]])
  /\ (exists a, ParseA data = Ok a /\ Indented a)
  /\ parseNode 1 [lit "Node"; lit "  Child"] 1 5
     = Err (InvalidIndentation (lit "  Child")).
Proof.
  split; [reflexivity|]. split; [reflexivity|].
  destruct depth_monotonicity as (Hcheck & Htree & _). split.
  - destruct (Htree (lit "A" ++ [LF; TAB] ++ lit "B c=1" ++ [LF] ++ lit "  D")
                _ eq_refl) as (a & Ha & _ & Hi & _).
    exists a. auto.
  - apply Hcheck; [reflexivity|lia|vm_compute; discriminate].
Defined.

(** * The serializer, line by line *)

Lemma unlines_app (a b : list gostring) :
  unlines (a ++ b) = unlines a ++ unlines b.
Proof. apply flat_map_app. Qed.

Lemma unlines_cons (l : gostring) (ls : list gostring) :
  unlines (l :: ls) = l ++ [LF] ++ unlines ls.
Proof. unfold unlines. simpl. rewrite <- app_assoc. reflexivity. Qed.

Lemma unlines_flat_map {A} (f : A -> list gostring) (xs : list A) :
  unlines (flat_map f xs) = flat_map (fun x => unlines (f x)) xs.
Proof.
  induction xs as [|x xs IH]; [reflexivity|].
  simpl. rewrite unlines_app, IH. reflexivity.
Qed.

Lemma flat_map_ext_Forall {A B} (f g : A -> list B) (xs : list A) :
  Forall (fun x => f x = g x) xs -> flat_map f xs = flat_map g xs.
Proof. induction 1; simpl; congruence. Qed.

Lemma serializeNode_lines (n : Node) :
  forall depth, serializeNode n depth = unlines (serLines n depth).
Proof.
  induction n as [name value children IH] using Node_tree_ind.
  intros depth. cbn [serializeNode serLines].
  rewrite unlines_cons, unlines_app, unlines_flat_map.
  rewrite (flat_map_ext_Forall
             (fun child => serializeNode child (depth + 1))
             (fun child => unlines (serLines child (depth + 1))))
    by (eapply Forall_impl; [|exact IH]; intros c Hc; apply Hc).
  unfold headLine, valueLines, isMultiline.
  destruct value as [|v value]; [cbn; rewrite <- !app_assoc; reflexivity|].
  cbn [isEmpty negb orb].
  destruct (ContainsByte (v :: value) LF).
  - rewrite app_nil_r, <- !app_assoc. f_equal. f_equal. cbn [app]. f_equal.
    f_equal. unfold unlines, continuationLine. rewrite flat_map_concat_map.
    rewrite flat_map_concat_map, map_map. f_equal.
    apply map_ext. intros l. rewrite <- !app_assoc. reflexivity.
  - cbn [unlines flat_map app]. rewrite <- !app_assoc. reflexivity.
Qed.

Lemma Serialize_lines (root : Node) :
  Serialize (Some (mkDocument (Some root)))
  = unlines (flat_map (fun child => serLines child 0) (Children root)).
Proof.
  unfold Serialize. cbn [Root]. rewrite unlines_flat_map.
  apply flat_map_ext_Forall. apply Forall_forall. intros c _.
  apply serializeNode_lines.
Qed.

(** * [normalizeLines] on the lines of the serializer *)

Lemma ContainsByte_false (s : gostring) (c : ascii) :
  ContainsByte s c = false <-> ~ In c s.
Proof.
  unfold ContainsByte. split.
  - intros H Hin. assert (existsb (byte_eqb c) s = true); [|congruence].
    apply existsb_exists. exists c. split; [assumption|apply byte_eqb_refl].
  - intros H. destruct (existsb (byte_eqb c) s) eqn:E; [|reflexivity].
    apply existsb_exists in E. destruct E as (x & Hx & Hc).
    apply byte_eqb_eq in Hc. subst x. contradiction.
Qed.

Lemma ContainsByte_true (s : gostring) (c : ascii) :
  ContainsByte s c = true <-> In c s.
Proof.
  unfold ContainsByte. rewrite existsb_exists. split.
  - intros (x & Hx & Hc). apply byte_eqb_eq in Hc. subst x. assumption.
  - intros H. exists c. split; [assumption|apply byte_eqb_refl].
Qed.

Lemma replaceFrom_absent (s old new : gostring) (o : ascii) :
  ~ In o s -> replaceFrom 0 s (o :: old) new = s.
Proof.
  induction s as [|c s IH]; intros H; [reflexivity|].
  cbn [replaceFrom HasPrefix].
  replace (byte_eqb c o) with false
    by (symmetry; apply byte_eqb_neq; intros ->; apply H; left; reflexivity).
  cbn [andb]. f_equal. apply IH. intros Hin. apply H. right. assumption.
Qed.

Lemma Split_unlines (ls : list gostring) :
  Forall (fun l => ~ In LF l) ls -> Split (unlines ls) LF = ls ++ [[]].
Proof.
  induction 1 as [|l ls Hl _ IH]; [reflexivity|].
  rewrite unlines_cons. cbn [app]. rewrite Split_line by assumption.
  rewrite IH. reflexivity.
Qed.

Lemma In_unlines (c : ascii) (ls : list gostring) :
  In c (unlines ls) -> c = LF \/ exists l, In l ls /\ In c l.
Proof.
  unfold unlines. intros H. apply in_flat_map in H.
  destruct H as (l & Hl & Hc). apply in_app_iff in Hc.
  destruct Hc as [Hc|[Hc|[]]]; [right; eauto|left; congruence].
Qed.

Lemma cleanLine_spec (l : gostring) :
  cleanLine l = true <-> ~ In LF l /\ ~ In CR l.
Proof.
  unfold cleanLine. rewrite andb_true_iff, !negb_true_iff.
  rewrite !ContainsByte_false. reflexivity.
Qed.

Lemma normalizeLines_unlines (ls : list gostring) :
  Forall (fun l => cleanLine l = true) ls ->
  Forall (fun l => keepLine l = true) ls ->
  normalizeLines (unlines ls) = ls.
Proof.
  intros Hclean Hkeep. unfold normalizeLines.
  assert (Hcr : ~ In CR (unlines ls)).
  { intros H. apply In_unlines in H. destruct H as [H|(l & Hl & Hc)];
      [discriminate|].
    rewrite Forall_forall in Hclean. apply Hclean in Hl.
    apply cleanLine_spec in Hl. tauto. }
  unfold ReplaceAll. cbv zeta.
  rewrite (replaceFrom_absent _ [LF] [LF] CR Hcr).
  rewrite (replaceFrom_absent _ [] [LF] CR Hcr).
  rewrite Split_unlines.
  - rewrite filter_app. cbn [filter].
    replace (keepLine []) with false by reflexivity. rewrite app_nil_r.
    apply forallb_filter_id. apply forallb_forall.
    rewrite Forall_forall in Hkeep. assumption.
  - eapply Forall_impl; [|exact Hclean]. intros l Hl.
    apply cleanLine_spec in Hl. tauto.
Qed.

(** White space and the bytes that are part of none. *)
Lemma solidByte_spec (c : ascii) :
  solidByte c = true ->
  asciiSpace c = false
  /\ (forall d, space2 c d = false /\ space2 d c = false)
  /\ (forall d e, space3 c d e = false /\ space3 d c e = false
                  /\ space3 d e c = false).
Proof.
  unfold solidByte, space2, space3. intros H.
  apply andb_true_iff in H. destruct H as [Hlt Hns].
  apply negb_true_iff in Hns. apply N.ltb_lt in Hlt.
  split; [assumption|].
  assert (H194 : (N_of_ascii c =? 194)%N = false) by (apply N.eqb_neq; lia).
  assert (H133 : (N_of_ascii c =? 133)%N = false) by (apply N.eqb_neq; lia).
  assert (H160 : (N_of_ascii c =? 160)%N = false) by (apply N.eqb_neq; lia).
  assert (H225 : (N_of_ascii c =? 225)%N = false) by (apply N.eqb_neq; lia).
  assert (H226 : (N_of_ascii c =? 226)%N = false) by (apply N.eqb_neq; lia).
  assert (H227 : (N_of_ascii c =? 227)%N = false) by (apply N.eqb_neq; lia).
  assert (H154 : (N_of_ascii c =? 154)%N = false) by (apply N.eqb_neq; lia).
  assert (H128 : (N_of_ascii c =? 128)%N = false) by (apply N.eqb_neq; lia).
  assert (H129 : (N_of_ascii c =? 129)%N = false) by (apply N.eqb_neq; lia).
  assert (H159 : (N_of_ascii c =? 159)%N = false) by (apply N.eqb_neq; lia).
  assert (H168 : (N_of_ascii c =? 168)%N = false) by (apply N.eqb_neq; lia).
  assert (H169 : (N_of_ascii c =? 169)%N = false) by (apply N.eqb_neq; lia).
  assert (H175 : (N_of_ascii c =? 175)%N = false) by (apply N.eqb_neq; lia).
  assert (Hge : (128 <=? N_of_ascii c)%N = false) by (apply N.leb_gt; lia).
  assert (Hsimp : forall b : bool, b && false = false)
    by (intros; apply andb_false_r).
  split.
  - intros d. cbv zeta. rewrite H194, H133, H160.
    split; [reflexivity|]. destruct (N_of_ascii d =? 194)%N; reflexivity.
  - intros d e. cbv zeta.
    rewrite H225, H226, H227, H154, H128, H129, H159, H168, H169, H175, Hge.
    repeat split;
      repeat match goal with
             | |- context [(?x =? ?y)%N] => destruct (x =? y)%N
             | |- context [(?x <=? ?y)%N] => destruct (x <=? y)%N
             end; reflexivity.
Qed.

Lemma solidByte_name (c : ascii) : isValidNameChar c = true -> solidByte c = true.
Proof.
  unfold isValidNameChar, solidByte, asciiSpace. cbv zeta.
  set (n := N_of_ascii c). intros H.
  repeat match type of H with
         | (_ || _)%bool = true => apply orb_true_iff in H; destruct H as [H|H]
         | (_ && _)%bool = true => apply andb_true_iff in H; destruct H as [? H]
         end;
    repeat match goal with
           | H : (_ <=? _)%N = true |- _ => apply N.leb_le in H
           | H : (_ =? _)%N = true |- _ => apply N.eqb_eq in H
           end;
    apply andb_true_iff; (split; [apply N.ltb_lt; lia|]);
    apply negb_true_iff; apply orb_false_iff;
    (split; [apply andb_false_iff; right; apply N.leb_gt; lia
            |apply N.eqb_neq; lia]).
Qed.

Lemma trimLeftSpace_solid (c : ascii) (rest : gostring) :
  solidByte c = true -> trimLeftSpace (c :: rest) = c :: rest.
Proof.
  intros H. destruct (solidByte_spec c H) as (H1 & H2 & H3).
  cbn [trimLeftSpace]. rewrite H1.
  destruct rest as [|d rest]; [reflexivity|].
  rewrite (proj1 (H2 d)).
  destruct rest as [|e rest]; [reflexivity|].
  rewrite (proj1 (H3 d e)). reflexivity.
Qed.

Lemma trimLeftSpace_spaces (k : nat) (s : gostring) :
  trimLeftSpace (repeat " " k ++ s) = trimLeftSpace s.
Proof. induction k as [|k IH]; [reflexivity|]. cbn. exact IH. Qed.

Lemma trimRevSpace_keeps (c : ascii) :
  solidByte c = true ->
  forall n s, length s <= n -> In c s -> In c (trimRevSpace s).
Proof.
  intros H. destruct (solidByte_spec c H) as (H1 & H2 & H3).
  induction n as [|n IH]; intros s Hlen Hin.
  - destruct s; [contradiction|simpl in Hlen; lia].
  - destruct s as [|x s]; [contradiction|]. cbn [trimRevSpace].
    destruct (asciiSpace x) eqn:Ex.
    + destruct Hin as [->|Hin]; [congruence|].
      apply IH; [simpl in Hlen; lia|assumption].
    + destruct s as [|y s]; [assumption|].
      destruct (space2 y x) eqn:E2.
      * destruct Hin as [->|[->|Hin]];
          [rewrite (proj2 (H2 y)) in E2; discriminate
          |rewrite (proj1 (H2 x)) in E2; discriminate|].
        apply IH; [simpl in Hlen; lia|assumption].
      * destruct s as [|z s]; [assumption|].
        destruct (space3 z y x) eqn:E3; [|assumption].
        destruct Hin as [->|[->|[->|Hin]]].
        -- rewrite (proj2 (proj2 (H3 z y))) in E3. discriminate.
        -- rewrite (proj1 (proj2 (H3 z x))) in E3. discriminate.
        -- rewrite (proj1 (H3 y x)) in E3. discriminate.
        -- apply IH; [simpl in Hlen; lia|assumption].
Qed.

(** A line with a solid byte after its spaces is not blank. *)
Lemma isBlank_solid (k : nat) (c : ascii) (rest : gostring) :
  solidByte c = true -> isBlank (repeat " " k ++ c :: rest) = false.
Proof.
  intros H. unfold isBlank, TrimSpace.
  rewrite trimLeftSpace_spaces, trimLeftSpace_solid by assumption.
  assert (Hin : In c (trimRevSpace (rev (c :: rest)))).
  { apply (trimRevSpace_keeps c H (length (rev (c :: rest)))); [lia|].
    apply in_rev. rewrite rev_involutive. left. reflexivity. }
  destruct (trimRevSpace (rev (c :: rest))) as [|x t]; [contradiction|].
  simpl. destruct (rev t ++ [x]) eqn:E; [|reflexivity].
  destruct (rev t); discriminate.
Qed.

(** * The trees of the parser are well formed *)

Lemma Split_pieces (s : gostring) (sep : ascii) :
  forall piece, In piece (Split s sep) ->
  forall c, In c piece -> In c s /\ c <> sep.
Proof.
  induction s as [|x s IH]; intros piece Hp c Hc.
  - simpl in Hp. destruct Hp as [<-|[]]. contradiction.
  - cbn [Split] in Hp. destruct (byte_eqb x sep) eqn:E.
    + destruct Hp as [<-|Hp]; [contradiction|].
      destruct (IH piece Hp c Hc). split; [right|]; assumption.
    + pose proof (Split_not_nil s sep) as Hne.
      destruct (Split s sep) as [|p ps] eqn:Es; [congruence|].
      destruct Hp as [<-|Hp].
      * destruct Hc as [<-|Hc].
        -- split; [left; reflexivity|]. apply byte_eqb_neq. assumption.
        -- destruct (IH p (or_introl eq_refl) c Hc). split; [right|]; assumption.
      * destruct (IH piece (or_intror Hp) c Hc). split; [right|]; assumption.
Qed.

Lemma replaceFrom_CR (s : gostring) : ~ In CR (replaceFrom 0 s [CR] [LF]).
Proof.
  induction s as [|c s IH]; [simpl; tauto|].
  cbn [replaceFrom HasPrefix length Nat.sub]. rewrite andb_true_r.
  destruct (byte_eqb c CR) eqn:E.
  - cbn [app]. intros [H|H]; [discriminate|contradiction].
  - intros [H|H]; [|contradiction].
    apply byte_eqb_neq in E. congruence.
Qed.

Lemma normalizeLines_clean (data : gostring) :
  Forall (fun l => cleanLine l = true) (normalizeLines data).
Proof.
  apply Forall_forall. intros l Hl. unfold normalizeLines in Hl.
  apply filter_In in Hl. destruct Hl as [Hl _].
  apply cleanLine_spec. split.
  - intros Hc. destruct (Split_pieces _ _ _ Hl _ Hc). congruence.
  - intros Hc. destruct (Split_pieces _ _ _ Hl _ Hc) as [Hin _].
    apply replaceFrom_CR in Hin. exact Hin.
Qed.

Lemma In_TrimLeft (s cutset : gostring) (c : ascii) :
  In c (TrimLeft s cutset) -> In c s.
Proof.
  induction s as [|x s IH]; simpl; [tauto|].
  destruct (ContainsByte cutset x); [right; auto|tauto].
Qed.

Lemma In_TrimRight (s cutset : gostring) (c : ascii) :
  In c (TrimRight s cutset) -> In c s.
Proof.
  unfold TrimRight. intros H. apply in_rev in H. apply In_TrimLeft in H.
  apply in_rev. assumption.
Qed.

Lemma In_skipn {A} (n : nat) (l : list A) (x : A) : In x (skipn n l) -> In x l.
Proof.
  revert l. induction n as [|n IH]; intros [|y l]; simpl; auto.
Qed.

Lemma In_firstn {A} (n : nat) (l : list A) (x : A) : In x (firstn n l) -> In x l.
Proof.
  revert l. induction n as [|n IH]; intros [|y l]; simpl; try tauto.
  intros [H|H]; auto.
Qed.

Lemma In_slice (s : gostring) (a b : nat) (c : ascii) :
  In c (slice s a b) -> In c s.
Proof. unfold slice. intros H. eapply In_skipn, In_firstn, H. Qed.

Lemma In_TrimPrefix (s p : gostring) (c : ascii) :
  In c (TrimPrefix s p) -> In c s.
Proof.
  unfold TrimPrefix. destruct (HasPrefix s p); [apply In_skipn|auto].
Qed.

Lemma parseValue_chars (line : gostring) (pos : nat) (v : gostring) (p : nat) :
  parseValue line pos = Ok (v, p) -> forall c, In c v -> In c line.
Proof.
  unfold parseValue.
  destruct (nth_error line pos) as [x|];
    [|intros H; injection H as <- <-; contradiction].
  destruct (byte_eqb x ":").
  - intros H. injection H as <- <-. intros c Hc.
    eapply In_slice, In_TrimRight, Hc.
  - destruct (byte_eqb x "=");
      [|intros H; injection H as <- <-; contradiction].
    destruct (nth_error line (S pos)) as [q|];
      [|intros H; injection H as <- <-; contradiction].
    destruct (byte_eqb q QUOTE).
    + match goal with |- context [if ?b then _ else _] => destruct b end;
        [discriminate|].
      intros H. injection H as <- <-. intros c. apply In_slice.
    + intros H. injection H as <- <-. intros c. apply In_slice.
Qed.

Lemma parseValue_opt_chars (line : gostring) (pos : nat) (v : gostring)
    (p : nat) :
  (if pos <? length line then parseValue line pos else Ok ([], pos))
  = Ok (v, p) ->
  forall c, In c v -> In c line.
Proof.
  destruct (pos <? length line); [apply parseValue_chars|].
  intros H. injection H as <- <-. contradiction.
Qed.

Lemma name_slice (line : gostring) (start : nat) :
  scanWhile isValidNameChar line start <> start ->
  validName (slice line start (scanWhile isValidNameChar line start)) = true.
Proof.
  unfold scanWhile, slice, validName. intros H.
  replace (start + span isValidNameChar (skipn start line) - start)
    with (span isValidNameChar (skipn start line)) by lia.
  destruct (span_split isValidNameChar (skipn start line)) as [Hall _].
  rewrite Hall, andb_true_r.
  destruct (skipn start line) as [|c s]; [simpl in H; lia|].
  simpl in *. destruct (isValidNameChar c); [reflexivity|lia].
Qed.

Lemma cleanValue_of_line (line v : gostring) :
  cleanLine line = true -> (forall c, In c v -> In c line) ->
  ~ In LF v /\ ~ In CR v.
Proof.
  intros Hl Hv. apply cleanLine_spec in Hl. split; intros H; apply Hv in H; tauto.
Qed.

Lemma cleanValue_intro (v : gostring) :
  ~ In LF v -> ~ In CR v -> cleanValue v = true.
Proof.
  intros H1 H2. unfold cleanValue.
  apply andb_true_iff. split; apply negb_true_iff.
  - apply ContainsByte_false. assumption.
  - destruct v as [|c v]; [reflexivity|]. simpl. rewrite andb_true_r.
    apply byte_eqb_neq. intros ->. apply H1. left. reflexivity.
Qed.

Lemma parseAttrs_wellFormed (line : gostring) :
  cleanLine line = true ->
  forall fuel pos children children',
    parseAttrs fuel line pos children = Ok children' ->
    forallb wellFormed children = true ->
    forallb wellFormed children' = true.
Proof.
  intros Hline. induction fuel as [|fuel IH]; intros pos children children';
    [discriminate|].
  cbn [parseAttrs].
  destruct (length line <=? pos); [intros H; injection H as <-; auto|].
  destruct (length line <=? scanWhile (fun c => byte_eqb c " ") line pos);
    [intros H; injection H as <-; auto|].
  match goal with |- context [if ?b then Ok children else _] =>
    destruct b end; [intros H; injection H as <-; auto|].
  match goal with |- context [if ?b then Ok children else _] =>
    destruct b eqn:E3 end; [intros H; injection H as <-; auto|].
  apply Nat.eqb_neq in E3.
  set (p1 := scanWhile (fun c => byte_eqb c " ") line pos) in *.
  set (p2 := scanWhile isValidNameChar line p1) in *.
  destruct (if p2 <? length line then parseValue line p2 else Ok ([], p2))
    as [[v p]| |] eqn:Ev; cbn [bind]; try discriminate.
  intros H Hwf. apply (IH _ _ _ H).
  rewrite forallb_app, Hwf. cbn [forallb wellFormed andb].
  pose proof (name_slice line p1 E3) as Hn.
  change (validName (slice line p1 p2) = true) in Hn. rewrite Hn.
  destruct (cleanValue_of_line line v Hline (parseValue_opt_chars _ _ _ _ Ev)).
  rewrite cleanValue_intro by assumption. reflexivity.
Qed.

Lemma parseHead_wellFormed (line : gostring) (depth : nat) (node : Node) :
  cleanLine line = true ->
  parseHead line depth = Ok node ->
  wellFormed node = true /\ ~ In LF (Value node).
Proof.
  intros Hline. unfold parseHead.
  match goal with |- context [if ?b then Err _ else _] =>
    destruct b eqn:E end; [discriminate|].
  apply Nat.eqb_neq in E.
  set (p := scanWhile isValidNameChar line depth) in *.
  destruct (if p <? length line then parseValue line p else Ok ([], p))
    as [[v p']| |] eqn:Ev; cbn [bind]; try discriminate.
  destruct (parseAttrs (S (length line)) line p' []) as [cs| |] eqn:Ea;
    cbn [bind]; try discriminate.
  intros H. injection H as <-. cbn [wellFormed Value].
  pose proof (name_slice line depth E) as Hn.
  change (validName (slice line depth p) = true) in Hn. rewrite Hn.
  destruct (cleanValue_of_line line v Hline (parseValue_opt_chars _ _ _ _ Ev)).
  rewrite cleanValue_intro by assumption.
  rewrite (parseAttrs_wellFormed line Hline _ _ _ _ Ea eq_refl). auto.
Qed.

Lemma wellFormed_eq (n : Node) :
  wellFormed n
  = validName (Name n) && cleanValue (Value n)
    && forallb wellFormed (Children n).
Proof. destruct n. reflexivity. Qed.

Lemma cleanValue_continuation (value cont : gostring) :
  cleanValue value = true -> ~ In LF cont -> ~ In CR cont ->
  cleanValue (appendContinuation value cont) = true.
Proof.
  unfold appendContinuation. intros Hv Hlf Hcr.
  destruct value as [|c value]; [apply cleanValue_intro; assumption|].
  cbn [isEmpty app]. unfold cleanValue in *.
  apply andb_true_iff in Hv. destruct Hv as [H1 H2].
  apply andb_true_iff. split; [|exact H2].
  apply negb_true_iff. apply negb_true_iff in H1.
  apply ContainsByte_false. apply ContainsByte_false in H1.
  intros [Hin|Hin]; [apply H1; left; assumption|].
  apply in_app_iff in Hin. destruct Hin as [Hin|Hin]; [|contradiction].
  apply in_app_iff in Hin. destruct Hin as [Hin|[Hin|[]]];
    [apply H1; right; assumption|discriminate].
Qed.

Lemma parse_wellFormed (fuel : nat) (lines : list gostring) :
  Forall (fun l => cleanLine l = true) lines ->
  (forall index pd n index',
      parseNode fuel lines index pd = Ok (n, index') -> wellFormed n = true)
  /\ (forall index depth node n' index',
        parseChildren fuel lines index depth node = Ok (n', index') ->
        wellFormed node = true -> wellFormed n' = true).
Proof.
  intros Hlines. rewrite Forall_forall in Hlines.
  induction fuel as [|fuel [IHn IHc]]; [split; intros; discriminate|].
  split.
  - intros index pd n index'. rewrite parseNode_S.
    destruct (nth_error lines index) as [line|] eqn:E; [|discriminate].
    match goal with |- context [if ?b then Err _ else _] => destruct b end;
      [discriminate|].
    destruct (parseHead line (readDepth line)) as [head| |] eqn:Eh;
      cbn [bind]; try discriminate.
    intros H. apply (IHc _ _ _ _ _ H).
    eapply parseHead_wellFormed; [|eassumption].
    apply Hlines. eapply nth_error_In. eassumption.
  - intros index depth node n' index'. rewrite parseChildren_S.
    destruct (nth_error lines index) as [next|] eqn:E;
      [|intros H; injection H as <- <-; auto].
    destruct (readDepth next <=? depth);
      [intros H; injection H as <- <-; auto|].
    destruct (HasPrefix (TrimLeft next [" "; TAB]) [":"]).
    + intros H Hwf. apply (IHc _ _ _ _ _ H).
      rewrite wellFormed_eq in *. cbn [withValue Name Value Children].
      apply andb_true_iff in Hwf. destruct Hwf as [Hwf Hcs].
      apply andb_true_iff in Hwf. destruct Hwf as [Hname Hval].
      rewrite Hname, Hcs, andb_true_r. cbn [andb].
      assert (Hclean : cleanLine next = true)
        by (apply Hlines; eapply nth_error_In; eassumption).
      destruct (cleanValue_of_line next
                  (TrimPrefix (TrimPrefix (TrimLeft next [" "; TAB]) [":"])
                     [" "]) Hclean) as [H1 H2].
      { intros c Hc. eapply In_TrimLeft, In_TrimPrefix, In_TrimPrefix, Hc. }
      apply cleanValue_continuation; assumption.
    + destruct (parseNode fuel lines index (Z.of_nat depth))
        as [[child ix]| |] eqn:En; cbn [bind]; try discriminate.
      intros H Hwf. apply (IHc _ _ _ _ _ H).
      rewrite wellFormed_eq in *. cbn [appendChild withChildren Name Value Children].
      apply andb_true_iff in Hwf. destruct Hwf as [Hwf Hcs].
      rewrite Hwf, forallb_app, Hcs. cbn [forallb andb].
      rewrite (IHn _ _ _ _ En). reflexivity.
Qed.

Lemma parseTop_wellFormed (fuel : nat) (lines : list gostring) :
  Forall (fun l => cleanLine l = true) lines ->
  forall index root root',
    parseTop fuel lines index root = Ok root' ->
    forallb wellFormed (Children root) = true ->
    Name root' = Name root /\ Value root' = Value root
    /\ forallb wellFormed (Children root') = true.
Proof.
  intros Hlines. induction fuel as [|fuel IH]; intros index root root';
    [discriminate|].
  rewrite parseTop_S. destruct (index <? length lines);
    [|intros H; injection H as <-; auto].
  destruct (parseNode fuel lines index (-1)%Z) as [[node ix]| |] eqn:En;
    cbn [bind]; try discriminate.
  intros H Hwf.
  destruct (IH _ _ _ H) as (H1 & H2 & H3); [|auto].
  cbn [appendChild withChildren Children]. rewrite forallb_app, Hwf.
  cbn [forallb]. rewrite (proj1 (parse_wellFormed fuel lines Hlines) _ _ _ _ En).
  reflexivity.
Qed.

(** The document of a successful [Parse]: a root without name and value
    over well-formed nodes. *)
Lemma Parse_wellFormed (data : gostring) (doc : Document) :
  Parse data = Ok doc ->
  exists children,
    doc = mkDocument (Some (mkNode [] [] children))
    /\ forallb wellFormed children = true.
Proof.
  unfold Parse.
  destruct (length (normalizeLines data) =? 0).
  - intros H. injection H as <-. exists []. auto.
  - destruct (parseTop _ _ _ _) as [root| |] eqn:E; cbn [bind];
      try discriminate.
    intros H. injection H as <-.
    destruct (parseTop_wellFormed _ _ (normalizeLines_clean data) _ _ _ E
                eq_refl) as (H1 & H2 & H3).
    destruct root as [name value children]. simpl in *. subst.
    exists children. auto.
Qed.

(** * The lines of the serializer, read back *)

Lemma length_indentation (depth : nat) : length (indentation depth) = depth * 2.
Proof. apply repeat_length. Qed.

Lemma indentation_indent (depth : nat) :
  forallb isIndent (indentation depth) = true.
Proof.
  unfold indentation. induction (depth * 2) as [|k IH]; [reflexivity|].
  simpl. exact IH.
Qed.

Lemma validName_spec (name : gostring) :
  validName name = true ->
  name <> [] /\ forallb isValidNameChar name = true.
Proof.
  unfold validName. intros H. apply andb_true_iff in H. destruct H as [H1 H2].
  split; [|assumption]. destruct name; [discriminate|discriminate].
Qed.

Lemma validName_first (name : gostring) :
  validName name = true ->
  exists c rest, name = c :: rest /\ isValidNameChar c = true.
Proof.
  intros H. apply validName_spec in H. destruct H as [Hne Hall].
  destruct name as [|c rest]; [congruence|].
  simpl in Hall. apply andb_true_iff in Hall. exists c, rest. tauto.
Qed.

Lemma validName_clean (name : gostring) (c : ascii) :
  validName name = true -> In c name -> c <> LF /\ c <> CR.
Proof.
  intros H Hin. apply validName_spec in H. destruct H as [_ Hall].
  rewrite forallb_forall in Hall. specialize (Hall c Hin).
  split; intros ->; vm_compute in Hall; discriminate.
Qed.

(** A line that begins, after spaces, with a solid byte other than a
    slash is kept by [normalizeLines], and its depth is the number of the
    spaces. *)
Lemma solid_line (k : nat) (c : ascii) (rest : gostring) :
  solidByte c = true -> byte_eqb c "/" = false ->
  readDepth (repeat " " k ++ c :: rest) = k
  /\ keepLine (repeat " " k ++ c :: rest) = true
  /\ TrimLeft (repeat " " k ++ c :: rest) [" "; TAB] = c :: rest.
Proof.
  intros Hsolid Hslash.
  assert (Hind : isIndent c = false).
  { unfold isIndent. apply orb_false_iff.
    unfold solidByte in Hsolid. apply andb_true_iff in Hsolid.
    destruct Hsolid as [_ Hns]. apply negb_true_iff in Hns.
    split; apply byte_eqb_neq; intros ->; vm_compute in Hns; discriminate. }
  assert (Hdepth : readDepth (repeat " " k ++ c :: rest) = k).
  { unfold readDepth. rewrite span_run; [apply repeat_length| |exact Hind].
    clear. induction k; simpl; auto. }
  split; [exact Hdepth|]. split.
  - unfold keepLine, isCommentLine. rewrite isBlank_solid by assumption.
    rewrite Hdepth. rewrite <- (repeat_length " " k) at 1. rewrite skipn_at.
    change (lit "//") with ["/"; "/"].
    cbn [HasPrefix]. rewrite Hslash. reflexivity.
  - rewrite TrimLeft_indent, Hdepth.
    rewrite <- (repeat_length " " k) at 1. apply skipn_at.
Qed.

Lemma headLine_facts (depth : nat) (name value : gostring) :
  validName name = true ->
  readDepth (headLine depth name value) = depth * 2
  /\ keepLine (headLine depth name value) = true
  /\ HasPrefix (TrimLeft (headLine depth name value) [" "; TAB]) [":"] = false.
Proof.
  intros Hname. destruct (validName_first name Hname) as (c & rest & -> & Hc).
  unfold headLine, indentation. cbn [app].
  destruct (isValidNameChar_not c Hc) as (_ & _ & Hcolon & _ & Hslash).
  destruct (solid_line (depth * 2) c
              (rest ++ (if isEmpty value || isMultiline value then []
                        else [":"; " "] ++ value))
              (solidByte_name c Hc) Hslash) as (H1 & H2 & H3).
  split; [exact H1|]. split; [exact H2|].
  match goal with |- HasPrefix ?t _ = _ =>
    replace t with (c :: rest ++ (if isEmpty value || isMultiline value then []
                                  else [":"; " "] ++ value))
      by (symmetry; exact H3)
  end.
  cbn [HasPrefix]. rewrite Hcolon. reflexivity.
Qed.

Lemma continuationLine_facts (depth : nat) (text : gostring) :
  readDepth (continuationLine depth text) = (depth + 1) * 2
  /\ keepLine (continuationLine depth text) = true
  /\ TrimLeft (continuationLine depth text) [" "; TAB] = [":"; " "] ++ text.
Proof.
  unfold continuationLine, indentation. cbn [app].
  apply solid_line; reflexivity.
Qed.

Lemma In_repeat_eq {A} (x y : A) (k : nat) : In y (repeat x k) -> y = x.
Proof. induction k; simpl; [tauto|]. intros [H|H]; auto. Qed.

Lemma cleanValue_spec (value : gostring) :
  cleanValue value = true -> ~ In CR value /\ HasPrefix value [LF] = false.
Proof.
  unfold cleanValue. intros H. apply andb_true_iff in H. destruct H as [H1 H2].
  apply negb_true_iff in H1, H2. apply ContainsByte_false in H1. auto.
Qed.

Lemma headLine_clean (depth : nat) (name value : gostring) :
  validName name = true -> cleanValue value = true ->
  cleanLine (headLine depth name value) = true.
Proof.
  intros Hname Hvalue. apply cleanLine_spec. unfold headLine.
  destruct (cleanValue_spec value Hvalue) as [Hcr _].
  assert (Hind : forall c, In c (indentation depth) -> c <> LF /\ c <> CR).
  { intros c Hc. apply In_repeat_eq in Hc. subst c. split; discriminate. }
  assert (Hval : forall c,
             In c (if isEmpty value || isMultiline value then []
                   else [":"; " "] ++ value) -> c <> LF /\ c <> CR).
  { intros c. destruct (isEmpty value); [contradiction|]. cbn [orb].
    unfold isMultiline. destruct (ContainsByte value LF) eqn:E; [contradiction|].
    apply ContainsByte_false in E.
    intros [<-|[<-|Hc]]; [split; discriminate|split; discriminate|].
    split; intros ->; contradiction. }
  split; intros H; repeat (apply in_app_iff in H; destruct H as [H|H]);
    try (apply Hind in H; tauto);
    try (apply (validName_clean name _ Hname) in H; tauto);
    try (apply Hval in H; tauto).
Qed.

Lemma valueLines_clean (depth : nat) (value : gostring) :
  cleanValue value = true ->
  Forall (fun l => cleanLine l = true) (valueLines depth value)
  /\ Forall (fun l => keepLine l = true) (valueLines depth value).
Proof.
  intros Hvalue. destruct (cleanValue_spec value Hvalue) as [Hcr _].
  unfold valueLines. destruct (isMultiline value); [|split; constructor].
  split; apply Forall_forall; intros l Hl; apply in_map_iff in Hl;
    destruct Hl as (text & <- & Htext).
  - apply cleanLine_spec. unfold continuationLine.
    split; intros H; repeat (apply in_app_iff in H; destruct H as [H|H]);
      try (apply In_repeat_eq in H; discriminate);
      try (destruct H as [H|[H|[]]]; discriminate);
      destruct (Split_pieces _ _ _ Htext _ H); congruence.
  - apply continuationLine_facts.
Qed.

Lemma serLines_clean (n : Node) :
  wellFormed n = true ->
  forall depth,
    Forall (fun l => cleanLine l = true) (serLines n depth)
    /\ Forall (fun l => keepLine l = true) (serLines n depth).
Proof.
  induction n as [name value children IH] using Node_tree_ind.
  intros Hwf depth. cbn [wellFormed] in Hwf.
  apply andb_true_iff in Hwf. destruct Hwf as [Hwf Hcs].
  apply andb_true_iff in Hwf. destruct Hwf as [Hname Hvalue].
  cbn [serLines].
  destruct (valueLines_clean depth value Hvalue) as [Hv1 Hv2].
  assert (Hkids : Forall (fun l => cleanLine l = true)
                    (flat_map (fun child => serLines child (depth + 1)) children)
                  /\ Forall (fun l => keepLine l = true)
                       (flat_map (fun child => serLines child (depth + 1))
                          children)).
  { clear Hv1 Hv2. induction IH as [|c cs Hc _ IHcs]; [split; constructor|].
    cbn [forallb] in Hcs. apply andb_true_iff in Hcs. destruct Hcs as [Hc1 Hcs].
    destruct (Hc Hc1 (depth + 1)) as [H1 H2].
    destruct (IHcs Hcs) as [H3 H4].
    cbn [flat_map]. split; apply Forall_app; auto. }
  destruct Hkids as [Hk1 Hk2].
  split; constructor; try (apply Forall_app; auto).
  - apply headLine_clean; assumption.
  - apply headLine_facts. assumption.
Qed.

(** * Reading a serialized node back *)

Lemma colonStable_spec (value : gostring) :
  colonStable value = true ->
  (forall i, i < length value ->
             HasPrefix (skipn i (value ++ [])) ["/"; "/"] = false)
  /\ TrimRight value [" "] = value.
Proof.
  unfold colonStable. intros H. apply andb_true_iff in H.
  destruct H as [H1 H2]. apply Nat.eqb_eq in H1. apply negb_true_iff in H2.
  split.
  - intros i Hi. rewrite app_nil_r.
    apply (proj1 (commentOffset_split value)). lia.
  - apply TrimRight_unchanged. destruct (rev value) as [|c r]; [exact I|].
    simpl in *. rewrite andb_true_r in H2. rewrite H2. reflexivity.
Qed.

Lemma parseAttrs_at_end (fuel : nat) (line : gostring) (children : list Node) :
  parseAttrs (S fuel) line (length line) children = Ok children.
Proof. cbn [parseAttrs]. rewrite Nat.leb_refl. reflexivity. Qed.

(** The first line of a serialized node gives the name back, and the
    value when it is on that line. *)
Lemma parseHead_headLine (depth : nat) (name value : gostring) :
  validName name = true ->
  isMultiline value || colonStable value = true ->
  parseHead (headLine depth name value) (depth * 2)
  = Ok (mkNode name (if isMultiline value then [] else value) []).
Proof.
  intros Hname Hstable. apply validName_spec in Hname.
  destruct Hname as [Hne Hall].
  unfold parseHead. rewrite <- (length_indentation depth).
  set (part := if isEmpty value || isMultiline value then []
               else [":"; " "] ++ value).
  assert (Hline : headLine depth name value
                  = indentation depth ++ name ++ part) by reflexivity.
  rewrite Hline.
  assert (Hstop : stopsAt isValidNameChar part).
  { unfold part. destruct (isEmpty value || isMultiline value); exact I || reflexivity. }
  rewrite scanWhile_run by assumption.
  replace (length (indentation depth) + length name
           =? length (indentation depth)) with false
    by (symmetry; apply Nat.eqb_neq; destruct name; simpl; [congruence|lia]).
  replace (slice (indentation depth ++ name ++ part)
             (length (indentation depth))
             (length (indentation depth) + length name)) with name
    by (symmetry; apply slice_at).
  assert (Hpart : part = if isEmpty value || isMultiline value then []
                        else [":"; " "] ++ value) by reflexivity.
  clearbody part.
  destruct (isEmpty value || isMultiline value) eqn:E; subst part.
  - assert (Hend : length (indentation depth) + length name
                   = length (indentation depth ++ name ++ [])).
    { rewrite !length_app. simpl. lia. }
    rewrite Hend, Nat.ltb_irrefl. cbn [bind].
    rewrite parseAttrs_at_end. cbn [bind]. f_equal. f_equal.
    apply orb_true_iff in E. destruct E as [E|E]; [|rewrite E; reflexivity].
    apply isEmpty_true in E. subst value. reflexivity.
  - apply orb_false_iff in E. destruct E as [E1 E2].
    rewrite E2 in *. cbn [orb] in Hstable.
    destruct (colonStable_spec value Hstable) as [Hbody Htrim].
    replace (length (indentation depth) + length name
             <? length (indentation depth ++ name ++ [":"; " "] ++ value))
      with true
      by (symmetry; apply Nat.ltb_lt; rewrite !length_app; simpl; lia).
    pose proof (parseValue_colon_parts (indentation depth ++ name) [" "] value
                  [] (or_introl eq_refl) Hbody (or_introl eq_refl)) as Hv.
    rewrite app_nil_r in Hv. rewrite <- app_assoc in Hv.
    rewrite length_app in Hv.
    change ([":"] ++ [" "] ++ value) with ([":"; " "] ++ value) in Hv.
    rewrite Hv. cbn [bind].
    rewrite Htrim.
    replace (length ((indentation depth ++ name) ++ [":"] ++ [" "] ++ value))
      with (length (indentation depth ++ name ++ [":"; " "] ++ value))
      by (rewrite <- !app_assoc; reflexivity).
    rewrite parseAttrs_at_end. reflexivity.
Qed.

Lemma fold_continuations (texts : list gostring) (acc : gostring) :
  acc <> [] ->
  fold_left appendContinuation texts acc
  = acc ++ flat_map (fun text => LF :: text) texts.
Proof.
  revert acc. induction texts as [|t ts IH]; intros acc Hacc;
    [simpl; rewrite app_nil_r; reflexivity|].
  cbn [fold_left flat_map]. unfold appendContinuation at 2.
  destruct acc as [|c acc]; [congruence|]. cbn [isEmpty].
  rewrite IH by (destruct acc; discriminate).
  rewrite <- !app_assoc. reflexivity.
Qed.

Lemma Split_joined (s : gostring) (sep : ascii) :
  match Split s sep with
  | piece :: pieces => s = piece ++ flat_map (fun p => sep :: p) pieces
  | [] => False
  end.
Proof.
  induction s as [|c s IH]; [reflexivity|]. cbn [Split].
  destruct (byte_eqb c sep) eqn:E.
  - apply byte_eqb_eq in E. subst c.
    destruct (Split s sep) as [|p ps]; [contradiction|].
    cbn [app flat_map]. f_equal. exact IH.
  - destruct (Split s sep) as [|p ps]; [contradiction|].
    cbn [app]. f_equal. exact IH.
Qed.

(** The continuation lines of a value give the value back. *)
Lemma continuations_value (value : gostring) :
  HasPrefix value [LF] = false ->
  fold_left appendContinuation (Split value LF) [] = value.
Proof.
  intros H. pose proof (Split_joined value LF) as Hj.
  destruct value as [|c value]; [reflexivity|].
  cbn [HasPrefix] in H. rewrite andb_true_r in H.
  cbn [Split] in *. rewrite H in *.
  pose proof (Split_not_nil value LF) as Hne.
  destruct (Split value LF) as [|p ps]; [congruence|].
  cbn [fold_left]. unfold appendContinuation at 2. cbn [isEmpty app].
  rewrite fold_continuations by discriminate. symmetry. exact Hj.
Qed.

Lemma withValue_withValue (node : Node) (v w : gostring) :
  withValue (withValue node v) w = withValue node w.
Proof. reflexivity. Qed.

Lemma withValue_same (node : Node) : withValue node (Value node) = node.
Proof. destruct node. reflexivity. Qed.

(** The child loop over the continuation lines of a value. *)
Lemma parseChildren_valueLines (depth : nat) (texts : list gostring) :
  forall pre tail node fuel,
    parseChildren fuel (pre ++ map (continuationLine depth) texts ++ tail)
      (length pre) (depth * 2) node <> OutOfFuel ->
    exists fuel',
      parseChildren fuel (pre ++ map (continuationLine depth) texts ++ tail)
        (length pre) (depth * 2) node
      = parseChildren fuel'
          (pre ++ map (continuationLine depth) texts ++ tail)
          (length pre + length texts) (depth * 2)
          (withValue node (fold_left appendContinuation texts (Value node))).
Proof.
  induction texts as [|t ts IH]; intros pre tail node fuel Hfuel.
  - exists fuel. cbn [fold_left length]. rewrite Nat.add_0_r, withValue_same.
    reflexivity.
  - destruct fuel as [|fuel]; [simpl in Hfuel; congruence|].
    cbn [map app] in *. rewrite parseChildren_S in *.
    rewrite nth_error_at in *.
    destruct (continuationLine_facts depth t) as (Hd & _ & Htrim).
    rewrite Hd, Htrim in *.
    replace ((depth + 1) * 2 <=? depth * 2) with false in *
      by (symmetry; apply Nat.leb_gt; lia).
    change (HasPrefix ([":"; " "] ++ t) [":"]) with true in *. cbv iota in *.
    change (TrimPrefix (TrimPrefix ([":"; " "] ++ t) [":"]) [" "]) with t in *.
    replace (pre ++ continuationLine depth t
                 :: map (continuationLine depth) ts ++ tail)
      with ((pre ++ [continuationLine depth t])
              ++ map (continuationLine depth) ts ++ tail) in *
      by (rewrite <- app_assoc; reflexivity).
    replace (S (length pre)) with (length (pre ++ [continuationLine depth t]))
      in * by (rewrite length_app; simpl; lia).
    destruct (IH _ _ _ _ Hfuel) as [fuel' Hrec].
    exists fuel'. rewrite Hrec. rewrite withValue_withValue.
    cbn [fold_left Value withValue]. f_equal.
    rewrite length_app. simpl. lia.
Qed.

Lemma serLines_head (n : Node) (depth : nat) :
  exists rest, serLines n depth = headLine depth (Name n) (Value n) :: rest.
Proof. destruct n. cbn [serLines]. eauto. Qed.

Lemma wellFormed_name (n : Node) : wellFormed n = true -> validName (Name n) = true.
Proof.
  rewrite wellFormed_eq. intros H. apply andb_true_iff in H.
  destruct H as [H _]. apply andb_true_iff in H. tauto.
Qed.

Lemma shallow_kids (depth : nat) (cs : list Node) (post : list gostring)
    (f : nat -> nat) :
  forallb wellFormed cs = true ->
  depth * 2 <= f depth * 2 ->
  shallow (depth * 2) post ->
  shallow (f depth * 2)
    (flat_map (fun child => serLines child (f depth)) cs ++ post).
Proof.
  intros Hwf Hle Hpost. destruct cs as [|c cs].
  - simpl. destruct post; simpl in *; lia.
  - cbn [flat_map forallb] in *. apply andb_true_iff in Hwf.
    destruct Hwf as [Hc _].
    destruct (serLines_head c (f depth)) as [rest ->]. cbn [app shallow].
    rewrite (proj1 (headLine_facts _ _ _ (wellFormed_name c Hc))). lia.
Qed.

(** The child loop over the lines of serialized children. *)
Lemma parseChildren_children (depth : nat) (cs : list Node) :
  Forall reparses cs -> forallb wellFormed cs = true ->
  forall pre post node fuel,
    shallow (depth * 2) post ->
    parseChildren fuel
      (pre ++ flat_map (fun child => serLines child (depth + 1)) cs ++ post)
      (length pre) (depth * 2) node <> OutOfFuel ->
    parseChildren fuel
      (pre ++ flat_map (fun child => serLines child (depth + 1)) cs ++ post)
      (length pre) (depth * 2) node
    = Ok (withChildren node (Children node ++ cs),
          length pre
          + length (flat_map (fun child => serLines child (depth + 1)) cs)).
Proof.
  induction 1 as [|c cs Hc Hcs IH]; intros Hwf pre post node fuel Hpost Hfuel.
  - cbn [flat_map app length] in *. rewrite app_nil_r, Nat.add_0_r.
    destruct fuel as [|fuel]; [simpl in Hfuel; congruence|].
    rewrite parseChildren_S.
    replace (withChildren node (Children node)) with node
      by (destruct node; reflexivity).
    destruct post as [|l post].
    + rewrite app_nil_r, nth_error_past. reflexivity.
    + rewrite nth_error_at. simpl in Hpost. apply Nat.leb_le in Hpost.
      rewrite Hpost. reflexivity.
  - cbn [forallb] in Hwf. apply andb_true_iff in Hwf. destruct Hwf as [Hwc Hwcs].
    destruct fuel as [|fuel]; [simpl in Hfuel; congruence|].
    cbn [flat_map] in *. rewrite <- !app_assoc in *.
    rewrite parseChildren_S in *.
    destruct (serLines_head c (depth + 1)) as [rest Hhead].
    destruct (headLine_facts (depth + 1) (Name c) (Value c)
                (wellFormed_name c Hwc)) as (Hd & _ & Hcont).
    assert (Hnth : nth_error
                     (pre ++ serLines c (depth + 1)
                          ++ flat_map (fun child => serLines child (depth + 1)) cs
                          ++ post) (length pre)
                   = Some (headLine (depth + 1) (Name c) (Value c))).
    { rewrite Hhead. cbn [app]. apply nth_error_at. }
    rewrite Hnth in *. rewrite Hd, Hcont in *.
    replace ((depth + 1) * 2 <=? depth * 2) with false in *
      by (symmetry; apply Nat.leb_gt; lia).
    assert (Hshallow : shallow ((depth + 1) * 2)
                         (flat_map (fun child => serLines child (depth + 1)) cs
                          ++ post)).
    { apply (shallow_kids depth cs post (fun d => d + 1)); auto. lia. }
    assert (Hnode : parseNode fuel
                      (pre ++ serLines c (depth + 1)
                           ++ flat_map (fun child => serLines child (depth + 1)) cs
                           ++ post) (length pre) (Z.of_nat (depth * 2))
                    = Ok (c, length pre + length (serLines c (depth + 1)))).
    { apply Hc; [lia|assumption|].
      intros Hoof. rewrite Hoof in Hfuel. cbn [bind] in Hfuel. congruence. }
    rewrite Hnode in *. cbn [bind] in *.
    rewrite <- length_app in *. rewrite app_assoc in *.
    rewrite (IH Hwcs _ _ _ _ Hpost Hfuel).
    cbn [appendChild withChildren Children Name Value]. f_equal. f_equal.
    + rewrite <- app_assoc. reflexivity.
    + rewrite !length_app. lia.
Qed.

Lemma stableTree_eq (n : Node) :
  stableTree n
  = (ContainsByte (Value n) LF || colonStable (Value n))
    && forallb stableTree (Children n).
Proof. destruct n. reflexivity. Qed.

(** [parseNode] reads a serialized node back. *)
Lemma parseNode_serialized (n : Node) :
  wellFormed n = true -> stableTree n = true -> reparses n.
Proof.
  induction n as [name value children IH] using Node_tree_ind.
  intros Hwf Hstable depth pre post pd fuel Hpd Hpost Hfuel.
  cbn [wellFormed] in Hwf.
  apply andb_true_iff in Hwf. destruct Hwf as [Hwf Hwcs].
  apply andb_true_iff in Hwf. destruct Hwf as [Hname Hvalue].
  cbn [stableTree] in Hstable.
  apply andb_true_iff in Hstable. destruct Hstable as [Hsv Hscs].
  assert (Hkids : Forall reparses children).
  { clear - IH Hwcs Hscs. induction IH as [|c cs Hc _ IHcs]; constructor.
    - cbn [forallb] in *. apply andb_true_iff in Hwcs, Hscs. apply Hc; tauto.
    - cbn [forallb] in *. apply andb_true_iff in Hwcs, Hscs. apply IHcs; tauto. }
  destruct fuel as [|fuel]; [simpl in Hfuel; congruence|].
  cbn [serLines] in *.
  set (kids := flat_map (fun child => serLines child (depth + 1)) children) in *.
  cbn [app] in *. rewrite parseNode_S in *. rewrite nth_error_at in *.
  destruct (headLine_facts depth name value Hname) as (Hd & _ & _).
  rewrite Hd in *.
  replace ((Z.of_nat (depth * 2) <=? pd)%Z) with false in *
    by (symmetry; apply Z.leb_gt; lia).
  cbn [andb] in *.
  rewrite (parseHead_headLine depth name value Hname Hsv) in *.
  cbn [bind] in *.
  replace (pre ++ headLine depth name value
               :: (valueLines depth value ++ kids) ++ post)
    with ((pre ++ [headLine depth name value])
            ++ valueLines depth value ++ kids ++ post) in *
    by (rewrite <- !app_assoc; reflexivity).
  replace (S (length pre)) with (length (pre ++ [headLine depth name value]))
    in * by (rewrite length_app; simpl; lia).
  set (P := pre ++ [headLine depth name value]) in *.
  assert (Hlen : length pre + length (headLine depth name value
                                      :: valueLines depth value ++ kids)
                 = length P + length (valueLines depth value) + length kids).
  { unfold P. rewrite !length_app. cbn [length]. rewrite length_app. lia. }
  rewrite Hlen. clear Hlen.
  unfold valueLines in *. unfold isMultiline in *.
  destruct (ContainsByte value LF) eqn:Emulti.
  - set (M := map (continuationLine depth) (Split value LF)) in *.
    destruct (parseChildren_valueLines depth (Split value LF) P (kids ++ post)
                _ _ Hfuel) as [fuel' Hvl].
    fold M in Hvl. rewrite Hvl in Hfuel. rewrite Hvl. clear Hvl.
    cbn [withValue Name Value Children] in *.
    rewrite continuations_value in * by (apply cleanValue_spec; assumption).
    assert (Hidx : length P + length (Split value LF) = length (P ++ M))
      by (unfold M; rewrite length_app, length_map; reflexivity).
    rewrite Hidx in *. rewrite (app_assoc P M) in *. unfold kids in *.
    rewrite (parseChildren_children depth children Hkids Hwcs _ _ _ _ Hpost
               Hfuel).
    cbn [withChildren withValue Name Value Children app]. f_equal. f_equal.
    rewrite length_app. lia.
  - cbn [app] in *. unfold kids in *.
    rewrite (parseChildren_children depth children Hkids Hwcs _ _ _ _ Hpost
               Hfuel).
    cbn [withChildren Name Value Children app length]. f_equal. f_equal.
    lia.
Qed.

(** The top-level loop reads serialized nodes back. *)
Lemma parseTop_serialized (cs : list Node) :
  forallb wellFormed cs = true -> forallb stableTree cs = true ->
  forall pre root fuel,
    parseTop fuel (pre ++ flat_map (fun child => serLines child 0) cs)
      (length pre) root <> OutOfFuel ->
    parseTop fuel (pre ++ flat_map (fun child => serLines child 0) cs)
      (length pre) root
    = Ok (withChildren root (Children root ++ cs)).
Proof.
  induction cs as [|c cs IH]; intros Hwf Hst pre root fuel Hfuel.
  - cbn [flat_map] in *. rewrite app_nil_r in *.
    destruct fuel as [|fuel]; [simpl in Hfuel; congruence|].
    rewrite parseTop_S, Nat.ltb_irrefl.
    destruct root as [name value children].
    cbn [withChildren Name Value Children]. rewrite app_nil_r. reflexivity.
  - cbn [forallb] in Hwf, Hst. apply andb_true_iff in Hwf, Hst.
    destruct Hwf as [Hwc Hwcs]. destruct Hst as [Hsc Hscs].
    destruct fuel as [|fuel]; [simpl in Hfuel; congruence|].
    cbn [flat_map] in *. rewrite parseTop_S in *.
    destruct (serLines_head c 0) as [rest Hhead].
    replace (length pre
             <? length (pre ++ serLines c 0
                            ++ flat_map (fun child => serLines child 0) cs))
      with true in *
      by (symmetry; apply Nat.ltb_lt; rewrite Hhead, !length_app; simpl; lia).
    assert (Hshallow : shallow (0 * 2)
                         (flat_map (fun child => serLines child 0) cs ++ [])).
    { apply (shallow_kids 0 cs [] (fun _ => 0)); simpl; auto. }
    rewrite app_nil_r in Hshallow.
    pose proof (parseNode_serialized c Hwc Hsc 0 pre
                  (flat_map (fun child => serLines child 0) cs) (-1)%Z fuel
                  ltac:(lia) Hshallow) as Hnode.
    rewrite Hnode in *
      by (intros Hoof; rewrite Hoof in Hfuel; cbn [bind] in Hfuel; congruence).
    cbn [bind] in *. rewrite <- length_app in *. rewrite app_assoc in *.
    rewrite (IH Hwcs Hscs _ _ _ Hfuel).
    unfold appendChild, withChildren. cbn [Name Value Children].
    rewrite <- app_assoc. reflexivity.
Qed.

(** The round trip on a document whose nodes are well formed and whose
    values without newline survive the colon form. *)
Lemma Parse_Serialize (children : list Node) :
  forallb wellFormed children = true ->
  forallb stableTree children = true ->
  Parse (Serialize (Some (mkDocument (Some (mkNode [] [] children)))))
  = Ok (mkDocument (Some (mkNode [] [] children))).
Proof.
  intros Hwf Hst. rewrite Serialize_lines. cbn [Children].
  set (lines := flat_map (fun child => serLines child 0) children).
  assert (Hclean : Forall (fun l => cleanLine l = true) lines
                   /\ Forall (fun l => keepLine l = true) lines).
  { unfold lines. clear Hst. induction children as [|c cs IH];
      [split; constructor|].
    cbn [forallb] in Hwf. apply andb_true_iff in Hwf.
    destruct Hwf as [Hc Hcs]. destruct (serLines_clean c Hc 0) as [H1 H2].
    destruct (IH Hcs) as [H3 H4]. cbn [flat_map].
    split; apply Forall_app; auto. }
  destruct Hclean as [Hclean Hkeep].
  unfold Parse. rewrite (normalizeLines_unlines lines Hclean Hkeep).
  destruct (length lines =? 0) eqn:E.
  - apply Nat.eqb_eq in E. unfold lines in E.
    destruct children as [|c cs]; [reflexivity|].
    cbn [flat_map] in E. destruct (serLines_head c 0) as [rest Hhead].
    rewrite Hhead in E. simpl in E. lia.
  - pose proof (parseTop_fuel (2 * length lines + 1) lines 0 emptyNode
                  ltac:(lia) ltac:(lia)) as Hfuel.
    pose proof (parseTop_serialized children Hwf Hst [] emptyNode
                  (2 * length lines + 1)) as Htop.
    cbn [app length] in Htop. fold lines in Htop.
    rewrite Htop by assumption. reflexivity.
Qed.

(** The round trip for every input that parses, attributes and values in
    the [=] form included, under the one condition on the values without
    newline. *)
Lemma round_trip_stable (data : gostring) (doc : Document) :
  Parse data = Ok doc ->
  stableDocument doc = true ->
  Parse (Serialize (Some doc)) = Ok doc.
Proof.
  intros Hparse Hstable.
  destruct (Parse_wellFormed data doc Hparse) as (children & -> & Hwf).
  apply Parse_Serialize; assumption.
Qed.

(** C1, as the spec has it, fails: the text of a single continuation line
    becomes a value without newline, which the serializer writes in the
    colon form; read back, it is cut at the comment marker. *)
Lemma round_trip_counterexample :
  let data := lit "A" ++ [LF] ++ lit "  : a//b" in
  let doc := mkDocument (Some (mkNode [] [] [mkNode (lit "A") (lit "a//b") []])) in
  plainDocument data = true
  /\ Parse data = Ok doc
  /\ Serialize (Some doc) = lit "A: a//b" ++ [LF]
  /\ Parse (Serialize (Some doc))
     = Ok (mkDocument (Some (mkNode [] [] [mkNode (lit "A") (lit "a") []])))
  /\ Parse (Serialize (Some doc)) <> Parse data.
Proof. repeat split. discriminate. Qed.

(** C1, amended.  For an input that parses, without inline attributes and
    without values in the [=] form, and in whose tree every value without
    a newline has no [//] in it and no space at its end: parsing what
    [Serialize] writes for the tree succeeds and gives the same tree. *)
Theorem round_trip (data : gostring) (doc : Document) :
  Parse data = Ok doc ->
  plainDocument data = true ->
  stableDocument doc = true ->
  Parse (Serialize (Some doc)) = Ok doc.
Proof.
  intros Hparse _ Hstable. eapply round_trip_stable; eassumption.
Qed.

Lemma round_trip_witness :
  let data := lit "Video" ++ [LF] ++ lit "    Driver:  Metal 2  // fast"
              ++ [CR; LF; TAB] ++ lit "Mode" ++ [LF] ++ lit "Desc: One"
              ++ [LF] ++ lit "  : Two //" ++ [LF] in
  let doc := mkDocument
               (Some (mkNode [] []
                        [mkNode (lit "Video") []
                           [mkNode (lit "Driver") (lit " Metal 2") [];
                            mkNode (lit "Mode") [] []];
                         mkNode (lit "Desc") (lit "One" ++ [LF] ++ lit "Two //")
                           []])) in
  Parse data = Ok doc
  /\ plainDocument data = true
  /\ stableDocument doc = true
  /\ Parse (Serialize (Some doc)) = Ok doc.
Proof.
  split; [reflexivity|]. split; [reflexivity|]. split; [reflexivity|].
  apply (round_trip
           (lit "Video" ++ [LF] ++ lit "    Driver:  Metal 2  // fast"
            ++ [CR; LF; TAB] ++ lit "Mode" ++ [LF] ++ lit "Desc: One"
            ++ [LF] ++ lit "  : Two //" ++ [LF])); reflexivity.
Defined.

(** * More on the errors of [Parse] *)

(** Every error comes from the part of [parseNode] that reads the line of
    the node. *)
Lemma parse_error_source (fuel : nat) (lines : list gostring) :
  (forall index pd e,
      parseNode fuel lines index pd = Err e ->
      calledInLoop lines index pd ->
      exists line, In line lines /\ parseHead line (readDepth line) = Err e)
  /\ (forall index depth node e,
        parseChildren fuel lines index depth node = Err e ->
        exists line, In line lines /\ parseHead line (readDepth line) = Err e).
Proof.
  induction fuel as [|fuel [IHn IHc]]; [split; intros; discriminate|].
  split.
  - intros index pd e. rewrite parseNode_S. intros H (line & Hline & Hpd).
    rewrite Hline in H.
    assert (Hcheck : (Z.of_nat (readDepth line) <=? pd)%Z && (0 <=? pd)%Z
                     = false).
    { apply andb_false_iff. destruct Hpd as [->|Hpd]; [right; reflexivity|].
      left. apply Z.leb_gt. exact Hpd. }
    rewrite Hcheck in H.
    destruct (parseHead line (readDepth line)) as [head| |] eqn:Eh;
      cbn [bind] in H.
    + eapply IHc; eassumption.
    + injection H as <-. exists line. split; [eapply nth_error_In; eauto|auto].
    + discriminate.
  - intros index depth node e. rewrite parseChildren_S.
    destruct (nth_error lines index) as [next|] eqn:E; [|discriminate].
    destruct (readDepth next <=? depth) eqn:Ed; [discriminate|].
    destruct (HasPrefix (TrimLeft next [" "; TAB]) [":"]).
    + apply IHc.
    + destruct (parseNode fuel lines index (Z.of_nat depth))
        as [[child ix]| |] eqn:En; cbn [bind]; try discriminate.
      * apply IHc.
      * intros H. injection H as <-. eapply IHn; [eassumption|].
        exists next. split; [assumption|]. right.
        apply Nat.leb_gt in Ed. lia.
Qed.

Lemma parseTop_error_source (fuel : nat) (lines : list gostring) :
  forall index root e,
    parseTop fuel lines index root = Err e ->
    exists line, In line lines /\ parseHead line (readDepth line) = Err e.
Proof.
  induction fuel as [|fuel IH]; intros index root e; [discriminate|].
  rewrite parseTop_S.
  destruct (index <? length lines) eqn:E; [|discriminate].
  destruct (parseNode fuel lines index (-1)%Z) as [[node ix]| |] eqn:En;
    cbn [bind]; try discriminate.
  - apply IH.
  - intros H. injection H as <-.
    eapply (proj1 (parse_error_source fuel lines)); [eassumption|].
    apply Nat.ltb_lt in E.
    destruct (nth_error lines index) as [line|] eqn:El.
    + exists line. auto.
    + apply nth_error_None in El. lia.
Qed.

Lemma Parse_error_source (data : gostring) (e : error) :
  Parse data = Err e ->
  exists line,
    In line (normalizeLines data) /\ parseHead line (readDepth line) = Err e.
Proof.
  unfold Parse.
  destruct (length (normalizeLines data) =? 0); [discriminate|].
  destruct (parseTop _ _ _ _) eqn:E; cbn [bind]; try discriminate.
  intros H. injection H as <-. eapply parseTop_error_source. eassumption.
Qed.

(** When [parseHead] fails: no name character where the name should
    begin, or an unclosed quote, which takes a double quote on the
    line. *)
Lemma parseValue_error_quote (line : gostring) (pos : nat) (e : error) :
  parseValue line pos = Err e -> In QUOTE line.
Proof.
  unfold parseValue.
  destruct (nth_error line pos) as [c|]; [|discriminate].
  destruct (byte_eqb c ":"); [discriminate|].
  destruct (byte_eqb c "="); [|discriminate].
  destruct (nth_error line (S pos)) as [q|] eqn:Eq; [|discriminate].
  destruct (byte_eqb q QUOTE) eqn:E; [|discriminate].
  intros _. apply byte_eqb_eq in E. subst q. eapply nth_error_In. eassumption.
Qed.

Lemma parseValue_opt_error_quote (line : gostring) (pos : nat) (e : error) :
  (if pos <? length line then parseValue line pos else Ok ([], pos)) = Err e ->
  In QUOTE line.
Proof.
  destruct (pos <? length line); [apply parseValue_error_quote|discriminate].
Qed.

Lemma parseAttrs_error_quote (line : gostring) (e : error) :
  forall fuel pos children,
    parseAttrs fuel line pos children = Err e -> In QUOTE line.
Proof.
  induction fuel as [|fuel IH]; intros pos children; [discriminate|].
  cbn [parseAttrs].
  destruct (length line <=? pos); [discriminate|].
  destruct (length line <=? scanWhile (fun c => byte_eqb c " ") line pos);
    [discriminate|].
  match goal with |- context [if ?b then Ok children else _] =>
    destruct b end; [discriminate|].
  match goal with |- context [if ?b then Ok children else _] =>
    destruct b end; [discriminate|].
  match goal with |- context [bind ?r _] => destruct r as [[v p]| |] eqn:Ev end;
    cbn [bind]; try discriminate.
  - apply IH.
  - intros _. eapply parseValue_opt_error_quote. eassumption.
Qed.

Lemma parseHead_error (line : gostring) (depth : nat) (e : error) :
  parseHead line depth = Err e ->
  (e = InvalidNodeName line
   /\ stopsAt isValidNameChar (skipn depth line))
  \/ (e = UnclosedQuote line /\ In QUOTE line).
Proof.
  unfold parseHead.
  match goal with |- context [if ?b then Err _ else _] =>
    destruct b eqn:E end.
  - intros H. injection H as <-. left. split; [reflexivity|].
    apply Nat.eqb_eq in E. unfold scanWhile in E.
    assert (Hz : span isValidNameChar (skipn depth line) = 0) by lia.
    pose proof (span_split isValidNameChar (skipn depth line)) as [_ Hs].
    rewrite Hz in Hs. exact Hs.
  - match goal with |- context [bind ?r _] =>
      destruct r as [[v p]| |] eqn:Ev end; cbn [bind].
    + destruct (parseAttrs (S (length line)) line p []) as [cs| |] eqn:Ea;
        cbn [bind]; try discriminate.
      intros H. injection H as <-.
      destruct (parseAttrs_cases (S (length line)) line p [] ltac:(lia))
        as [[cs Hc]|Hc]; rewrite Hc in Ea; [discriminate|].
      injection Ea as <-. right. split; [reflexivity|].
      eapply parseAttrs_error_quote. eassumption.
    + intros H. injection H as <-.
      destruct (parseValue_opt_cases line
                  (scanWhile isValidNameChar line depth))
        as [(v & p & Hv & _)|Hv]; rewrite Hv in Ev; [discriminate|].
      injection Ev as <-. right. split; [reflexivity|].
      eapply parseValue_opt_error_quote. eassumption.
    + discriminate.
Qed.

Lemma normalizeLines_keep (data : gostring) :
  Forall (fun l => keepLine l = true) (normalizeLines data).
Proof.
  apply Forall_forall. intros l Hl. unfold normalizeLines in Hl.
  apply filter_In in Hl. tauto.
Qed.

Lemma In_replaceFrom (c : ascii) (old new : gostring) :
  forall s skip, In c (replaceFrom skip s old new) -> In c s \/ In c new.
Proof.
  induction s as [|x s IH]; intros skip H; [simpl in H; tauto|].
  cbn [replaceFrom] in H. destruct skip as [|k].
  - destruct (HasPrefix (x :: s) old).
    + apply in_app_iff in H. destruct H as [H|H]; [tauto|].
      apply IH in H. simpl. tauto.
    + destruct H as [H|H]; [left; left; assumption|].
      apply IH in H. simpl. tauto.
  - apply IH in H. simpl. tauto.
Qed.

(** The bytes of the normalized lines are bytes of the input. *)
Lemma normalizeLines_bytes (data line : gostring) (c : ascii) :
  In line (normalizeLines data) -> In c line -> In c data.
Proof.
  intros Hl Hc. unfold normalizeLines in Hl. apply filter_In in Hl.
  destruct Hl as [Hl _]. destruct (Split_pieces _ _ _ Hl _ Hc) as [Hin Hne].
  unfold ReplaceAll in Hin.
  apply In_replaceFrom in Hin. destruct Hin as [Hin|[Hin|[]]]; [|congruence].
  apply In_replaceFrom in Hin. destruct Hin as [Hin|[Hin|[]]]; [|congruence].
  exact Hin.
Qed.

(** X1. The errors of [Parse].  An error of [Parse] is the error of the
    line of one node: [InvalidNodeName] for a normalized line that has no
    name character after its indentation, or [UnclosedQuote] for a
    normalized line with a double quote on it.  [Parse] never returns
    [InvalidIndentation], and an input without a double quote can only
    fail with [InvalidNodeName]. *)
Theorem Parse_error_kinds (data : gostring) (e : error) :
  Parse data = Err e ->
  (exists line,
      In line (normalizeLines data)
      /\ ((e = InvalidNodeName line
           /\ stopsAt isValidNameChar (skipn (readDepth line) line))
          \/ (e = UnclosedQuote line /\ In QUOTE line)))
  /\ (forall line, e <> InvalidIndentation line)
  /\ (~ In QUOTE data -> exists line, e = InvalidNodeName line).
Proof.
  intros H. destruct (Parse_error_source data e H) as (line & Hin & Hhead).
  apply parseHead_error in Hhead.
  split; [exists line; auto|]. split.
  - intros l ->. destruct Hhead as [[Hh _]|[Hh _]]; discriminate.
  - intros Hq. destruct Hhead as [[-> _]|[_ Hh]]; [eauto|].
    exfalso. apply Hq. eapply normalizeLines_bytes; eassumption.
Qed.

Lemma Parse_error_kinds_witness :
  Parse (lit "Video" ++ [LF] ++ lit "  !bad")
  = Err (InvalidNodeName (lit "  !bad"))
  /\ exists line,
       In line (normalizeLines (lit "Video" ++ [LF] ++ lit "  !bad"))
       /\ ((InvalidNodeName (lit "  !bad") = InvalidNodeName line
            /\ stopsAt isValidNameChar (skipn (readDepth line) line))
           \/ (InvalidNodeName (lit "  !bad") = UnclosedQuote line
               /\ In QUOTE line)).
Proof.
  split; [reflexivity|].
  exact (proj1 (Parse_error_kinds (lit "Video" ++ [LF] ++ lit "  !bad")
                  (InvalidNodeName (lit "  !bad")) eq_refl)).
Defined.

(** X2. Where [Parse] succeeds.  An input whose normalized lines each
    begin, after the indentation, with a name character and hold no
    double quote always parses. *)
Theorem Parse_safe_lines (data : gostring) :
  forallb safeLine (normalizeLines data) = true ->
  exists doc, Parse data = Ok doc.
Proof.
  intros Hsafe. destruct (Parse data) as [doc|e|] eqn:E; [eauto| |].
  - exfalso. destruct (Parse_error_source data e E) as (line & Hin & Hhead).
    rewrite forallb_forall in Hsafe. specialize (Hsafe line Hin).
    unfold safeLine in Hsafe. apply andb_true_iff in Hsafe.
    destruct Hsafe as [Hname Hquote]. apply negb_true_iff in Hquote.
    apply ContainsByte_false in Hquote.
    apply parseHead_error in Hhead. destruct Hhead as [[_ Hs]|[_ Hq]];
      [|contradiction].
    destruct (skipn (readDepth line) line) as [|c rest]; [discriminate|].
    simpl in Hs. congruence.
  - exfalso. eapply Parse_total. eassumption.
Qed.

Lemma Parse_safe_lines_witness :
  exists doc,
    Parse (lit "Video: a // c" ++ [LF; TAB] ++ lit "Mode=x y 9" ++ [LF]
           ++ lit "Audio ?") = Ok doc.
Proof.
  apply Parse_safe_lines. reflexivity.
Defined.

(** * What [normalizeLines] drops and what it keeps *)

Lemma normalizeLines_raw (raw : list gostring) :
  Forall (fun l => cleanLine l = true) raw ->
  normalizeLines (unlines raw) = filter keepLine raw.
Proof.
  intros Hclean. unfold normalizeLines.
  assert (Hcr : ~ In CR (unlines raw)).
  { intros H. apply In_unlines in H. destruct H as [H|(l & Hl & Hc)];
      [discriminate|].
    rewrite Forall_forall in Hclean. apply Hclean in Hl.
    apply cleanLine_spec in Hl. tauto. }
  unfold ReplaceAll. cbv zeta.
  rewrite (replaceFrom_absent _ [LF] [LF] CR Hcr).
  rewrite (replaceFrom_absent _ [] [LF] CR Hcr).
  rewrite Split_unlines.
  - rewrite filter_app. cbn [filter].
    replace (keepLine []) with false by reflexivity. apply app_nil_r.
  - eapply Forall_impl; [|exact Hclean]. intros l Hl.
    apply cleanLine_spec in Hl. tauto.
Qed.

Lemma replaceFrom_prefix (l s old new : gostring) (o : ascii) :
  ~ In o l ->
  replaceFrom 0 (l ++ s) (o :: old) new = l ++ replaceFrom 0 s (o :: old) new.
Proof.
  induction l as [|c l IH]; intros H; [reflexivity|].
  cbn [app replaceFrom HasPrefix].
  replace (byte_eqb c o) with false
    by (symmetry; apply byte_eqb_neq; intros ->; apply H; left; reflexivity).
  cbn [andb]. f_equal. apply IH. intros Hin. apply H. right. assumption.
Qed.

Lemma replace_CRLF_joined (raw : list gostring) :
  Forall (fun l => cleanLine l = true) raw ->
  ReplaceAll (joinLines [CR; LF] raw) [CR; LF] [LF] = unlines raw.
Proof.
  unfold ReplaceAll. induction 1 as [|l raw Hl _ IH]; [reflexivity|].
  apply cleanLine_spec in Hl. destruct Hl as [_ Hcr].
  unfold joinLines in *. cbn [flat_map]. rewrite <- app_assoc.
  rewrite replaceFrom_prefix by assumption.
  rewrite unlines_cons. f_equal. cbn [app].
  change (replaceFrom 0 (CR :: LF :: ?s) [CR; LF] [LF])
    with ([LF] ++ replaceFrom 0 s [CR; LF] [LF]).
  rewrite IH. reflexivity.
Qed.

Lemma replaceFrom_no_LF (s new : gostring) :
  ~ In LF s -> replaceFrom 0 s [CR; LF] new = s.
Proof.
  induction s as [|c s IH]; intros H; [reflexivity|].
  cbn [replaceFrom].
  assert (Hp : HasPrefix (c :: s) [CR; LF] = false).
  { cbn [HasPrefix]. destruct s as [|d s]; [apply andb_false_r|].
    replace (byte_eqb d LF) with false
      by (symmetry; apply byte_eqb_neq; intros ->; apply H; right; left;
          reflexivity).
    apply andb_false_r. }
  rewrite Hp. f_equal. apply IH. intros Hin. apply H. right. assumption.
Qed.

Lemma replace_CR_joined (raw : list gostring) :
  Forall (fun l => cleanLine l = true) raw ->
  ReplaceAll (ReplaceAll (joinLines [CR] raw) [CR; LF] [LF]) [CR] [LF]
  = unlines raw.
Proof.
  intros Hclean. unfold ReplaceAll at 2.
  rewrite replaceFrom_no_LF.
  - unfold ReplaceAll. induction Hclean as [|l raw Hl _ IH]; [reflexivity|].
    apply cleanLine_spec in Hl. destruct Hl as [_ Hcr].
    unfold joinLines in *. cbn [flat_map]. rewrite <- app_assoc.
    rewrite replaceFrom_prefix by assumption.
    rewrite unlines_cons. f_equal. cbn [app].
    change (replaceFrom 0 (CR :: ?s) [CR] [LF])
      with ([LF] ++ replaceFrom 0 s [CR] [LF]).
    rewrite IH. reflexivity.
  - intros H. unfold joinLines in H. apply in_flat_map in H.
    destruct H as (l & Hl & Hc). apply in_app_iff in Hc.
    destruct Hc as [Hc|[Hc|[]]]; [|discriminate].
    rewrite Forall_forall in Hclean. apply Hclean in Hl.
    apply cleanLine_spec in Hl. tauto.
Qed.

Lemma trimLeftSpace_blank (ws : gostring) :
  forallb asciiSpace ws = true -> trimLeftSpace ws = [].
Proof.
  induction ws as [|c ws IH]; [reflexivity|]. cbn [forallb trimLeftSpace].
  intros H. apply andb_true_iff in H. destruct H as [-> H]. auto.
Qed.

Lemma isIndent_asciiSpace (c : ascii) : isIndent c = true -> asciiSpace c = true.
Proof.
  unfold isIndent. intros H. apply orb_true_iff in H.
  destruct H as [H|H]; apply byte_eqb_eq in H; subst c; reflexivity.
Qed.

(** X3. Comment lines and blank lines.  A text made of lines is read as
    the same text without the lines that hold white space only and
    without the lines that begin, after their indentation, with [//]:
    [normalizeLines] gives the other lines, in their order, and [Parse]
    gives the same result for both texts. *)
Theorem comments_and_blank_lines (raw : list gostring) :
  Forall (fun l => cleanLine l = true) raw ->
  normalizeLines (unlines raw) = filter keepLine raw
  /\ Parse (unlines raw) = Parse (unlines (filter keepLine raw))
  /\ (forall indent text,
        forallb isIndent indent = true ->
        keepLine (indent ++ lit "//" ++ text) = false)
  /\ (forall ws, forallb asciiSpace ws = true -> keepLine ws = false)
  /\ (forall k c rest,
        solidByte c = true -> byte_eqb c "/" = false ->
        keepLine (repeat " " k ++ c :: rest) = true).
Proof.
  intros Hclean. split; [apply normalizeLines_raw; assumption|]. split.
  - assert (Hsame : normalizeLines (unlines (filter keepLine raw))
                    = normalizeLines (unlines raw)).
    { rewrite !normalizeLines_raw; [|assumption|].
      - clear. induction raw as [|l raw IH]; [reflexivity|]. cbn [filter].
        destruct (keepLine l) eqn:E; cbn [filter]; rewrite ?E; congruence.
      - apply Forall_forall. intros l Hl. apply filter_In in Hl.
        rewrite Forall_forall in Hclean. apply Hclean. tauto. }
    unfold Parse. rewrite Hsame. reflexivity.
  - split; [|split].
    + intros indent text Hindent. unfold keepLine.
      destruct (isBlank (indent ++ lit "//" ++ text)); [reflexivity|].
      cbn [negb andb]. apply negb_false_iff. unfold isCommentLine.
      rewrite readDepth_indent by (assumption || reflexivity).
      rewrite skipn_at. apply HasPrefix_app.
    + intros ws Hws. unfold keepLine, isBlank, TrimSpace.
      rewrite trimLeftSpace_blank by assumption. reflexivity.
    + intros k c rest Hc Hslash. apply solid_line; assumption.
Qed.

Lemma comments_and_blank_lines_witness :
  let raw := [lit "// settings"; lit "Video"; lit "   "; lit "  // inner";
              lit "  Driver: Metal"] in
  Forall (fun l => cleanLine l = true) raw
  /\ normalizeLines (unlines raw) = [lit "Video"; lit "  Driver: Metal"]
  /\ Parse (unlines raw)
     = Parse (unlines [lit "Video"; lit "  Driver: Metal"]).
Proof.
  assert (H : Forall (fun l => cleanLine l = true)
                [lit "// settings"; lit "Video"; lit "   "; lit "  // inner";
                 lit "  Driver: Metal"])
    by (repeat constructor).
  split; [exact H|].
  destruct (comments_and_blank_lines _ H) as (H1 & H2 & _).
  split; [exact H1|exact H2].
Defined.

(** X4. Line endings.  Lines ended by a line feed, by a carriage return
    and a line feed, or by a carriage return alone give the same
    normalized lines, and so the same result of [Parse]. *)
Theorem line_endings (raw : list gostring) :
  Forall (fun l => cleanLine l = true) raw ->
  normalizeLines (joinLines [CR; LF] raw) = normalizeLines (joinLines [LF] raw)
  /\ normalizeLines (joinLines [CR] raw) = normalizeLines (joinLines [LF] raw)
  /\ Parse (joinLines [CR; LF] raw) = Parse (joinLines [LF] raw)
  /\ Parse (joinLines [CR] raw) = Parse (joinLines [LF] raw).
Proof.
  intros Hclean.
  assert (H1 : normalizeLines (joinLines [CR; LF] raw)
               = normalizeLines (joinLines [LF] raw)).
  { change (joinLines [LF] raw) with (unlines raw).
    rewrite normalizeLines_raw by assumption.
    unfold normalizeLines. rewrite replace_CRLF_joined by assumption.
    assert (Hcr : ~ In CR (unlines raw)).
    { intros H. apply In_unlines in H. destruct H as [H|(l & Hl & Hc)];
        [discriminate|].
      rewrite Forall_forall in Hclean. apply Hclean in Hl.
      apply cleanLine_spec in Hl. tauto. }
    unfold ReplaceAll. rewrite (replaceFrom_absent _ [] [LF] CR Hcr).
    rewrite Split_unlines.
    - rewrite filter_app. cbn [filter].
      replace (keepLine []) with false by reflexivity. apply app_nil_r.
    - eapply Forall_impl; [|exact Hclean]. intros l Hl.
      apply cleanLine_spec in Hl. tauto. }
  assert (H2 : normalizeLines (joinLines [CR] raw)
               = normalizeLines (joinLines [LF] raw)).
  { change (joinLines [LF] raw) with (unlines raw).
    rewrite normalizeLines_raw by assumption.
    unfold normalizeLines. rewrite replace_CR_joined by assumption.
    rewrite Split_unlines.
    - rewrite filter_app. cbn [filter].
      replace (keepLine []) with false by reflexivity. apply app_nil_r.
    - eapply Forall_impl; [|exact Hclean]. intros l Hl.
      apply cleanLine_spec in Hl. tauto. }
  split; [exact H1|]. split; [exact H2|].
  unfold Parse. rewrite H1, H2. split; reflexivity.
Qed.

Lemma line_endings_witness :
  let raw := [lit "Video"; lit "  Driver: Metal"; lit "Audio"] in
  Forall (fun l => cleanLine l = true) raw
  /\ Parse (lit "Video" ++ [CR; LF] ++ lit "  Driver: Metal" ++ [CR; LF]
            ++ lit "Audio" ++ [CR; LF])
     = Parse (lit "Video" ++ [LF] ++ lit "  Driver: Metal" ++ [LF]
              ++ lit "Audio" ++ [LF]).
Proof.
  assert (H : Forall (fun l => cleanLine l = true)
                [lit "Video"; lit "  Driver: Metal"; lit "Audio"])
    by (repeat constructor).
  split; [exact H|].
  exact (proj1 (proj2 (proj2 (line_endings _ H)))).
Defined.

(** * Names that are not names *)

Lemma parseHead_no_name (line : gostring) :
  stopsAt isValidNameChar (skipn (readDepth line) line) ->
  parseHead line (readDepth line) = Err (InvalidNodeName line).
Proof.
  intros Hstop. unfold parseHead, scanWhile.
  assert (H0 : span isValidNameChar (skipn (readDepth line) line) = 0).
  { destruct (skipn (readDepth line) line) as [|c t]; [reflexivity|].
    simpl in *. rewrite Hstop. reflexivity. }
  rewrite H0, Nat.add_0_r, Nat.eqb_refl. reflexivity.
Qed.

(** X5. The invalid node name.  A line on which no name character
    follows the indentation stops [Parse] with [InvalidNodeName] and that
    line, when it is the first line of the document, or when the lines
    before it parse and it is not a continuation line; the lines after it
    play no part. *)
Theorem invalid_node_name (data : gostring) (good rest : list gostring)
    (bad : gostring) :
  normalizeLines data = good ++ bad :: rest ->
  stopsAt isValidNameChar (skipn (readDepth bad) bad) ->
  good = []
  \/ ((exists root, parseTop (2 * length good + 1) good 0 emptyNode = Ok root)
      /\ HasPrefix (skipn (readDepth bad) bad) [":"] = false) ->
  Parse data = Err (InvalidNodeName bad).
Proof.
  intros Hlines Hstop Hgood.
  pose proof (parseHead_no_name bad Hstop) as Hhead.
  destruct Hgood as [->|[[root Hroot] Hcolon]].
  - unfold Parse. rewrite Hlines. cbn [app length Nat.eqb].
    replace (2 * S (length rest) + 1) with (S (S (S (2 * length rest))))
      by lia.
    rewrite parseTop_S. cbn [Nat.ltb Nat.leb].
    rewrite parseNode_S. cbn [nth_error]. cbn [Z.leb Z.compare andb].
    rewrite andb_false_r. rewrite Hhead. reflexivity.
  - eapply first_error_aborts; eauto. rewrite TrimLeft_indent. assumption.
Qed.

Lemma invalid_node_name_witness :
  Parse (lit "Video" ++ [LF] ++ lit "  *Driver" ++ [LF] ++ lit "Audio" ++ [LF])
  = Err (InvalidNodeName (lit "  *Driver")).
Proof.
  apply (invalid_node_name _ [lit "Video"] [lit "Audio"] (lit "  *Driver")).
  - reflexivity.
  - reflexivity.
  - right. split; [|reflexivity]. eexists. reflexivity.
Defined.

(** * Values after an equals sign, and attributes *)

Lemma parseValue_unquoted (pre v rest : gostring) :
  forallb unquotedByte v = true -> stopsAt unquotedByte rest ->
  HasPrefix (v ++ rest) [QUOTE] = false ->
  parseValue (pre ++ "=" :: v ++ rest) (length pre)
  = Ok (v, length pre + 1 + length v).
Proof.
  intros Hv Hrest Hq. unfold parseValue. rewrite nth_error_at.
  replace (byte_eqb "=" ":") with false by reflexivity.
  replace (byte_eqb "=" "=") with true by reflexivity.
  replace (pre ++ "=" :: v ++ rest) with ((pre ++ ["="]) ++ v ++ rest)
    by (rewrite <- app_assoc; reflexivity).
  replace (S (length pre)) with (length (pre ++ ["="]))
    by (rewrite length_app; simpl; lia).
  destruct (v ++ rest) as [|q t] eqn:E.
  - rewrite app_nil_r, nth_error_past.
    apply app_eq_nil in E. destruct E as [-> _].
    f_equal. f_equal. rewrite length_app. simpl. lia.
  - rewrite nth_error_at.
    cbn [HasPrefix] in Hq. rewrite andb_true_r in Hq. rewrite Hq.
    rewrite <- E.
    change (fun c : ascii => negb (byte_eqb c " ") && negb (byte_eqb c QUOTE))
      with unquotedByte.
    rewrite scanWhile_run by assumption.
    rewrite slice_at. f_equal. f_equal. rewrite length_app. simpl. lia.
Qed.

Lemma attrs_stop (p : ascii -> bool) (attrs : list (gostring * gostring)) :
  p " " = false -> stopsAt p (flat_map attrText attrs).
Proof. intros H. destruct attrs; [exact I|exact H]. Qed.

Lemma attrs_no_quote (v : gostring) (attrs : list (gostring * gostring)) :
  forallb unquotedByte v = true ->
  HasPrefix (v ++ flat_map attrText attrs) [QUOTE] = false.
Proof.
  intros Hv. destruct v as [|c v].
  - destruct attrs; reflexivity.
  - cbn [app HasPrefix]. cbn [forallb] in Hv.
    apply andb_true_iff in Hv. destruct Hv as [Hc _].
    unfold unquotedByte in Hc. apply andb_true_iff in Hc.
    destruct Hc as [_ Hc]. apply negb_true_iff in Hc. rewrite Hc. reflexivity.
Qed.

Lemma length_attrs (attrs : list (gostring * gostring)) :
  length attrs <= length (flat_map attrText attrs).
Proof.
  induction attrs as [|a attrs IH]; [reflexivity|].
  cbn [flat_map]. rewrite length_app.
  assert (0 < length (attrText a)) by (unfold attrText; simpl; lia).
  cbn [length]. lia.
Qed.

Lemma parseAttrs_attributes (attrs : list (gostring * gostring)) :
  Forall plainAttr attrs ->
  forall fuel pre children,
    length attrs < fuel ->
    parseAttrs fuel (pre ++ flat_map attrText attrs) (length pre) children
    = Ok (children ++ map attrNode attrs).
Proof.
  induction 1 as [|[n v] attrs (Hn & Hv & _) _ IH];
    intros fuel pre children Hfuel;
    (destruct fuel as [|fuel]; [simpl in Hfuel; lia|]).
  - cbn [flat_map map parseAttrs]. rewrite !app_nil_r.
    rewrite Nat.leb_refl. reflexivity.
  - cbn [fst snd] in *. apply validName_spec in Hn. destruct Hn as [Hne Hn].
    destruct n as [|c n]; [congruence|]. cbn [forallb] in Hn.
    apply andb_true_iff in Hn. destruct Hn as [Hc Hn].
    destruct (isValidNameChar_not c Hc) as (_ & Hsp & _ & _ & Hslash).
    cbn [flat_map]. unfold attrText at 1. cbn [fst snd].
    set (tail := flat_map attrText attrs).
    set (line := pre ++ ([" "] ++ (c :: n) ++ ["="] ++ v) ++ tail).
    assert (Hline1 : line = pre ++ [" "] ++ (c :: n) ++ "=" :: v ++ tail).
    { unfold line. rewrite <- !app_assoc. reflexivity. }
    assert (Hline2 : line = (pre ++ [" "]) ++ (c :: n) ++ "=" :: v ++ tail).
    { rewrite Hline1. rewrite <- !app_assoc. reflexivity. }
    assert (Hline3 : line = ((pre ++ [" "]) ++ c :: n) ++ "=" :: v ++ tail).
    { rewrite Hline2. rewrite <- !app_assoc. reflexivity. }
    assert (Hline4 : line = (pre ++ [" "] ++ (c :: n) ++ ["="] ++ v) ++ tail).
    { unfold line. rewrite <- !app_assoc. reflexivity. }
    assert (Hlen : length line
                   = length pre + 1 + S (length n) + 1 + length v + length tail).
    { rewrite Hline1. rewrite !length_app. cbn [length].
      rewrite length_app. cbn [length]. lia. }
    cbn [parseAttrs].
    replace (length line <=? length pre) with false
      by (symmetry; apply Nat.leb_gt; lia).
    assert (Hs1 : scanWhile (fun c => byte_eqb c " ") line (length pre)
                  = length (pre ++ [" "])).
    { rewrite Hline1. rewrite scanWhile_run; [|reflexivity|exact Hsp].
      rewrite length_app. reflexivity. }
    rewrite Hs1.
    assert (Hlp : length (pre ++ [" "]) = length pre + 1)
      by (rewrite length_app; reflexivity).
    replace (length line <=? length (pre ++ [" "])) with false
      by (symmetry; apply Nat.leb_gt; lia).
    assert (Hno : gostring_eqb
                    (slice line (length (pre ++ [" "]))
                       (length (pre ++ [" "]) + 2)) ["/"; "/"] = false).
    { rewrite Hline2. apply slice_two. exact Hslash. }
    rewrite Hno, andb_false_r.
    assert (Hs2 : scanWhile isValidNameChar line (length (pre ++ [" "]))
                  = length (pre ++ [" "]) + length (c :: n)).
    { rewrite Hline2. apply scanWhile_run.
      - cbn [forallb]. rewrite Hc, Hn. reflexivity.
      - reflexivity. }
    rewrite Hs2.
    replace (length (pre ++ [" "]) + length (c :: n) =? length (pre ++ [" "]))
      with false by (symmetry; apply Nat.eqb_neq; cbn [length]; lia).
    assert (Hname : slice line (length (pre ++ [" "]))
                      (length (pre ++ [" "]) + length (c :: n)) = c :: n).
    { rewrite Hline2. apply slice_at. }
    rewrite Hname.
    replace (length (pre ++ [" "]) + length (c :: n) <? length line) with true
      by (symmetry; apply Nat.ltb_lt; cbn [length]; lia).
    assert (Hval : parseValue line (length (pre ++ [" "]) + length (c :: n))
                   = Ok (v, length (pre ++ [" "] ++ (c :: n) ++ ["="] ++ v))).
    { rewrite Hline3. rewrite <- length_app.
      rewrite parseValue_unquoted.
      - f_equal. f_equal. rewrite ?length_app. cbn [length].
        rewrite ?length_app. cbn [length]. lia.
      - assumption.
      - apply attrs_stop. reflexivity.
      - apply attrs_no_quote. assumption. }
    rewrite Hval. cbn [bind].
    rewrite Hline4. rewrite IH by (cbn [length] in Hfuel; lia).
    cbn [map]. unfold attrNode at 2. cbn [fst snd].
    rewrite <- app_assoc. reflexivity.
Qed.

Lemma parseHead_attributes (indent name : gostring) (value : option gostring)
    (attrs : list (gostring * gostring)) :
  validName name = true ->
  match value with
  | Some v => forallb unquotedByte v = true
  | None => True
  end ->
  Forall plainAttr attrs ->
  parseHead
    (indent ++ name
     ++ match value with Some v => "=" :: v | None => [] end
     ++ flat_map attrText attrs)
    (length indent)
  = Ok (mkNode name match value with Some v => v | None => [] end
          (map attrNode attrs)).
Proof.
  intros Hname Hvalue Hattrs.
  apply validName_spec in Hname. destruct Hname as [Hne Hname].
  set (own := match value with Some v => "=" :: v | None => [] end).
  set (tail := flat_map attrText attrs).
  set (line := indent ++ name ++ own ++ tail).
  assert (Hstop : stopsAt isValidNameChar (own ++ tail)).
  { unfold own. destruct value; [reflexivity|]. apply attrs_stop. reflexivity. }
  assert (Hscan : scanWhile isValidNameChar line (length indent)
                  = length indent + length name)
    by (unfold line; apply scanWhile_run; assumption).
  assert (Hslice : slice line (length indent) (length indent + length name)
                   = name)
    by (unfold line; apply slice_at).
  unfold parseHead. rewrite Hscan.
  replace (length indent + length name =? length indent) with false
    by (symmetry; apply Nat.eqb_neq; destruct name; [congruence|simpl; lia]).
  rewrite Hslice.
  assert (Hline : line = (indent ++ name) ++ own ++ tail)
    by (unfold line; rewrite <- app_assoc; reflexivity).
  assert (Hval :
    (if length indent + length name <? length line
     then parseValue line (length indent + length name)
     else Ok ([], length indent + length name))
    = Ok (match value with Some v => v | None => [] end,
          length ((indent ++ name) ++ own))).
  { rewrite <- length_app. destruct value as [v|]; unfold own.
    - replace (length (indent ++ name) <? length line) with true.
      + rewrite Hline. unfold own. cbn [app].
        rewrite parseValue_unquoted;
          [|assumption|apply attrs_stop; reflexivity
           |apply attrs_no_quote; assumption].
        f_equal. f_equal. rewrite (length_app (indent ++ name)). simpl. lia.
      + symmetry. apply Nat.ltb_lt. rewrite Hline. unfold own.
        rewrite (length_app (indent ++ name)). simpl. lia.
    - rewrite app_nil_r.
      destruct (length (indent ++ name) <? length line) eqn:E; [|reflexivity].
      unfold parseValue. rewrite Hline. unfold own. cbn [app].
      destruct tail as [|c t] eqn:Et.
      + rewrite app_nil_r, nth_error_past. reflexivity.
      + rewrite nth_error_at.
        assert (c = " ").
        { unfold tail in Et. destruct attrs; [discriminate|].
          cbn [flat_map] in Et. unfold attrText in Et. cbn [app] in Et.
          congruence. }
        subst c. reflexivity. }
  rewrite Hval. cbn [bind].
  replace line with (((indent ++ name) ++ own) ++ tail)
    by (unfold line; rewrite <- !app_assoc; reflexivity).
  unfold tail. rewrite parseAttrs_attributes.
  - reflexivity.
  - assumption.
  - rewrite !length_app. pose proof (length_attrs attrs). lia.
Qed.

Lemma Parse_single_line (line : gostring) (node : Node) :
  cleanLine line = true -> keepLine line = true ->
  parseHead line (readDepth line) = Ok node ->
  Parse (line ++ [LF]) = Ok (mkDocument (Some (mkNode [] [] [node]))).
Proof.
  intros Hclean Hkeep Hhead.
  assert (Hlines : normalizeLines (line ++ [LF]) = [line]).
  { replace (line ++ [LF]) with (unlines [line])
      by (unfold unlines; cbn [flat_map]; apply app_nil_r).
    apply normalizeLines_unlines; repeat constructor; assumption. }
  unfold Parse. rewrite Hlines. cbn [length Nat.eqb Nat.mul Nat.add].
  rewrite parseTop_S. cbn [length Nat.ltb Nat.leb].
  rewrite parseNode_S. cbn [nth_error].
  rewrite andb_false_r. rewrite Hhead. cbn [bind].
  rewrite parseChildren_S. cbn [nth_error bind].
  rewrite parseTop_S. cbn [length Nat.ltb Nat.leb]. reflexivity.
Qed.

Lemma validName_bytes (name : gostring) (c : ascii) :
  validName name = true -> In c name -> isValidNameChar c = true.
Proof.
  intros H Hc. apply validName_spec in H. destruct H as [_ H].
  rewrite forallb_forall in H. auto.
Qed.

(** X6. Attributes.  A line made of a name, then maybe an equals sign
    and a value without spaces and quotes, then attributes written as a
    space, a name, an equals sign and such a value, parses to one node of
    that name and value whose children are the attributes, in their
    order, each a node without children. *)
Theorem attributes_become_children (name : gostring) (value : option gostring)
    (attrs : list (gostring * gostring)) :
  validName name = true ->
  match value with
  | Some v => forallb unquotedByte v = true /\ cleanLine v = true
  | None => True
  end ->
  Forall plainAttr attrs ->
  Parse (name
         ++ match value with Some v => "=" :: v | None => [] end
         ++ flat_map attrText attrs ++ [LF])
  = Ok (mkDocument (Some (mkNode [] []
          [mkNode name match value with Some v => v | None => [] end
             (map attrNode attrs)]))).
Proof.
  intros Hname Hvalue Hattrs.
  set (own := match value with Some v => "=" :: v | None => [] end).
  set (line := name ++ own ++ flat_map attrText attrs).
  replace (name ++ own ++ flat_map attrText attrs ++ [LF])
    with (line ++ [LF])
    by (unfold line; rewrite <- !app_assoc; reflexivity).
  pose proof (validName_spec _ Hname) as [Hne Hchars].
  assert (Hex : exists c name0, name = c :: name0)
    by (destruct name; [congruence|eauto]).
  destruct Hex as (c & name0 & En).
  assert (Hc : isValidNameChar c = true).
  { apply (validName_bytes _ _ Hname). rewrite En. left. reflexivity. }
  assert (Hbyte : forall b, (b = LF \/ b = CR) -> ~ In b line).
  { intros b Hb Hin. unfold line in Hin.
    apply in_app_iff in Hin. destruct Hin as [Hin|Hin].
    { apply (validName_bytes _ _ Hname) in Hin.
      destruct Hb; subst b; discriminate. }
    apply in_app_iff in Hin. destruct Hin as [Hin|Hin].
    { unfold own in Hin. destruct value as [v|]; [|contradiction].
      destruct Hvalue as [_ Hv]. apply cleanLine_spec in Hv.
      destruct Hin as [<-|Hin]; [destruct Hb; discriminate|].
      destruct Hb; subst b; tauto. }
    apply in_flat_map in Hin. destruct Hin as (a & Ha & Hin).
    rewrite Forall_forall in Hattrs. apply Hattrs in Ha.
    destruct Ha as (Hn & _ & Hv). apply cleanLine_spec in Hv.
    unfold attrText in Hin.
    apply in_app_iff in Hin. destruct Hin as [[<-|[]]|Hin];
      [destruct Hb; discriminate|].
    apply in_app_iff in Hin. destruct Hin as [Hin|Hin].
    { apply (validName_bytes _ _ Hn) in Hin.
      destruct Hb; subst b; discriminate. }
    destruct Hin as [<-|Hin]; [destruct Hb; discriminate|].
    destruct Hb; subst b; tauto. }
  destruct (isValidNameChar_not c Hc) as (_ & _ & _ & _ & Hslash).
  pose proof (solid_line 0 c (name0 ++ own ++ flat_map attrText attrs)
                (solidByte_name c Hc) Hslash) as (Hdepth & Hkeep & _).
  cbn [repeat app] in Hdepth, Hkeep.
  assert (Hline : line = c :: name0 ++ own ++ flat_map attrText attrs)
    by (unfold line; rewrite En; reflexivity).
  rewrite <- Hline in Hdepth, Hkeep.
  apply Parse_single_line.
  - apply cleanLine_spec. split; apply Hbyte; auto.
  - assumption.
  - rewrite Hdepth. unfold line, own.
    apply (parseHead_attributes [] name value attrs); try assumption.
    destruct value; tauto.
Qed.

Lemma attributes_become_children_witness :
  Parse (lit "Cartridge=sram size=0x2000 type=battery" ++ [LF])
  = Ok (mkDocument (Some (mkNode [] []
          [mkNode (lit "Cartridge") (lit "sram")
             [mkNode (lit "size") (lit "0x2000") [];
              mkNode (lit "type") (lit "battery") []]]))).
Proof.
  apply (attributes_become_children (lit "Cartridge") (Some (lit "sram"))
           [(lit "size", lit "0x2000"); (lit "type", lit "battery")]).
  - reflexivity.
  - split; reflexivity.
  - repeat constructor.
Defined.

(** * Paths in two steps *)

Lemma Split_app (p q : gostring) (sep : ascii) :
  Split (p ++ sep :: q) sep = Split p sep ++ Split q sep.
Proof.
  induction p as [|c p IH]; cbn [app Split].
  - rewrite byte_eqb_refl. reflexivity.
  - destruct (byte_eqb c sep); rewrite IH; [reflexivity|].
    destruct (Split p sep) as [|piece pieces] eqn:E;
      [exfalso; exact (Split_not_nil _ _ E)|].
    reflexivity.
Qed.

Lemma getParts_app (a b : list gostring) :
  forall current,
    getParts (a ++ b) current
    = match getParts a current with
      | Some mid => getParts b mid
      | None => None
      end.
Proof.
  induction a as [|part a IH]; intros current; [reflexivity|].
  cbn [app getParts]. destruct (isEmpty part); [apply IH|].
  destruct (findChild (Children current) part) as [[k child]|];
    [apply IH|reflexivity].
Qed.

(** X7. [Get] in two steps.  Looking up [q] in the node found at [p]
    is looking up the path [p/q]; when nothing is at [p], nothing is at
    [p/q]. *)
Theorem Get_composes (n : option Node) (p q : gostring) :
  Get (Get n p) q = Get n (p ++ "/" :: q).
Proof.
  destruct n as [n|]; [|reflexivity].
  cbn [Get]. rewrite Split_app, getParts_app.
  destruct (getParts (Split p "/") n); reflexivity.
Qed.

(** * Removal *)

Lemma removeParts_step (part part' : gostring) (parts : list gostring)
    (current : Node) :
  removeParts (part :: part' :: parts) current
  = if isEmpty part then removeParts (part' :: parts) current
    else match findChild (Children current) part with
         | Some (k, child) =>
             let '(child, removed) := removeParts (part' :: parts) child in
             (withChildren current (replaceAt (Children current) k child),
              removed)
         | None => (current, false)
         end.
Proof. reflexivity. Qed.

Lemma withChildren_same (n : Node) : withChildren n (Children n) = n.
Proof. destruct n. reflexivity. Qed.

Lemma removeParts_unchanged (parts : list gostring) :
  forall current current',
    removeParts parts current = (current', false) -> current' = current.
Proof.
  induction parts as [|part parts IH]; intros current current' H.
  - simpl in H. congruence.
  - destruct parts as [|part' parts].
    + cbn [removeParts] in H.
      destruct (findChild (Children current) part) as [[i c]|];
        congruence.
    + rewrite removeParts_step in H.
      destruct (isEmpty part); [apply IH; assumption|].
      destruct (findChild (Children current) part) as [[k child]|] eqn:F;
        [|congruence].
      destruct (removeParts (part' :: parts) child) as [child' removed] eqn:R.
      injection H as <- ->. apply IH in R. subst child'.
      apply findChild_Some in F. destruct F as (Hnth & _ & _).
      rewrite replaceAt_same by assumption. apply withChildren_same.
Qed.

Lemma removeParts_Name (parts : list gostring) :
  forall current, Name (fst (removeParts parts current)) = Name current.
Proof.
  induction parts as [|part parts IH]; intros current; [reflexivity|].
  destruct parts as [|part' parts].
  - cbn [removeParts].
    destruct (findChild (Children current) part) as [[i c]|];
      destruct current; reflexivity.
  - rewrite removeParts_step. destruct (isEmpty part); [apply IH|].
    destruct (findChild (Children current) part) as [[k child]|];
      [|reflexivity].
    destruct (removeParts (part' :: parts) child). destruct current.
    reflexivity.
Qed.

Lemma removeAt_split (l1 l2 : list Node) (c : Node) :
  removeAt (l1 ++ c :: l2) (length l1) = l1 ++ l2.
Proof.
  unfold removeAt. rewrite firstn_app, Nat.sub_diag, firstn_all.
  cbn [firstn]. rewrite app_nil_r.
  change (S (length l1)) with (1 + length l1). rewrite Nat.add_comm.
  rewrite skipn_at_plus. reflexivity.
Qed.

Lemma list_sum_removeAt (children : list Node) (i : nat) (c : Node) :
  nth_error children i = Some c ->
  list_sum (map countNodes (removeAt children i)) + countNodes c
  = list_sum (map countNodes children).
Proof.
  intros H. apply nth_error_split in H. destruct H as (l1 & l2 & -> & <-).
  rewrite removeAt_split, !map_app, !list_sum_app. simpl. lia.
Qed.

Lemma removeSegments_step (seg seg' : gostring) (segs : list gostring)
    (current : Node) :
  removeSegments (seg :: seg' :: segs) current
  = match findChild (Children current) seg with
    | Some (k, child) =>
        let '(child, removed) := removeSegments (seg' :: segs) child in
        (withChildren current (replaceAt (Children current) k child), removed)
    | None => (current, false)
    end.
Proof. reflexivity. Qed.

Lemma removeSegments_found (segs : list gostring) :
  forall current current' removed,
    segs <> [] ->
    removeSegments segs current = (current', removed) ->
    (removed = true <-> exists target, getSegments segs current = Some target)
    /\ (forall target,
          getSegments segs current = Some target ->
          countNodes current' + countNodes target = countNodes current).
Proof.
  induction segs as [|seg segs IH]; intros current current' removed Hne H;
    [congruence|].
  destruct segs as [|seg' segs].
  - cbn [removeSegments getSegments] in *.
    destruct (findChild (Children current) seg) as [[i c]|] eqn:F.
    + injection H as <- <-. split; [split; eauto|].
      intros target Ht. injection Ht as <-.
      apply findChild_Some in F. destruct F as (Hnth & _ & _).
      pose proof (list_sum_removeAt _ _ _ Hnth) as Hsum.
      rewrite (countNodes_eq current). destruct current. cbn in *. lia.
    + injection H as <- <-. split; [|discriminate].
      split; [discriminate|]. intros [t Ht]. discriminate.
  - rewrite removeSegments_step in H.
    change (getSegments (seg :: seg' :: segs) current)
      with (match findChild (Children current) seg with
            | Some (_, child) => getSegments (seg' :: segs) child
            | None => None
            end).
    destruct (findChild (Children current) seg) as [[k child]|] eqn:F.
    + destruct (removeSegments (seg' :: segs) child) as [child' r] eqn:R.
      injection H as <- <-.
      destruct (IH child child' r ltac:(discriminate) R) as [Hiff Hcount].
      split; [exact Hiff|].
      intros target Ht. specialize (Hcount target Ht).
      apply findChild_Some in F. destruct F as (Hnth & _ & _).
      pose proof (list_sum_replaceAt _ _ _ child' Hnth) as Hsum.
      rewrite (countNodes_eq current). destruct current. cbn in *. lia.
    + injection H as <- <-. split; [|discriminate].
      split; [discriminate|]. intros [t Ht]. discriminate.
Qed.

(** * Trees without two children of one name *)

Lemma namesOf_map (children : list Node) :
  namesOf children = map Name children.
Proof. induction children; simpl; congruence. Qed.

Lemma findChild_In (children : list Node) (part : gostring) (i : nat)
    (found : Node) :
  findChild children part = Some (i, found) -> In part (namesOf children).
Proof.
  intros H. apply findChild_Some in H. destruct H as (Hnth & <- & _).
  rewrite namesOf_map. apply in_map. eapply nth_error_In. eassumption.
Qed.

Lemma findChild_None (children : list Node) (part : gostring) :
  findChild children part = None <-> ~ In part (namesOf children).
Proof.
  split.
  - induction children as [|c cs IH]; cbn [findChild namesOf In]; [tauto|].
    destruct (gostring_eqb (Name c) part) eqn:E; [discriminate|].
    apply gostring_eqb_neq in E.
    destruct (findChild cs part) as [[i f]|]; [discriminate|].
    intros _ [H|H]; [congruence|]. revert H. apply IH. reflexivity.
  - intros H. destruct (findChild children part) as [[i f]|] eqn:F;
      [|reflexivity].
    apply findChild_In in F. contradiction.
Qed.

Lemma UniqueNames_inv (n : Node) :
  UniqueNames n ->
  NoDup (namesOf (Children n)) /\ Forall UniqueNames (Children n).
Proof. intros H. inversion H. auto. Qed.

Lemma UniqueNames_withChildren (n : Node) (children : list Node) :
  NoDup (namesOf children) -> Forall UniqueNames children ->
  UniqueNames (withChildren n children).
Proof. intros H1 H2. constructor; assumption. Qed.

Lemma UniqueNames_withValue (n : Node) (value : gostring) :
  UniqueNames n -> UniqueNames (withValue n value).
Proof.
  intros H. apply UniqueNames_inv in H. destruct H.
  constructor; assumption.
Qed.

Lemma namesOf_app (a b : list Node) :
  namesOf (a ++ b) = namesOf a ++ namesOf b.
Proof. rewrite !namesOf_map. apply map_app. Qed.

Lemma namesOf_replaceAt (children : list Node) (k : nat) (c c' : Node) :
  nth_error children k = Some c -> Name c' = Name c ->
  namesOf (replaceAt children k c') = namesOf children.
Proof.
  revert k. induction children as [|x cs IH]; intros [|k]; simpl;
    try discriminate.
  - intros H Hn. injection H as ->. congruence.
  - intros H Hn. f_equal. eauto.
Qed.

Lemma Forall_replaceAt (P : Node -> Prop) (children : list Node) (k : nat)
    (c : Node) :
  Forall P children -> P c -> Forall P (replaceAt children k c).
Proof.
  intros H Hc. revert k. induction H as [|x cs Hx Hcs IH]; intros [|k];
    simpl; auto.
Qed.

Lemma foundOrNew_unique (current : Node) (part : gostring) (k : nat)
    (found found' : Node) (children : list Node) :
  UniqueNames current ->
  foundOrNew current part = (k, found, children) ->
  UniqueNames found
  /\ (UniqueNames found' -> Name found' = part ->
      UniqueNames (withChildren current (replaceAt children k found'))).
Proof.
  intros Hu Hf. apply UniqueNames_inv in Hu. destruct Hu as [Hnd Hall].
  pose proof (foundOrNew_children current part) as Hcases.
  pose proof (foundOrNew_spec current part) as Hspec.
  rewrite Hf in Hcases, Hspec. destruct Hspec as (Hnth & Hname & _ & _).
  destruct Hcases as [(-> & _ & Hk)|(-> & -> & -> & Hnone)].
  - split.
    + rewrite Forall_forall in Hall. apply Hall.
      eapply nth_error_In. eassumption.
    + intros Hu' Hn'. apply UniqueNames_withChildren.
      * rewrite (namesOf_replaceAt _ _ found) by congruence. assumption.
      * apply Forall_replaceAt; assumption.
  - split.
    + constructor; constructor.
    + intros Hu' Hn'. rewrite replaceAt_append.
      apply UniqueNames_withChildren.
      * rewrite namesOf_app. cbn [namesOf]. rewrite Hn'.
        apply NoDup_app; [assumption|repeat constructor; auto|].
        intros x Hx [<-|[]]. apply findChild_None in Hnone. contradiction.
      * apply Forall_app. split; [assumption|].
        constructor; [assumption|constructor].
Qed.

Lemma setParts_unique (parts : list gostring) :
  forall i len value current,
    UniqueNames current ->
    UniqueNames (fst (setParts parts i len value current)).
Proof.
  induction parts as [|part parts IH]; intros i len value current Hu;
    [exact Hu|].
  cbn [setParts]. destruct (isEmpty part); [apply IH; assumption|].
  pose proof (foundOrNew_spec current part) as Hspec.
  destruct (foundOrNew current part) as [[k found] children] eqn:F.
  destruct Hspec as (_ & Hname & _ & _).
  destruct (i =? len - 1).
  - cbn [fst].
    apply (proj2 (foundOrNew_unique _ _ _ _ (withValue found value) _ Hu F)).
    + apply UniqueNames_withValue.
      apply (proj1 (foundOrNew_unique _ _ _ _ found _ Hu F)).
    + destruct found. exact Hname.
  - pose proof (IH (S i) len value found
                  (proj1 (foundOrNew_unique _ _ _ _ found _ Hu F))) as Hrec.
    pose proof (setParts_Name parts (S i) len value found) as Hn.
    destruct (setParts parts (S i) len value found) as [found' returned].
    cbn [fst] in *.
    apply (proj2 (foundOrNew_unique _ _ _ _ found' _ Hu F)); congruence.
Qed.

Lemma removeParts_unique (parts : list gostring) :
  forall current,
    UniqueNames current -> UniqueNames (fst (removeParts parts current)).
Proof.
  induction parts as [|part parts IH]; intros current Hu; [exact Hu|].
  pose proof (UniqueNames_inv _ Hu) as [Hnd Hall].
  destruct parts as [|part' parts].
  - cbn [removeParts].
    destruct (findChild (Children current) part) as [[i c]|] eqn:F;
      [|exact Hu].
    cbn [fst]. apply findChild_Some in F. destruct F as (Hnth & _ & _).
    apply nth_error_split in Hnth. destruct Hnth as (l1 & l2 & Hc & <-).
    rewrite Hc in *. rewrite removeAt_split.
    apply UniqueNames_withChildren.
    + rewrite namesOf_app in *. cbn [namesOf] in Hnd.
      eapply NoDup_remove_1. eassumption.
    + apply Forall_app in Hall. destruct Hall as [H1 H2].
      apply Forall_app. split; [assumption|]. inversion H2. assumption.
  - rewrite removeParts_step. destruct (isEmpty part); [apply IH; assumption|].
    destruct (findChild (Children current) part) as [[k child]|] eqn:F;
      [|exact Hu].
    apply findChild_Some in F. destruct F as (Hnth & _ & _).
    assert (Hchild : UniqueNames child).
    { rewrite Forall_forall in Hall. apply Hall.
      eapply nth_error_In. eassumption. }
    pose proof (IH child Hchild) as Hrec.
    pose proof (removeParts_Name (part' :: parts) child) as Hn.
    destruct (removeParts (part' :: parts) child) as [child' removed].
    cbn [fst] in *. apply UniqueNames_withChildren.
    + rewrite (namesOf_replaceAt _ _ child) by assumption. assumption.
    + apply Forall_replaceAt; assumption.
Qed.

Lemma removeSegments_Name (segs : list gostring) :
  forall current, Name (fst (removeSegments segs current)) = Name current.
Proof.
  induction segs as [|seg segs IH]; intros current; [reflexivity|].
  destruct segs as [|seg' segs].
  - cbn [removeSegments].
    destruct (findChild (Children current) seg) as [[i c]|];
      destruct current; reflexivity.
  - rewrite removeSegments_step.
    destruct (findChild (Children current) seg) as [[k child]|];
      [|reflexivity].
    destruct (removeSegments (seg' :: segs) child). destruct current.
    reflexivity.
Qed.

Lemma removeSegments_gone (segs : list gostring) :
  forall current current',
    UniqueNames current ->
    removeSegments segs current = (current', true) ->
    getSegments segs current' = None.
Proof.
  induction segs as [|seg segs IH]; intros current current' Hu H;
    [discriminate|].
  pose proof (UniqueNames_inv _ Hu) as [Hnd Hall].
  destruct segs as [|seg' segs].
  - cbn [removeSegments] in H.
    destruct (findChild (Children current) seg) as [[i c]|] eqn:F;
      [|discriminate].
    injection H as <-. cbn [getSegments].
    apply findChild_Some in F. destruct F as (Hnth & Hname & _).
    apply nth_error_split in Hnth. destruct Hnth as (l1 & l2 & Hc & <-).
    destruct current as [nm v cs]. cbn [Children withChildren] in *.
    subst cs. rewrite removeAt_split.
    assert (Hnone : findChild (l1 ++ l2) seg = None).
    { apply findChild_None. rewrite namesOf_app in *. cbn [namesOf] in Hnd.
      rewrite Hname in Hnd. eapply NoDup_remove_2. eassumption. }
    rewrite Hnone. reflexivity.
  - rewrite removeSegments_step in H.
    destruct (findChild (Children current) seg) as [[k child]|] eqn:F;
      [|discriminate].
    assert (Hchild : UniqueNames child).
    { apply findChild_Some in F. destruct F as (Hnth & _ & _).
      rewrite Forall_forall in Hall. apply Hall.
      eapply nth_error_In. eassumption. }
    pose proof (removeSegments_Name (seg' :: segs) child) as Hn.
    destruct (removeSegments (seg' :: segs) child) as [child' r] eqn:R.
    injection H as <- ->. cbn [fst] in Hn.
    change (getSegments (seg :: seg' :: segs)
              (withChildren current (replaceAt (Children current) k child')))
      with (match findChild (replaceAt (Children current) k child') seg with
            | Some (_, c) => getSegments (seg' :: segs) c
            | None => None
            end).
    pose proof (findChild_Some _ _ _ _ F) as (_ & Hname & _).
    rewrite (findChild_replaceAt _ _ _ _ child' F) by congruence.
    eapply IH; eassumption.
Qed.

Ltac unique_names :=
  repeat first
    [ apply UniqueNames_node; cbn [Children namesOf]
    | apply NoDup_cons; [cbn [In]; intuition discriminate|]
    | apply NoDup_nil
    | apply Forall_cons
    | apply Forall_nil ].

(** X9. Names stay unique.  In a tree where no node has two children
    of one name, as the empty tree is, [Set] and [Remove] leave a tree of
    that kind: [Set] appends a child only where no child of that name
    is. *)
Theorem unique_names_kept (n : Node) :
  UniqueNames n ->
  (forall path value n' target,
      Set_ (Some n) path value = Some (n', target) -> UniqueNames n')
  /\ (forall path n' removed,
        Remove (Some n) path = (Some n', removed) -> UniqueNames n').
Proof.
  intros Hu. split.
  - intros path value n' target H. unfold Set_ in H. cbv zeta in H.
    pose proof (setParts_unique (Split path "/") 0
                  (length (Split path "/")) value n Hu) as Hs.
    destruct (setParts (Split path "/") 0 (length (Split path "/")) value n).
    injection H as <- <-. exact Hs.
  - intros path n' removed H. unfold Remove in H.
    pose proof (removeParts_unique (Split path "/") n Hu) as Hr.
    destruct (removeParts (Split path "/") n).
    injection H as <- <-. exact Hr.
Qed.

Lemma unique_names_kept_witness :
  UniqueNames emptyNode
  /\ UniqueNames
       (mkNode [] []
          [mkNode (lit "Video") [] [mkNode (lit "Driver") (lit "Metal") []]]).
Proof.
  assert (H : UniqueNames emptyNode) by (constructor; constructor).
  split; [exact H|].
  exact (proj1 (unique_names_kept emptyNode H)
           (lit "Video/Driver") (lit "Metal") _ [0; 0] eq_refl).
Defined.

(** X10. Removed is gone.  In a tree where no node has two children of
    one name, after [Remove] returned true for a path that does not end
    in a slash, [Get] finds nothing at that path and a second [Remove]
    returns false and changes nothing. *)
Theorem Remove_then_Get (n n' : Node) (path : gostring) :
  UniqueNames n -> lastPart path <> [] ->
  Remove (Some n) path = (Some n', true) ->
  Get (Some n') path = None
  /\ Remove (Some n') path = (Some n', false).
Proof.
  intros Hu Hlast H. rewrite Remove_segments in H by assumption.
  assert (Hgone : getSegments (segments path) n' = None).
  { destruct (removeSegments (segments path) n) as [m r] eqn:R.
    cbn [fst snd] in H. injection H as -> ->.
    eapply removeSegments_gone; eassumption. }
  split; [rewrite Get_segments; exact Hgone|].
  rewrite Remove_segments by assumption.
  destruct (removeSegments (segments path) n') as [m r] eqn:R.
  cbn [fst snd].
  destruct (removeSegments_found _ _ _ _
              (lastPart_nonEmpty_segments _ Hlast) R) as [Hiff _].
  destruct r.
  - destruct (proj1 Hiff eq_refl) as [t Ht]. congruence.
  - unfold segments in R.
    rewrite <- removeParts_segments in R by assumption.
    apply removeParts_unchanged in R. congruence.
Qed.

Lemma Remove_then_Get_witness :
  let tree := mkNode [] []
                [mkNode (lit "Video") []
                   [mkNode (lit "Driver") (lit "Metal") [];
                    mkNode (lit "Scale") (lit "2") []]] in
  let tree' := mkNode [] []
                 [mkNode (lit "Video") []
                    [mkNode (lit "Scale") (lit "2") []]] in
  UniqueNames tree
  /\ Get (Some tree') (lit "Video/Driver") = None
  /\ Remove (Some tree') (lit "Video/Driver") = (Some tree', false).
Proof.
  intros tree tree'.
  assert (Hu : UniqueNames tree).
  { unique_names. }
  split; [exact Hu|].
  apply (Remove_then_Get tree tree' (lit "Video/Driver") Hu).
  - discriminate.
  - reflexivity.
Defined.

(** * Numbers written and read *)

Lemma digit_cases (d : Z) :
  (0 <= d < 10)%Z ->
  digitVal (digitChar d) = Some d
  /\ solidByte (digitChar d) = true
  /\ byte_eqb (digitChar d) "-" = false
  /\ byte_eqb (digitChar d) "+" = false.
Proof.
  intros H.
  assert (Hd : (d = 0 \/ d = 1 \/ d = 2 \/ d = 3 \/ d = 4 \/ d = 5 \/ d = 6
                \/ d = 7 \/ d = 8 \/ d = 9)%Z) by lia.
  repeat (destruct Hd as [->|Hd]; [repeat split; reflexivity|]).
  subst d. repeat split; reflexivity.
Qed.

Lemma parseDigits_app (a b : gostring) :
  forall acc,
    parseDigits acc (a ++ b)
    = match parseDigits acc a with
      | Some x => parseDigits x b
      | None => None
      end.
Proof.
  induction a as [|c a IH]; intros acc; [reflexivity|].
  cbn [app parseDigits]. destruct (digitVal c); [apply IH|reflexivity].
Qed.

Lemma parseDigits_digitsOf (fuel : nat) :
  forall n,
    (0 <= n < 10 ^ Z.of_nat fuel)%Z ->
    parseDigits 0 (digitsOf fuel n) = Some n.
Proof.
  induction fuel as [|fuel IH]; intros n Hn.
  - simpl in *. f_equal. lia.
  - cbn [digitsOf]. destruct (n <? 10)%Z eqn:E.
    + apply Z.ltb_lt in E. cbn [parseDigits].
      destruct (digit_cases n ltac:(lia)) as (-> & _).
      cbn [parseDigits]. f_equal; lia.
    + apply Z.ltb_ge in E. rewrite parseDigits_app.
      rewrite Nat2Z.inj_succ, Z.pow_succ_r in Hn by lia.
      rewrite IH.
      * cbn [parseDigits].
        destruct (digit_cases (n mod 10)
                    ltac:(apply Z.mod_pos_bound; lia)) as (-> & _).
        cbn [parseDigits]. f_equal.
        pose proof (Z.div_mod n 10 ltac:(lia)). lia.
      * split; [apply Z.div_pos; lia|].
        apply Z.div_lt_upper_bound; lia.
Qed.

Lemma digitsOf_digits (fuel : nat) :
  forall n,
    (0 <= n)%Z ->
    Forall (fun c => exists d, (0 <= d < 10)%Z /\ c = digitChar d)
      (digitsOf fuel n).
Proof.
  induction fuel as [|fuel IH]; intros n Hn; [constructor|].
  cbn [digitsOf]. destruct (n <? 10)%Z eqn:E.
  - apply Z.ltb_lt in E. repeat constructor. exists n. split; [lia|reflexivity].
  - apply Forall_app. split.
    + apply IH. apply Z.div_pos; lia.
    + repeat constructor. exists (n mod 10)%Z.
      split; [apply Z.mod_pos_bound; lia|reflexivity].
Qed.

Lemma digitsOf_not_nil (fuel : nat) (n : Z) : digitsOf (S fuel) n <> [].
Proof.
  cbn [digitsOf]. destruct (n <? 10)%Z; [discriminate|].
  intros H. apply app_eq_nil in H. destruct H. discriminate.
Qed.

Lemma Atoi_Itoa (i : Z) :
  (minInt <= i <= maxInt)%Z -> Atoi (Itoa i) = Some i.
Proof.
  intros Hi. unfold minInt, maxInt in Hi.
  assert (Hpow : (2 ^ 63 < 10 ^ Z.of_nat 20)%Z) by reflexivity.
  assert (Hrange : ((minInt <=? i) && (i <=? maxInt))%Z = true).
  { apply andb_true_iff. split; apply Z.leb_le; unfold minInt, maxInt; lia. }
  unfold Itoa. destruct (i <? 0)%Z eqn:E.
  - apply Z.ltb_lt in E. unfold Atoi.
    replace (byte_eqb "-" "-") with true by reflexivity.
    pose proof (digitsOf_not_nil 19 (- i)%Z) as Hne.
    rewrite (parseDigits_digitsOf 20 (- i)%Z) by lia.
    destruct (digitsOf 20 (- i)%Z); [congruence|].
    rewrite Z.opp_involutive, Hrange. reflexivity.
  - apply Z.ltb_ge in E. unfold Atoi.
    pose proof (digitsOf_not_nil 19 i) as Hne.
    pose proof (digitsOf_digits 20 i E) as Hall.
    pose proof (parseDigits_digitsOf 20 i ltac:(lia)) as Hparse.
    destruct (digitsOf 20 i) as [|c rest]; [congruence|].
    inversion Hall as [|? ? (d & Hd & ->) _]. subst.
    destruct (digit_cases d Hd) as (_ & _ & -> & ->).
    rewrite Hparse, Hrange. reflexivity.
Qed.

Lemma trimRevSpace_solid (c : ascii) (rest : gostring) :
  solidByte c = true -> trimRevSpace (c :: rest) = c :: rest.
Proof.
  intros H. destruct (solidByte_spec c H) as (Ha & H2 & H3).
  cbn [trimRevSpace]. rewrite Ha.
  destruct rest as [|d rest]; [reflexivity|].
  rewrite (proj2 (H2 d)).
  destruct rest as [|e rest]; [reflexivity|].
  destruct (H3 e d) as (_ & _ & ->). reflexivity.
Qed.

Lemma TrimSpace_solid (s : gostring) :
  forallb solidByte s = true -> TrimSpace s = s.
Proof.
  intros H. unfold TrimSpace. destruct s as [|c rest]; [reflexivity|].
  rewrite forallb_forall in H.
  rewrite trimLeftSpace_solid by (apply H; left; reflexivity).
  destruct (rev (c :: rest)) as [|x xs] eqn:E.
  - apply (f_equal (@rev ascii)) in E. rewrite rev_involutive in E.
    discriminate.
  - rewrite trimRevSpace_solid.
    + rewrite <- E. apply rev_involutive.
    + apply H. apply in_rev. rewrite E. left. reflexivity.
Qed.

Lemma Itoa_solid (i : Z) : forallb solidByte (Itoa i) = true.
Proof.
  assert (Hd : forall n, (0 <= n)%Z ->
                 forallb solidByte (digitsOf 20 n) = true).
  { intros n Hn. apply forallb_forall. intros c Hc.
    pose proof (digitsOf_digits 20 n Hn) as Hall.
    rewrite Forall_forall in Hall. destruct (Hall c Hc) as (d & Hd & ->).
    apply digit_cases. assumption. }
  unfold Itoa. destruct (i <? 0)%Z eqn:E.
  - apply Z.ltb_lt in E. cbn [forallb]. rewrite Hd by lia. reflexivity.
  - apply Z.ltb_ge in E. apply Hd. assumption.
Qed.

(** X11. Typed values written and read.  For a path that does not end
    in a slash, [Bool] reads at the path the boolean that [SetBool]
    wrote, [Int] reads the integer that [SetInt] wrote, whatever the
    fallback, and [String] reads the value that [Set] wrote without the
    white space around it. *)
Theorem typed_values_round_trip (n : Node) (path : gostring) :
  lastPart path <> [] ->
  (forall b n' target fallback,
      SetBool (Some n) path b = Some (n', target) ->
      Bool_ (Get (Some n') path) fallback = b)
  /\ (forall i n' target fallback,
        (minInt <= i <= maxInt)%Z ->
        SetInt (Some n) path i = Some (n', target) ->
        Int_ (Get (Some n') path) fallback = i)
  /\ (forall value n' target fallback,
        Set_ (Some n) path value = Some (n', target) ->
        String_ (Get (Some n') path) fallback = TrimSpace value).
Proof.
  intros Hlast. split; [|split].
  - intros b n' target fallback H. unfold SetBool in H.
    destruct b;
      destruct (Set_then_Get _ _ _ _ _ Hlast H) as (node & -> & Hv & _);
      cbn [Bool_]; rewrite Hv; reflexivity.
  - intros i n' target fallback Hi H. unfold SetInt in H.
    destruct (Set_then_Get _ _ _ _ _ Hlast H) as (node & -> & Hv & _).
    cbn [Int_]. rewrite Hv. cbv zeta.
    rewrite TrimSpace_solid by apply Itoa_solid.
    rewrite Atoi_Itoa by assumption. reflexivity.
  - intros value n' target fallback H.
    destruct (Set_then_Get _ _ _ _ _ Hlast H) as (node & -> & Hv & _).
    cbn [String_]. rewrite Hv. reflexivity.
Qed.

Lemma typed_values_round_trip_witness :
  lastPart (lit "Video/Scale") <> []
  /\ Int_ (Get (Some (mkNode [] []
                        [mkNode (lit "Video") []
                           [mkNode (lit "Scale") (lit "-42") []]]))
             (lit "Video/Scale")) 0%Z
     = (-42)%Z.
Proof.
  assert (H : lastPart (lit "Video/Scale") <> []) by discriminate.
  split; [exact H|].
  apply (proj1 (proj2 (typed_values_round_trip emptyNode _ H))
           (-42)%Z _ [0; 0]).
  - unfold minInt, maxInt. lia.
  - reflexivity.
Defined.

(** X12. [Set] then [Get].  For a path that does not end in a slash,
    after [Set] the node that [Get] finds at the path has the value, and
    it is the node that [Set] returned; a second [Set] of the same path
    and value changes nothing. *)
Theorem Set_Get_law (n n' : Node) (path value : gostring)
    (target : position) :
  lastPart path <> [] ->
  Set_ (Some n) path value = Some (n', target) ->
  (exists node,
      Get (Some n') path = Some node /\ Value node = value
      /\ nodeAt n' target = Some node)
  /\ Set_ (Some n') path value = Some (n', target)
  /\ Name n' = Name n.
Proof.
  intros Hlast H. split; [eapply Set_then_Get; eassumption|].
  split; [eapply Set_idempotent; eassumption|].
  unfold Set_ in H. cbv zeta in H.
  pose proof (setParts_Name (Split path "/") 0 (length (Split path "/"))
                value n) as Hn.
  destruct (setParts (Split path "/") 0 (length (Split path "/")) value n).
  injection H as <- <-. exact Hn.
Qed.

Lemma Set_Get_law_witness :
  let tree := mkNode [] []
                [mkNode (lit "Video") []
                   [mkNode (lit "Driver") (lit "Metal") []]] in
  lastPart (lit "Video/Driver") <> []
  /\ Set_ (Some emptyNode) (lit "Video/Driver") (lit "Metal")
     = Some (tree, [0; 0])
  /\ Set_ (Some tree) (lit "Video/Driver") (lit "Metal")
     = Some (tree, [0; 0]).
Proof.
  intros tree.
  assert (H : lastPart (lit "Video/Driver") <> []) by discriminate.
  assert (H0 : Set_ (Some emptyNode) (lit "Video/Driver") (lit "Metal")
               = Some (tree, [0; 0])) by reflexivity.
  split; [exact H|]. split; [exact H0|].
  exact (proj1 (proj2 (Set_Get_law emptyNode tree _ _ _ H H0))).
Defined.

(** * Documents built with [Set] *)

Lemma setParts_Value (parts : list gostring) :
  forall i len value current,
    Value (fst (setParts parts i len value current)) = Value current.
Proof.
  induction parts as [|part parts IH]; intros i len value current;
    [reflexivity|].
  cbn [setParts]. destruct (isEmpty part); [apply IH|].
  destruct (foundOrNew current part) as [[k found] children].
  destruct (i =? len - 1); [destruct current; reflexivity|].
  destruct (setParts parts (S i) len value found).
  destruct current; reflexivity.
Qed.

Lemma forallb_replaceAt (P : Node -> bool) (children : list Node) (k : nat)
    (c : Node) :
  forallb P children = true -> P c = true ->
  forallb P (replaceAt children k c) = true.
Proof.
  intros H Hc. rewrite forallb_forall in *. intros x Hx.
  clear - Hx H Hc. revert k Hx.
  induction children as [|y cs IH]; intros [|k] Hx; simpl in *;
    try contradiction.
  - destruct Hx as [<-|Hx]; auto.
  - destruct Hx as [<-|Hx]; eauto.
Qed.

Lemma sound_eq (n : Node) :
  sound n
  = validName (Name n) && cleanValue (Value n) && stableValue (Value n)
    && forallb sound (Children n).
Proof.
  destruct n as [name value children]. unfold sound at 1.
  cbn [wellFormed stableTree Name Value Children].
  fold (stableValue value).
  assert (H : forallb sound children
              = forallb wellFormed children && forallb stableTree children).
  { induction children as [|c cs IH]; [reflexivity|].
    cbn [forallb]. rewrite IH. unfold sound.
    destruct (wellFormed c), (stableTree c), (forallb wellFormed cs);
      reflexivity. }
  rewrite H.
  destruct (validName name), (cleanValue value), (stableValue value),
    (forallb wellFormed children), (forallb stableTree children);
    reflexivity.
Qed.

Lemma forallb_sound (children : list Node) :
  forallb sound children = true
  <-> forallb wellFormed children = true
      /\ forallb stableTree children = true.
Proof.
  induction children as [|c cs IH]; cbn [forallb]; [tauto|].
  unfold sound at 1. rewrite !andb_true_iff, IH. tauto.
Qed.

Lemma foundOrNew_sound (current : Node) (part : gostring) (k : nat)
    (found found' : Node) (children : list Node) :
  validName part = true ->
  forallb sound (Children current) = true ->
  foundOrNew current part = (k, found, children) ->
  sound found = true
  /\ (sound found' = true -> forallb sound (replaceAt children k found') = true).
Proof.
  intros Hpart Hall Hf.
  pose proof (foundOrNew_children current part) as Hcases.
  rewrite Hf in Hcases.
  destruct Hcases as [(-> & _ & Hk)|(-> & -> & -> & Hnone)].
  - split.
    + rewrite forallb_forall in Hall. apply Hall.
      eapply nth_error_In. eassumption.
    + intros H. apply forallb_replaceAt; assumption.
  - split.
    + rewrite sound_eq. cbn [Name Value Children forallb].
      rewrite Hpart. reflexivity.
    + intros H. rewrite replaceAt_append, forallb_app. cbn [forallb].
      rewrite Hall, H. reflexivity.
Qed.

Lemma setParts_sound (parts : list gostring) :
  forall i len value current,
    Forall (fun p => validName p = true) (filter nonEmpty parts) ->
    cleanValue value = true -> stableValue value = true ->
    forallb sound (Children current) = true ->
    forallb sound (Children (fst (setParts parts i len value current))) = true.
Proof.
  induction parts as [|part parts IH];
    intros i len value current Hparts Hclean Hstable Hall; [exact Hall|].
  cbn [setParts]. cbn [filter] in Hparts. unfold nonEmpty at 1 in Hparts.
  destruct (isEmpty part); cbn [negb] in Hparts; [apply IH; assumption|].
  inversion Hparts as [|? ? Hpart Hrest]. subst.
  pose proof (foundOrNew_spec current part) as Hspec.
  destruct (foundOrNew current part) as [[k found] children] eqn:F.
  destruct Hspec as (_ & Hname & _ & _).
  destruct (foundOrNew_sound _ _ _ _ found _ Hpart Hall F) as [Hfound _].
  rewrite sound_eq in Hfound. apply andb_true_iff in Hfound.
  destruct Hfound as [Hlocal Hkids].
  apply andb_true_iff in Hlocal. destruct Hlocal as [Hlocal _].
  apply andb_true_iff in Hlocal. destruct Hlocal as [Hvn _].
  destruct (i =? len - 1).
  - destruct current as [nm0 v0 cs0]. cbn [fst withChildren Children].
    apply (proj2 (foundOrNew_sound _ _ _ _ (withValue found value) _
                    Hpart Hall F)).
    rewrite sound_eq. destruct found as [nm1 v1 cs1]. cbn [withValue Name Value Children] in *.
    rewrite Hvn, Hclean, Hstable, Hkids. reflexivity.
  - pose proof (IH (S i) len value found Hrest Hclean Hstable Hkids) as Hrec.
    pose proof (setParts_Name parts (S i) len value found) as Hn.
    pose proof (setParts_Value parts (S i) len value found) as Hv.
    destruct (foundOrNew_sound _ _ _ _ found _ Hpart Hall F) as [Hfound _].
    destruct (setParts parts (S i) len value found) as [found' returned].
    cbn [fst] in *. destruct current as [nm0 v0 cs0]. cbn [withChildren Children].
    apply (proj2 (foundOrNew_sound _ _ _ _ found' _ Hpart Hall F)).
    rewrite sound_eq in *. rewrite Hn, Hv, Hrec.
    apply andb_true_iff in Hfound. destruct Hfound as [-> _]. reflexivity.
Qed.

Lemma removeAt_In (children : list Node) (i : nat) (c : Node) :
  In c (removeAt children i) -> In c children.
Proof.
  unfold removeAt. intros H. apply in_app_iff in H.
  rewrite <- (firstn_skipn i children). apply in_app_iff.
  destruct H as [H|H]; [left; exact H|right].
  rewrite <- (firstn_skipn 1 (skipn i children)). apply in_app_iff. right.
  rewrite skipn_skipn. exact H.
Qed.

Lemma removeParts_sound (parts : list gostring) :
  forall current,
    forallb sound (Children current) = true ->
    forallb sound (Children (fst (removeParts parts current))) = true.
Proof.
  induction parts as [|part parts IH]; intros current Hall; [exact Hall|].
  destruct parts as [|part' parts].
  - cbn [removeParts].
    destruct (findChild (Children current) part) as [[i c]|]; [|exact Hall].
    destruct current as [nm0 v0 cs0]. cbn [fst withChildren Children] in *.
    rewrite forallb_forall in *. intros x Hx. apply Hall.
    eapply removeAt_In. eassumption.
  - rewrite removeParts_step. destruct (isEmpty part); [apply IH; assumption|].
    destruct (findChild (Children current) part) as [[k child]|] eqn:F;
      [|exact Hall].
    apply findChild_Some in F. destruct F as (Hnth & _ & _).
    assert (Hchild : sound child = true).
    { rewrite forallb_forall in Hall. apply Hall.
      eapply nth_error_In. eassumption. }
    rewrite sound_eq in Hchild. apply andb_true_iff in Hchild.
    destruct Hchild as [Hlocal Hkids].
    pose proof (IH child Hkids) as Hrec.
    pose proof (removeParts_Name (part' :: parts) child) as Hn.
    assert (Hv : Value (fst (removeParts (part' :: parts) child))
                 = Value child).
    { clear. revert child.
      induction (part' :: parts) as [|p ps IHp]; intros child; [reflexivity|].
      destruct ps as [|p' ps].
      - cbn [removeParts].
        destruct (findChild (Children child) p) as [[i c]|];
          destruct child; reflexivity.
      - rewrite removeParts_step. destruct (isEmpty p); [apply IHp|].
        destruct (findChild (Children child) p) as [[k c]|]; [|reflexivity].
        destruct (removeParts (p' :: ps) c). destruct child. reflexivity. }
    destruct (removeParts (part' :: parts) child) as [child' removed].
    cbn [fst] in *. destruct current as [nm0 v0 cs0]. cbn [withChildren Children] in *.
    apply forallb_replaceAt; [assumption|].
    rewrite sound_eq, Hn, Hv, Hlocal, Hrec. reflexivity.
Qed.

(** X13. Documents built with the path API survive a round trip.  A
    tree whose root has no name and no value, whose other nodes have
    names of name characters and values that are written and read back
    unchanged, stays such a tree under [Remove], and under [Set] with a
    path of such names and such a value; [Parse] gives back every such
    tree from what [Serialize] writes for it. *)
Theorem built_document_round_trip (root : Node) :
  Name root = [] -> Value root = [] ->
  forallb sound (Children root) = true ->
  Parse (Serialize (Some (mkDocument (Some root))))
  = Ok (mkDocument (Some root))
  /\ (forall path value root' target,
        Forall (fun p => validName p = true) (segments path) ->
        cleanValue value = true -> stableValue value = true ->
        Set_ (Some root) path value = Some (root', target) ->
        Name root' = [] /\ Value root' = []
        /\ forallb sound (Children root') = true
        /\ Parse (Serialize (Some (mkDocument (Some root'))))
           = Ok (mkDocument (Some root')))
  /\ (forall path root' removed,
        Remove (Some root) path = (Some root', removed) ->
        Name root' = [] /\ Value root' = []
        /\ forallb sound (Children root') = true
        /\ Parse (Serialize (Some (mkDocument (Some root'))))
           = Ok (mkDocument (Some root'))).
Proof.
  assert (Hround : forall r,
            Name r = [] -> Value r = [] ->
            forallb sound (Children r) = true ->
            Parse (Serialize (Some (mkDocument (Some r))))
            = Ok (mkDocument (Some r))).
  { intros [name value children] Hn Hv Hs. cbn [Name Value Children] in *.
    subst name value. apply forallb_sound in Hs. destruct Hs.
    apply Parse_Serialize; assumption. }
  intros Hname Hvalue Hsound. split; [auto|]. split.
  - intros path value root' target Hsegs Hclean Hstable H.
    unfold Set_ in H. cbv zeta in H.
    pose proof (setParts_Name (Split path "/") 0 (length (Split path "/"))
                  value root) as Hn.
    pose proof (setParts_Value (Split path "/") 0 (length (Split path "/"))
                  value root) as Hv.
    pose proof (setParts_sound (Split path "/") 0 (length (Split path "/"))
                  value root Hsegs Hclean Hstable Hsound) as Hs.
    destruct (setParts (Split path "/") 0 (length (Split path "/")) value
                root) as [r t].
    injection H as <- <-. cbn [fst] in *.
    assert (Name r = []) by congruence. assert (Value r = []) by congruence.
    auto.
  - intros path root' removed H. unfold Remove in H.
    pose proof (removeParts_Name (Split path "/") root) as Hn.
    pose proof (removeParts_sound (Split path "/") root Hsound) as Hs.
    pose proof (removeParts_unchanged (Split path "/") root) as Hsame.
    destruct (removeParts (Split path "/") root) as [r b] eqn:R.
    injection H as <- <-. cbn [fst] in *.
    assert (Hnr : Name r = []) by congruence.
    assert (Hvr : Value r = []).
    { clear - R Hvalue. revert root r b R Hvalue.
      induction (Split path "/") as [|p ps IHp]; intros root r b R Hvalue.
      - simpl in R. congruence.
      - destruct ps as [|p' ps].
        + cbn [removeParts] in R.
          destruct (findChild (Children root) p) as [[i c]|];
            injection R as <- <-; destruct root; assumption.
        + rewrite removeParts_step in R. destruct (isEmpty p); [eauto|].
          destruct (findChild (Children root) p) as [[k c]|];
            [|congruence].
          destruct (removeParts (p' :: ps) c).
          injection R as <- <-. destruct root. assumption. }
    auto.
Qed.

Lemma built_document_round_trip_witness :
  let root := mkNode [] []
                [mkNode (lit "Video") []
                   [mkNode (lit "Driver") (lit "Metal") []]] in
  Set_ (Some emptyNode) (lit "Video/Driver") (lit "Metal")
  = Some (root, [0; 0])
  /\ Parse (Serialize (Some (mkDocument (Some root))))
     = Ok (mkDocument (Some root)).
Proof.
  intros root.
  assert (H : Set_ (Some emptyNode) (lit "Video/Driver") (lit "Metal")
              = Some (root, [0; 0])) by reflexivity.
  split; [exact H|].
  destruct (built_document_round_trip emptyNode eq_refl eq_refl eq_refl)
    as (_ & Hset & _).
  apply (Hset (lit "Video/Driver") (lit "Metal") root [0; 0]).
  - repeat constructor.
  - reflexivity.
  - reflexivity.
  - exact H.
Defined.

(** X14. [Serialize] loses nothing.  Two trees whose nodes have names
    of name characters and values that are written and read back
    unchanged, and for which [Serialize] writes the same text, are the
    same tree. *)
Theorem Serialize_injective (children1 children2 : list Node) :
  forallb sound children1 = true -> forallb sound children2 = true ->
  Serialize (Some (mkDocument (Some (mkNode [] [] children1))))
  = Serialize (Some (mkDocument (Some (mkNode [] [] children2)))) ->
  children1 = children2.
Proof.
  intros H1 H2 Heq.
  apply forallb_sound in H1. destruct H1 as [Hw1 Hs1].
  apply forallb_sound in H2. destruct H2 as [Hw2 Hs2].
  pose proof (Parse_Serialize children1 Hw1 Hs1) as P1.
  pose proof (Parse_Serialize children2 Hw2 Hs2) as P2.
  rewrite Heq in P1. congruence.
Qed.

Lemma Serialize_injective_witness :
  [mkNode (lit "A") (lit "1") []] = [mkNode (lit "A") (lit "1") []].
Proof.
  apply Serialize_injective; reflexivity.
Defined.

(** * The trees that [Parse] returns *)

Lemma wellFormed_nodeAt (pos : position) :
  forall n node,
    forallb wellFormed (Children n) = true ->
    pos <> [] -> nodeAt n pos = Some node ->
    wellFormed node = true.
Proof.
  induction pos as [|k pos IH]; intros n node Hall Hne Hat; [congruence|].
  cbn [nodeAt] in Hat.
  destruct (nth_error (Children n) k) as [child|] eqn:E; [|discriminate].
  assert (Hchild : wellFormed child = true).
  { rewrite forallb_forall in Hall. apply Hall.
    eapply nth_error_In. eassumption. }
  destruct pos as [|k' pos].
  - simpl in Hat. congruence.
  - apply (IH child node); [|discriminate|assumption].
    rewrite wellFormed_eq in Hchild. apply andb_true_iff in Hchild. tauto.
Qed.

(** X15. The trees of [Parse].  When [Parse] returns no error, the
    document has a root without name and value, and every node under the
    root has a name of one or more name characters and a value that
    holds no carriage return and does not begin with a newline. *)
Theorem parsed_tree_shape (data : gostring) (doc : Document) :
  Parse data = Ok doc ->
  exists root,
    Root doc = Some root /\ Name root = [] /\ Value root = []
    /\ forall pos node,
         pos <> [] -> nodeAt root pos = Some node ->
         Name node <> []
         /\ forallb isValidNameChar (Name node) = true
         /\ ~ In CR (Value node)
         /\ HasPrefix (Value node) [LF] = false.
Proof.
  intros H. destruct (Parse_wellFormed data doc H) as (children & -> & Hwf).
  eexists. split; [reflexivity|]. split; [reflexivity|].
  split; [reflexivity|].
  intros pos node Hne Hat.
  pose proof (wellFormed_nodeAt pos (mkNode [] [] children) node Hwf Hne Hat)
    as Hnode.
  rewrite wellFormed_eq in Hnode. apply andb_true_iff in Hnode.
  destruct Hnode as [Hnode _]. apply andb_true_iff in Hnode.
  destruct Hnode as [Hname Hvalue].
  apply validName_spec in Hname. destruct Hname as [Hn1 Hn2].
  unfold cleanValue in Hvalue. apply andb_true_iff in Hvalue.
  destruct Hvalue as [Hcr Hlf]. apply negb_true_iff in Hcr, Hlf.
  apply ContainsByte_false in Hcr. auto.
Qed.

Lemma parsed_tree_shape_witness :
  exists root,
    Root (mkDocument (Some (mkNode [] []
            [mkNode (lit "Video") [] [mkNode (lit "Driver") (lit "Metal") []]])))
    = Some root
    /\ Name root = [] /\ Value root = []
    /\ forall pos node,
         pos <> [] -> nodeAt root pos = Some node ->
         Name node <> []
         /\ forallb isValidNameChar (Name node) = true
         /\ ~ In CR (Value node)
         /\ HasPrefix (Value node) [LF] = false.
Proof.
  apply (parsed_tree_shape
           (lit "Video" ++ [LF] ++ lit "  Driver: Metal" ++ [LF])).
  reflexivity.
Defined.

(** * Quoted values *)

(** X16. A quoted value is taken as it is.  On a line made of a name,
    an equals sign and a text between double quotes, then attributes,
    the value of the node is the text between the quotes, with its
    spaces, colons, equals signs and slashes. *)
Theorem quoted_value_verbatim (name body : gostring)
    (attrs : list (gostring * gostring)) :
  validName name = true ->
  ~ In QUOTE body -> cleanLine body = true ->
  Forall plainAttr attrs ->
  Parse (name ++ "=" :: QUOTE :: body ++ QUOTE :: flat_map attrText attrs
         ++ [LF])
  = Ok (mkDocument (Some (mkNode [] []
          [mkNode name body (map attrNode attrs)]))).
Proof.
  intros Hname Hquote Hclean Hattrs.
  set (tail := flat_map attrText attrs).
  set (line := name ++ "=" :: QUOTE :: body ++ QUOTE :: tail).
  replace (name ++ "=" :: QUOTE :: body ++ QUOTE :: tail ++ [LF])
    with (line ++ [LF]).
  2:{ unfold line. rewrite <- !app_assoc. cbn [app]. rewrite <- app_assoc.
      reflexivity. }
  pose proof (validName_spec _ Hname) as [Hne Hchars].
  destruct (validName_first _ Hname) as (c & name0 & En & Hc).
  destruct (isValidNameChar_not c Hc) as (_ & _ & _ & _ & Hslash).
  pose proof (solid_line 0 c (name0 ++ "=" :: QUOTE :: body ++ QUOTE :: tail)
                (solidByte_name c Hc) Hslash) as (Hdepth & Hkeep & _).
  cbn [repeat app] in Hdepth, Hkeep.
  assert (Hline : line = c :: name0 ++ "=" :: QUOTE :: body ++ QUOTE :: tail)
    by (unfold line; rewrite En; reflexivity).
  rewrite <- Hline in Hdepth, Hkeep.
  apply cleanLine_spec in Hclean. destruct Hclean as [Hlf Hcr].
  assert (Hbyte : forall b, (b = LF \/ b = CR) -> ~ In b line).
  { intros b Hb Hin. unfold line in Hin.
    apply in_app_iff in Hin. destruct Hin as [Hin|Hin].
    { apply (validName_bytes _ _ Hname) in Hin.
      destruct Hb; subst b; discriminate. }
    destruct Hin as [<-|[<-|Hin]]; try (destruct Hb; discriminate).
    apply in_app_iff in Hin. destruct Hin as [Hin|[<-|Hin]];
      [destruct Hb; subst b; tauto|destruct Hb; discriminate|].
    apply in_flat_map in Hin. destruct Hin as (a & Ha & Hin).
    rewrite Forall_forall in Hattrs. apply Hattrs in Ha.
    destruct Ha as (Hn & _ & Hv). apply cleanLine_spec in Hv.
    unfold attrText in Hin.
    apply in_app_iff in Hin. destruct Hin as [[<-|[]]|Hin];
      [destruct Hb; discriminate|].
    apply in_app_iff in Hin. destruct Hin as [Hin|Hin].
    { apply (validName_bytes _ _ Hn) in Hin.
      destruct Hb; subst b; discriminate. }
    destruct Hin as [<-|Hin]; [destruct Hb; discriminate|].
    destruct Hb; subst b; tauto. }
  apply Parse_single_line.
  - apply cleanLine_spec. split; apply Hbyte; auto.
  - assumption.
  - rewrite Hdepth. unfold parseHead.
    assert (Hscan : scanWhile isValidNameChar line 0 = length name).
    { unfold line. apply (scanWhile_run isValidNameChar [] name);
        [assumption|reflexivity]. }
    rewrite Hscan.
    replace (length name =? 0) with false
      by (symmetry; apply Nat.eqb_neq; rewrite En; discriminate).
    assert (Hslice : slice line 0 (length name) = name)
      by (unfold line; apply (slice_at [] name)).
    rewrite Hslice.
    replace (length name <? length line) with true
      by (symmetry; apply Nat.ltb_lt; unfold line; rewrite length_app;
          simpl; lia).
    unfold line at 1. rewrite parseValue_quoted by assumption. cbn [bind].
    replace line with ((name ++ "=" :: QUOTE :: body ++ [QUOTE]) ++ tail).
    2:{ unfold line. rewrite <- !app_assoc. cbn [app]. rewrite <- app_assoc.
        reflexivity. }
    replace (length name + length body + 3)
      with (length (name ++ "=" :: QUOTE :: body ++ [QUOTE])).
    2:{ rewrite length_app. cbn [length]. rewrite length_app.
        cbn [length]. lia. }
    unfold tail. rewrite parseAttrs_attributes.
    + reflexivity.
    + assumption.
    + rewrite length_app. pose proof (length_attrs attrs). lia.
Qed.

Lemma quoted_value_verbatim_witness :
  Parse (lit "Title=" ++ QUOTE :: lit "Zelda: a // link" ++ QUOTE
         :: lit " region=EU" ++ [LF])
  = Ok (mkDocument (Some (mkNode [] []
          [mkNode (lit "Title") (lit "Zelda: a // link")
             [mkNode (lit "region") (lit "EU") []]]))).
Proof.
  apply (quoted_value_verbatim (lit "Title") (lit "Zelda: a // link")
           [(lit "region", lit "EU")]).
  - reflexivity.
  - cbn [lit list_ascii_of_string In]. intuition discriminate.
  - reflexivity.
  - repeat constructor.
Defined.

(** * Termination *)

(** X17. [Parse] ends.  The loops of [Parse] and [parseNode] read on at
    every turn: twice as many steps as there are lines, and one, are
    enough for them to return a document or an error, and more steps
    give the same result. *)
Theorem Parse_terminates (data : gostring) :
  ((exists doc, Parse data = Ok doc) \/ (exists e, Parse data = Err e))
  /\ forall k,
       parseTop (k + (2 * length (normalizeLines data) + 1))
         (normalizeLines data) 0 emptyNode
       = parseTop (2 * length (normalizeLines data) + 1)
           (normalizeLines data) 0 emptyNode.
Proof.
  split.
  - pose proof (Parse_total data) as H.
    destruct (Parse data) as [doc|e|]; [eauto|eauto|congruence].
  - intros k. apply parseTop_more_fuel. apply parseTop_fuel; lia.
Qed.

(** * Structs written and read *)

Lemma childNamed_cons (c : Node) (cs : list Node) (g : gostring) :
  childNamed (c :: cs) g
  = if gostring_eqb (Name c) g then Some c else childNamed cs g.
Proof.
  unfold childNamed. cbn [findChild].
  destruct (gostring_eqb (Name c) g); [reflexivity|].
  destruct (findChild cs g) as [[i f]|]; reflexivity.
Qed.

Lemma childNamed_absent (cs : list Node) (g : gostring) :
  ~ In g (namesOf cs) -> childNamed cs g = None.
Proof.
  intros H. unfold childNamed. apply findChild_None in H. rewrite H.
  reflexivity.
Qed.

Lemma validName_no_slash (g : gostring) :
  validName g = true -> ~ In "/" g.
Proof.
  intros H Hin. apply (validName_bytes _ _ H) in Hin. discriminate.
Qed.

Lemma Get_name (n : Node) (g : gostring) :
  validName g = true -> Get (Some n) g = childNamed (Children n) g.
Proof.
  intros H. cbn [Get]. rewrite Split_none by (apply validName_no_slash, H).
  apply validName_spec in H. destruct H as [Hne _].
  destruct g as [|c g]; [congruence|]. cbn [getParts isEmpty].
  unfold childNamed.
  destruct (findChild (Children n) (c :: g)) as [[k child]|]; reflexivity.
Qed.

Lemma commentOffset_no_slash (v : gostring) :
  ~ In "/" v -> commentOffset v = length v.
Proof.
  induction v as [|c v IH]; intros H; [reflexivity|].
  cbn [commentOffset HasPrefix length].
  replace (byte_eqb c "/") with false
    by (symmetry; apply byte_eqb_neq; intros ->; apply H; left; reflexivity).
  cbn [andb]. f_equal. apply IH. intros Hin. apply H. right. exact Hin.
Qed.

Lemma solid_plainText (v : gostring) :
  forallb solidByte v = true -> ~ In "/" v -> plainText v.
Proof.
  intros Hsolid Hslash. rewrite forallb_forall in Hsolid.
  assert (Hno : forall c, solidByte c = false -> ~ In c v).
  { intros c Hc Hin. apply Hsolid in Hin. congruence. }
  split; [|split].
  - apply cleanValue_intro; apply Hno; reflexivity.
  - unfold stableValue, colonStable.
    rewrite commentOffset_no_slash, Nat.eqb_refl by assumption.
    destruct (rev v) as [|c r] eqn:E; [apply orb_true_r|].
    cbn [HasPrefix]. rewrite andb_true_r.
    replace (byte_eqb c " ") with false; [apply orb_true_r|].
    symmetry. apply byte_eqb_neq. intros ->.
    apply (Hno " " eq_refl). apply in_rev. rewrite E. left. reflexivity.
  - apply TrimSpace_solid. apply forallb_forall. assumption.
Qed.

Lemma digits_no_slash (fuel : nat) (n : Z) :
  (0 <= n)%Z -> ~ In "/" (digitsOf fuel n).
Proof.
  intros Hn Hin. pose proof (digitsOf_digits fuel n Hn) as Hall.
  rewrite Forall_forall in Hall. destruct (Hall _ Hin) as (d & Hd & E).
  assert (Hcases : (d = 0 \/ d = 1 \/ d = 2 \/ d = 3 \/ d = 4 \/ d = 5
                    \/ d = 6 \/ d = 7 \/ d = 8 \/ d = 9)%Z) by lia.
  repeat (destruct Hcases as [->|Hcases]; [discriminate E|]).
  subst d. discriminate E.
Qed.

Lemma digits_solid (fuel : nat) (n : Z) :
  (0 <= n)%Z -> forallb solidByte (digitsOf fuel n) = true.
Proof.
  intros Hn. apply forallb_forall. intros c Hc.
  pose proof (digitsOf_digits fuel n Hn) as Hall.
  rewrite Forall_forall in Hall. destruct (Hall c Hc) as (d & Hd & ->).
  apply digit_cases. assumption.
Qed.

Lemma FormatInt_plain (i : Z) : plainText (FormatInt i).
Proof.
  apply solid_plainText; [apply Itoa_solid|].
  unfold FormatInt, Itoa. destruct (i <? 0)%Z eqn:E.
  - apply Z.ltb_lt in E. intros [H|H]; [discriminate|].
    revert H. apply digits_no_slash. lia.
  - apply Z.ltb_ge in E. apply digits_no_slash. assumption.
Qed.

Lemma FormatUint_plain (u : Z) : (0 <= u)%Z -> plainText (FormatUint u).
Proof.
  intros H. apply solid_plainText;
    [apply digits_solid|apply digits_no_slash]; assumption.
Qed.

Lemma ParseUint_FormatUint (u : Z) :
  (0 <= u <= maxUint)%Z -> ParseUint (FormatUint u) = Some u.
Proof.
  intros Hu. unfold maxUint in Hu. unfold ParseUint, FormatUint.
  assert (Hpow : (2 ^ 64 < 10 ^ Z.of_nat 20)%Z) by reflexivity.
  pose proof (digitsOf_not_nil 19 u) as Hne.
  rewrite (parseDigits_digitsOf 20 u) by lia.
  destruct (digitsOf 20 u); [congruence|].
  replace (u <=? maxUint)%Z with true; [reflexivity|].
  symmetry. apply Z.leb_le. unfold maxUint. lia.
Qed.

Lemma intBits_cases (k : IntKind) :
  (intBits k = 8 \/ intBits k = 16 \/ intBits k = 32 \/ intBits k = 64)%Z.
Proof. destruct k; simpl; auto. Qed.

Lemma uintBits_cases (k : UintKind) :
  (uintBits k = 8 \/ uintBits k = 16 \/ uintBits k = 32 \/ uintBits k = 64)%Z.
Proof. destruct k; simpl; auto. Qed.

Lemma wrapInt_fits (bits v : Z) :
  (0 < bits)%Z ->
  (- 2 ^ (bits - 1) <= v < 2 ^ (bits - 1))%Z -> wrapInt bits v = v.
Proof.
  intros Hb Hv. unfold wrapInt.
  assert (H2 : (2 ^ bits = 2 * 2 ^ (bits - 1))%Z).
  { replace bits with (Z.succ (bits - 1)) at 1 by lia.
    apply Z.pow_succ_r. lia. }
  rewrite Z.mod_small by lia. lia.
Qed.

Lemma int_fits_64 (k : IntKind) (v : Z) :
  (- 2 ^ (intBits k - 1) <= v < 2 ^ (intBits k - 1))%Z ->
  (minInt <= v <= maxInt)%Z.
Proof.
  unfold minInt, maxInt. intros H.
  assert (Hle : (2 ^ (intBits k - 1) <= 2 ^ 63)%Z).
  { apply Z.pow_le_mono_r; [lia|].
    destruct (intBits_cases k) as [->|[->|[->| ->]]]; lia. }
  lia.
Qed.

Lemma uint_fits_64 (k : UintKind) (v : Z) :
  (0 <= v < 2 ^ uintBits k)%Z -> (0 <= v <= maxUint)%Z.
Proof.
  unfold maxUint. intros H.
  assert (Hle : (2 ^ uintBits k <= 2 ^ 64)%Z).
  { apply Z.pow_le_mono_r; [lia|].
    destruct (uintBits_cases k) as [->|[->|[->| ->]]]; lia. }
  lia.
Qed.

Lemma sound_leaf (name value : gostring) :
  validName name = true -> plainText value ->
  sound (mkNode name value []) = true.
Proof.
  intros Hn (Hc & Hs & _). rewrite sound_eq. cbn [Name Value Children forallb].
  rewrite Hn, Hc, Hs. reflexivity.
Qed.

Lemma withChildren_append (parent node : Node) (nodes : list Node) :
  withChildren (appendChild parent node)
    (Children (appendChild parent node) ++ nodes)
  = withChildren parent (Children parent ++ node :: nodes).
Proof.
  destruct parent as [nm v cs]. unfold appendChild, withChildren.
  cbn [Name Value Children]. rewrite <- app_assoc. reflexivity.
Qed.

Section ReflectionFacts.
Context {F : Floats}.

Lemma unmarshalValue_nil (t : GoType) (v : valueOf t) :
  unmarshalValue t None v = (v, None).
Proof. destruct t as [| | | |[|]| | |]; reflexivity. Qed.

Lemma marshal_round_trip :
  (forall t name (v : valueOf t),
      validName name = true -> plainValue t v ->
      if present t v then
        exists node,
          marshalValue t name v = (Some node, None)
          /\ Name node = name /\ sound node = true
          /\ unmarshalValue t (Some node) (zero t) = (v, None)
      else marshalValue t name v = (None, None) /\ v = zero t)
  /\ (forall fs (v : valuesOf fs) parent,
        NoDup (tagsOf fs) -> plainValues fs v ->
        exists nodes,
          marshalFields fs v parent
          = (withChildren parent (Children parent ++ nodes), None)
          /\ forallb sound nodes = true
          /\ incl (namesOf nodes) (tagsOf fs)
          /\ forall N,
               (forall g, In g (tagsOf fs) ->
                          childNamed (Children N) g = childNamed nodes g) ->
               unmarshalFields fs N (zeros fs) = (v, None)).
Proof.
  apply GoType_Fields_ind.
  - (* string *)
    intros name v Hname Hv. cbn [present marshalValue].
    eexists. split; [reflexivity|]. split; [reflexivity|].
    split; [apply sound_leaf; assumption|].
    cbn [unmarshalValue Value]. destruct Hv as (_ & _ & ->). reflexivity.
  - (* bool *)
    intros name v Hname _. cbn [present marshalValue].
    eexists. split; [reflexivity|]. split; [reflexivity|].
    split.
    + rewrite sound_eq. cbn [Name Value Children forallb]. rewrite Hname.
      destruct v; reflexivity.
    + destruct v; reflexivity.
  - (* signed integers *)
    intros k name v Hname Hv. cbn [present marshalValue].
    cbn [plainValue] in Hv.
    pose proof (FormatInt_plain v) as Hplain.
    eexists. split; [reflexivity|]. split; [reflexivity|].
    split; [apply sound_leaf; assumption|].
    cbn [unmarshalValue Value zero]. cbv zeta.
    destruct Hplain as (_ & _ & ->).
    assert (Hne : isEmpty (FormatInt v) = false).
    { unfold FormatInt, Itoa. destruct (v <? 0)%Z; [reflexivity|].
      pose proof (digitsOf_not_nil 19 v). destruct (digitsOf 20 v);
        [congruence|reflexivity]. }
    rewrite Hne. unfold ParseInt, FormatInt.
    rewrite Atoi_Itoa by (eapply int_fits_64; eassumption).
    rewrite wrapInt_fits; [reflexivity| |assumption].
    destruct (intBits_cases k) as [->|[->|[->| ->]]]; lia.
  - (* unsigned integers *)
    intros k name v Hname Hv. cbn [present marshalValue].
    cbn [plainValue] in Hv.
    pose proof (FormatUint_plain v ltac:(lia)) as Hplain.
    eexists. split; [reflexivity|]. split; [reflexivity|].
    split; [apply sound_leaf; assumption|].
    cbn [unmarshalValue Value zero]. cbv zeta.
    destruct Hplain as (_ & _ & ->).
    assert (Hne : isEmpty (FormatUint v) = false).
    { unfold FormatUint. pose proof (digitsOf_not_nil 19 v).
      destruct (digitsOf 20 v); [congruence|reflexivity]. }
    rewrite Hne.
    rewrite ParseUint_FormatUint by (eapply uint_fits_64; eassumption).
    unfold wrapUint. rewrite Z.mod_small by lia. reflexivity.
  - (* floating-point numbers *)
    intros k name v _ [].
  - (* pointers *)
    intros elem IH name v Hname Hv. cbn [present marshalValue].
    destruct v as [x|]; [|split; reflexivity].
    cbn [plainValue] in Hv. destruct Hv as [Hpresent Hx].
    specialize (IH name x Hname Hx). rewrite Hpresent in *.
    destruct IH as (node & Hm & Hn & Hs & Hu).
    exists node. split; [assumption|]. split; [assumption|].
    split; [assumption|].
    cbn [unmarshalValue zero]. rewrite Hu. reflexivity.
  - (* structs *)
    intros fs IH name v Hname Hv. cbn [present marshalValue].
    cbn [plainValue] in Hv. destruct Hv as [Hnd Hv].
    destruct (IH v (mkNode name [] []) Hnd Hv)
      as (nodes & Hm & Hs & _ & Hu).
    rewrite Hm. exists (mkNode name [] nodes). split; [reflexivity|].
    split; [reflexivity|]. split.
    + rewrite sound_eq. cbn [Name Value Children]. rewrite Hname, Hs.
      reflexivity.
    + cbn [unmarshalValue zero]. apply Hu. intros g _. reflexivity.
  - (* other kinds *)
    intros k name v _ [].
  - (* no field *)
    intros v parent _ _. exists []. cbn [marshalFields].
    rewrite app_nil_r, withChildren_same.
    split; [reflexivity|]. split; [reflexivity|].
    split; [intros x []|].
    intros N _. destruct v. reflexivity.
  - (* a field and the fields after it *)
    intros info t IHt rest IHrest v parent Hnd Hv.
    cbn [valuesOf] in v. destruct v as [field others].
    cbn [plainValues fst snd] in Hv. destruct Hv as [Hfield Hothers].
    cbn [tagsOf] in *. cbn [marshalFields unmarshalFields zeros].
    destruct (negb (exported info) || isEmpty (tag info)) eqn:Eskip.
    + destruct (IHrest others parent Hnd Hothers)
        as (nodes & Hm & Hs & Hincl & Hu).
      exists nodes. split; [assumption|]. split; [assumption|].
      split; [assumption|].
      intros N HN. rewrite (Hu N HN), Hfield. reflexivity.
    + destruct Hfield as [Hname Hfield].
      apply NoDup_cons_iff in Hnd. destruct Hnd as [Hfresh Hnd].
      specialize (IHt (tag info) field Hname Hfield).
      destruct (present t field).
      * destruct IHt as (node & Hm & Hn & Hs & Hu). rewrite Hm.
        destruct (IHrest others (appendChild parent node) Hnd Hothers)
          as (nodes & Hm' & Hs' & Hincl & Hu').
        exists (node :: nodes). rewrite Hm', withChildren_append.
        split; [reflexivity|].
        split; [cbn [forallb]; rewrite Hs, Hs'; reflexivity|].
        split.
        { cbn [namesOf]. rewrite Hn. intros x [<-|Hx];
            [left; reflexivity|right; apply Hincl; assumption]. }
        intros N HN. rewrite Get_name by assumption.
        rewrite (HN (tag info)) by (left; reflexivity).
        rewrite childNamed_cons, Hn, gostring_eqb_refl, Hu.
        rewrite Hu'; [reflexivity|].
        intros g Hg. rewrite (HN g) by (right; assumption).
        rewrite childNamed_cons, Hn.
        replace (gostring_eqb (tag info) g) with false; [reflexivity|].
        symmetry. apply gostring_eqb_neq. intros <-. contradiction.
      * destruct IHt as [Hm ->]. rewrite Hm.
        destruct (IHrest others parent Hnd Hothers)
          as (nodes & Hm' & Hs' & Hincl & Hu').
        exists nodes. split; [assumption|]. split; [assumption|].
        split; [intros x Hx; right; apply Hincl; assumption|].
        intros N HN. rewrite Get_name by assumption.
        rewrite (HN (tag info)) by (left; reflexivity).
        rewrite childNamed_absent
          by (intros Hin; apply Hfresh, Hincl; assumption).
        rewrite unmarshalValue_nil.
        rewrite Hu'; [reflexivity|].
        intros g Hg. apply HN. right. assumption.
Qed.

(** X18. Structs written and read back.  [Marshal] accepts every
    struct whose strings are texts that the format keeps, whose
    integers fit their kinds, that has no floating-point number and no
    value of a kind that is not supported, whose pointers are nil or
    point to something that is not a nil pointer, and whose fields that
    are looked at (exported, with a tag) have distinct tags that are
    names, the other fields holding their zero value; it accepts a
    pointer to it as well, with the same bytes; and [Unmarshal] of these
    bytes into a zero struct of the type returns no error and gives the
    struct back. *)
Theorem struct_round_trip (fs : Fields) (v : valuesOf fs) :
  plainValue (TStruct fs) v ->
  exists text,
    Marshal (TStruct fs) v = inl text
    /\ Marshal (TPtr (TStruct fs)) (Some v) = inl text
    /\ Unmarshal text (TPtr (TStruct fs)) (Some (zeros fs)) = (Some v, None).
Proof.
  intros [Hnd Hv].
  destruct (proj2 marshal_round_trip fs v emptyNode Hnd Hv)
    as (nodes & Hm & Hs & _ & Hu).
  cbn [emptyNode Children withChildren Name Value app] in Hm.
  exists (Serialize (Some (mkDocument (Some (mkNode [] [] nodes))))).
  assert (HM : Marshal (TStruct fs) v
               = inl (Serialize
                        (Some (mkDocument (Some (mkNode [] [] nodes)))))).
  { cbn [Marshal marshalRoot]. unfold marshalStruct. rewrite Hm.
    reflexivity. }
  split; [exact HM|]. split; [exact HM|].
  apply forallb_sound in Hs. destruct Hs as [Hw Hst].
  unfold Unmarshal. rewrite (Parse_Serialize nodes Hw Hst).
  cbn [Root unmarshalNode]. rewrite Hu; [reflexivity|].
  intros g _. reflexivity.
Qed.

Lemma unmarshalFields_absent (fs : Fields) (N : Node) :
  forall v : valuesOf fs,
    (forall g, In g (tagsOf fs) -> Get (Some N) g = None) ->
    unmarshalFields fs N v = (v, None).
Proof.
  induction fs as [|info t rest IH]; intros v H; [reflexivity|].
  cbn [valuesOf] in v. destruct v as [field others].
  cbn [unmarshalFields tagsOf] in *.
  destruct (negb (exported info) || isEmpty (tag info)).
  - rewrite IH by assumption. reflexivity.
  - rewrite (H (tag info)) by (left; reflexivity).
    rewrite unmarshalValue_nil.
    rewrite IH by (intros g Hg; apply H; right; assumption).
    reflexivity.
Qed.

(** X19. What [Unmarshal] leaves alone.  When the document has no
    node at the tag of any field that is looked at, [Unmarshal] returns
    no error and the struct is as it was, whatever it held. *)
Theorem Unmarshal_absent (data : gostring) (doc : Document) (fs : Fields)
    (v : valuesOf fs) :
  Parse data = Ok doc ->
  (forall g, In g (tagsOf fs) -> Get (Root doc) g = None) ->
  Unmarshal data (TPtr (TStruct fs)) (Some v) = (Some v, None).
Proof.
  intros Hparse Habsent. unfold Unmarshal. rewrite Hparse.
  unfold unmarshalNode. destruct (Root doc) as [root|]; [|reflexivity].
  rewrite unmarshalFields_absent by assumption. reflexivity.
Qed.

Lemma marshal_supported :
  (forall t, supported t = true ->
             forall name (v : valueOf t),
               exists r, marshalValue t name v = (r, None))
  /\ (forall fs, supportedFields fs = true ->
                 forall (v : valuesOf fs) parent,
                   exists parent', marshalFields fs v parent = (parent', None)).
Proof.
  apply GoType_Fields_ind; try (intros; cbn [marshalValue]; eauto; fail).
  - intros [|] _ name v; cbn [marshalValue]; eauto.
  - intros elem IH Hs name [x|]; cbn [marshalValue]; eauto.
  - intros fs IH Hs name v. cbn [marshalValue].
    destruct (IH Hs v (mkNode name [] [])) as [p ->]. eauto.
  - intros k Hs. discriminate.
  - intros _ v parent. cbn [marshalFields]. eauto.
  - intros info t IHt rest IHrest Hs v parent.
    cbn [valuesOf] in v. destruct v as [field others].
    cbn [supportedFields] in Hs. apply andb_true_iff in Hs.
    destruct Hs as [Ht Hrest]. cbn [marshalFields].
    destruct (negb (exported info) || isEmpty (tag info)); [eauto|].
    cbn [orb] in Ht.
    destruct (IHt Ht (tag info) field) as [[node|] ->]; eauto.
Qed.

Lemma marshal_errors :
  (forall t name (v : valueOf t) r e,
      marshalValue t name v = (r, Some e) ->
      supported t = false
      /\ (unsupportedField (FieldError name e) = true))
  /\ (forall fs (v : valuesOf fs) parent parent' e,
        marshalFields fs v parent = (parent', Some e) ->
        supportedFields fs = false /\ unsupportedField e = true).
Proof.
  apply GoType_Fields_ind; try (intros; discriminate).
  - intros [|]; intros; discriminate.
  - intros elem IH name [x|] r e H; [|discriminate].
    cbn [marshalValue supported] in *. eauto.
  - intros fs IH name v r e H. cbn [marshalValue supported] in *.
    destruct (marshalFields fs v (mkNode name [] [])) as [p [err|]] eqn:E;
      [|discriminate].
    injection H as <- <-. destruct (IH _ _ _ _ E) as [Hs He].
    split; [assumption|]. cbn [unsupportedField].
    destruct err; try discriminate; assumption.
  - intros k name v r e H. cbn [marshalValue] in H. injection H as <- <-.
    split; reflexivity.
  - intros info t IHt rest IHrest v parent parent' e H.
    cbn [valuesOf] in v. destruct v as [field others].
    cbn [marshalFields supportedFields] in *.
    destruct (negb (exported info) || isEmpty (tag info)).
    + destruct (IHrest _ _ _ _ H) as [-> He]. cbn [orb andb]. auto.
    + cbn [orb].
      destruct (marshalValue t (tag info) field) as [r [err|]] eqn:E.
      * assert (H' : (parent, Some (FieldError (fieldName info) err))
                     = (parent', Some e)) by (destruct r; exact H).
        clear H. injection H' as <- <-.
        destruct (IHt _ _ _ _ E) as [-> He].
        split; [reflexivity|]. cbn [unsupportedField] in *.
        destruct err; try discriminate; assumption.
      * destruct r as [node|];
          destruct (IHrest _ _ _ _ H) as [-> He];
          rewrite andb_false_r; auto.
Qed.

(** X20. When [Marshal] fails.  For a struct, or a pointer to one
    that is not nil, [Marshal] returns bytes whenever no field that is
    looked at has, under pointers and structs, a kind that is not
    supported; and when it returns an error, the type has such a field,
    and the error is the one of the kind under the names of the fields
    that lead to it. *)
Theorem Marshal_supported (fs : Fields) (v : valuesOf fs) :
  (supportedFields fs = true -> exists text, Marshal (TStruct fs) v = inl text)
  /\ (forall e, Marshal (TStruct fs) v = inr e ->
                supportedFields fs = false /\ unsupportedField e = true)
  /\ Marshal (TPtr (TStruct fs)) (Some v) = Marshal (TStruct fs) v
  /\ Marshal (TPtr (TStruct fs)) None = inr RequiresNonNilValue.
Proof.
  split; [|split; [|split; reflexivity]].
  - intros Hs. cbn [Marshal marshalRoot]. unfold marshalStruct.
    destruct (proj2 marshal_supported fs Hs v emptyNode) as [root ->].
    eauto.
  - intros e H. cbn [Marshal marshalRoot] in H. unfold marshalStruct in H.
    destruct (marshalFields fs v emptyNode) as [root [err|]] eqn:E;
      [|discriminate].
    injection H as <-. exact (proj2 marshal_errors _ _ _ _ _ E).
Qed.

End ReflectionFacts.

Lemma struct_round_trip_witness :
  let fs := FCons (mkFieldInfo (lit "Title") true (lit "title")) TString
              (FCons (mkFieldInfo (lit "Scale") true (lit "scale"))
                 (TInt KInt8)
                 (FCons (mkFieldInfo (lit "cache") false []) (TUint KUint)
                    (FCons (mkFieldInfo (lit "Video") true (lit "video"))
                       (TPtr (TStruct
                                (FCons (mkFieldInfo (lit "On") true (lit "on"))
                                   TBool FNil)))
                       FNil))) in
  let v : @valuesOf noFloats fs :=
    (lit "Zelda", ((-3)%Z, (0%Z, (Some (true, tt), tt)))) in
  @plainValue noFloats (TStruct fs) v
  /\ exists text,
       @Marshal noFloats (TStruct fs) v = inl text
       /\ @Marshal noFloats (TPtr (TStruct fs)) (Some v) = inl text
       /\ @Unmarshal noFloats text (TPtr (TStruct fs))
            (Some (@zeros noFloats fs))
          = (Some v, None).
Proof.
  intros fs v.
  assert (H : @plainValue noFloats (TStruct fs) v).
  { split.
    - unfold fs. cbn.
      repeat (apply NoDup_cons; [cbn [In]; intuition discriminate|]).
      apply NoDup_nil.
    - unfold fs, v. cbn. repeat split; try reflexivity; try lia.
      repeat constructor. cbn [In]. tauto. }
  split; [exact H|]. exact (struct_round_trip fs v H).
Defined.

Lemma Unmarshal_absent_witness :
  let fs := FCons (mkFieldInfo (lit "Title") true (lit "title")) TString
              (FCons (mkFieldInfo (lit "Scale") true (lit "scale"))
                 (TInt KInt) FNil) in
  @Unmarshal noFloats (lit "Video" ++ [LF] ++ lit "  scale: 2" ++ [LF])
    (TPtr (TStruct fs)) (Some (lit "untouched", (7%Z, tt)))
  = (Some (lit "untouched", (7%Z, tt)), None).
Proof.
  intros fs.
  apply (@Unmarshal_absent noFloats _
           (mkDocument (Some (mkNode [] []
              [mkNode (lit "Video") [] [mkNode (lit "scale") (lit "2") []]])))).
  - reflexivity.
  - intros g [<-|[<-|[]]]; reflexivity.
Defined.

Lemma Marshal_supported_witness :
  let fs := FCons (mkFieldInfo (lit "Title") true (lit "title")) TString
              (FCons (mkFieldInfo (lit "Tags") false (lit "tags"))
                 (TOther KSlice) FNil) in
  exists text, @Marshal noFloats (TStruct fs) (lit "Zelda", (tt, tt)) = inl text.
Proof.
  intros fs.
  exact (proj1 (@Marshal_supported noFloats fs (lit "Zelda", (tt, tt)))
           eq_refl).
Defined.

(** * What a round trip makes of any tree *)

Lemma parseAttrs_at_comment (fuel : nat) (line : gostring) (pos : nat)
    (children : list Node) :
  HasPrefix (skipn pos line) ["/"; "/"] = true ->
  parseAttrs (S fuel) line pos children = Ok children.
Proof.
  intros H. apply HasPrefix_iff in H. destruct H as [t Ht].
  assert (Hlen : pos + 2 <= length line).
  { pose proof (f_equal (@length ascii) Ht) as Hl.
    rewrite length_skipn in Hl. simpl in Hl. lia. }
  cbn [parseAttrs].
  replace (length line <=? pos) with false
    by (symmetry; apply Nat.leb_gt; lia).
  assert (Hscan : scanWhile (fun c => byte_eqb c " ") line pos = pos).
  { unfold scanWhile. rewrite Ht. simpl. lia. }
  rewrite Hscan.
  replace (length line <=? pos) with false
    by (symmetry; apply Nat.leb_gt; lia).
  replace (S pos <? length line) with true
    by (symmetry; apply Nat.ltb_lt; lia).
  unfold slice. rewrite Ht.
  replace (pos + 2 - pos) with 2 by lia. reflexivity.
Qed.

Lemma parseHead_headLine_any (depth : nat) (name value : gostring) :
  validName name = true ->
  parseHead (headLine depth name value) (depth * 2)
  = Ok (mkNode name (if isMultiline value then [] else readBack value) []).
Proof.
  intros Hname. apply validName_spec in Hname.
  destruct Hname as [Hne Hall].
  unfold parseHead. rewrite <- (length_indentation depth).
  set (part := if isEmpty value || isMultiline value then []
               else [":"; " "] ++ value).
  assert (Hline : headLine depth name value
                  = indentation depth ++ name ++ part) by reflexivity.
  rewrite Hline.
  assert (Hstop : stopsAt isValidNameChar part).
  { unfold part. destruct (isEmpty value || isMultiline value);
      exact I || reflexivity. }
  rewrite scanWhile_run by assumption.
  replace (length (indentation depth) + length name
           =? length (indentation depth)) with false
    by (symmetry; apply Nat.eqb_neq; destruct name; simpl; [congruence|lia]).
  replace (slice (indentation depth ++ name ++ part)
             (length (indentation depth))
             (length (indentation depth) + length name)) with name
    by (symmetry; apply slice_at).
  assert (Hpart : part = if isEmpty value || isMultiline value then []
                        else [":"; " "] ++ value) by reflexivity.
  clearbody part.
  destruct (isEmpty value || isMultiline value) eqn:E; subst part.
  - assert (Hend : length (indentation depth) + length name
                   = length (indentation depth ++ name ++ [])).
    { rewrite !length_app. simpl. lia. }
    rewrite Hend, Nat.ltb_irrefl. cbn [bind].
    rewrite parseAttrs_at_end. cbn [bind]. f_equal. f_equal.
    apply orb_true_iff in E. destruct E as [E|E]; [|rewrite E; reflexivity].
    apply isEmpty_true in E. subst value. reflexivity.
  - apply orb_false_iff in E. destruct E as [E1 E2].
    unfold readBack. rewrite E2.
    destruct (commentOffset_split value) as [Hbody Htail].
    cbv zeta in Hbody, Htail.
    set (k := commentOffset value) in *.
    set (body := firstn k value). set (tail := skipn k value) in *.
    assert (Hv : value = body ++ tail)
      by (symmetry; apply firstn_skipn).
    assert (Hk : length body = k).
    { unfold body. apply firstn_length_le. apply commentOffset_le. }
    clearbody body tail k.
    replace (length (indentation depth) + length name
             <? length (indentation depth ++ name ++ [":"; " "] ++ value))
      with true
      by (symmetry; apply Nat.ltb_lt; rewrite !length_app; simpl; lia).
    pose proof (parseValue_colon_parts (indentation depth ++ name) [" "] body
                  tail (or_introl eq_refl)) as Hparse.
    rewrite <- Hv, Hk in Hparse. specialize (Hparse Hbody Htail).
    rewrite length_app in Hparse.
    replace ((indentation depth ++ name) ++ [":"] ++ [" "] ++ value)
      with (indentation depth ++ name ++ [":"; " "] ++ value) in Hparse
      by (rewrite <- !app_assoc; reflexivity).
    rewrite Hparse. cbn [bind].
    set (line := indentation depth ++ name ++ [":"; " "] ++ value).
    set (pos := length ((indentation depth ++ name) ++ [":"] ++ [" "] ++ body)).
    assert (Hskip : skipn pos line = tail).
    { unfold line, pos. rewrite Hv.
      replace (indentation depth ++ name ++ [":"; " "] ++ body ++ tail)
        with (((indentation depth ++ name) ++ [":"] ++ [" "] ++ body) ++ tail)
        by (rewrite <- !app_assoc; reflexivity).
      apply skipn_at. }
    destruct Htail as [Htail|Htail].
    + assert (Hpos : pos = length line).
      { unfold line, pos. rewrite Hv, Htail, app_nil_r.
        rewrite <- !app_assoc. reflexivity. }
      rewrite Hpos, parseAttrs_at_end. reflexivity.
    + rewrite parseAttrs_at_comment by (rewrite Hskip; exact Htail).
      reflexivity.
Qed.

Lemma parseChildren_children_any (depth : nat) (cs cs' : list Node) :
  Forall2 reparsesAs cs cs' -> forallb wellFormed cs = true ->
  forall pre post node fuel,
    shallow (depth * 2) post ->
    parseChildren fuel
      (pre ++ flat_map (fun child => serLines child (depth + 1)) cs ++ post)
      (length pre) (depth * 2) node <> OutOfFuel ->
    parseChildren fuel
      (pre ++ flat_map (fun child => serLines child (depth + 1)) cs ++ post)
      (length pre) (depth * 2) node
    = Ok (withChildren node (Children node ++ cs'),
          length pre
          + length (flat_map (fun child => serLines child (depth + 1)) cs)).
Proof.
  induction 1 as [|c c' cs cs' Hc Hcs IH];
    intros Hwf pre post node fuel Hpost Hfuel.
  - cbn [flat_map app length] in *. rewrite app_nil_r, Nat.add_0_r.
    destruct fuel as [|fuel]; [simpl in Hfuel; congruence|].
    rewrite parseChildren_S.
    replace (withChildren node (Children node)) with node
      by (destruct node; reflexivity).
    destruct post as [|l post].
    + rewrite app_nil_r, nth_error_past. reflexivity.
    + rewrite nth_error_at. simpl in Hpost. apply Nat.leb_le in Hpost.
      rewrite Hpost. reflexivity.
  - cbn [forallb] in Hwf. apply andb_true_iff in Hwf.
    destruct Hwf as [Hwc Hwcs].
    destruct fuel as [|fuel]; [simpl in Hfuel; congruence|].
    cbn [flat_map] in *. rewrite <- !app_assoc in *.
    rewrite parseChildren_S in *.
    destruct (serLines_head c (depth + 1)) as [rest Hhead].
    destruct (headLine_facts (depth + 1) (Name c) (Value c)
                (wellFormed_name c Hwc)) as (Hd & _ & Hcont).
    assert (Hnth : nth_error
                     (pre ++ serLines c (depth + 1)
                          ++ flat_map (fun child => serLines child (depth + 1)) cs
                          ++ post) (length pre)
                   = Some (headLine (depth + 1) (Name c) (Value c))).
    { rewrite Hhead. cbn [app]. apply nth_error_at. }
    rewrite Hnth in *. rewrite Hd, Hcont in *.
    replace ((depth + 1) * 2 <=? depth * 2) with false in *
      by (symmetry; apply Nat.leb_gt; lia).
    assert (Hshallow : shallow ((depth + 1) * 2)
                         (flat_map (fun child => serLines child (depth + 1)) cs
                          ++ post)).
    { apply (shallow_kids depth cs post (fun d => d + 1)); auto. lia. }
    assert (Hnode : parseNode fuel
                      (pre ++ serLines c (depth + 1)
                           ++ flat_map (fun child => serLines child (depth + 1)) cs
                           ++ post) (length pre) (Z.of_nat (depth * 2))
                    = Ok (c', length pre + length (serLines c (depth + 1)))).
    { apply Hc; [lia|assumption|].
      intros Hoof. rewrite Hoof in Hfuel. cbn [bind] in Hfuel. congruence. }
    rewrite Hnode in *. cbn [bind] in *.
    rewrite <- length_app in *. rewrite app_assoc in *.
    rewrite (IH Hwcs _ _ _ _ Hpost Hfuel).
    cbn [appendChild withChildren Children Name Value]. f_equal. f_equal.
    + rewrite <- app_assoc. reflexivity.
    + rewrite !length_app. lia.
Qed.

Lemma readBack_multiline (value : gostring) :
  isMultiline value = true -> readBack value = value.
Proof. unfold readBack. intros ->. reflexivity. Qed.

Lemma parseNode_serialized_any (n : Node) :
  wellFormed n = true -> reparsesAs n (normalised n).
Proof.
  induction n as [name value children IH] using Node_tree_ind.
  intros Hwf depth pre post pd fuel Hpd Hpost Hfuel.
  cbn [wellFormed] in Hwf.
  apply andb_true_iff in Hwf. destruct Hwf as [Hwf Hwcs].
  apply andb_true_iff in Hwf. destruct Hwf as [Hname Hvalue].
  assert (Hkids : Forall2 reparsesAs children (map normalised children)).
  { clear - IH Hwcs. induction IH as [|c cs Hc _ IHcs]; [constructor|].
    cbn [forallb map] in *. apply andb_true_iff in Hwcs.
    constructor; [apply Hc; tauto|apply IHcs; tauto]. }
  destruct fuel as [|fuel]; [simpl in Hfuel; congruence|].
  cbn [serLines normalised] in *.
  set (kids := flat_map (fun child => serLines child (depth + 1)) children) in *.
  cbn [app] in *. rewrite parseNode_S in *. rewrite nth_error_at in *.
  destruct (headLine_facts depth name value Hname) as (Hd & _ & _).
  rewrite Hd in *.
  replace ((Z.of_nat (depth * 2) <=? pd)%Z) with false in *
    by (symmetry; apply Z.leb_gt; lia).
  cbn [andb] in *.
  rewrite (parseHead_headLine_any depth name value Hname) in *.
  cbn [bind] in *.
  replace (pre ++ headLine depth name value
               :: (valueLines depth value ++ kids) ++ post)
    with ((pre ++ [headLine depth name value])
            ++ valueLines depth value ++ kids ++ post) in *
    by (rewrite <- !app_assoc; reflexivity).
  replace (S (length pre)) with (length (pre ++ [headLine depth name value]))
    in * by (rewrite length_app; simpl; lia).
  set (P := pre ++ [headLine depth name value]) in *.
  assert (Hlen : length pre + length (headLine depth name value
                                      :: valueLines depth value ++ kids)
                 = length P + length (valueLines depth value) + length kids).
  { unfold P. rewrite !length_app. cbn [length]. rewrite length_app. lia. }
  rewrite Hlen. clear Hlen.
  unfold valueLines in *.
  destruct (isMultiline value) eqn:Emulti.
  - rewrite (readBack_multiline value Emulti).
    set (M := map (continuationLine depth) (Split value LF)) in *.
    destruct (parseChildren_valueLines depth (Split value LF) P (kids ++ post)
                _ _ Hfuel) as [fuel' Hvl].
    fold M in Hvl. rewrite Hvl in Hfuel. rewrite Hvl. clear Hvl.
    cbn [withValue Name Value Children] in *.
    rewrite continuations_value in * by (apply cleanValue_spec; assumption).
    assert (Hidx : length P + length (Split value LF) = length (P ++ M))
      by (unfold M; rewrite length_app, length_map; reflexivity).
    rewrite Hidx in *. rewrite (app_assoc P M) in *. unfold kids in *.
    rewrite (parseChildren_children_any depth children _ Hkids Hwcs _ _ _ _
               Hpost Hfuel).
    cbn [withChildren withValue Name Value Children app]. f_equal. f_equal.
    rewrite length_app. lia.
  - cbn [app] in *. unfold kids in *.
    rewrite (parseChildren_children_any depth children _ Hkids Hwcs _ _ _ _
               Hpost Hfuel).
    cbn [withChildren Name Value Children app length]. f_equal. f_equal.
    lia.
Qed.

Lemma parseTop_serialized_any (cs : list Node) :
  forallb wellFormed cs = true ->
  forall pre root fuel,
    parseTop fuel (pre ++ flat_map (fun child => serLines child 0) cs)
      (length pre) root <> OutOfFuel ->
    parseTop fuel (pre ++ flat_map (fun child => serLines child 0) cs)
      (length pre) root
    = Ok (withChildren root (Children root ++ map normalised cs)).
Proof.
  induction cs as [|c cs IH]; intros Hwf pre root fuel Hfuel.
  - cbn [flat_map map] in *. rewrite app_nil_r in *.
    destruct fuel as [|fuel]; [simpl in Hfuel; congruence|].
    rewrite parseTop_S, Nat.ltb_irrefl.
    destruct root as [name value children].
    cbn [withChildren Name Value Children]. rewrite app_nil_r. reflexivity.
  - cbn [forallb] in Hwf. apply andb_true_iff in Hwf.
    destruct Hwf as [Hwc Hwcs].
    destruct fuel as [|fuel]; [simpl in Hfuel; congruence|].
    cbn [flat_map map] in *. rewrite parseTop_S in *.
    destruct (serLines_head c 0) as [rest Hhead].
    replace (length pre
             <? length (pre ++ serLines c 0
                            ++ flat_map (fun child => serLines child 0) cs))
      with true in *
      by (symmetry; apply Nat.ltb_lt; rewrite Hhead, !length_app; simpl; lia).
    assert (Hshallow : shallow (0 * 2)
                         (flat_map (fun child => serLines child 0) cs ++ [])).
    { apply (shallow_kids 0 cs [] (fun _ => 0)); simpl; auto. }
    rewrite app_nil_r in Hshallow.
    pose proof (parseNode_serialized_any c Hwc 0 pre
                  (flat_map (fun child => serLines child 0) cs) (-1)%Z fuel
                  ltac:(lia) Hshallow) as Hnode.
    rewrite Hnode in *
      by (intros Hoof; rewrite Hoof in Hfuel; cbn [bind] in Hfuel; congruence).
    cbn [bind] in *. rewrite <- length_app in *. rewrite app_assoc in *.
    rewrite (IH Hwcs _ _ _ Hfuel).
    unfold appendChild, withChildren. cbn [Name Value Children].
    rewrite <- app_assoc. reflexivity.
Qed.

Lemma Parse_Serialize_any (children : list Node) :
  forallb wellFormed children = true ->
  Parse (Serialize (Some (mkDocument (Some (mkNode [] [] children)))))
  = Ok (mkDocument (Some (mkNode [] [] (map normalised children)))).
Proof.
  intros Hwf. rewrite Serialize_lines. cbn [Children].
  set (lines := flat_map (fun child => serLines child 0) children).
  assert (Hclean : Forall (fun l => cleanLine l = true) lines
                   /\ Forall (fun l => keepLine l = true) lines).
  { unfold lines. induction children as [|c cs IH];
      [split; constructor|].
    cbn [forallb] in Hwf. apply andb_true_iff in Hwf.
    destruct Hwf as [Hc Hcs]. destruct (serLines_clean c Hc 0) as [H1 H2].
    destruct (IH Hcs) as [H3 H4]. cbn [flat_map].
    split; apply Forall_app; auto. }
  destruct Hclean as [Hclean Hkeep].
  unfold Parse. rewrite (normalizeLines_unlines lines Hclean Hkeep).
  destruct (length lines =? 0) eqn:E.
  - apply Nat.eqb_eq in E. unfold lines in E.
    destruct children as [|c cs]; [reflexivity|].
    cbn [flat_map] in E. destruct (serLines_head c 0) as [rest Hhead].
    rewrite Hhead in E. simpl in E. lia.
  - pose proof (parseTop_fuel (2 * length lines + 1) lines 0 emptyNode
                  ltac:(lia) ltac:(lia)) as Hfuel.
    pose proof (parseTop_serialized_any children Hwf [] emptyNode
                  (2 * length lines + 1)) as Htop.
    cbn [app length] in Htop. fold lines in Htop.
    rewrite Htop by assumption. reflexivity.
Qed.

Lemma HasPrefix_skipn_app (w rest p : gostring) (i : nat) :
  i < length w -> HasPrefix (skipn i w) p = true ->
  HasPrefix (skipn i (w ++ rest)) p = true.
Proof.
  intros Hi H. apply HasPrefix_iff in H. destruct H as [t Ht].
  apply HasPrefix_iff. exists (t ++ rest).
  rewrite skipn_app. replace (i - length w) with 0 by lia.
  cbn [skipn]. rewrite Ht, <- app_assoc. reflexivity.
Qed.

Lemma readBack_stable (value : gostring) :
  stableValue (readBack value) = true.
Proof.
  unfold stableValue, readBack. destruct (isMultiline value) eqn:E.
  - unfold isMultiline in E. rewrite E. reflexivity.
  - apply orb_true_iff. right.
    destruct (commentOffset_split value) as [Hbody _]. cbv zeta in Hbody.
    set (k := commentOffset value) in *.
    destruct (TrimRight_split (firstn k value)) as (j & Hsplit & Hstop).
    set (w := TrimRight (firstn k value) [" "]) in *.
    assert (Hv : value = w ++ repeat " " j ++ skipn k value).
    { rewrite app_assoc, <- Hsplit. symmetry. apply firstn_skipn. }
    assert (Hwk : length w <= k).
    { pose proof (f_equal (@length ascii) Hsplit) as Hl.
      rewrite length_app, length_firstn in Hl. lia. }
    unfold colonStable. apply andb_true_iff. split.
    + apply Nat.eqb_eq. rewrite <- (app_nil_r w) at 1.
      apply commentOffset_found; [|left; reflexivity].
      intros i Hi. rewrite app_nil_r.
      destruct (HasPrefix (skipn i w) ["/"; "/"]) eqn:Ep; [|reflexivity].
      apply (HasPrefix_skipn_app w (repeat " " j ++ skipn k value)) in Ep;
        [|assumption].
      rewrite <- Hv in Ep. rewrite Hbody in Ep by lia. discriminate.
    + destruct (rev w) as [|c r]; [reflexivity|].
      cbn [stopsAt ContainsByte existsb] in Hstop.
      rewrite orb_false_r in Hstop. cbn [HasPrefix].
      rewrite Hstop. reflexivity.
Qed.

Lemma In_TrimRight_of (s cutset : gostring) (c : ascii) :
  In c (TrimRight s cutset) -> In c s.
Proof.
  unfold TrimRight. intros H. apply in_rev in H.
  assert (Hsub : forall t, In c (TrimLeft t cutset) -> In c t).
  { induction t as [|d t IH]; [auto|]. cbn [TrimLeft].
    destruct (ContainsByte cutset d); [right; auto|auto]. }
  apply Hsub in H. apply in_rev in H. exact H.
Qed.

Lemma readBack_clean (value : gostring) :
  cleanValue value = true -> cleanValue (readBack value) = true.
Proof.
  intros H. unfold readBack. destruct (isMultiline value) eqn:E; [exact H|].
  unfold isMultiline in E. apply ContainsByte_false in E.
  apply cleanValue_spec in H. destruct H as [Hcr _].
  assert (Hsub : forall c,
            In c (TrimRight (firstn (commentOffset value) value) [" "]) ->
            In c value).
  { intros c Hc. apply In_TrimRight_of in Hc.
    rewrite <- (firstn_skipn (commentOffset value) value).
    apply in_app_iff. left. exact Hc. }
  apply cleanValue_intro; intros Hin; apply Hsub in Hin; contradiction.
Qed.

Lemma readBack_of_stable (value : gostring) :
  stableValue value = true -> readBack value = value.
Proof.
  unfold stableValue, readBack, isMultiline. intros H.
  destruct (ContainsByte value LF); [reflexivity|]. cbn [orb] in H.
  pose proof (colonStable_spec value H) as [_ Htrim].
  unfold colonStable in H. apply andb_true_iff in H. destruct H as [Hk _].
  apply Nat.eqb_eq in Hk. rewrite Hk, firstn_all. exact Htrim.
Qed.

Lemma normalised_sound (n : Node) :
  wellFormed n = true -> sound (normalised n) = true.
Proof.
  induction n as [name value children IH] using Node_tree_ind.
  intros Hwf. cbn [wellFormed] in Hwf.
  apply andb_true_iff in Hwf. destruct Hwf as [Hwf Hwcs].
  apply andb_true_iff in Hwf. destruct Hwf as [Hname Hvalue].
  cbn [normalised]. rewrite sound_eq. cbn [Name Value Children].
  rewrite Hname, (readBack_clean _ Hvalue), readBack_stable. cbn [andb].
  clear - IH Hwcs. induction IH as [|c cs Hc _ IHcs]; [reflexivity|].
  cbn [forallb map] in *. apply andb_true_iff in Hwcs.
  rewrite Hc, IHcs by tauto. reflexivity.
Qed.

Lemma normalised_of_stable (n : Node) :
  stableTree n = true -> normalised n = n.
Proof.
  induction n as [name value children IH] using Node_tree_ind.
  intros Hst. cbn [stableTree] in Hst.
  apply andb_true_iff in Hst. destruct Hst as [Hv Hcs].
  cbn [normalised]. rewrite (readBack_of_stable value Hv). f_equal.
  clear - IH Hcs. induction IH as [|c cs Hc _ IHcs]; [reflexivity|].
  cbn [forallb map] in *. apply andb_true_iff in Hcs.
  rewrite Hc, IHcs by tauto. reflexivity.
Qed.

Lemma normalised_all (children : list Node) :
  forallb wellFormed children = true ->
  forallb sound (map normalised children) = true.
Proof.
  induction children as [|c cs IH]; [reflexivity|].
  cbn [forallb map]. intros H. apply andb_true_iff in H.
  rewrite normalised_sound, IH by tauto. reflexivity.
Qed.

(** X21. What a round trip makes of any tree.  For every tree whose
    nodes have names of name characters and values without carriage
    return that do not begin with a newline, [Parse] reads what
    [Serialize] wrote without error, and returns the tree with the same
    names and children where a value of several lines is as it was and a
    value of one line is cut at its first [//] and loses the spaces at
    its end; a second round trip changes nothing more; and the first one
    changes nothing when no value of one line holds [//] or ends in a
    space. *)
Theorem Serialize_then_Parse (children : list Node) :
  forallb wellFormed children = true ->
  Parse (Serialize (Some (mkDocument (Some (mkNode [] [] children)))))
  = Ok (mkDocument (Some (mkNode [] [] (map normalised children))))
  /\ Parse (Serialize (Some (mkDocument
              (Some (mkNode [] [] (map normalised children))))))
     = Ok (mkDocument (Some (mkNode [] [] (map normalised children))))
  /\ (forallb stableTree children = true ->
      map normalised children = children).
Proof.
  intros Hwf. split; [apply Parse_Serialize_any; assumption|]. split.
  - pose proof (normalised_all children Hwf) as Hs.
    apply forallb_sound in Hs. destruct Hs.
    apply Parse_Serialize; assumption.
  - clear Hwf. induction children as [|c cs IH]; [reflexivity|].
    cbn [forallb map]. intros H. apply andb_true_iff in H.
    rewrite normalised_of_stable, IH by tauto. reflexivity.
Qed.

Lemma Serialize_then_Parse_witness :
  Parse (Serialize (Some (mkDocument (Some (mkNode [] []
           [mkNode (lit "Title") (lit "Zelda // draft ")
              [mkNode (lit "Note") (lit "a" ++ [LF] ++ lit "b // c") []]])))))
  = Ok (mkDocument (Some (mkNode [] []
          [mkNode (lit "Title") (lit "Zelda")
             [mkNode (lit "Note") (lit "a" ++ [LF] ++ lit "b // c") []]]))).
Proof.
  exact (proj1 (Serialize_then_Parse
                  [mkNode (lit "Title") (lit "Zelda // draft ")
                     [mkNode (lit "Note") (lit "a" ++ [LF] ++ lit "b // c")
                        []]]
                  eq_refl)).
Defined.

(** X22. Parsed, written and read again.  For every input that
    [Parse] accepts, [Parse] accepts what [Serialize] writes for the
    document, and returns the document with its values of one line cut
    at their first [//] and without the spaces at their end; writing and
    reading that document again gives it back. *)
Theorem reparse_of_parsed (data : gostring) (doc : Document) :
  Parse data = Ok doc ->
  exists children,
    doc = mkDocument (Some (mkNode [] [] children))
    /\ Parse (Serialize (Some doc))
       = Ok (mkDocument (Some (mkNode [] [] (map normalised children))))
    /\ Parse (Serialize (Some (mkDocument
                (Some (mkNode [] [] (map normalised children))))))
       = Ok (mkDocument (Some (mkNode [] [] (map normalised children)))).
Proof.
  intros H. destruct (Parse_wellFormed data doc H) as (children & -> & Hwf).
  exists children. split; [reflexivity|].
  split; [apply Parse_Serialize_any; assumption|].
  pose proof (normalised_all children Hwf) as Hs.
  apply forallb_sound in Hs. destruct Hs.
  apply Parse_Serialize; assumption.
Qed.

Lemma reparse_of_parsed_witness :
  exists children,
    mkDocument (Some (mkNode [] [] [mkNode (lit "A") (lit "a//b") []]))
    = mkDocument (Some (mkNode [] [] children))
    /\ Parse (Serialize (Some (mkDocument (Some (mkNode [] []
                [mkNode (lit "A") (lit "a//b") []])))))
       = Ok (mkDocument (Some (mkNode [] [] (map normalised children))))
    /\ Parse (Serialize (Some (mkDocument
                (Some (mkNode [] [] (map normalised children))))))
       = Ok (mkDocument (Some (mkNode [] [] (map normalised children)))).
Proof.
  apply (reparse_of_parsed (lit "A" ++ [LF] ++ lit "  : a//b" ++ [LF])).
  reflexivity.
Defined.

(** * The errors of [Unmarshal] *)

Section UnmarshalErrors.
Context {F : Floats}.

Lemma unmarshal_errors :
  (forall t node (v r : valueOf t) e name,
      unmarshalValue t node v = (r, Some e) ->
      fieldFailure (FieldError name e) = true /\ textual t = false)
  /\ (forall fs node (v r : valuesOf fs) e,
        unmarshalFields fs node v = (r, Some e) ->
        fieldFailure e = true /\ textualFields fs = false).
Proof.
  apply GoType_Fields_ind.
  - intros [n|] v r e name H; discriminate.
  - intros [n|] v r e name H; discriminate.
  - intros k [n|] v r e name H; [|discriminate].
    cbn [unmarshalValue] in H. cbv zeta in H.
    destruct (isEmpty (TrimSpace (Value n))); [discriminate|].
    destruct (ParseInt (TrimSpace (Value n))); [discriminate|].
    injection H as <- <-. split; reflexivity.
  - intros k [n|] v r e name H; [|discriminate].
    cbn [unmarshalValue] in H. cbv zeta in H.
    destruct (isEmpty (TrimSpace (Value n))); [discriminate|].
    destruct (ParseUint (TrimSpace (Value n))); [discriminate|].
    injection H as <- <-. split; reflexivity.
  - intros [|] [n|] v r e name H; try discriminate;
      cbn [unmarshalValue] in H; cbv zeta in H;
      (destruct (isEmpty (TrimSpace (Value n))); [discriminate|]);
      (destruct (ParseFloat64 (TrimSpace (Value n))); [discriminate|]);
      injection H as <- <-; split; reflexivity.
  - intros elem IH [n|] v r e name H; [|discriminate].
    cbn [unmarshalValue textual] in *. cbv zeta in H.
    cbn [valueOf] in v, r. destruct v as [x0|].
    + destruct (unmarshalValue elem (Some n) x0) as [x err] eqn:E.
      injection H as <- ->. exact (IH _ _ _ _ name E).
    + destruct (unmarshalValue elem (Some n) (zero elem)) as [x err] eqn:E.
      injection H as <- ->. exact (IH _ _ _ _ name E).
  - intros fs IH [n|] v r e name H; [|discriminate].
    cbn [unmarshalValue textual] in *.
    destruct (IH _ _ _ _ H) as [He Ht]. split; [|assumption].
    cbn [fieldFailure]. destruct e; try discriminate; assumption.
  - intros k [n|] v r e name H; [|discriminate].
    cbn [unmarshalValue] in H. injection H as <- <-. split; reflexivity.
  - intros node v r e H. discriminate.
  - intros info t IHt rest IHrest node v r e H.
    cbn [valuesOf] in v. destruct v as [field others].
    cbn [unmarshalFields textualFields] in *.
    destruct (negb (exported info) || isEmpty (tag info)).
    + destruct (unmarshalFields rest node others) as [others' err] eqn:E.
      injection H as <- ->. destruct (IHrest _ _ _ _ E) as [He ->].
      cbn [orb andb]. auto.
    + cbn [orb]. cbv zeta in H.
      destruct (unmarshalValue t (Get (Some node) (tag info)) field)
        as [field' [err|]] eqn:E.
      * injection H as <- <-.
        destruct (IHt _ _ _ _ (fieldName info) E) as [He ->].
        split; [exact He|reflexivity].
      * destruct (unmarshalFields rest node others) as [others' err] eqn:E'.
        injection H as <- ->. destruct (IHrest _ _ _ _ E') as [He ->].
        rewrite andb_false_r. auto.
Qed.

(** X24. The errors of [Unmarshal].  An error of [Parse] is returned
    before the value is looked at, and the value is left as it was.
    After [Parse] succeeded, an error for a pointer to a struct is that
    of a value that does not parse as a number, or of a kind that is not
    supported, under the names of the fields that lead to it; there is
    none when the fields that are looked at hold only strings, booleans,
    and pointers to and structs of these. *)
Theorem Unmarshal_errors (data : gostring) (fs : Fields) (v : valuesOf fs) :
  (forall pe, Parse data = Err pe ->
              forall t (w : valueOf t),
                Unmarshal data t w = (w, Some (ParseError pe)))
  /\ (forall r e,
        Unmarshal data (TPtr (TStruct fs)) (Some v) = (r, Some e) ->
        (exists pe, Parse data = Err pe /\ e = ParseError pe /\ r = Some v)
        \/ ((exists doc, Parse data = Ok doc)
            /\ fieldFailure e = true /\ textualFields fs = false))
  /\ (textualFields fs = true ->
      (exists doc, Parse data = Ok doc) ->
      exists r, Unmarshal data (TPtr (TStruct fs)) (Some v) = (Some r, None)).
Proof.
  split; [|split].
  - intros pe Hparse t w. unfold Unmarshal. rewrite Hparse. reflexivity.
  - intros r e H. unfold Unmarshal in H.
    pose proof (Parse_total data) as Htotal.
    destruct (Parse data) as [doc|pe|]; [|left|congruence].
    + right. split; [eauto|]. unfold unmarshalNode in H.
      destruct (Root doc) as [root|]; [|discriminate].
      destruct (unmarshalFields fs root v) as [x err] eqn:E.
      injection H as <- ->. exact (proj2 unmarshal_errors _ _ _ _ _ E).
    + injection H as <- <-. eauto.
  - intros Ht [doc Hparse]. unfold Unmarshal. rewrite Hparse.
    unfold unmarshalNode. destruct (Root doc) as [root|]; [|eauto].
    destruct (unmarshalFields fs root v) as [x [err|]] eqn:E; [|eauto].
    destruct (proj2 unmarshal_errors _ _ _ _ _ E) as [_ Hf]. congruence.
Qed.

End UnmarshalErrors.

Lemma Unmarshal_errors_witness :
  let fs := FCons (mkFieldInfo (lit "Title") true (lit "title")) TString
              (FCons (mkFieldInfo (lit "Draft") true (lit "draft")) TBool
                 FNil) in
  exists r,
    @Unmarshal noFloats (lit "title: Zelda" ++ [LF] ++ lit "draft: true" ++ [LF])
      (TPtr (TStruct fs)) (Some ([], (false, tt)))
    = (Some r, None).
Proof.
  intros fs.
  apply (proj2 (proj2 (@Unmarshal_errors noFloats _ fs ([], (false, tt))))).
  - reflexivity.
  - eexists. reflexivity.
Defined.

(** * Children of one name *)

Lemma findChild_first (l1 l2 : list Node) (c : Node) (g : gostring) :
  Name c = g -> ~ In g (namesOf l1) ->
  findChild (l1 ++ c :: l2) g = Some (length l1, c).
Proof.
  intros Hc. induction l1 as [|x l1 IH]; intros Hout.
  - cbn [app findChild length]. rewrite Hc, gostring_eqb_refl. reflexivity.
  - cbn [app findChild length namesOf In] in *.
    replace (gostring_eqb (Name x) g) with false
      by (symmetry; apply gostring_eqb_neq; tauto).
    rewrite IH by tauto. reflexivity.
Qed.

Lemma replaceAt_split (l1 l2 : list Node) (c c' : Node) :
  replaceAt (l1 ++ c :: l2) (length l1) c' = l1 ++ c' :: l2.
Proof. induction l1 as [|x l1 IH]; simpl; congruence. Qed.

(** X25. Children of one name.  Where several children of a node have
    the same name, as the parser allows, a path of that one name reaches
    the first of them: [Get] returns it, [Set] gives it the value and
    returns it, and leaves the others as they are, and [Remove] takes it
    out and leaves the others. *)
Theorem first_of_that_name (n : Node) (g : gostring) (l1 l2 : list Node)
    (c : Node) :
  g <> [] -> ~ In "/" g ->
  Children n = l1 ++ c :: l2 -> Name c = g -> ~ In g (namesOf l1) ->
  Get (Some n) g = Some c
  /\ (forall value,
        Set_ (Some n) g value
        = Some (withChildren n (l1 ++ withValue c value :: l2), [length l1]))
  /\ Remove (Some n) g = (Some (withChildren n (l1 ++ l2)), true).
Proof.
  intros Hne Hslash Hcs Hc Hout.
  pose proof (findChild_first l1 l2 c g Hc Hout) as Hfind.
  rewrite <- Hcs in Hfind.
  assert (Hempty : isEmpty g = false) by (destruct g; [congruence|reflexivity]).
  split; [|split].
  - cbn [Get]. rewrite Split_none by assumption. cbn [getParts].
    rewrite Hempty, Hfind. reflexivity.
  - intros value. cbn [Set_]. rewrite Split_none by assumption.
    cbn [length setParts]. rewrite Hempty. unfold foundOrNew.
    rewrite Hfind. cbn [Nat.sub Nat.eqb]. rewrite Hcs, replaceAt_split.
    reflexivity.
  - cbn [Remove]. rewrite Split_none by assumption. cbn [removeParts].
    rewrite Hfind, Hcs, removeAt_split. reflexivity.
Qed.

Lemma first_of_that_name_witness :
  let tree := mkNode [] []
                [mkNode (lit "A") (lit "1") [];
                 mkNode (lit "B") (lit "2") [];
                 mkNode (lit "B") (lit "3") []] in
  Get (Some tree) (lit "B") = Some (mkNode (lit "B") (lit "2") [])
  /\ Remove (Some tree) (lit "B")
     = (Some (mkNode [] []
                [mkNode (lit "A") (lit "1") [];
                 mkNode (lit "B") (lit "3") []]), true).
Proof.
  intros tree.
  destruct (first_of_that_name tree (lit "B")
              [mkNode (lit "A") (lit "1") []]
              [mkNode (lit "B") (lit "3") []]
              (mkNode (lit "B") (lit "2") []))
    as (Hget & _ & Hrem).
  - discriminate.
  - cbn [lit list_ascii_of_string In]. intuition discriminate.
  - reflexivity.
  - reflexivity.
  - cbn [namesOf Name In]. intuition discriminate.
  - split; [exact Hget|exact Hrem].
Defined.

(** * Tabs and spaces in the indentation *)

Section SameTail.
Variables l1 l2 : gostring.
Variable d : nat.
Hypothesis Hlen : length l2 = length l1.
Hypothesis Htail : skipn d l2 = skipn d l1.

Lemma tail_skipn (p : nat) : d <= p -> skipn p l2 = skipn p l1.
Proof.
  intros H. replace p with ((p - d) + d) by lia.
  rewrite <- !skipn_skipn, Htail. reflexivity.
Qed.

Lemma tail_nth (p : nat) : d <= p -> nth_error l2 p = nth_error l1 p.
Proof.
  intros H. rewrite <- !hd_error_skipn, tail_skipn by assumption.
  reflexivity.
Qed.

Lemma tail_scan (f : ascii -> bool) (p : nat) :
  d <= p -> scanWhile f l2 p = scanWhile f l1 p.
Proof. intros H. unfold scanWhile. rewrite tail_skipn by assumption. reflexivity. Qed.

Lemma tail_scanComment (p : nat) :
  d <= p -> scanComment l2 p = scanComment l1 p.
Proof.
  intros H. unfold scanComment. rewrite tail_skipn by assumption.
  reflexivity.
Qed.

Lemma tail_slice (a b : nat) : d <= a -> slice l2 a b = slice l1 a b.
Proof. intros H. unfold slice. rewrite tail_skipn by assumption. reflexivity. Qed.

Lemma tail_parseValue (p : nat) :
  d <= p -> parseValue l2 p = relabel l2 (parseValue l1 p).
Proof.
  intros H. unfold parseValue. rewrite (tail_nth p H).
  destruct (nth_error l1 p) as [c|]; [|reflexivity].
  destruct (byte_eqb c ":").
  - cbv zeta. rewrite (tail_nth (S p)) by lia.
    destruct (nth_error l1 (S p)) as [c'|]; [destruct (byte_eqb c' " ")|];
      rewrite tail_scanComment, tail_slice by lia; reflexivity.
  - destruct (byte_eqb c "="); [|reflexivity].
    rewrite (tail_nth (S p)) by lia.
    destruct (nth_error l1 (S p)) as [q|]; [|reflexivity].
    destruct (byte_eqb q QUOTE); cbv zeta.
    + rewrite tail_scan, tail_slice, Hlen by lia.
      match goal with |- context [if ?b then _ else _] => destruct b end;
        reflexivity.
    + rewrite tail_scan, tail_slice by lia. reflexivity.
Qed.

Lemma tail_parseAttrs (fuel : nat) :
  forall p children,
    d <= p ->
    parseAttrs fuel l2 p children = relabel l2 (parseAttrs fuel l1 p children).
Proof.
  induction fuel as [|fuel IH]; intros p children H; [reflexivity|].
  cbn [parseAttrs]. rewrite Hlen.
  destruct (length l1 <=? p); [reflexivity|].
  rewrite (tail_scan _ p H).
  set (p1 := scanWhile (fun c => byte_eqb c " ") l1 p).
  assert (H1 : d <= p1) by (unfold p1, scanWhile; lia).
  destruct (length l1 <=? p1); [reflexivity|].
  rewrite (tail_slice p1 (p1 + 2) H1).
  destruct ((S p1 <? length l1)
            && gostring_eqb (slice l1 p1 (p1 + 2)) ["/"; "/"]);
    [reflexivity|].
  rewrite (tail_scan _ p1 H1).
  set (p2 := scanWhile isValidNameChar l1 p1).
  assert (H2 : d <= p2) by (unfold p2, scanWhile; lia).
  destruct (p2 =? p1); [reflexivity|].
  rewrite (tail_slice p1 p2 H1).
  destruct (p2 <? length l1).
  - rewrite (tail_parseValue p2 H2).
    destruct (parseValue_cases l1 p2) as [(v & q & -> & Hq)| ->].
    + cbn [relabel bind]. apply IH. lia.
    + reflexivity.
  - cbn [bind]. apply IH. assumption.
Qed.

End SameTail.

Lemma readDepth_le (line : gostring) : readDepth line <= length line.
Proof. apply span_le. Qed.

Lemma sameText_length (l1 l2 : gostring) :
  sameText l1 l2 -> length l2 = length l1.
Proof.
  intros [Hd Ht].
  pose proof (readDepth_le l1). pose proof (readDepth_le l2).
  pose proof (f_equal (@length ascii) Ht) as Hl.
  rewrite !length_skipn in Hl. lia.
Qed.

Lemma sameText_parseHead (l1 l2 : gostring) :
  sameText l1 l2 ->
  parseHead l2 (readDepth l2) = relabel l2 (parseHead l1 (readDepth l1)).
Proof.
  intros Hsame. pose proof (sameText_length l1 l2 Hsame) as Hlen.
  destruct Hsame as [Hd Ht]. rewrite <- Hd in *.
  set (d := readDepth l1) in *. symmetry in Ht.
  unfold parseHead.
  rewrite (tail_scan l1 l2 d Hlen Ht isValidNameChar d) by lia.
  set (p := scanWhile isValidNameChar l1 d).
  assert (Hp : d <= p) by (unfold p, scanWhile; lia).
  destruct (p =? d); [reflexivity|].
  rewrite (tail_slice l1 l2 d Hlen Ht d p) by lia. rewrite Hlen.
  assert (Hattrs : forall q cs,
            d <= q ->
            parseAttrs (S (length l1)) l2 q cs
            = relabel l2 (parseAttrs (S (length l1)) l1 q cs)).
  { intros q cs Hq. apply tail_parseAttrs with (d := d); assumption. }
  destruct (p <? length l1).
  - rewrite (tail_parseValue l1 l2 d Hlen Ht p Hp).
    destruct (parseValue_cases l1 p) as [(v & q & -> & Hq)| ->];
      [|reflexivity].
    cbn [relabel bind]. rewrite Hattrs by lia.
    destruct (parseAttrs_cases (S (length l1)) l1 q [] ltac:(lia))
      as [[cs ->]| ->]; reflexivity.
  - cbn [bind]. rewrite Hattrs by lia.
    destruct (parseAttrs_cases (S (length l1)) l1 p [] ltac:(lia))
      as [[cs ->]| ->]; reflexivity.
Qed.

Lemma Forall2_nth {A} (R : A -> A -> Prop) (xs ys : list A) (i : nat) :
  Forall2 R xs ys ->
  match nth_error xs i, nth_error ys i with
  | Some a, Some b => R a b
  | None, None => True
  | _, _ => False
  end.
Proof.
  intros H. revert i. induction H as [|x y xs ys Hxy _ IH]; intros [|i];
    simpl; auto.
  apply IH.
Qed.

Lemma sameResult_refl {A} (r : result A) :
  match r with Err _ => False | _ => True end -> sameResult r r.
Proof. destruct r; simpl; tauto. Qed.

Lemma same_parse (ls1 ls2 : list gostring) (fuel : nat) :
  Forall2 sameText ls1 ls2 ->
  (forall index pd,
      sameResult (parseNode fuel ls1 index pd) (parseNode fuel ls2 index pd))
  /\ (forall index depth node,
        sameResult (parseChildren fuel ls1 index depth node)
                   (parseChildren fuel ls2 index depth node)).
Proof.
  intros Hall. induction fuel as [|fuel [IHn IHc]]; [split; intros; exact I|].
  split.
  - intros index pd. rewrite !parseNode_S.
    pose proof (Forall2_nth _ _ _ index Hall) as Hnth.
    destruct (nth_error ls1 index) as [l1|], (nth_error ls2 index) as [l2|];
      try contradiction; [|exact I].
    pose proof (sameText_parseHead l1 l2 Hnth) as Hhead.
    pose proof Hnth as [Hd _]. rewrite <- Hd in *.
    destruct ((Z.of_nat (readDepth l1) <=? pd)%Z && (0 <=? pd)%Z);
      [exact Hnth|].
    rewrite Hhead.
    destruct (parseHead_cases l1 (readDepth l1)) as [[node ->]|[-> | ->]];
      cbn [relabel bind]; [apply IHc|exact Hnth|exact Hnth].
  - intros index depth node. rewrite !parseChildren_S.
    pose proof (Forall2_nth _ _ _ index Hall) as Hnth.
    destruct (nth_error ls1 index) as [l1|], (nth_error ls2 index) as [l2|];
      try contradiction; [|reflexivity].
    pose proof Hnth as [Hd Ht]. rewrite <- Hd in *.
    destruct (readDepth l1 <=? depth); [reflexivity|].
    rewrite !TrimLeft_indent, <- Hd, <- Ht.
    destruct (HasPrefix (skipn (readDepth l1) l1) [":"]); [apply IHc|].
    specialize (IHn index (Z.of_nat depth)).
    destruct (parseNode fuel ls1 index (Z.of_nat depth)) as [[c1 i1]|e1|],
             (parseNode fuel ls2 index (Z.of_nat depth)) as [[c2 i2]|e2|];
      cbn [sameResult] in IHn; try contradiction; cbn [bind].
    + injection IHn as <- <-. apply IHc.
    + exact IHn.
    + exact I.
Qed.

Lemma same_parseTop (ls1 ls2 : list gostring) :
  Forall2 sameText ls1 ls2 ->
  forall fuel index root,
    sameResult (parseTop fuel ls1 index root) (parseTop fuel ls2 index root).
Proof.
  intros Hall. pose proof (Forall2_length Hall) as Hlen.
  induction fuel as [|fuel IH]; intros index root; [exact I|].
  rewrite !parseTop_S, <- Hlen.
  destruct (index <? length ls1); [|reflexivity].
  pose proof (proj1 (same_parse ls1 ls2 fuel Hall) index (-1)%Z) as Hn.
  destruct (parseNode fuel ls1 index (-1)%Z) as [[c1 i1]|e1|],
           (parseNode fuel ls2 index (-1)%Z) as [[c2 i2]|e2|];
    cbn [sameResult] in Hn; try contradiction; cbn [bind].
  - injection Hn as <- <-. apply IH.
  - exact Hn.
  - exact I.
Qed.

Lemma trimLeftSpace_indent (line : gostring) :
  trimLeftSpace line = trimLeftSpace (skipn (readDepth line) line).
Proof.
  unfold readDepth. induction line as [|c line IH]; [reflexivity|].
  cbn [span]. destruct (isIndent c) eqn:E; [|reflexivity].
  cbn [skipn trimLeftSpace]. rewrite (isIndent_asciiSpace c E). exact IH.
Qed.

Lemma sameText_keepLine (l1 l2 : gostring) :
  sameText l1 l2 -> keepLine l1 = keepLine l2.
Proof.
  intros [Hd Ht]. unfold keepLine, isBlank, isCommentLine, TrimSpace.
  rewrite (trimLeftSpace_indent l1), (trimLeftSpace_indent l2), Ht.
  reflexivity.
Qed.

Lemma sameText_filter (ls1 ls2 : list gostring) :
  Forall2 sameText ls1 ls2 ->
  Forall2 sameText (filter keepLine ls1) (filter keepLine ls2).
Proof.
  induction 1 as [|l1 l2 ls1 ls2 H _ IH]; [constructor|].
  cbn [filter]. rewrite <- (sameText_keepLine l1 l2 H).
  destruct (keepLine l1); [constructor|]; assumption.
Qed.

Lemma sameText_spacesFor (line : gostring) : sameText line (spacesFor line).
Proof.
  assert (Hd : readDepth (spacesFor line) = readDepth line).
  { unfold spacesFor. rewrite readDepth_indent.
    - apply repeat_length.
    - apply forallb_forall. intros c Hc. apply repeat_spec in Hc.
      subst c. reflexivity.
    - apply (span_split isIndent line). }
  split; [symmetry; exact Hd|].
  rewrite Hd. unfold spacesFor.
  pose proof (skipn_at (repeat " " (readDepth line))
                (skipn (readDepth line) line)) as H.
  rewrite repeat_length in H. symmetry. exact H.
Qed.

Lemma spacesFor_clean (line : gostring) :
  cleanLine line = true -> cleanLine (spacesFor line) = true.
Proof.
  intros H. apply cleanLine_spec in H. apply cleanLine_spec.
  assert (Hin : forall c, In c (spacesFor line) -> c = " " \/ In c line).
  { intros c Hc. unfold spacesFor in Hc. apply in_app_iff in Hc.
    destruct Hc as [Hc|Hc]; [left; eapply repeat_spec; eassumption|].
    right. eapply In_skipn. eassumption. }
  split; intros Hc; apply Hin in Hc; destruct Hc as [Hc|Hc];
    try discriminate; tauto.
Qed.

Lemma same_Parse (raw1 raw2 : list gostring) :
  Forall (fun l => cleanLine l = true) raw1 ->
  Forall (fun l => cleanLine l = true) raw2 ->
  Forall2 sameText raw1 raw2 ->
  sameResult (Parse (unlines raw1)) (Parse (unlines raw2)).
Proof.
  intros Hc1 Hc2 Hall.
  unfold Parse. rewrite !normalizeLines_raw by assumption.
  pose proof (sameText_filter raw1 raw2 Hall) as Hf.
  pose proof (Forall2_length Hf) as Hlen. rewrite <- Hlen.
  destruct (length (filter keepLine raw1) =? 0); [reflexivity|].
  pose proof (same_parseTop _ _ Hf
                (2 * length (filter keepLine raw1) + 1) 0 emptyNode) as Ht.
  destruct (parseTop _ (filter keepLine raw1) 0 emptyNode) as [r1|e1|],
           (parseTop _ (filter keepLine raw2) 0 emptyNode) as [r2|e2|];
    cbn [sameResult] in Ht; try contradiction; cbn [bind sameResult].
  - congruence.
  - exact Ht.
  - exact I.
Qed.

(** X26. Tabs and spaces in the indentation.  Only the number of
    tabs and spaces before the text of a line counts, each for one: two
    texts whose lines differ in the bytes of their indentation alone
    give the same document, or the same error on the corresponding line;
    so the indentation can be rewritten with spaces. *)
Theorem indentation_bytes (raw1 raw2 : list gostring) :
  Forall (fun l => cleanLine l = true) raw1 ->
  Forall (fun l => cleanLine l = true) raw2 ->
  Forall2 sameText raw1 raw2 ->
  sameResult (Parse (unlines raw1)) (Parse (unlines raw2))
  /\ (forall doc,
        Parse (unlines raw1) = Ok doc <-> Parse (unlines raw2) = Ok doc)
  /\ sameResult (Parse (unlines raw1)) (Parse (unlines (map spacesFor raw1))).
Proof.
  intros Hc1 Hc2 Hall.
  pose proof (same_Parse raw1 raw2 Hc1 Hc2 Hall) as Hsame.
  split; [exact Hsame|]. split.
  - intros doc.
    destruct (Parse (unlines raw1)) as [d1|e1|],
             (Parse (unlines raw2)) as [d2|e2|];
      cbn [sameResult] in Hsame; try contradiction;
      split; intros H; try discriminate; congruence.
  - apply same_Parse; [assumption| |].
    + apply Forall_forall. intros l Hl. apply in_map_iff in Hl.
      destruct Hl as (l0 & <- & Hl0). apply spacesFor_clean.
      rewrite Forall_forall in Hc1. auto.
    + clear. induction raw1 as [|l ls IH]; constructor;
        [apply sameText_spacesFor|exact IH].
Qed.

Lemma indentation_bytes_witness :
  Parse (lit "Video" ++ [LF] ++ TAB :: lit "Driver: Metal" ++ [LF]
         ++ TAB :: " " :: lit "Option" ++ [LF])
  = Ok (mkDocument (Some (mkNode [] []
          [mkNode (lit "Video") []
             [mkNode (lit "Driver") (lit "Metal")
                [mkNode (lit "Option") [] []]]])))
  <-> Parse (lit "Video" ++ [LF] ++ lit " Driver: Metal" ++ [LF]
             ++ lit "  Option" ++ [LF])
      = Ok (mkDocument (Some (mkNode [] []
              [mkNode (lit "Video") []
                 [mkNode (lit "Driver") (lit "Metal")
                    [mkNode (lit "Option") [] []]]]))).
Proof.
  apply (proj1 (proj2 (indentation_bytes
                  [lit "Video"; TAB :: lit "Driver: Metal";
                   TAB :: " " :: lit "Option"]
                  [lit "Video"; lit " Driver: Metal"; lit "  Option"]
                  ltac:(repeat constructor) ltac:(repeat constructor)
                  ltac:(repeat constructor)))).
Defined.

(** * The lines that [Parse] sees *)

(** X27. The normal form of an input.  Whatever the input, with any
    line endings, blank lines and comment lines, its normalized lines
    hold no carriage return and no newline, none is blank or a comment
    line, and the text made of them, each followed by a newline, has the
    same normalized lines and the same result of [Parse]. *)
Theorem normal_form (data : gostring) :
  Forall (fun l => cleanLine l = true /\ keepLine l = true)
    (normalizeLines data)
  /\ normalizeLines (unlines (normalizeLines data)) = normalizeLines data
  /\ Parse (unlines (normalizeLines data)) = Parse data.
Proof.
  pose proof (normalizeLines_clean data) as Hclean.
  pose proof (normalizeLines_keep data) as Hkeep.
  pose proof (normalizeLines_unlines _ Hclean Hkeep) as Hsame.
  split; [|split].
  - rewrite Forall_forall in *. auto.
  - exact Hsame.
  - unfold Parse. rewrite Hsame. reflexivity.
Qed.

(** * The nodes on the way *)

Lemma last_app_cons {A} (xs ys : list A) (d : A) :
  ys <> [] -> last (xs ++ ys) d = last ys d.
Proof.
  intros H. induction xs as [|x xs IH]; [reflexivity|].
  cbn [app]. destruct (xs ++ ys) eqn:E.
  - apply app_eq_nil in E. destruct E. congruence.
  - exact IH.
Qed.

(** X28. [Set] makes the way.  After [Set] of a path [p/q] that does
    not end in a slash, [Get] finds a node at [p], made by [Set] where
    there was none, and under it at [q] the node with the value. *)
Theorem Set_creates_path (n n' : Node) (p q value : gostring)
    (target : position) :
  lastPart q <> [] ->
  Set_ (Some n) (p ++ "/" :: q) value = Some (n', target) ->
  exists mid node,
    Get (Some n') p = Some mid
    /\ Get (Some mid) q = Some node
    /\ Value node = value
    /\ nodeAt n' target = Some node.
Proof.
  intros Hlast H.
  assert (Hlast' : lastPart (p ++ "/" :: q) <> []).
  { unfold lastPart in *. rewrite Split_app.
    rewrite last_app_cons by apply Split_not_nil. exact Hlast. }
  destruct (Set_then_Get _ _ _ _ _ Hlast' H) as (node & Hget & Hv & Hat).
  cbn [Get] in Hget. rewrite Split_app, getParts_app in Hget.
  destruct (getParts (Split p "/") n') as [mid|] eqn:E; [|discriminate].
  exists mid, node. cbn [Get]. auto.
Qed.

Lemma Set_creates_path_witness :
  exists mid node,
    Get (Some (mkNode [] []
                 [mkNode (lit "Video") []
                    [mkNode (lit "Driver") (lit "Metal") []]]))
      (lit "Video")
    = Some mid
    /\ Get (Some mid) (lit "Driver") = Some node
    /\ Value node = lit "Metal"
    /\ nodeAt (mkNode [] []
                 [mkNode (lit "Video") []
                    [mkNode (lit "Driver") (lit "Metal") []]]) [0; 0]
       = Some node.
Proof.
  apply (Set_creates_path emptyNode _ (lit "Video") (lit "Driver")
           (lit "Metal") [0; 0]).
  - discriminate.
  - reflexivity.
Defined.

(** * The text that [Serialize] writes *)

(** X29. What [Serialize] writes is in normal form.  For a tree whose
    nodes have names of name characters and values without carriage
    return that do not begin with a newline, the text of [Serialize] is
    made of lines that each end in a newline, hold no carriage return,
    and of which none is blank or a comment line: [normalizeLines] keeps
    them all as they are, so that [Parse] reads every line written. *)
Theorem Serialize_normal_form (children : list Node) :
  forallb wellFormed children = true ->
  let text := Serialize (Some (mkDocument (Some (mkNode [] [] children)))) in
  unlines (normalizeLines text) = text
  /\ ~ In CR text
  /\ length (normalizeLines text)
     = length (flat_map (fun child => serLines child 0) children).
Proof.
  intros Hwf text. unfold text. rewrite Serialize_lines. cbn [Children].
  set (lines := flat_map (fun child => serLines child 0) children).
  assert (Hclean : Forall (fun l => cleanLine l = true) lines
                   /\ Forall (fun l => keepLine l = true) lines).
  { unfold lines. induction children as [|c cs IH];
      [split; constructor|].
    cbn [forallb] in Hwf. apply andb_true_iff in Hwf.
    destruct Hwf as [Hc Hcs]. destruct (serLines_clean c Hc 0) as [H1 H2].
    destruct (IH Hcs) as [H3 H4]. cbn [flat_map].
    split; apply Forall_app; auto. }
  destruct Hclean as [Hclean Hkeep].
  rewrite (normalizeLines_unlines lines Hclean Hkeep).
  split; [reflexivity|]. split; [|reflexivity].
  intros H. apply In_unlines in H. destruct H as [H|(l & Hl & Hc)];
    [discriminate|].
  rewrite Forall_forall in Hclean. apply Hclean in Hl.
  apply cleanLine_spec in Hl. tauto.
Qed.

Lemma Serialize_normal_form_witness :
  let text := Serialize (Some (mkDocument (Some (mkNode [] []
                [mkNode (lit "Video") []
                   [mkNode (lit "Driver") (lit "Metal") []]])))) in
  unlines (normalizeLines text) = text.
Proof.
  exact (proj1 (Serialize_normal_form
                  [mkNode (lit "Video") []
                     [mkNode (lit "Driver") (lit "Metal") []]] eq_refl)).
Defined.

(** * Reading twice *)

Section UnmarshalTwice.
Context {F : Floats}.

Lemma unmarshal_twice :
  (forall t node (v : valueOf t),
      unmarshalValue t node (fst (unmarshalValue t node v))
      = unmarshalValue t node v)
  /\ (forall fs node (v : valuesOf fs),
        unmarshalFields fs node (fst (unmarshalFields fs node v))
        = unmarshalFields fs node v).
Proof.
  apply GoType_Fields_ind.
  - intros [n|] v; reflexivity.
  - intros [n|] v; reflexivity.
  - intros k [n|] v; [|reflexivity]. cbn [unmarshalValue]. cbv zeta.
    destruct (isEmpty (TrimSpace (Value n))); [reflexivity|].
    destruct (ParseInt (TrimSpace (Value n))); reflexivity.
  - intros k [n|] v; [|reflexivity]. cbn [unmarshalValue]. cbv zeta.
    destruct (isEmpty (TrimSpace (Value n))); [reflexivity|].
    destruct (ParseUint (TrimSpace (Value n))); reflexivity.
  - intros [|] [n|] v; try reflexivity; cbn [unmarshalValue]; cbv zeta;
      (destruct (isEmpty (TrimSpace (Value n))); [reflexivity|]);
      destruct (ParseFloat64 (TrimSpace (Value n))); reflexivity.
  - intros elem IH [n|] v; [|reflexivity].
    cbn [valueOf] in v. cbn [unmarshalValue]. cbv zeta.
    destruct v as [x0|].
    + specialize (IH (Some n) x0).
      destruct (unmarshalValue elem (Some n) x0) as [x err].
      cbn [fst] in *. rewrite IH. reflexivity.
    + specialize (IH (Some n) (zero elem)).
      destruct (unmarshalValue elem (Some n) (zero elem)) as [x err].
      cbn [fst] in *. rewrite IH. reflexivity.
  - intros fs IH [n|] v; [|reflexivity]. cbn [unmarshalValue]. apply IH.
  - intros k [n|] v; reflexivity.
  - intros node v. reflexivity.
  - intros info t IHt rest IHrest node v.
    cbn [valuesOf] in v. destruct v as [field others].
    cbn [unmarshalFields].
    destruct (negb (exported info) || isEmpty (tag info)) eqn:Eskip.
    + specialize (IHrest node others).
      destruct (unmarshalFields rest node others) as [others' err].
      cbn [fst] in *. rewrite IHrest. reflexivity.
    + cbv zeta.
      specialize (IHt (Get (Some node) (tag info)) field).
      destruct (unmarshalValue t (Get (Some node) (tag info)) field)
        as [field' [err|]]; cbn [fst] in *.
      * rewrite IHt. reflexivity.
      * specialize (IHrest node others).
        destruct (unmarshalFields rest node others) as [others' err].
        cbn [fst] in *. rewrite IHt, IHrest. reflexivity.
Qed.

(** X30. Reading twice.  [Unmarshal] of the same input into the
    struct that a first [Unmarshal] left, with what it wrote before an
    error if there was one, leaves it as it is and returns the same
    error or none. *)
Theorem Unmarshal_twice (data : gostring) (fs : Fields) (v : valuesOf fs) :
  Unmarshal data (TPtr (TStruct fs))
    (fst (Unmarshal data (TPtr (TStruct fs)) (Some v)))
  = Unmarshal data (TPtr (TStruct fs)) (Some v).
Proof.
  unfold Unmarshal. destruct (Parse data) as [doc|e|]; try reflexivity.
  unfold unmarshalNode. destruct (Root doc) as [root|]; [|reflexivity].
  pose proof (proj2 unmarshal_twice fs root v) as H.
  destruct (unmarshalFields fs root v) as [x err]. cbn [fst] in *.
  rewrite H. reflexivity.
Qed.

End UnmarshalTwice.

(** * The unclosed quote, anywhere on the line of a node *)

Lemma parseValue_written (pre : gostring) (w : Written) (rest : gostring) :
  validWritten w ->
  parseValue (pre ++ writtenText w ++ " " :: rest) (length pre)
  = Ok (writtenValue w, length (pre ++ writtenText w)).
Proof.
  intros Hw. destruct w as [|v|v]; cbn [writtenText writtenValue app].
  - unfold parseValue. rewrite nth_error_at, app_nil_r. reflexivity.
  - cbn [validWritten] in Hw.
    rewrite parseValue_unquoted; [| assumption | reflexivity |].
    + f_equal. f_equal. rewrite length_app. simpl. lia.
    + destruct v as [|c v]; [reflexivity|]. cbn [app HasPrefix].
      cbn [forallb] in Hw. apply andb_true_iff in Hw. destruct Hw as [Hc _].
      unfold unquotedByte in Hc. apply andb_true_iff in Hc.
      destruct Hc as [_ Hc]. apply negb_true_iff in Hc. rewrite Hc.
      reflexivity.
  - cbn [validWritten] in Hw.
    replace (pre ++ "=" :: QUOTE :: (v ++ [QUOTE]) ++ " " :: rest)
      with (pre ++ "=" :: QUOTE :: v ++ QUOTE :: " " :: rest)
      by (rewrite <- app_assoc; reflexivity).
    rewrite parseValue_quoted by assumption.
    f_equal. f_equal. rewrite length_app. simpl. rewrite length_app. simpl.
    lia.
Qed.

Lemma writtenText_stops (w : Written) (rest : gostring) :
  stopsAt isValidNameChar (writtenText w ++ " " :: rest).
Proof. destruct w; reflexivity. Qed.

Lemma items_begin (attrs : list (gostring * Written)) (rest : gostring) :
  exists more, flat_map attrItem attrs ++ " " :: rest = " " :: more.
Proof.
  destruct attrs as [|a attrs]; cbn [flat_map app]; [eauto|].
  unfold attrItem at 1. cbn [app]. eauto.
Qed.

Lemma parseAttrs_items (attrs : list (gostring * Written)) :
  Forall validItem attrs ->
  forall fuel pre children rest,
    parseAttrs (length attrs + fuel)
      (pre ++ flat_map attrItem attrs ++ " " :: rest) (length pre) children
    = parseAttrs fuel
        (pre ++ flat_map attrItem attrs ++ " " :: rest)
        (length (pre ++ flat_map attrItem attrs))
        (children ++ map itemNode attrs).
Proof.
  induction 1 as [|[n w] attrs [Hn Hw] _ IH]; intros fuel pre children rest.
  - cbn [flat_map map length Nat.add app]. rewrite !app_nil_r. reflexivity.
  - cbn [fst snd] in *.
    pose proof (validName_spec _ Hn) as [Hne Hchars].
    destruct (validName_first _ Hn) as (c & n0 & En & Hc).
    destruct (isValidNameChar_not c Hc) as (_ & Hsp & _ & _ & Hslash).
    destruct (items_begin attrs rest) as [more Hmore].
    cbn [flat_map length Nat.add]. rewrite <- app_assoc.
    unfold attrItem at 1 3. cbn [fst snd].
    set (tail := flat_map attrItem attrs ++ " " :: rest) in *.
    set (line := pre ++ (" " :: n ++ writtenText w) ++ tail).
    assert (Hline1 : line = pre ++ [" "] ++ n ++ writtenText w ++ tail).
    { unfold line. cbn [app]. rewrite <- app_assoc. reflexivity. }
    assert (Hline2 : line = (pre ++ [" "]) ++ n ++ writtenText w ++ tail).
    { rewrite Hline1. apply app_assoc. }
    assert (Hline3 : line = ((pre ++ [" "]) ++ n) ++ writtenText w ++ tail).
    { rewrite Hline2. apply app_assoc. }
    assert (Hline4 : line = (pre ++ " " :: n ++ writtenText w) ++ tail).
    { unfold line. rewrite <- app_assoc. reflexivity. }
    assert (Hlp : length (pre ++ [" "]) = length pre + 1)
      by (rewrite length_app; reflexivity).
    assert (Hlen : length line
                   = length pre + 1 + length n + length (writtenText w)
                     + length tail).
    { rewrite Hline1. rewrite !length_app. cbn [length]. lia. }
    assert (Hn1 : 0 < length n) by (rewrite En; simpl; lia).
    assert (Htail : 0 < length tail) by (rewrite Hmore; simpl; lia).
    cbn [parseAttrs].
    replace (length line <=? length pre) with false
      by (symmetry; apply Nat.leb_gt; lia).
    assert (Hs1 : scanWhile (fun c => byte_eqb c " ") line (length pre)
                  = length (pre ++ [" "])).
    { rewrite Hline1. rewrite scanWhile_run; [apply eq_sym, Hlp|reflexivity|].
      rewrite En. exact Hsp. }
    rewrite Hs1.
    replace (length line <=? length (pre ++ [" "])) with false
      by (symmetry; apply Nat.leb_gt; lia).
    assert (Hno : gostring_eqb
                    (slice line (length (pre ++ [" "]))
                       (length (pre ++ [" "]) + 2)) ["/"; "/"] = false).
    { rewrite Hline2, En. apply slice_two. exact Hslash. }
    rewrite Hno, andb_false_r.
    assert (Hs2 : scanWhile isValidNameChar line (length (pre ++ [" "]))
                  = length (pre ++ [" "]) + length n).
    { rewrite Hline2. apply scanWhile_run; [assumption|].
      rewrite Hmore. apply writtenText_stops. }
    rewrite Hs2.
    replace (length (pre ++ [" "]) + length n =? length (pre ++ [" "]))
      with false by (symmetry; apply Nat.eqb_neq; lia).
    assert (Hname : slice line (length (pre ++ [" "]))
                      (length (pre ++ [" "]) + length n) = n).
    { rewrite Hline2. apply slice_at. }
    rewrite Hname.
    replace (length (pre ++ [" "]) + length n <? length line) with true
      by (symmetry; apply Nat.ltb_lt; lia).
    assert (Hval : parseValue line (length (pre ++ [" "]) + length n)
                   = Ok (writtenValue w,
                         length (pre ++ " " :: n ++ writtenText w))).
    { rewrite Hline3, <- length_app. rewrite Hmore.
      rewrite parseValue_written by assumption.
      f_equal. f_equal. rewrite <- !app_assoc. reflexivity. }
    rewrite Hval. cbn [bind]. rewrite Hline4. unfold tail.
    rewrite IH. cbn [map]. unfold itemNode at 2. cbn [fst snd].
    rewrite <- !app_assoc. reflexivity.
Qed.

Lemma length_items (attrs : list (gostring * Written)) :
  length attrs <= length (flat_map attrItem attrs).
Proof.
  induction attrs as [|a attrs IH]; [reflexivity|].
  cbn [flat_map length]. rewrite length_app.
  assert (0 < length (attrItem a)) by (unfold attrItem; simpl; lia).
  lia.
Qed.

(** The unclosed quote in the value of an attribute, after any value of
    the node itself and any attributes before it. *)
Lemma parseHead_unclosed_later (indent name : gostring) (own : Written)
    (attrs : list (gostring * Written)) (sp attr body : gostring) :
  validName name = true -> validWritten own -> Forall validItem attrs ->
  sp <> [] -> forallb (fun c => byte_eqb c " ") sp = true ->
  attr <> [] -> forallb isValidNameChar attr = true ->
  ~ In QUOTE body ->
  parseHead
    (indent ++ name ++ writtenText own ++ flat_map attrItem attrs
     ++ sp ++ attr ++ "=" :: QUOTE :: body)
    (length indent)
  = Err (UnclosedQuote
           (indent ++ name ++ writtenText own ++ flat_map attrItem attrs
            ++ sp ++ attr ++ "=" :: QUOTE :: body)).
Proof.
  intros Hname Hown Hattrs Hsne Hsp Hane Hattr Hbody.
  pose proof (validName_spec _ Hname) as [Hne Hchars].
  assert (Hsp1 : exists sp', sp = " " :: sp').
  { destruct sp as [|c sp']; [congruence|]. simpl in Hsp.
    apply andb_true_iff in Hsp. destruct Hsp as [Hc _].
    apply byte_eqb_eq in Hc. subst c. eauto. }
  destruct Hsp1 as [sp' Hsp'].
  set (last := attr ++ "=" :: QUOTE :: body).
  set (line := indent ++ name ++ writtenText own ++ flat_map attrItem attrs
               ++ sp ++ last).
  destruct (items_begin attrs (sp' ++ last)) as [more Hmore].
  assert (Hrest : flat_map attrItem attrs ++ sp ++ last
                  = flat_map attrItem attrs ++ " " :: sp' ++ last)
    by (rewrite Hsp'; reflexivity).
  assert (Hscan : scanWhile isValidNameChar line (length indent)
                  = length indent + length name).
  { unfold line. apply scanWhile_run; [assumption|].
    rewrite Hrest, Hmore. apply writtenText_stops. }
  assert (Hslice : slice line (length indent) (length indent + length name)
                   = name)
    by (unfold line; apply slice_at).
  assert (Hlen : length indent + length name < length line).
  { unfold line. rewrite !length_app. rewrite Hsp'. simpl. lia. }
  unfold parseHead. fold last. fold line. rewrite Hscan.
  replace (length indent + length name =? length indent) with false
    by (symmetry; apply Nat.eqb_neq; destruct name; [congruence|simpl; lia]).
  rewrite Hslice.
  replace (length indent + length name <? length line) with true
    by (symmetry; apply Nat.ltb_lt; exact Hlen).
  assert (Hval : parseValue line (length indent + length name)
                 = Ok (writtenValue own,
                       length ((indent ++ name) ++ writtenText own))).
  { rewrite <- length_app. unfold line. rewrite Hrest, Hmore.
    rewrite app_assoc. apply parseValue_written. assumption. }
  rewrite Hval. cbn [bind].
  set (pre := (indent ++ name) ++ writtenText own).
  assert (Hline : line = pre ++ flat_map attrItem attrs ++ " " :: sp' ++ last).
  { unfold line, pre. rewrite Hrest, <- !app_assoc. reflexivity. }
  assert (Hfuel : exists k, S (length line) = length attrs + S k).
  { exists (length line - length attrs).
    pose proof (length_items attrs). rewrite Hline, !length_app. lia. }
  destruct Hfuel as [k ->]. rewrite Hline.
  rewrite (parseAttrs_items attrs Hattrs (S k) pre [] (sp' ++ last)).
  replace (pre ++ flat_map attrItem attrs ++ " " :: sp' ++ last)
    with ((pre ++ flat_map attrItem attrs) ++ sp ++ attr
          ++ "=" :: QUOTE :: body)
    by (rewrite Hsp', <- !app_assoc; reflexivity).
  rewrite parseAttrs_unclosed by assumption. reflexivity.
Qed.

(** C6. A value that begins with an equals sign and a double quote and
    has no closing quote on its line makes [parseValue] fail with
    [UnclosedQuote]; with a closing quote the value is the text between
    the quotes, byte for byte.  The error comes up at any turn of the
    attribute loop.  It is what [Parse] returns, alone, when the lines
    before the line parse, whatever the lines after: for the value of the
    node itself, and for the value of an attribute, whatever value the
    node has on the line, with or without quotes, and whatever attributes
    come before. *)
Theorem unclosed_quote :
  (forall pre body,
      ~ In QUOTE body ->
      parseValue (pre ++ "=" :: QUOTE :: body) (length pre)
      = Err (UnclosedQuote (pre ++ "=" :: QUOTE :: body)))
  /\ (forall pre body tail,
        ~ In QUOTE body ->
        parseValue (pre ++ "=" :: QUOTE :: body ++ QUOTE :: tail) (length pre)
        = Ok (body, length pre + length body + 3))
  /\ (forall fuel pre sp attr body children,
        forallb (fun c => byte_eqb c " ") sp = true ->
        attr <> [] -> forallb isValidNameChar attr = true ->
        ~ In QUOTE body ->
        parseAttrs (S fuel) (pre ++ sp ++ attr ++ "=" :: QUOTE :: body)
                   (length pre) children
        = Err (UnclosedQuote (pre ++ sp ++ attr ++ "=" :: QUOTE :: body)))
  /\ (forall data good rest root indent name body,
        normalizeLines data
        = good ++ (indent ++ name ++ "=" :: QUOTE :: body) :: rest ->
        parseTop (2 * length good + 1) good 0 emptyNode = Ok root ->
        forallb isIndent indent = true ->
        name <> [] -> forallb isValidNameChar name = true ->
        ~ In QUOTE body ->
        Parse data
        = Err (UnclosedQuote (indent ++ name ++ "=" :: QUOTE :: body)))
  /\ (forall data good rest root indent name own attrs sp attr body,
        normalizeLines data
        = good ++ (indent ++ name ++ writtenText own
                   ++ flat_map attrItem attrs
                   ++ sp ++ attr ++ "=" :: QUOTE :: body) :: rest ->
        parseTop (2 * length good + 1) good 0 emptyNode = Ok root ->
        forallb isIndent indent = true ->
        name <> [] -> forallb isValidNameChar name = true ->
        validWritten own -> Forall validItem attrs ->
        sp <> [] -> forallb (fun c => byte_eqb c " ") sp = true ->
        attr <> [] -> forallb isValidNameChar attr = true ->
        ~ In QUOTE body ->
        Parse data
        = Err (UnclosedQuote
                 (indent ++ name ++ writtenText own
                  ++ flat_map attrItem attrs
                  ++ sp ++ attr ++ "=" :: QUOTE :: body))).
Proof.
  split; [exact parseValue_unclosed|]. split; [exact parseValue_quoted|].
  split; [exact parseAttrs_unclosed|]. split.
  - intros data good rest root indent name body Hlines Hgood Hindent Hne Hname
      Hbody.
    destruct (name_line_no_continuation indent name ("=" :: QUOTE :: body)
                Hindent Hne Hname) as [Hdepth Hcont].
    eapply first_error_aborts; try eassumption.
    rewrite Hdepth. apply parseHead_unclosed_value; assumption.
  - intros data good rest root indent name own attrs sp attr body Hlines Hgood
      Hindent Hne Hname Hown Hattrs Hsne Hsp Hane Hattr Hbody.
    destruct (name_line_no_continuation indent name
                (writtenText own ++ flat_map attrItem attrs
                 ++ sp ++ attr ++ "=" :: QUOTE :: body) Hindent Hne Hname)
      as [Hdepth Hcont].
    eapply first_error_aborts; try eassumption.
    rewrite Hdepth. apply parseHead_unclosed_later; try assumption.
    unfold validName. rewrite Hname.
    destruct name; [congruence|reflexivity].
Qed.

Lemma unclosed_quote_witness :
  Parse (lit "Video" ++ [LF] ++ lit "  Driver=" ++ [QUOTE] ++ lit "Metal"
         ++ [LF] ++ lit "Audio")
  = Err (UnclosedQuote (lit "  Driver=" ++ [QUOTE] ++ lit "Metal"))
  /\ Parse (lit "Node attr=" ++ [QUOTE] ++ lit "unclosed")
     = Err (UnclosedQuote (lit "Node attr=" ++ [QUOTE] ++ lit "unclosed"))
  /\ Parse (lit "Video" ++ [LF]
            ++ lit "  Node=1 flag a=" ++ [QUOTE] ++ lit "b c" ++ [QUOTE]
            ++ lit " d=" ++ [QUOTE] ++ lit "x" ++ [LF] ++ lit "Audio")
     = Err (UnclosedQuote
              (lit "  Node=1 flag a=" ++ [QUOTE] ++ lit "b c" ++ [QUOTE]
               ++ lit " d=" ++ [QUOTE] ++ lit "x"))
  /\ parseValue (lit "Node=" ++ [QUOTE] ++ lit "Metal GPU" ++ [QUOTE]) 4
     = Ok (lit "Metal GPU", 16).
Proof.
  destruct unclosed_quote as (_ & Hquoted & _ & Hvalue & Hattr).
  split; [|split; [|split]].
  - apply (Hvalue _ [lit "Video"] [lit "Audio"]
             (mkNode [] [] [mkNode (lit "Video") [] []])
             (lit "  ") (lit "Driver") (lit "Metal"));
      try reflexivity; try discriminate.
    intros [H|[H|[H|[H|[H|[]]]]]]; discriminate.
  - apply (Hattr _ [] [] emptyNode [] (lit "Node") NoValue []
             (lit " ") (lit "attr") (lit "unclosed"));
      try reflexivity; try discriminate; try exact I; try constructor.
    intros [H|[H|[H|[H|[H|[H|[H|[H|[]]]]]]]]]; discriminate.
  - apply (Hattr _ [lit "Video"] [lit "Audio"]
             (mkNode [] [] [mkNode (lit "Video") [] []])
             (lit "  ") (lit "Node") (Unquoted (lit "1"))
             [(lit "flag", NoValue); (lit "a", Quoted (lit "b c"))]
             (lit " ") (lit "d") (lit "x"));
      try reflexivity; try discriminate.
    + repeat constructor; cbn [snd validWritten lit list_ascii_of_string In];
        intuition discriminate.
    + intros [H|[]]; discriminate.
  - apply (Hquoted (lit "Node") (lit "Metal GPU") []).
    intros [H|[H|[H|[H|[H|[H|[H|[H|[H|[]]]]]]]]]]; discriminate.
Defined.

(** * Where [Set] writes *)

Lemma findChild_before (children : list Node) (g : gostring) (k : nat)
    (child : Node) :
  findChild children g = Some (k, child) ->
  forall j c, j < k -> nth_error children j = Some c -> Name c <> g.
Proof.
  revert k. induction children as [|x cs IH]; intros k H; [discriminate|].
  cbn [findChild] in H. destruct (gostring_eqb (Name x) g) eqn:E.
  - injection H as <- <-. intros j c Hj. lia.
  - destruct (findChild cs g) as [[i f]|] eqn:F; [|discriminate].
    injection H as <- <-. intros [|j] c Hj Hc.
    + simpl in Hc. injection Hc as <-. apply gostring_eqb_neq. exact E.
    + simpl in Hc. eapply (IH i eq_refl j); [lia|exact Hc].
Qed.

Lemma findChild_of_first (children : list Node) (g : gostring) (k : nat)
    (child : Node) :
  nth_error children k = Some child -> Name child = g ->
  (forall j c, j < k -> nth_error children j = Some c -> Name c <> g) ->
  findChild children g = Some (k, child).
Proof.
  revert k. induction children as [|x cs IH]; intros [|k] Hnth Hname Hfirst;
    try discriminate.
  - simpl in Hnth. injection Hnth as ->. cbn [findChild].
    rewrite Hname, gostring_eqb_refl. reflexivity.
  - simpl in Hnth. cbn [findChild].
    replace (gostring_eqb (Name x) g) with false
      by (symmetry; apply gostring_eqb_neq; apply (Hfirst 0 x); [lia|reflexivity]).
    rewrite (IH k Hnth Hname); [reflexivity|].
    intros j c Hj Hc. apply (Hfirst (S j) c); [lia|exact Hc].
Qed.

Lemma leadsTo_step (n : Node) (seg : gostring) (segs : list gostring)
    (k : nat) (child : Node) (pos : position) :
  findChild (Children n) seg = Some (k, child) ->
  leadsTo segs child pos ->
  leadsTo (seg :: segs) n (k :: pos).
Proof.
  intros Hfind Hrest. cbn [leadsTo]. exists child.
  destruct (findChild_Some _ _ _ _ Hfind) as (Hnth & Hname & _).
  split; [assumption|]. split; [assumption|].
  split; [eapply findChild_before; eassumption|assumption].
Qed.

Lemma leadsTo_nil (n : Node) (pos : position) :
  leadsTo [] n pos -> pos = [].
Proof. destruct pos; [reflexivity|contradiction]. Qed.

Lemma setParts_leads (parts : list gostring) :
  forall i len value current current' target,
    i + length parts = len ->
    setParts parts i len value current = (current', target) ->
    leadsTo (filter nonEmpty parts) current' target.
Proof.
  induction parts as [|part parts IH];
    intros i len value current current' target Hidx Hset.
  - simpl in Hset. injection Hset as <- <-. exact I.
  - cbn [setParts filter] in *. unfold nonEmpty at 1. cbn [length] in Hidx.
    destruct (isEmpty part); cbn [negb];
      [eapply (IH (S i)); [|eassumption]; lia|].
    pose proof (foundOrNew_spec current part) as Hspec.
    destruct (foundOrNew current part) as [[k found] children].
    destruct Hspec as (_ & Hname & _ & Hfind).
    destruct (i =? len - 1) eqn:Elast.
    + injection Hset as <- <-. apply Nat.eqb_eq in Elast.
      assert (parts = []) by (destruct parts; [reflexivity|simpl in Hidx; lia]).
      subst parts. cbn [filter].
      apply leadsTo_step with (child := withValue found value); [|exact I].
      cbn [withChildren Children]. apply Hfind. destruct found. exact Hname.
    + pose proof (IH (S i) len value found) as IHf.
      pose proof (setParts_Name parts (S i) len value found) as Hn.
      destruct (setParts parts (S i) len value found) as [found' returned].
      injection Hset as <- <-. cbn [fst] in Hn.
      apply leadsTo_step with (child := found').
      * cbn [withChildren Children]. apply Hfind. congruence.
      * apply (IHf found' returned); [lia|reflexivity].
Qed.

Lemma setParts_same_target (parts : list gostring) :
  forall i len value current current' target t0,
    i + length parts = len ->
    setParts parts i len value current = (current', target) ->
    leadsTo (filter nonEmpty parts) current t0 ->
    target = t0.
Proof.
  induction parts as [|part parts IH];
    intros i len value current current' target t0 Hidx Hset Hlead.
  - simpl in Hset. injection Hset as <- <-. simpl in Hlead.
    symmetry. apply (leadsTo_nil current). exact Hlead.
  - cbn [setParts filter] in *. unfold nonEmpty at 1 in Hlead.
    cbn [length] in Hidx.
    destruct (isEmpty part); cbn [negb] in Hlead;
      [eapply (IH (S i)); [|eassumption|eassumption]; lia|].
    destruct t0 as [|k0 t0']; [contradiction|].
    cbn [leadsTo] in Hlead.
    destruct Hlead as (child & Hnth & Hname & Hfirst & Hrest).
    pose proof (findChild_of_first _ _ _ _ Hnth Hname Hfirst) as Hfind.
    unfold foundOrNew in Hset. rewrite Hfind in Hset.
    destruct (i =? len - 1) eqn:Elast.
    + injection Hset as <- <-. apply Nat.eqb_eq in Elast.
      assert (parts = []) by (destruct parts; [reflexivity|simpl in Hidx; lia]).
      subst parts. cbn [filter] in Hrest.
      rewrite (leadsTo_nil child t0' Hrest). reflexivity.
    + destruct (setParts parts (S i) len value child) as [found' returned]
        eqn:Hrec.
      injection Hset as <- <-. f_equal.
      eapply (IH (S i)); [|eassumption|eassumption]. lia.
Qed.

Lemma setParts_new_on_path (parts : list gostring) :
  forall i len value current current' target,
    setParts parts i len value current = (current', target) ->
    forall pos node',
      nodeAt current' pos = Some node' ->
      nodeAt current pos = None ->
      exists rest, target = pos ++ rest.
Proof.
  induction parts as [|part parts IH];
    intros i len value current current' target Hset pos node' Hat' Hnew.
  - simpl in Hset. injection Hset as <- <-. congruence.
  - cbn [setParts] in Hset.
    destruct (isEmpty part); [eapply IH; eassumption|].
    pose proof (foundOrNew_children current part) as Hfn.
    destruct (foundOrNew current part) as [[k found] children].
    assert (Hk : k < length children).
    { destruct Hfn as [(-> & ? & _)|(-> & -> & _)]; [lia|].
      rewrite length_app. simpl. lia. }
    destruct pos as [|j rest]; [simpl in Hnew; discriminate|].
    cbn [nodeAt] in Hnew.
    assert (Hother : forall c, j <> k ->
               nth_error (replaceAt children k c) j = None
               \/ exists c', nth_error (replaceAt children k c) j = Some c'
                             /\ nodeAt c' rest = None).
    { intros c Hjk. rewrite nth_error_replaceAt by assumption.
      apply Nat.eqb_neq in Hjk. rewrite Hjk.
      destruct (nth_error (Children current) j) as [c0|] eqn:Ej.
      - right. exists c0. split; [|assumption].
        destruct Hfn as [(-> & _)|(-> & _)]; [assumption|].
        rewrite nth_error_app1; [assumption|].
        apply nth_error_Some. congruence.
      - left. apply nth_error_None in Ej.
        destruct Hfn as [(-> & _)|(-> & -> & _)];
          [apply nth_error_None; assumption|].
        apply Nat.eqb_neq in Hjk.
        apply nth_error_None. rewrite length_app. simpl. lia. }
    destruct (i =? len - 1).
    + injection Hset as <- <-.
      cbn [nodeAt withChildren Children] in Hat'.
      destruct (Nat.eq_dec j k) as [->|Hjk].
      * rewrite nth_error_replaceAt, Nat.eqb_refl in Hat' by assumption.
        destruct Hfn as [(_ & _ & Hf)|(Hc & Hkl & Hf & _)].
        -- rewrite Hf in Hnew.
           destruct rest; simpl in *; congruence.
        -- subst found. destruct rest as [|j' rest].
           ++ exists []. reflexivity.
           ++ simpl in Hat'. destruct j'; discriminate.
      * destruct (Hother (withValue found value) Hjk) as [H|(c' & H & Hc')];
          rewrite H in Hat'; congruence.
    + destruct (setParts parts (S i) len value found) as [found' returned]
        eqn:Hrec.
      injection Hset as <- <-.
      cbn [nodeAt withChildren Children] in Hat'.
      destruct (Nat.eq_dec j k) as [->|Hjk].
      * rewrite nth_error_replaceAt, Nat.eqb_refl in Hat' by assumption.
        assert (Hin : nodeAt found rest = None ->
                      exists r, k :: returned = (k :: rest) ++ r).
        { intros Hnone.
          destruct (IH _ _ _ _ _ _ Hrec rest node' Hat' Hnone) as [r ->].
          exists r. reflexivity. }
        destruct Hfn as [(_ & _ & Hf)|(Hc & Hkl & Hf & _)].
        -- rewrite Hf in Hnew. auto.
        -- subst found. destruct rest as [|j' rest].
           ++ exists returned. reflexivity.
           ++ apply Hin. simpl. destruct j'; reflexivity.
      * destruct (Hother found' Hjk) as [H|(c' & H & Hc')];
          rewrite H in Hat'; congruence.
Qed.

Lemma setParts_trailing_value (parts : list gostring) :
  forall i len value current current' target,
    i + length parts = len -> last parts [] = [] ->
    setParts parts i len value current = (current', target) ->
    exists node',
      nodeAt current' target = Some node'
      /\ Value node' = match nodeAt current target with
                       | Some node => Value node
                       | None => []
                       end.
Proof.
  induction parts as [|part parts IH];
    intros i len value current current' target Hidx Hlast Hset.
  - simpl in Hset. injection Hset as <- <-. exists current. auto.
  - cbn [setParts] in Hset. cbn [length] in Hidx.
    assert (Hlast' : isEmpty part = false -> parts <> [] /\ last parts [] = []).
    { intros Hp. destruct parts as [|p ps].
      - simpl in Hlast. subst part. discriminate.
      - split; [discriminate|]. rewrite last_cons_cons in Hlast. exact Hlast. }
    destruct (isEmpty part) eqn:Ep.
    + apply (IH (S i) len value current); [lia| |assumption].
      destruct parts as [|p ps]; [reflexivity|].
      rewrite last_cons_cons in Hlast. exact Hlast.
    + destruct (Hlast' eq_refl) as [Hne Hl].
      pose proof (foundOrNew_children current part) as Hfn.
      destruct (foundOrNew current part) as [[k found] children].
      assert (Hk : k < length children).
      { destruct Hfn as [(-> & ? & _)|(-> & -> & _)]; [lia|].
        rewrite length_app. simpl. lia. }
      replace (i =? len - 1) with false in Hset
        by (symmetry; apply Nat.eqb_neq; destruct parts;
            [congruence|simpl in Hidx; lia]).
      destruct (setParts parts (S i) len value found) as [found' returned]
        eqn:Hrec.
      injection Hset as <- <-.
      destruct (IH (S i) len value found found' returned ltac:(lia) Hl Hrec)
        as (node' & Hat & Hv).
      exists node'. cbn [nodeAt withChildren Children].
      rewrite nth_error_replaceAt, Nat.eqb_refl by assumption.
      split; [exact Hat|]. rewrite Hv.
      destruct Hfn as [(_ & _ & Hf)|(Hc & Hkl & Hf & _)].
      * rewrite Hf. reflexivity.
      * subst found k.
        replace (nth_error (Children current) (length (Children current)))
          with (@None Node) by (symmetry; apply nth_error_None; lia).
        destruct returned as [|j r]; [reflexivity|].
        simpl. destruct j; reflexivity.
Qed.

(** C10. What [Set] does to the tree.  Every node that was there is
    still at its place, under its name; its value is the same unless it is
    the node that [Set] returns; its children are the same in number or
    one more, the old ones at their old places.  Every node that was not
    there is the last child of its parent, has at most one child, and has
    an empty value unless it is the node that [Set] returns.  The tree
    has one node more for each segment of the path that was missing.  The
    node that [Set] returns is the one that the segments of the path lead
    to, through the first child of each name, in the tree after the call,
    and in the tree before it when the path was there; every node that
    was not there is on the way to it.  Its value is the one given when
    the path does not end in a slash; when it does, the value is what it
    was, or empty for a new node, so that no value has changed. *)
Theorem Set_frame (n : Node) (path value : gostring) (n' : Node)
    (target : position) :
  Set_ (Some n) path value = Some (n', target) ->
  (forall pos node,
      nodeAt n pos = Some node ->
      exists node',
        nodeAt n' pos = Some node'
        /\ Name node' = Name node
        /\ (pos <> target -> Value node' = Value node)
        /\ length (Children node) <= length (Children node')
           <= S (length (Children node)))
  /\ (forall pos node',
        nodeAt n' pos = Some node' ->
        nodeAt n pos = None ->
        (pos <> target -> Value node' = [])
        /\ length (Children node') <= 1
        /\ (exists ppos k parent',
             pos = ppos ++ [k]
             /\ nodeAt n' ppos = Some parent'
             /\ length (Children parent') = S k)
        /\ exists rest, target = pos ++ rest)
  /\ countNodes n' = countNodes n + missingSegments (segments path) n
  /\ leadsTo (segments path) n' target
  /\ (forall t0, leadsTo (segments path) n t0 -> target = t0)
  /\ (lastPart path <> [] ->
      exists node', nodeAt n' target = Some node' /\ Value node' = value)
  /\ (lastPart path = [] ->
      exists node',
        nodeAt n' target = Some node'
        /\ Value node' = match nodeAt n target with
                         | Some node => Value node
                         | None => []
                         end).
Proof.
  intros Hset. pose proof Hset as H. unfold Set_ in H. injection H as H.
  split; [eapply setParts_keeps; eassumption|].
  split.
  { intros pos node' Hat' Hnew.
    destruct (setParts_new _ _ _ _ _ _ _ H pos node' Hat' Hnew)
      as (Hv & Hc & Hlast).
    split; [exact Hv|]. split; [exact Hc|]. split; [exact Hlast|].
    eapply setParts_new_on_path; eassumption. }
  split.
  { pose proof (setParts_count (Split path "/") 0 (length (Split path "/"))
                  value n eq_refl) as Hc.
    rewrite H in Hc. exact Hc. }
  split; [eapply (setParts_leads _ 0); [|eassumption]; reflexivity|].
  split.
  { intros t0 Ht0.
    eapply (setParts_same_target _ 0); [|eassumption|exact Ht0]. reflexivity. }
  split.
  - intros Hlast.
    destruct (Set_then_Get _ _ _ _ _ Hlast Hset) as (node & _ & Hv & Hat).
    eauto.
  - intros Hlast.
    eapply (setParts_trailing_value _ 0); [|exact Hlast|eassumption].
    reflexivity.
Qed.

Lemma Set_frame_witness :
  let t := mkNode [] [] [mkNode (lit "Video") [] [mkNode (lit "Mode") (lit "a") []]] in
  let t' := mkNode [] []
              [mkNode (lit "Video") []
                 [mkNode (lit "Mode") (lit "a") [];
                  mkNode (lit "Out") []
                    [mkNode (lit "Driver") (lit "Metal") []]]] in
  Set_ (Some t) (lit "Video//Out/Driver") (lit "Metal") = Some (t', [0; 1; 0])
  /\ countNodes t' = countNodes t + 2
  /\ leadsTo (segments (lit "Video//Out/Driver")) t' [0; 1; 0].
Proof.
  intros t t'.
  assert (H : Set_ (Some t) (lit "Video//Out/Driver") (lit "Metal")
              = Some (t', [0; 1; 0])) by reflexivity.
  split; [exact H|].
  destruct (Set_frame t (lit "Video//Out/Driver") (lit "Metal") t' [0; 1; 0] H)
    as (_ & _ & Hcount & Hlead & _).
  split; [exact Hcount|exact Hlead].
Defined.

(** * What [Remove] takes out *)

Lemma removeAt_without (children : list Node) (k : nat) :
  removeAt children k = without k children.
Proof.
  unfold removeAt. revert k.
  induction children as [|x cs IH]; intros [|k]; cbn [firstn skipn app without];
    try reflexivity.
  - f_equal. apply (IH k).
Qed.

Lemma replaceAt_changeAt (children : list Node) (k : nat) (c : Node)
    (f : Node -> Node) :
  nth_error children k = Some c ->
  replaceAt children k (f c) = changeAt k f children.
Proof.
  revert k. induction children as [|x cs IH]; intros [|k] H;
    try discriminate; simpl in *.
  - injection H as ->. reflexivity.
  - f_equal. apply IH. exact H.
Qed.

Lemma leadsTo_not_nil (segs : list gostring) (n : Node) (pos : position) :
  segs <> [] -> leadsTo segs n pos -> pos <> [].
Proof.
  intros Hs H. destruct segs; [congruence|]. destruct pos; [contradiction|].
  discriminate.
Qed.

Lemma pruned_cons (k : nat) (pos : position) (n : Node) :
  pos <> [] ->
  pruned (k :: pos) n
  = mkNode (Name n) (Value n) (changeAt k (pruned pos) (Children n)).
Proof. destruct pos; [congruence|reflexivity]. Qed.

Lemma removeParts_pruned (parts : list gostring) :
  forall current current',
    removeParts parts current = (current', true) ->
    exists t,
      leadsTo (filter nonEmpty (removelast parts) ++ [last parts []])
        current t
      /\ current' = pruned t current.
Proof.
  induction parts as [|part parts IH]; intros current current' H;
    [discriminate|].
  destruct parts as [|part' parts].
  - cbn [removeParts] in H.
    destruct (findChild (Children current) part) as [[i c]|] eqn:F;
      [|discriminate].
    injection H as <-. exists [i]. cbn [removelast filter app last]. split.
    + eapply leadsTo_step; [exact F|exact I].
    + cbn [pruned]. rewrite removeAt_without. destruct current. reflexivity.
  - rewrite removeParts_step in H.
    change (removelast (part :: part' :: parts))
      with (part :: removelast (part' :: parts)).
    rewrite last_cons_cons. cbn [filter]. unfold nonEmpty at 1.
    destruct (isEmpty part); cbn [negb]; [apply IH; exact H|].
    destruct (findChild (Children current) part) as [[k child]|] eqn:F;
      [|discriminate].
    destruct (removeParts (part' :: parts) child) as [child' removed] eqn:R.
    injection H as <- ->.
    destruct (IH child child' R) as (t & Hlead & ->).
    exists (k :: t). split.
    + cbn [app]. eapply leadsTo_step; eassumption.
    + rewrite pruned_cons.
      * destruct (findChild_Some _ _ _ _ F) as (Hnth & _ & _).
        rewrite (replaceAt_changeAt _ _ child) by assumption.
        destruct current. reflexivity.
      * eapply leadsTo_not_nil; [|exact Hlead].
        destruct (filter nonEmpty (removelast (part' :: parts)));
          discriminate.
Qed.

Lemma filter_removelast (parts : list gostring) :
  last parts [] <> [] ->
  filter nonEmpty (removelast parts) ++ [last parts []]
  = filter nonEmpty parts.
Proof.
  induction parts as [|part parts IH]; [simpl; congruence|].
  destruct parts as [|part' parts].
  - cbn [removelast last filter app]. intros H. unfold nonEmpty.
    destruct part; [congruence|reflexivity].
  - rewrite last_cons_cons. intros H.
    change (removelast (part :: part' :: parts))
      with (part :: removelast (part' :: parts)).
    cbn [filter]. destruct (nonEmpty part); cbn [app]; rewrite (IH H);
      reflexivity.
Qed.

(** X8. What [Remove] reports and what it takes out.  When it returns
    false the tree is as it was.  When it returns true, the tree is the
    one before without the subtree at one position, all the rest as it
    was, in its order: the position that the parts of the path before the
    last slash lead to, and then the text after the last slash, through
    the first child of each name.  For a path that does not end in a
    slash this is where the segments of the path lead, and [Remove]
    returns true exactly when [Get] finds a node at the path; the tree
    then has as many nodes less as that node has under it, itself
    included. *)
Theorem Remove_effect (n : Node) (path : gostring) (n' : option Node)
    (removed : bool) :
  Remove (Some n) path = (n', removed) ->
  (exists m, n' = Some m /\ Name m = Name n)
  /\ (removed = false -> n' = Some n)
  /\ (removed = true ->
      exists t,
        leadsTo (filter nonEmpty (removelast (Split path "/"))
                 ++ [lastPart path]) n t
        /\ n' = Some (pruned t n))
  /\ (lastPart path <> [] ->
      (removed = true <-> exists target, Get (Some n) path = Some target)
      /\ (removed = true ->
          exists t target,
            leadsTo (segments path) n t
            /\ nodeAt n t = Get (Some n) path
            /\ Get (Some n) path = Some target
            /\ n' = Some (pruned t n))
      /\ (forall target m,
            Get (Some n) path = Some target -> n' = Some m ->
            countNodes m + countNodes target = countNodes n)).
Proof.
  intros H.
  assert (Hpruned : removed = true ->
            exists t,
              leadsTo (filter nonEmpty (removelast (Split path "/"))
                       ++ [lastPart path]) n t
              /\ n' = Some (pruned t n)).
  { intros ->. unfold Remove in H.
    destruct (removeParts (Split path "/") n) as [m r] eqn:R.
    injection H as <- ->.
    destruct (removeParts_pruned _ _ _ R) as (t & Hlead & ->). eauto. }
  split; [|split; [|split; [exact Hpruned|]]].
  - unfold Remove in H.
    pose proof (removeParts_Name (Split path "/") n) as Hname.
    destruct (removeParts (Split path "/") n) as [m r].
    injection H as <- <-. eauto.
  - intros ->. unfold Remove in H.
    destruct (removeParts (Split path "/") n) as [m r] eqn:R.
    injection H as <- ->. apply removeParts_unchanged in R. congruence.
  - intros Hlast. rewrite Remove_segments in H by assumption.
    injection H as Hn' Hr. rewrite Get_segments.
    destruct (removeSegments (segments path) n) as [m r] eqn:R.
    destruct (removeSegments_found _ _ _ _
                (lastPart_nonEmpty_segments _ Hlast) R) as [Hiff Hcount].
    cbn [fst snd] in *. subst n' removed.
    split; [exact Hiff|]. split.
    + intros Hr. destruct (Hpruned Hr) as (t & Hlead & Ht).
      unfold lastPart in Hlead, Hlast.
      rewrite filter_removelast in Hlead by assumption.
      fold (segments path) in Hlead.
      destruct (proj1 Hiff Hr) as [target Htarget].
      exists t, target. split; [exact Hlead|].
      split; [|split; [exact Htarget|exact Ht]].
      rewrite Htarget. clear - Hlead Htarget.
      revert n t target Hlead Htarget.
      induction (segments path) as [|seg segs IH]; intros n t target Hlead Hget.
      * rewrite (leadsTo_nil n t Hlead). exact Hget.
      * destruct t as [|k t]; [contradiction|]. cbn [leadsTo] in Hlead.
        destruct Hlead as (child & Hnth & Hname & Hfirst & Hrest).
        cbn [getSegments] in Hget.
        rewrite (findChild_of_first _ _ _ _ Hnth Hname Hfirst) in Hget.
        cbn [nodeAt]. rewrite Hnth. apply IH; assumption.
    + intros target m' Ht Hm. injection Hm as <-. auto.
Qed.

Lemma Remove_effect_witness :
  let tree := mkNode [] []
                [mkNode (lit "Video") []
                   [mkNode (lit "Driver") (lit "Metal") [];
                    mkNode (lit "Scale") (lit "2") []];
                 mkNode (lit "Audio") [] []] in
  let tree' := mkNode [] []
                 [mkNode (lit "Video") []
                    [mkNode (lit "Scale") (lit "2") []];
                  mkNode (lit "Audio") [] []] in
  Remove (Some tree) (lit "Video/Driver") = (Some tree', true)
  /\ (exists target, Get (Some tree) (lit "Video/Driver") = Some target)
  /\ (exists t, Some tree' = Some (pruned t tree))
  /\ countNodes tree' + 1 = countNodes tree.
Proof.
  intros tree tree'.
  assert (H0 : Remove (Some tree) (lit "Video/Driver") = (Some tree', true))
    by reflexivity.
  split; [exact H0|].
  destruct (Remove_effect tree (lit "Video/Driver") (Some tree') true H0)
    as (_ & _ & Hp & H).
  destruct (H ltac:(discriminate)) as (Hiff & _ & Hcount).
  split; [apply Hiff; reflexivity|]. split.
  - destruct (Hp eq_refl) as (t & _ & Ht). exists t. exact Ht.
  - exact (Hcount (mkNode (lit "Driver") (lit "Metal") []) tree'
             eq_refl eq_refl).
Defined.
